(** * gonedice: a shallow embedding of the OneDice expression evaluator

    The development follows the Go source of package [gonedice]
    (lexer, token preprocessor, shunting-yard converter, ternary dispatcher,
    postfix evaluator, meta-tuple resolver) and states the properties of
    the specification over that embedding, then further properties of the
    code.  The percentile operators of the older file [gonedice.go] are
    modelled beside those of the package.

    Conventions of the embedding:
    - Go's [int] is the 64-bit two's-complement integer; values are kept in
      [Z] and every arithmetic result is passed through [GoInt.wrap].
    - Go strings are byte strings: [string] of [ascii].
      [strings.TrimSpace] strips the white space of [unicode.IsSpace], the
      runes above ASCII being recognised by their UTF-8 encodings.  Case
      mapping ([strings.ToLower], [strings.ToUpper]) is Go's on strings of
      ASCII bytes; the Unicode case tables are not modelled, and bytes
      above 127 are left untouched.
    - A nil slice and an empty slice differ where the source tests for nil:
      [Meta] is an [option (list Z)].
    - Maps are [gmap]s; a nil [ValueTable] is [None].
    - The random source is an interface ([RandSource]); the evaluator threads
      its state explicitly, in the order in which the source calls [Intn].
    - Loops whose trip count is not a structural argument and the recursion
      through nested expressions consume fuel; running out of fuel is the
      distinguished result [None], never an evaluation result. *)

From Stdlib Require Import ZArith Ascii String DecimalString Lia.
From Stdlib Require DecimalPos.
From stdpp Require Import base option list sorting gmap strings.

Local Open Scope Z_scope.

(** ** Go integers *)

Module GoInt.

Definition minInt : Z := - 2 ^ 63.
Definition maxInt : Z := 2 ^ 63 - 1.

Definition inRange (z : Z) : Prop := minInt <= z <= maxInt.

(** Two's-complement wrap-around of a mathematical integer. *)
Definition wrap (z : Z) : Z := (z + 2 ^ 63) mod 2 ^ 64 - 2 ^ 63.

Definition add (a b : Z) : Z := wrap (a + b).
Definition sub (a b : Z) : Z := wrap (a - b).
Definition mul (a b : Z) : Z := wrap (a * b).
Definition neg (a : Z) : Z := wrap (- a).

(** [a / b] for [b <> 0]: the quotient truncated toward zero; the single
    overflowing case [minInt / -1] wraps to [minInt]. *)
Definition quo (a b : Z) : Z := wrap (Z.quot a b).

(** [res := 1; for i := 0; i < b; i++ { res *= a }] *)
Definition pow (a b : Z) : Z := Z.iter b (fun res => mul res a) 1.

(** [s := 0; for _, v := range l { s += v }] *)
Definition sum (l : list Z) : Z := fold_left add l 0.

End GoInt.

(** ** Bytes and strings *)

Definition dquote : ascii := ascii_of_nat 34.
Definition bslash : ascii := ascii_of_nat 92.

Definition byte_in (lo hi : N) (c : ascii) : bool :=
  ((lo <=? N_of_ascii c) && (N_of_ascii c <=? hi))%N.

Definition isDigit (ch : ascii) : bool := byte_in 48 57 ch.
Definition isLowerAZ (ch : ascii) : bool := byte_in 97 122 ch.
Definition isUpperAZ (ch : ascii) : bool := byte_in 65 90 ch.
Definition isLetter (ch : ascii) : bool := isLowerAZ ch || isUpperAZ ch.

Definition eqc (a b : ascii) : bool := Ascii.eqb a b.
Definition eqs (a b : string) : bool := String.eqb a b.

Definition lowerByte (c : ascii) : ascii :=
  if isUpperAZ c then ascii_of_N (N_of_ascii c + 32) else c.
Definition upperByte (c : ascii) : ascii :=
  if isLowerAZ c then ascii_of_N (N_of_ascii c - 32) else c.

Fixpoint mapBytes (f : ascii -> ascii) (s : string) : string :=
  match s with
  | EmptyString => EmptyString
  | String c s' => String (f c) (mapBytes f s')
  end.

Definition ToLower : string -> string := mapBytes lowerByte.
Definition ToUpper : string -> string := mapBytes upperByte.

(** A byte below 128 is a rune of its own in UTF-8; on a string of such
    bytes Go's case mapping works byte by byte. *)
Definition isASCIIByte (c : ascii) : bool := (N_of_ascii c <? 128)%N.

Fixpoint isASCII (s : string) : bool :=
  match s with
  | EmptyString => true
  | String c s' => isASCIIByte c && isASCII s'
  end.

Definition isSpaceByte (c : ascii) : bool :=
  byte_in 9 13 c || eqc c " ".

Fixpoint trimLeft (p : ascii -> bool) (s : string) : string :=
  match s with
  | EmptyString => EmptyString
  | String c s' => if p c then trimLeft p s' else s
  end.

Fixpoint revBytes (s acc : string) : string :=
  match s with
  | EmptyString => acc
  | String c s' => revBytes s' (String c acc)
  end.

Definition trimRight (p : ascii -> bool) (s : string) : string :=
  revBytes (trimLeft p (revBytes s EmptyString)) EmptyString.

(** The white space of [unicode.IsSpace] above ASCII, by its UTF-8
    encoding: U+0085 and U+00A0 in two bytes; U+1680, U+2000 to U+200A,
    U+2028, U+2029, U+202F, U+205F and U+3000 in three. *)
Definition byteIs (n : N) (c : ascii) : bool := (N_of_ascii c =? n)%N.

Definition isSpace2 (c1 c2 : ascii) : bool :=
  byteIs 194 c1 && (byteIs 133 c2 || byteIs 160 c2).

Definition isSpace3 (c1 c2 c3 : ascii) : bool :=
  (byteIs 225 c1 && byteIs 154 c2 && byteIs 128 c3)
  || (byteIs 226 c1 && byteIs 128 c2
      && (byte_in 128 138 c3 || byteIs 168 c3 || byteIs 169 c3 || byteIs 175 c3))
  || (byteIs 226 c1 && byteIs 129 c2 && byteIs 159 c3)
  || (byteIs 227 c1 && byteIs 128 c2 && byteIs 128 c3).

(** Strip the runes at the front that are one byte satisfying [p1], two
    bytes satisfying [p2] or three bytes satisfying [p3]. *)
Fixpoint trimRunes (p1 : ascii -> bool) (p2 : ascii -> ascii -> bool)
    (p3 : ascii -> ascii -> ascii -> bool) (s : string) : string :=
  match s with
  | EmptyString => EmptyString
  | String c1 s1 =>
      if p1 c1 then trimRunes p1 p2 p3 s1
      else
        match s1 with
        | String c2 s2 =>
            if p2 c1 c2 then trimRunes p1 p2 p3 s2
            else
              match s2 with
              | String c3 s3 => if p3 c1 c2 c3 then trimRunes p1 p2 p3 s3 else s
              | EmptyString => s
              end
        | EmptyString => s
        end
  end.

(** [strings.TrimLeftFunc(s, unicode.IsSpace)]: runes are decoded from the
    front; a byte that starts no valid encoding is no white space. *)
Definition trimLeftSpace (s : string) : string :=
  trimRunes isSpaceByte isSpace2 isSpace3 s.

(** [strings.TrimRightFunc(s, unicode.IsSpace)]: the last rune is decoded
    from the nearest byte before the end that starts a rune, so the string
    ends in white space exactly when it ends in one of the encodings; the
    scan below runs over the reversed string. *)
Definition trimRightSpace (s : string) : string :=
  revBytes (trimRunes isSpaceByte (fun c1 c2 => isSpace2 c2 c1)
                      (fun c1 c2 c3 => isSpace3 c3 c2 c1)
                      (revBytes s EmptyString)) EmptyString.

(** [strings.TrimSpace] *)
Definition TrimSpace (s : string) : string :=
  trimRightSpace (trimLeftSpace s).

Definition isBrace (c : ascii) : bool := eqc c "{" || eqc c "}".

(** [strings.Trim(m, "{}")] *)
Definition TrimBraces (s : string) : string :=
  trimRight isBrace (trimLeft isBrace s).

Definition HasPrefixDollar (tok : string) : bool :=
  match tok with
  | String c _ => eqc c "$"
  | EmptyString => false
  end.

(** The longest prefix of bytes satisfying [p], and the rest. *)
Fixpoint spanBytes (p : ascii -> bool) (s : string) : string * string :=
  match s with
  | EmptyString => (EmptyString, EmptyString)
  | String c s' =>
      if p c then let '(a, b) := spanBytes p s' in (String c a, b)
      else (EmptyString, s)
  end.

Definition lastByte (s : string) : option ascii :=
  match revBytes s EmptyString with
  | String c _ => Some c
  | EmptyString => None
  end.

(** [tok[1 : len(tok)-1]] for [len(tok) >= 2]. *)
Definition stripEnds (tok : string) : string :=
  match tok with
  | String _ s' =>
      match revBytes s' EmptyString with
      | String _ r => revBytes r EmptyString
      | EmptyString => EmptyString
      end
  | EmptyString => EmptyString
  end.

(** [strings.ReplaceAll(tmpl, "{i}", rep)] *)
Fixpoint ReplaceAllI (tmpl rep : string) : string :=
  match tmpl with
  | String "{" (String "i" (String "}" rest)) => rep +:+ ReplaceAllI rest rep
  | String c rest => String c (ReplaceAllI rest rep)
  | EmptyString => EmptyString
  end.

Fixpoint JoinWith (sep : string) (l : list string) : string :=
  match l with
  | [] => EmptyString
  | [x] => x
  | x :: l' => x +:+ sep +:+ JoinWith sep l'
  end.

(** ** strconv *)

(** [strconv.Itoa] (and [fmt.Sprintf("%d", v)]). *)
Definition Itoa (z : Z) : string := NilZero.string_of_int (Z.to_int z).

Definition digitVal (c : ascii) : Z := Z.of_N (N_of_ascii c) - 48.

(** The digit loop of [strconv.Atoi]: [n = n*10 + int(ch)], a syntax error
    on any byte that is not a decimal digit. *)
Fixpoint atoiDigits (s : string) (n : Z) : option Z :=
  match s with
  | EmptyString => Some n
  | String c s' => if isDigit c then atoiDigits s' (n * 10 + digitVal c) else None
  end.

(** [strconv.Atoi]: an optional sign, at least one digit, nothing else; a
    value outside the range of [int] is a range error. *)
Definition Atoi (s : string) : option Z :=
  let signed (neg : bool) (ds : string) :=
    match ds with
    | EmptyString => None
    | _ =>
        match atoiDigits ds 0 with
        | Some n =>
            let v := if neg then - n else n in
            if (GoInt.minInt <=? v) && (v <=? GoInt.maxInt) then Some v else None
        | None => None
        end
    end in
  match s with
  | EmptyString => None
  | String c s' =>
      if eqc c "-" then signed true s'
      else if eqc c "+" then signed false s'
      else signed false s
  end.

Definition isInt (tok : string) : bool :=
  match Atoi tok with Some _ => true | None => false end.

(** ** Lexer *)

(** The body of a string literal, from the byte after the opening quote:
    a backslash copies the following byte verbatim; the literal ends at the
    first unescaped quote.  [None] is "unterminated string literal". *)
Fixpoint scanString (s : string) : option (string * string) :=
  match s with
  | EmptyString => None
  | String c s' =>
      if eqc c bslash then
        match s' with
        | String c2 s'' =>
            match scanString s'' with
            | Some (body, rest) => Some (String c2 body, rest)
            | None => None
            end
        | EmptyString => None
        end
      else if eqc c dquote then Some (EmptyString, s')
      else
        match scanString s' with
        | Some (body, rest) => Some (String c body, rest)
        | None => None
        end
  end.

(** A bracketed tuple, from its opening bracket: the raw text up to and
    including the bracket that brings [depth] back to zero.  Inside a nested
    string literal ([inStr]) brackets do not count and a backslash skips the
    next byte.  [None] is "unterminated bracketed tuple". *)
Fixpoint scanTuple (inStr : bool) (depth : Z) (s : string) : option (string * string) :=
  let keep (c : ascii) (r : option (string * string)) :=
    match r with
    | Some (body, rest) => Some (String c body, rest)
    | None => None
    end in
  match s with
  | EmptyString => None
  | String c s' =>
      if inStr then
        if eqc c bslash then
          match s' with
          | String c2 s'' => keep c (keep c2 (scanTuple true depth s''))
          | EmptyString => None
          end
        else if eqc c dquote then keep c (scanTuple false depth s')
        else keep c (scanTuple true depth s')
      else if eqc c "[" then keep c (scanTuple false (depth + 1) s')
      else if eqc c "]" then
        if depth - 1 =? 0 then Some (String c EmptyString, s')
        else keep c (scanTuple false (depth - 1) s')
      else if eqc c dquote then keep c (scanTuple true depth s')
      else keep c (scanTuple false depth s')
  end.

Definition isPunct (c : ascii) : bool :=
  eqc c "+" || eqc c "-" || eqc c "*" || eqc c "/" || eqc c "^" || eqc c "("
  || eqc c ")" || eqc c "," || eqc c "?" || eqc c ":" || eqc c "=" || eqc c "<"
  || eqc c ">" || eqc c "&" || eqc c "|" || eqc c "%".

Definition isBlank (c : ascii) : bool :=
  eqc c " " || eqc c (ascii_of_nat 9) || eqc c (ascii_of_nat 10).

Definition consTok (t : string) (r : option (list string)) : option (list string) :=
  match r with Some ts => Some (t :: ts) | None => None end.

(** The scanning loop of [tokenize].  Every iteration consumes at least one
    byte, so [String.length s] iterations suffice ([tokenizeLoop_enough]). *)
Fixpoint tokenizeLoop (fuel : nat) (s : string) : option (list string) :=
  match s with
  | EmptyString => Some []
  | String c s' =>
      match fuel with
      | O => None
      | S fuel' =>
          if isBlank c then tokenizeLoop fuel' s'
          else if eqc c dquote then
            match scanString s' with
            | Some (body, rest) =>
                consTok (String dquote (body +:+ String dquote EmptyString))
                        (tokenizeLoop fuel' rest)
            | None => None
            end
          else if isDigit c then
            let '(ds, rest) := spanBytes isDigit s' in
            consTok (String c ds) (tokenizeLoop fuel' rest)
          else if eqc c "[" then
            match scanTuple false 0 s with
            | Some (tup, rest) => consTok tup (tokenizeLoop fuel' rest)
            | None => None
            end
          else if isPunct c then
            consTok (String c EmptyString) (tokenizeLoop fuel' s')
          else if eqc c "$" then
            let '(w, rest) := spanBytes (fun b => isLetter b || isDigit b) s' in
            consTok (String c w) (tokenizeLoop fuel' rest)
          else if isLetter c then
            let '(w, rest) := spanBytes isLetter s' in
            consTok (String c w) (tokenizeLoop fuel' rest)
          else None
      end
  end.

(** [tokenize]: [None] is a lex error. *)
Definition tokenize (s : string) : option (list string) :=
  let s := TrimSpace s in
  tokenizeLoop (String.length s) s.

(** ** Operator table *)

Definition prec (op : string) : option Z :=
  if eqs op "|" then Some 2 else if eqs op "&" then Some 2
  else if eqs op "<" then Some 1 else if eqs op ">" then Some 1
  else if eqs op "+" then Some 3 else if eqs op "-" then Some 3
  else if eqs op "*" then Some 4 else if eqs op "/" then Some 4
  else if eqs op "^" then Some 5
  else if eqs op "d" then Some 7 else if eqs op "df" then Some 7
  else if eqs op "k" then Some 6 else if eqs op "q" then Some 6
  else if eqs op "a" then Some 7 else if eqs op "c" then Some 7
  else if eqs op "a_m" then Some 7 else if eqs op "c_m" then Some 7
  else if eqs op "b" then Some 7 else if eqs op "p" then Some 7
  else if eqs op "f" then Some 7
  else if eqs op "kh" then Some 6 else if eqs op "kl" then Some 6
  else if eqs op "dh" then Some 6 else if eqs op "dl" then Some 6
  else if eqs op "min" then Some 6 else if eqs op "max" then Some 6
  else if eqs op "sp" then Some 6 else if eqs op "tp" then Some 6
  else if eqs op "lp" then Some 6
  else if eqs op "?" then Some 8
  else if eqs op "=" then Some 9
  else None.

(** [prec[op]] as the source reads it: a missing key yields 0. *)
Definition precOf (op : string) : Z := default 0 (prec op).

Definition isLeftAssoc (op : string) : bool :=
  if eqs op "^" || eqs op "=" then false else true.

Definition isOperator (tok : string) : bool :=
  match prec tok with Some _ => true | None => false end.

(** ** Token preprocessor *)

Definition isDiceWord (low : string) : bool :=
  eqs low "d" || eqs low "b" || eqs low "p" || eqs low "f" || eqs low "df"
  || eqs low "a" || eqs low "c".

(** [needLeft]: nothing has been emitted yet, or the last emitted token is an
    operator, an opening parenthesis or a ternary marker. *)
Definition needLeft (out : list string) : bool :=
  match last out with
  | None => true
  | Some l => isOperator (ToLower l) || eqs l "(" || eqs l "?" || eqs l ":"
  end.

(** [needRight]: the input ends here, or the next input token is an operator,
    a closing parenthesis or a colon. *)
Definition needRight (rest : list string) : bool :=
  match rest with
  | [] => true
  | next :: _ => isOperator (ToLower next) || eqs next ")" || eqs next ":"
  end.

Definition leftDefault (low : string) : list string :=
  if eqs low "d" then ["1"%string]
  else if eqs low "b" || eqs low "p" || eqs low "a" || eqs low "c" then ["1"%string]
  else if eqs low "f" || eqs low "df" then ["4"%string]
  else [].

Definition rightDefault (low : string) : list string :=
  if eqs low "b" || eqs low "p" then ["1"%string]
  else if eqs low "f" || eqs low "df" then ["3"%string]
  else [].

(** Phase 1: the loop over [toks], [out] being the slice built so far. *)
Fixpoint insertDefaults (out toks : list string) : list string :=
  match toks with
  | [] => out
  | tok :: rest =>
      let low := ToLower tok in
      if isDiceWord low then
        let out1 := if needLeft out then out ++ leftDefault low else out in
        let out2 := out1 ++ [tok] in
        let out3 := if needRight rest then out2 ++ rightDefault low else out2 in
        insertDefaults out3 rest
      else insertDefaults (out ++ [tok]) rest
  end.

(** Phase 2: [<left> a <threshold> m <faces>] becomes
    [<left> <threshold> <faces> a_m] (and likewise for [c]). *)
Fixpoint rewriteChainM (out : list string) : list string :=
  match out with
  | [] => []
  | x0 :: tl =>
      match tl with
      | x1 :: x2 :: x3 :: x4 :: rest =>
          let op := ToLower x1 in
          let mid := ToLower x3 in
          if (eqs op "a" || eqs op "c") && eqs mid "m" && isInt x2 && isInt x4
          then x0 :: x2 :: x4 :: (op +:+ "_m") :: rewriteChainM rest
          else x0 :: rewriteChainM tl
      | _ => x0 :: rewriteChainM tl
      end
  end.

(** Phase 3: [d %] and the default face count; [first] is [j == 0]. *)
Fixpoint defaultFaces (first : bool) (defaultD : Z) (res : list string) : list string :=
  let lead := if first then ["1"%string] else [] in
  match res with
  | [] => []
  | t :: rest =>
      if eqs (ToLower t) "d" then
        match rest with
        | next :: rest' =>
            if eqs next "%" then
              lead ++ "d"%string :: Itoa 100 :: defaultFaces false defaultD rest'
            else if isOperator (ToLower next) || eqs next ")" || eqs next ":" then
              lead ++ "d"%string :: Itoa defaultD :: defaultFaces false defaultD rest
            else t :: defaultFaces false defaultD rest
        | [] => lead ++ ["d"%string; Itoa defaultD]
        end
      else t :: defaultFaces false defaultD rest
  end.

Definition preProcessTokens (toks : list string) (defaultD : Z) : list string :=
  let out := insertDefaults [] toks in
  let res := rewriteChainM out in
  defaultFaces true defaultD res.

(** ** Postfix converter *)

Definition firstByte (tok : string) : option ascii :=
  match tok with String c _ => Some c | EmptyString => None end.

Definition startsWith (c : ascii) (tok : string) : bool :=
  match tok with String c0 _ => eqc c0 c | EmptyString => false end.

Definition startsWithLetter (tok : string) : bool :=
  match tok with String c0 _ => isLetter c0 | EmptyString => false end.

(** [len(tok) >= 2 && tok[0] == a && tok[len(tok)-1] == b] *)
Definition enclosedBy (a b : ascii) (tok : string) : bool :=
  match tok with
  | String c0 (String _ _ as s') =>
      eqc c0 a && match lastByte s' with Some l => eqc l b | None => false end
  | _ => false
  end.

(** The operator stacks of [toRPN] are lists whose head is the top. *)
Fixpoint popOps (op : string) (stack out : list string) : list string * list string :=
  match stack with
  | top :: stack' =>
      if isOperator top
         && ((isLeftAssoc op && (precOf op <=? precOf top))
             || (negb (isLeftAssoc op) && (precOf op <? precOf top)))
      then popOps op stack' (out ++ [top])
      else (stack, out)
  | [] => ([], out)
  end.

Fixpoint popToQuestion (stack out : list string) : option (list string * list string) :=
  match stack with
  | top :: stack' =>
      if eqs top "?" then Some (":"%string :: stack', out)
      else popToQuestion stack' (out ++ [top])
  | [] => None
  end.

Fixpoint popToParen (stack out : list string) : option (list string * list string) :=
  match stack with
  | top :: stack' =>
      if eqs top "(" then Some (stack', out)
      else popToParen stack' (out ++ [top])
  | [] => None
  end.

Fixpoint flushOps (stack out : list string) : option (list string) :=
  match stack with
  | top :: stack' =>
      if eqs top "(" || eqs top ")" then None
      else flushOps stack' (out ++ [top])
  | [] => Some out
  end.

Fixpoint toRPNLoop (tokens out stack : list string) : option (list string) :=
  match tokens with
  | [] => flushOps stack out
  | tok :: rest =>
      if isInt tok then toRPNLoop rest (out ++ [tok]) stack
      else if HasPrefixDollar tok then toRPNLoop rest (out ++ [tok]) stack
      else if startsWith "[" tok then toRPNLoop rest (out ++ [tok]) stack
      else if negb (isOperator (ToLower tok)) && startsWithLetter tok
           then toRPNLoop rest (out ++ [tok]) stack
      else if enclosedBy dquote dquote tok then toRPNLoop rest (out ++ [tok]) stack
      else if isOperator (ToLower tok) then
        let op := ToLower tok in
        let op := if eqs op "df" then "f"%string else op in
        let '(stack', out') := popOps op stack out in
        toRPNLoop rest out' (op :: stack')
      else if eqs tok "?" then toRPNLoop rest out ("?"%string :: stack)
      else if eqs tok ":" then
        match popToQuestion stack out with
        | Some (stack', out') => toRPNLoop rest out' stack'
        | None => None
        end
      else if eqs tok "(" then toRPNLoop rest out (tok :: stack)
      else if eqs tok ")" then
        match popToParen stack out with
        | Some (stack', out') => toRPNLoop rest out' stack'
        | None => None
        end
      else None
  end.

(** [toRPN]: [None] is a parse error. *)
Definition toRPN (tokens : list string) : option (list string) :=
  toRPNLoop tokens [] [].

(** ** Value model *)

Inductive ErrorType : Type :=
| ErrNone                 (* the empty error string *)
| ErrUnknownGenerate
| ErrInputRawInvalid
| ErrNodeStackEmpty
| ErrNodeLeftValInvalid
| ErrNodeRightValInvalid.

(** An element of [MetaTuple]: an [int] or a [string]. *)
Inductive MetaElem : Type :=
| MInt (z : Z)
| MStr (s : string).

Record Result : Type := mkResult {
  res_Value : Z;
  res_Min : Z;
  res_Max : Z;
  res_Detail : string;
  res_MetaTuple : option (list MetaElem);
  res_Error : ErrorType
}.

Definition zeroResult : Result := mkResult 0 0 0 EmptyString None ErrNone.

Record Value : Type := mkValue {
  V : Z;
  Meta : option (list Z);
  MetaEnable : bool;
  TempIndex : Z;
  IsTemp : bool;
  MetaStr : list string
}.

(** [Value{V: v}] *)
Definition scalar (v : Z) : Value := mkValue v None false 0 false [].
(** [Value{V: v, Meta: l, MetaEnable: en}] *)
Definition listValue (v : Z) (l : list Z) (en : bool) : Value :=
  mkValue v (Some l) en 0 false [].
(** [Value{V: 0, Meta: nil, MetaEnable: true, MetaStr: l}] *)
Definition strValue (l : list string) : Value := mkValue 0 None true 0 false l.

(** The elements of [Meta]; a nil slice has none. *)
Definition metaList (v : Value) : list Z := default [] (Meta v).

(** ** Sorting and selection *)

(** [sort.Ints(arr)] *)
Definition sortAsc (l : list Z) : list Z := merge_sort Z.le l.
(** [sort.Slice(arr, func(i, j int) bool { return arr[i] > arr[j] })] *)
Definition sortDesc (l : list Z) : list Z := merge_sort Z.ge l.

Inductive SelMode : Type := KH | KL | DH | DL.

Definition modeOf (tok : string) : option SelMode :=
  if eqs tok "kh" then Some KH else if eqs tok "kl" then Some KL
  else if eqs tok "dh" then Some DH else if eqs tok "dl" then Some DL
  else None.

(** [selectFromMeta(src, n, mode)] for the four modes; [None] stands for any
    other mode string. *)
Definition selectFromMeta (src : list Z) (n : Z) (mode : option SelMode) : list Z * Z :=
  match src with
  | [] => ([], 0)
  | _ =>
      let len := Z.of_nat (length src) in
      match mode with
      | Some KH =>
          let arr := sortDesc src in
          let n := if len <? n then len else n in
          let sel := take (Z.to_nat n) arr in
          (sel, GoInt.sum sel)
      | Some KL =>
          let arr := sortAsc src in
          let n := if len <? n then len else n in
          let sel := take (Z.to_nat n) arr in
          (sel, GoInt.sum sel)
      | Some DH =>
          let arr := sortDesc src in
          if len <=? n then ([], 0)
          else let sel := drop (Z.to_nat n) arr in (sel, GoInt.sum sel)
      | Some DL =>
          let arr := sortAsc src in
          if len <=? n then ([], 0)
          else let sel := drop (Z.to_nat n) arr in (sel, GoInt.sum sel)
      | None => ([], 0)
      end
  end.

(** ** Random source *)

(** The pluggable random stream: [Intn n] draws from [[0, n)] for [n > 0]
    and advances the stream; [NewSource] seeds a stream from a clock value. *)
Class RandSource : Type := {
  rng_state : Type;
  Intn : Z -> rng_state -> Z * rng_state;
  NewSource : Z -> rng_state;
  Intn_range : forall n g, 0 < n -> 0 <= fst (Intn n g) < n
}.

(** A stream given by the list of its raw draws (zero once exhausted). *)
Definition listIntn (n : Z) (g : list Z) : Z * list Z :=
  match g with
  | [] => (0, [])
  | x :: g' => (x mod n, g')
  end.

Definition ListRand : RandSource.
Proof.
  refine {| rng_state := list Z; Intn := listIntn; NewSource := fun seed => [seed] |}.
  intros n g Hn. destruct g as [|x g']; simpl; [lia|].
  apply Z.mod_pos_bound; lia.
Defined.

(** ** Expression context and evaluation monad *)

Section Evaluator.

Context {RS : RandSource}.

Record RD : Type := mkRD {
  Expr : string;
  origin : string;
  ValueTable : option (gmap string Z);
  rng : rng_state;
  res : Result;
  temp : gmap Z Z;
  DefaultFaces : Z
}.

Definition setRng (r : RD) (g : rng_state) : RD :=
  mkRD (Expr r) (origin r) (ValueTable r) g (res r) (temp r) (DefaultFaces r).
Definition setValueTable (r : RD) (vt : option (gmap string Z)) : RD :=
  mkRD (Expr r) (origin r) vt (rng r) (res r) (temp r) (DefaultFaces r).
Definition setTemp (r : RD) (t : gmap Z Z) : RD :=
  mkRD (Expr r) (origin r) (ValueTable r) (rng r) (res r) t (DefaultFaces r).
Definition setRes (r : RD) (x : Result) : RD :=
  mkRD (Expr r) (origin r) (ValueTable r) (rng r) x (temp r) (DefaultFaces r).

(** [New(expr, valueTable)]; [now] is the clock reading that seeds the
    generator. *)
Definition New (expr : string) (valueTable : option (gmap string Z)) (now : Z) : RD :=
  mkRD expr (ToLower expr) valueTable (NewSource now) zeroResult ∅ 100.

(** [sub := New(v, subVT); sub.rng = r.rng]: the generator installed by [New]
    is replaced before it is ever used. *)
Definition NewSharing (expr : string) (valueTable : option (gmap string Z))
    (g : rng_state) : RD :=
  mkRD expr (ToLower expr) valueTable g zeroResult ∅ 100.

(** The result of a computation on a context: a value or an error kind,
    with the context as the computation left it. *)
Inductive Outcome (A : Type) : Type :=
| Ok (a : A) (r : RD)
| Fail (e : ErrorType) (r : RD).
Arguments Ok {A} a r.
Arguments Fail {A} e r.

Definition M (A : Type) : Type := RD -> option (Outcome A).

Definition ret {A} (a : A) : M A := fun r => Some (Ok a r).
Definition fail {A} (e : ErrorType) : M A := fun r => Some (Fail e r).
Definition bind {A B} (m : M A) (k : A -> M B) : M B :=
  fun r =>
    match m r with
    | Some (Ok a r') => k a r'
    | Some (Fail e r') => Some (Fail e r')
    | None => None
    end.

Notation "'let*' x ':=' m 'in' k" := (bind m (fun x => k))
  (at level 10, x pattern, m at level 100, k at level 200).

(** [r.rng.Intn(n)] *)
Definition rollIntn (n : Z) : M Z :=
  fun r => let '(x, g) := Intn n (rng r) in Some (Ok x (setRng r g)).

(** [for i := 0; i < n; i++ { rnum := f(r.rng.Intn(sides)); ... }]:
    the rolls in roll order. *)
Fixpoint rollMany (n : nat) (sides : Z) (f : Z -> Z) (g : rng_state)
  : list Z * rng_state :=
  match n with
  | O => ([], g)
  | S n' =>
      let '(x, g1) := Intn sides g in
      let '(xs, g2) := rollMany n' sides f g1 in
      (f x :: xs, g2)
  end.

Definition rollManyM (n : Z) (sides : Z) (f : Z -> Z) : M (list Z) :=
  fun r => let '(xs, g) := rollMany (Z.to_nat n) sides f (rng r) in
           Some (Ok xs (setRng r g)).

(** *** Chain operators *)

(** One round of [a]/[a_m]: [cur] dice, counting those that meet the
    threshold both in [nextCount] and in [total]. *)
Fixpoint chainRoundA (cur : nat) (m threshold nextCount total : Z) (g : rng_state)
  : list Z * Z * Z * rng_state :=
  match cur with
  | O => ([], nextCount, total, g)
  | S cur' =>
      let '(x, g1) := Intn m g in
      let rnum := GoInt.add x 1 in
      let nextCount := if threshold <=? rnum then GoInt.add nextCount 1 else nextCount in
      let total := if threshold <=? rnum then GoInt.add total 1 else total in
      let '(rolls, n, t, g2) := chainRoundA cur' m threshold nextCount total g1 in
      (rnum :: rolls, n, t, g2)
  end.

(** [for nextCount > 0 { ...; if len(meta) > 10000 { break } }] *)
Fixpoint chainLoopA (fuel : nat) (m threshold nextCount total : Z) (meta : list Z)
    (g : rng_state) : option (Z * list Z * rng_state) :=
  if 0 <? nextCount then
    match fuel with
    | O => None
    | S fuel' =>
        let '(rolls, next, total', g') :=
          chainRoundA (Z.to_nat nextCount) m threshold 0 total g in
        let meta' := meta ++ rolls in
        if 10000 <? Z.of_nat (length meta') then Some (total', meta', g')
        else chainLoopA fuel' m threshold next total' meta' g'
    end
  else Some (total, meta, g).

(** One round of [c]/[c_m]: the round's maximum and the number of dice that
    meet the threshold. *)
Fixpoint chainRoundC (cur : nat) (m threshold nextC maxv : Z) (g : rng_state)
  : list Z * Z * Z * rng_state :=
  match cur with
  | O => ([], nextC, maxv, g)
  | S cur' =>
      let '(x, g1) := Intn m g in
      let rnum := GoInt.add x 1 in
      let maxv := if maxv <? rnum then rnum else maxv in
      let nextC := if threshold <=? rnum then GoInt.add nextC 1 else nextC in
      let '(rolls, n, mx, g2) := chainRoundC cur' m threshold nextC maxv g1 in
      (rnum :: rolls, n, mx, g2)
  end.

Fixpoint chainLoopC (fuel : nat) (m threshold nextC totalC : Z) (metaC : list Z)
    (g : rng_state) : option (Z * list Z * rng_state) :=
  if 0 <? nextC then
    match fuel with
    | O => None
    | S fuel' =>
        let '(rolls, next, maxv, g') :=
          chainRoundC (Z.to_nat nextC) m threshold 0 0 g in
        let totalC' := GoInt.add totalC maxv in
        let metaC' := metaC ++ rolls in
        if 10000 <? Z.of_nat (length metaC') then Some (totalC', metaC', g')
        else chainLoopC fuel' m threshold next totalC' metaC' g'
    end
  else Some (totalC, metaC, g).

Inductive ChainKind : Type := ChainA | ChainC.

Definition chainLoop (k : ChainKind) :=
  match k with ChainA => chainLoopA | ChainC => chainLoopC end.

(** The body shared by [a], [a_m], [c], [c_m] once the operands are popped. *)
Definition chainOp (fuel : nat) (k : ChainKind) (times threshold m : Z) : M Value :=
  fun r =>
    match chainLoop k fuel m threshold times 0 [] (rng r) with
    | Some (total, meta, g) =>
        Some (Ok (listValue total meta (0 <? Z.of_nat (length meta))) (setRng r g))
    | None => None
    end.

(** *** Percentile operators *)

(** [mn := rolls[0]; for _, v := range rolls[1:] { if v < mn { mn = v } }] *)
Definition minOf (r0 : Z) (rest : list Z) : Z :=
  fold_left (fun mn v => if v <? mn then v else mn) rest r0.
Definition maxOf (r0 : Z) (rest : list Z) : Z :=
  fold_left (fun mx v => if mx <? v then v else mx) rest r0.

Inductive PercKind : Type := Bonus | Punish.

Definition percentile (k : PercKind) (param : Z) : M Value :=
  let* tens := rollIntn 10 in
  let* units := rollIntn 10 in
  let* rolls := rollManyM param 10 (fun x => x) in
  let tens' :=
    if (tens =? 0) && (units =? 0) then tens
    else match rolls with
         | [] => tens
         | r0 :: rest => match k with Bonus => minOf r0 rest | Punish => maxOf r0 rest end
         end in
  let out :=
    if (tens =? 0) && (units =? 0) then 100
    else GoInt.add (GoInt.mul tens' 10) units in
  let meta := tens' :: units :: rolls in
  ret (listValue out meta (0 <? Z.of_nat (length meta))).

(** *** Meta-tuple resolver *)

(** A nested evaluation: [New(v, subVT)] with the caller's generator, then
    [Roll]; the result is the nested context after [Roll]. *)
Definition SubRoll : Type :=
  string -> option (gmap string Z) -> rng_state -> option RD.

Section WithSubRoll.

Variable subRoll : SubRoll.

(** [for kk, vv := range src { dst[kk] = vv }], [visit] being the entries
    of [src] in the order in which the loop meets them. *)
Definition rangeCopy (visit : list (string * Z)) (dst : gmap string Z)
  : gmap string Z :=
  foldl (fun m kv => <[kv.1 := kv.2]> m) dst visit.

Definition copyInto (src dst : gmap string Z) : gmap string Z :=
  rangeCopy (map_to_list src) dst.

Definition isNoError (e : ErrorType) : bool :=
  match e with ErrNone => true | _ => false end.

(** [getFromMetaTuple(data, flagLast, flagUpdate)]; [acc] is the slice [res]
    built so far.  With [flagUpdate] the nested context works on the caller's
    own map, so whatever it writes is in the caller's table when it returns,
    whether it failed or not; only a nil table has to be copied back. *)
Fixpoint getFromMetaTuple (data : list MetaElem) (flagLast flagUpdate : bool)
    (acc : list Z) (r : RD) : option (list Z * RD) :=
  match data with
  | [] => Some (acc, r)
  | MInt v :: data' => getFromMetaTuple data' flagLast flagUpdate (acc ++ [v]) r
  | MStr v :: data' =>
      match subRoll v (ValueTable r) (rng r) with
      | None => None
      | Some sub =>
          let r1 := setRng r (rng sub) in
          let r2 :=
            if flagUpdate then
              match ValueTable r with
              | Some _ => setValueTable r1 (ValueTable sub)
              | None => r1
              end
            else r1 in
          if isNoError (res_Error (res sub)) then
            let r3 :=
              if flagUpdate then
                match ValueTable sub with
                | Some svt =>
                    setValueTable r2 (Some (copyInto svt (default ∅ (ValueTable r2))))
                | None => r2
                end
              else r2 in
            let r4 :=
              if flagLast then
                setRes r3 (mkResult (res_Value (res sub)) (res_Min (res sub))
                                    (res_Max (res sub)) (res_Detail (res sub))
                                    (res_MetaTuple (res r3)) (res_Error (res sub)))
              else r3 in
            getFromMetaTuple data' flagLast flagUpdate (acc ++ [res_Value (res sub)]) r4
          else Some ([], r2)
      end
  end.

(** [resolveMetaValues(v)]: [Some l] is [(l, true)], [None] is [(nil, false)]. *)
Definition resolveMetaValues (v : Value) : M (option (list Z)) :=
  fun r =>
    if negb (MetaEnable v) then Some (Ok (Some [V v]) r)
    else
      match Meta v with
      | Some l => Some (Ok (Some l) r)
      | None =>
          match MetaStr v with
          | [] => Some (Ok None r)
          | _ =>
              let data := MStr <$> MetaStr v in
              match getFromMetaTuple data false true [] r with
              | None => None
              | Some (l, r') =>
                  if (length l =? length data)%nat then Some (Ok (Some l) r')
                  else Some (Ok None r')
              end
          end
      end.

(** *** Tuple literals *)

(** The scan over the inside of [[...]]: [sb] is the element being built
    (reversed), [elems] the finished elements. *)
Fixpoint splitTuple (inner : string) (sb : string) (depth : Z) (inStr : bool)
    (elems : list string) : list string :=
  let flush (sb : string) := TrimSpace (revBytes sb EmptyString) in
  match inner with
  | EmptyString =>
      match sb with
      | EmptyString => elems
      | _ => elems ++ [flush sb]
      end
  | String ch rest =>
      if eqc ch dquote then splitTuple rest (String ch sb) depth (negb inStr) elems
      else if inStr then splitTuple rest (String ch sb) depth inStr elems
      else
        let depth :=
          if eqc ch "(" || eqc ch "[" then depth + 1
          else if eqc ch ")" || eqc ch "]" then depth - 1
          else depth in
        if eqc ch "," && (depth =? 0)
        then splitTuple rest EmptyString depth inStr (elems ++ [flush sb])
        else splitTuple rest (String ch sb) depth inStr elems
  end.

Definition isEmptyString (s : string) : bool :=
  match s with EmptyString => true | _ => false end.

Definition tupleValue (tok : string) : Value :=
  let elems := splitTuple (stripEnds tok) EmptyString 0 false [] in
  let nonEmpty := filter (fun el => isEmptyString el = false) elems in
  let metaInts := omap Atoi nonEmpty in
  let metaStrs := filter (fun el => Atoi el = None) nonEmpty in
  match metaStrs, metaInts with
  | _ :: _, _ :: _ => strValue elems
  | _ :: _, [] => strValue metaStrs
  | [], _ => listValue 0 metaInts true
  end.

(** *** Temp variables *)

Definition tempKey (idx : Z) (upper : bool) : string :=
  let key := ("t" +:+ Itoa idx)%string in
  if upper then ToUpper key else key.

(** [$t], [$tN]: the index, then the live store, then the variable table. *)
Definition tempIndexOf (tok : string) : Z :=
  match tok with
  | String _ (String _ (String c s')) =>
      match Atoi (String c s') with Some n => n | None => 1 end
  | _ => 1
  end.

Definition readTemp (idx : Z) (r : RD) : Z :=
  match temp r !! idx with
  | Some vv => vv
  | None =>
      match ValueTable r with
      | None => 0
      | Some vt =>
          match vt !! tempKey idx true with
          | Some vv => vv
          | None => match vt !! tempKey idx false with Some vv => vv | None => 0 end
          end
      end
  end.

(** [r.temp[idx] = v; r.ValueTable[T<idx>] = v] *)
Definition assignTemp (idx v : Z) (r : RD) : RD :=
  let r1 := setTemp r (<[idx := v]> (temp r)) in
  setValueTable r1 (Some (<[tempKey idx true := v]> (default ∅ (ValueTable r1)))).

(** *** Postfix evaluator *)

(** The operand an arithmetic operator of [d] reads: the last contributing
    element of a meta list, the plain value otherwise. *)
Definition scalarOf (v : Value) : Z :=
  if MetaEnable v then
    match last (metaList v) with
    | Some x => x
    | None => V v
    end
  else V v.

Definition pop2 {A} (st : list Value) (k : Value -> Value -> list Value -> M A) : M A :=
  match st with
  | b :: a :: st' => k a b st'
  | _ => fail ErrNodeStackEmpty
  end.

Definition pop3 {A} (st : list Value)
    (k : Value -> Value -> Value -> list Value -> M A) : M A :=
  match st with
  | c :: b :: a :: st' => k a b c st'
  | _ => fail ErrNodeStackEmpty
  end.

Definition boolInt (b : bool) : Z := if b then 1 else 0.

Definition nonEmpty {A} (l : list A) : bool :=
  match l with [] => false | _ => true end.

(** [k] and [q]. *)
Definition keepOp (mode : SelMode) (st : list Value) : M (list Value) :=
  pop2 st (fun left param st' =>
    if V param <=? 0 then fail ErrNodeRightValInvalid
    else
      let* rolls := resolveMetaValues left in
      match rolls with
      | None => fail ErrNodeLeftValInvalid
      | Some rolls =>
          let '(sel, s) := selectFromMeta rolls (V param) (Some mode) in
          ret (listValue s sel (nonEmpty sel) :: st')
      end).

(** [kh], [kl], [dh], [dl]. *)
Definition selectOp (tok : string) (st : list Value) : M (list Value) :=
  pop2 st (fun leftOp paramOp st' =>
    let n := V paramOp in
    if n <=? 0 then fail ErrNodeRightValInvalid
    else
      let* rollsRaw := resolveMetaValues leftOp in
      match rollsRaw with
      | None => fail ErrNodeLeftValInvalid
      | Some [] => fail ErrNodeLeftValInvalid
      | Some rollsRaw =>
          let '(sel, sum) := selectFromMeta rollsRaw n (modeOf tok) in
          ret (listValue sum sel (nonEmpty sel) :: st')
      end).

(** The list [min]/[max] clamp: the integer meta list as it is, or the plain
    value of an operand without meta. *)
Definition clampOperand (left : Value) : list Z :=
  if MetaEnable left then metaList left else [V left].

Definition clampOne (isMax : bool) (n rv : Z) : Z :=
  if isMax then (if n <? rv then n else rv) else (if rv <? n then n else rv).

(** [min], [max]. *)
Definition clampOp (isMax : bool) (st : list Value) : M (list Value) :=
  pop2 st (fun leftOp2 paramOp2 st' =>
    let n2 := V paramOp2 in
    if n2 <=? 0 then fail ErrNodeRightValInvalid
    else
      let resList := clampOne isMax n2 <$> clampOperand leftOp2 in
      ret (listValue (GoInt.sum resList) resList true :: st')).

(** The position [sp]/[tp] address in a list of length [len]. *)
Definition positionOf (idx len : Z) : Z :=
  if 0 <? idx then GoInt.sub idx 1 else GoInt.add len idx.

Definition spOp (st : list Value) : M (list Value) :=
  pop2 st (fun leftSp paramSp st' =>
    let idx := V paramSp in
    if negb (MetaEnable leftSp) then
      if (idx =? 1) || (idx =? -1)
      then ret (listValue (V leftSp) [V leftSp] true :: st')
      else fail ErrNodeLeftValInvalid
    else if idx =? 0 then fail ErrNodeRightValInvalid
    else
      let rollsSp := metaList leftSp in
      let pos := positionOf idx (Z.of_nat (length rollsSp)) in
      if (pos <? 0) || (Z.of_nat (length rollsSp) <=? pos)
      then fail ErrNodeRightValInvalid
      else
        match rollsSp !! Z.to_nat pos with
        | Some v => ret (listValue v [v] true :: st')
        | None => fail ErrNodeRightValInvalid
        end).

Definition tpOp (st : list Value) : M (list Value) :=
  pop2 st (fun leftTp paramTp st' =>
    let idx2 := V paramTp in
    if negb (MetaEnable leftTp) then
      if (idx2 =? 1) || (idx2 =? -1)
      then ret (listValue 0 [] false :: st')
      else fail ErrNodeLeftValInvalid
    else if idx2 =? 0 then fail ErrNodeRightValInvalid
    else
      let rollsTp := metaList leftTp in
      let pos2 := positionOf idx2 (Z.of_nat (length rollsTp)) in
      if (pos2 <? 0) || (Z.of_nat (length rollsTp) <=? pos2)
      then fail ErrNodeRightValInvalid
      else
        let newList := take (Z.to_nat pos2) rollsTp ++ drop (S (Z.to_nat pos2)) rollsTp in
        ret (listValue (GoInt.sum newList) newList (nonEmpty newList) :: st')).

(** One pass over the templates of [lp], numbering from [idx]. *)
Fixpoint expandOnce (templates : list string) (idx : Z) : list string * Z :=
  match templates with
  | [] => ([], idx)
  | tmpl :: ts =>
      let '(out, idx') := expandOnce ts (GoInt.add idx 1) in
      (ReplaceAllI tmpl (Itoa idx) :: out, idx')
  end.

Fixpoint expandTemplates (times : nat) (templates : list string) (idx : Z) : list string :=
  match times with
  | O => []
  | S t =>
      let '(out, idx') := expandOnce templates idx in
      out ++ expandTemplates t templates idx'
  end.

Fixpoint repeatList (times : nat) (l : list Z) : list Z :=
  match times with
  | O => []
  | S t => l ++ repeatList t l
  end.

Definition lpOp (st : list Value) : M (list Value) :=
  pop2 st (fun leftLp paramLp st' =>
    let timesLp := V paramLp in
    if timesLp <=? 0 then fail ErrNodeRightValInvalid
    else
      match MetaStr leftLp with
      | _ :: _ =>
          ret (strValue (expandTemplates (Z.to_nat timesLp) (MetaStr leftLp) 1) :: st')
      | [] =>
          let* rollsLp := resolveMetaValues leftLp in
          match rollsLp with
          | None => fail ErrNodeLeftValInvalid
          | Some rollsLp =>
              let newList := repeatList (Z.to_nat timesLp) rollsLp in
              ret (listValue (GoInt.sum newList) newList (nonEmpty newList) :: st')
          end
      end).

Definition diceOp (st : list Value) : M (list Value) :=
  pop2 st (fun timesV sidesV st' =>
    let sides := scalarOf sidesV in
    let times := scalarOf timesV in
    if (times <=? 0) || (10000 <? times) then fail ErrNodeLeftValInvalid
    else if (sides <=? 0) || (10000 <? sides) then fail ErrNodeRightValInvalid
    else
      let* rolls := rollManyM times sides (fun x => GoInt.add x 1) in
      ret (listValue (GoInt.sum rolls) rolls true :: st')).

Definition fudgeOp (st : list Value) : M (list Value) :=
  pop2 st (fun leftF rightF st' =>
    if (V rightF <=? 1) || (10000 <? V rightF) then fail ErrNodeRightValInvalid
    else if (V leftF <=? 0) || (10000 <? V leftF) then fail ErrNodeLeftValInvalid
    else
      let* rollsF := rollManyM (V leftF) 3 (fun x => GoInt.sub x 1) in
      ret (listValue (GoInt.sum rollsF) rollsF true :: st')).

Definition chain2Op (fuel : nat) (k : ChainKind) (st : list Value) : M (list Value) :=
  pop2 st (fun leftV rightV st' =>
    let times := V leftV in
    let threshold := V rightV in
    if (times <? 0) || (10000 <? times) then fail ErrNodeLeftValInvalid
    else if (threshold <=? 0) || (10000 <? threshold) then fail ErrNodeRightValInvalid
    else
      let* v := chainOp fuel k times threshold 10 in
      ret (v :: st')).

Definition chain3Op (fuel : nat) (k : ChainKind) (st : list Value) : M (list Value) :=
  pop3 st (fun leftV rightV facesV st' =>
    let times := V leftV in
    let threshold := V rightV in
    let m := V facesV in
    if (times <? 0) || (10000 <? times) then fail ErrNodeLeftValInvalid
    else if (threshold <=? 0) || (10000 <? threshold) then fail ErrNodeRightValInvalid
    else if (m <=? 0) || (10000 <? m) then fail ErrNodeRightValInvalid
    else
      let* v := chainOp fuel k times threshold m in
      ret (v :: st')).

Definition percOp (k : PercKind) (st : list Value) : M (list Value) :=
  pop2 st (fun leftB paramB st' =>
    if V paramB <? 0 then fail ErrNodeRightValInvalid
    else if 10000 <? V paramB then fail ErrNodeRightValInvalid
    else if 10000 <? V leftB then fail ErrNodeLeftValInvalid
    else
      let* v := percentile k (V paramB) in
      ret (v :: st')).

Definition assignOp (st : list Value) : M (list Value) :=
  pop2 st (fun leftA rightA st' =>
    if negb (IsTemp leftA) then fail ErrNodeLeftValInvalid
    else fun r =>
      Some (Ok (scalar (V rightA) :: st') (assignTemp (TempIndex leftA) (V rightA) r))).

Definition arith (st : list Value) (f : Z -> Z -> Z) : M (list Value) :=
  pop2 st (fun a b st' => ret (scalar (f (V a) (V b)) :: st')).

(** The [switch tok] of [evalRPN]. *)
Definition applyOp (fuel : nat) (tok : string) (st : list Value) : M (list Value) :=
  if eqs tok ":" then
    pop3 st (fun a b c st' => ret ((if V a =? 0 then c else b) :: st'))
  else if eqs tok "+" then arith st GoInt.add
  else if eqs tok "-" then arith st GoInt.sub
  else if eqs tok "*" then arith st GoInt.mul
  else if eqs tok "/" then
    pop2 st (fun a b st' =>
      if V b =? 0 then fail ErrNodeRightValInvalid
      else ret (scalar (GoInt.quo (V a) (V b)) :: st'))
  else if eqs tok ">" then arith st (fun a b => boolInt (b <? a))
  else if eqs tok "<" then arith st (fun a b => boolInt (a <? b))
  else if eqs tok "&" then arith st Z.land
  else if eqs tok "|" then arith st Z.lor
  else if eqs tok "^" then
    pop2 st (fun a b st' =>
      if (V a =? 0) && (V b =? 0) then fail ErrNodeLeftValInvalid
      else if V b <? 0 then fail ErrNodeRightValInvalid
      else ret (scalar (GoInt.pow (V a) (V b)) :: st'))
  else if eqs tok "d" then diceOp st
  else if eqs tok "k" then keepOp KH st
  else if eqs tok "a" then chain2Op fuel ChainA st
  else if eqs tok "a_m" then chain3Op fuel ChainA st
  else if eqs tok "c" then chain2Op fuel ChainC st
  else if eqs tok "c_m" then chain3Op fuel ChainC st
  else if eqs tok "b" then percOp Bonus st
  else if eqs tok "p" then percOp Punish st
  else if eqs tok "=" then assignOp st
  else if eqs tok "lp" then lpOp st
  else if eqs tok "q" then keepOp KL st
  else if eqs tok "kh" || eqs tok "kl" || eqs tok "dh" || eqs tok "dl" then selectOp tok st
  else if eqs tok "min" then clampOp false st
  else if eqs tok "max" then clampOp true st
  else if eqs tok "f" then fudgeOp st
  else if eqs tok "sp" then spOp st
  else if eqs tok "tp" then tpOp st
  else fail ErrUnknownGenerate.

(** One iteration of the token loop of [evalRPN]; the stack is a list whose
    head is the top. *)
Definition step (fuel : nat) (tok : string) (st : list Value) : M (list Value) :=
  match Atoi tok with
  | Some v => ret (scalar v :: st)
  | None =>
      if enclosedBy "[" "]" tok then ret (tupleValue tok :: st)
      else if enclosedBy dquote dquote tok then ret (strValue [stripEnds tok] :: st)
      else if HasPrefixDollar tok then
        fun r =>
          let idx := tempIndexOf tok in
          Some (Ok (mkValue (readTemp idx r) None false idx true [] :: st) r)
      else applyOp fuel tok st
  end.

Fixpoint evalRPNLoop (fuel : nat) (rpn : list string) (st : list Value) : M Value :=
  match rpn with
  | [] =>
      match st with
      | [v] => ret v
      | _ => fail ErrUnknownGenerate
      end
  | tok :: rest =>
      let* st' := step fuel tok st in
      evalRPNLoop fuel rest st'
  end.

Definition evalRPN (fuel : nat) (rpn : list string) : M Value :=
  evalRPNLoop fuel rpn [].

(** *** Variable substitution and result assembly *)

Definition notCloseBrace (b : ascii) : bool := negb (eqc b "}").

(** [varRe.ReplaceAllStringFunc(s, ...)] for the pattern [\{([^}]+)\}]: a
    match starts at an opening brace followed by at least one byte other
    than a closing brace and ends at the first closing brace after it. *)
Fixpoint replaceVarsLoop (fuel : nat) (vt : gmap string Z) (s : string) : string :=
  match s with
  | EmptyString => EmptyString
  | String c s' =>
      match fuel with
      | O => s
      | S fuel' =>
          if eqc c "{" then
            let '(run, rest) := spanBytes notCloseBrace s' in
            match run, rest with
            | String _ _, String _ rest' =>
                let m := String c (run +:+ "}") in
                let up := ToUpper (TrimBraces m) in
                (match vt !! up with Some v => Itoa v | None => m end)
                  +:+ replaceVarsLoop fuel' vt rest'
            | _, _ => String c (replaceVarsLoop fuel' vt s')
            end
          else String c (replaceVarsLoop fuel' vt s')
      end
  end.

Definition replaceVars (r : RD) (s : string) : string :=
  match ValueTable r with
  | None => s
  | Some vt => replaceVarsLoop (String.length s) vt s
  end.

Definition quoted (s : string) : string :=
  String dquote (s +:+ String dquote EmptyString).

Definition bracketed (items : list string) : string :=
  ("[" +:+ JoinWith "," items +:+ "]")%string.

(** [sort.Strings(keys)] *)
Definition sortStrings (l : list string) : list string :=
  merge_sort (fun a b => Is_true (String.leb a b)) l.

(** [buildDetail(val)] *)
Definition buildDetail (r : RD) (val : Value) : string :=
  let p1 := [Itoa (V val)] in
  let p2 :=
    if MetaEnable val then
      match MetaStr val with
      | _ :: _ => [bracketed (quoted <$> MetaStr val)]
      | [] =>
          match Meta val with
          | Some l => [bracketed (Itoa <$> l)]
          | None => []
          end
      end
    else [] in
  let p3 :=
    if negb (V val =? 0) && negb (res_Min (res r) =? res_Max (res r))
    then [("min=" +:+ Itoa (res_Min (res r)))%string;
          ("max=" +:+ Itoa (res_Max (res r)))%string]
    else [] in
  let p4 :=
    match sortAsc (fst <$> map_to_list (temp r)) with
    | [] => []
    | keys =>
        let kvs := (fun k => ("t" +:+ Itoa k +:+ "=" +:+ Itoa (default 0 (temp r !! k)))%string)
                     <$> keys in
        [("temp:{" +:+ JoinWith "," kvs +:+ "}")%string]
    end in
  let p5 :=
    match ValueTable r with
    | None => []
    | Some vt =>
        match sortStrings (fst <$> map_to_list vt) with
        | [] => []
        | keys =>
            let kvs := (fun k => (k +:+ "=" +:+ Itoa (default 0 (vt !! k)))%string) <$> keys in
            [("vt:{" +:+ JoinWith "," kvs +:+ "}")%string]
        end
    end in
  JoinWith " " (p1 ++ p2 ++ p3 ++ p4 ++ p5).

Definition setError (r : RD) (e : ErrorType) : RD :=
  setRes r (mkResult (res_Value (res r)) (res_Min (res r)) (res_Max (res r))
                     (res_Detail (res r)) (res_MetaTuple (res r)) e).

Definition setMetaTuple (r : RD) (m : option (list MetaElem)) : RD :=
  setRes r (mkResult (res_Value (res r)) (res_Min (res r)) (res_Max (res r))
                     (res_Detail (res r)) m (res_Error (res r))).

(** The body of [Roll], given the evaluation of a token slice. *)
Definition RollBody (evalToks : list string -> M Value) (r : RD) : option RD :=
  let expr := replaceVars r (origin r) in
  match tokenize expr with
  | None => Some (setError r ErrInputRawInvalid)
  | Some tokens =>
      match evalToks tokens r with
      | None => None
      | Some (Fail derr r') => Some (setError r' derr)
      | Some (Ok val r') =>
          let r1 := setRes r' (mkResult (V val) (V val) (V val) (res_Detail (res r'))
                                        (res_MetaTuple (res r')) (res_Error (res r'))) in
          let r2 := setRes r1 (mkResult (V val) (V val) (V val) (buildDetail r1 val)
                                        (res_MetaTuple (res r1)) (res_Error (res r1))) in
          let r3 :=
            if MetaEnable val then
              match MetaStr val with
              | _ :: _ => Some (setMetaTuple r2 (Some (MStr <$> MetaStr val)))
              | [] =>
                  let meta := MInt <$> metaList val in
                  let r21 := setMetaTuple r2 (Some meta) in
                  match getFromMetaTuple meta false true [] r21 with
                  | None => None
                  | Some (resolved, r22) =>
                      if (length resolved =? length meta)%nat
                      then Some (setMetaTuple r22 (Some (MInt <$> resolved)))
                      else Some r22
                  end
              end
            else Some r2 in
          match r3 with
          | Some r3 => Some (setError r3 ErrNone)
          | None => None
          end
      end
  end.

(** *** Ternary dispatcher: the scans over the token slice *)

(** [tokens[from:to]] *)
Definition segment (tokens : list string) (from to : nat) : list string :=
  take (to - from) (drop from tokens).

(** The backward scan [for k := i; k >= 0; k--] for the parenthesis that
    opens the group closed at [i]; [back] is [tokens[k], ..., tokens[0]]. *)
Fixpoint matchOpen (back : list string) (k : nat) (d : Z) : option nat :=
  match back with
  | [] => None
  | t :: back' =>
      let d1 := if eqs t ")" then d + 1 else d in
      let d2 := if eqs t "(" then d1 - 1 else d1 in
      if d2 =? 0 then Some k else matchOpen back' (pred k) d2
  end.

Inductive GroupScan : Type :=
| NoGroup
| Unbalanced
| Group (openIdx closeIdx : nat).

Definition isTernaryMark (t : option string) : bool :=
  match t with
  | Some t => eqs t "?" || eqs t ":"
  | None => false
  end.

(** The first closing parenthesis whose group does not directly follow a
    [?] or [:]; [todo] is [tokens[i:]]. *)
Fixpoint findGroupFrom (tokens : list string) (i : nat) (todo : list string) : GroupScan :=
  match todo with
  | [] => NoGroup
  | t :: todo' =>
      if eqs t ")" then
        match matchOpen (rev (take (S i) tokens)) i 0 with
        | None => Unbalanced
        | Some oi =>
            if (0 <? oi)%nat && isTernaryMark (tokens !! pred oi)
            then findGroupFrom tokens (S i) todo'
            else Group oi i
        end
      else findGroupFrom tokens (S i) todo'
  end.

Definition findGroup (tokens : list string) : GroupScan :=
  findGroupFrom tokens 0 tokens.

(** The forward scan for the parenthesis closing the one at index 0. *)
Fixpoint matchClose (tokens : list string) (i : nat) (d : Z) : option nat :=
  match tokens with
  | [] => None
  | t :: rest =>
      let d1 := if eqs t "(" then d + 1 else d in
      let d2 := if eqs t ")" then d1 - 1 else d1 in
      if d2 =? 0 then Some i else matchClose rest (S i) d2
  end.

(** The loop that strips parentheses enclosing the whole slice; each round
    removes two tokens, so [length tokens] rounds are more than it can use. *)
Fixpoint trimOuter (n : nat) (tokens : list string) : list string :=
  match n with
  | O => tokens
  | S n' =>
      match tokens with
      | t0 :: _ :: _ =>
          if eqs t0 "(" then
            match matchClose tokens 0 0 with
            | Some m =>
                if (m =? length tokens - 1)%nat
                then trimOuter n' (segment tokens 1 (length tokens - 1))
                else tokens
            | None => tokens
            end
          else tokens
      | _ => tokens
      end
  end.

(** The first [?] outside parentheses. *)
Fixpoint findQuestion (tokens : list string) (i : nat) (depth : Z) : option nat :=
  match tokens with
  | [] => None
  | tok :: rest =>
      if eqs tok "(" then findQuestion rest (S i) (depth + 1)
      else if eqs tok ")" then findQuestion rest (S i) (depth - 1)
      else if eqs tok "?" && (depth =? 0) then Some i
      else findQuestion rest (S i) depth
  end.

(** The [:] matching it; [after] is [tokens[j:]]. *)
Fixpoint findColon (after : list string) (j : nat) (depth qcount : Z) : option nat :=
  match after with
  | [] => None
  | t :: rest =>
      let depth :=
        if eqs t "(" then depth + 1 else if eqs t ")" then depth - 1 else depth in
      if eqs t "?" && (depth =? 0) then findColon rest (S j) depth (qcount + 1)
      else if eqs t ":" && (depth =? 0) then
        if qcount - 1 =? 0 then Some j else findColon rest (S j) depth (qcount - 1)
      else findColon rest (S j) depth qcount
  end.

End WithSubRoll.

(** *** The recursion through nested expressions *)

(** [evalTokens] and [Roll].  The loop that folds parenthesised groups is
    the call on the rewritten slice: it starts with the same scan. *)
Fixpoint evalTokens (fuel : nat) (tokens : list string) (r : RD) {struct fuel}
  : option (Outcome Value) :=
  match fuel with
  | O => None
  | S n =>
      match findGroup tokens with
      | Unbalanced => Some (Fail ErrUnknownGenerate r)
      | Group openIdx closeIdx =>
          match evalTokens n (segment tokens (S openIdx) closeIdx) r with
          | Some (Ok v r') =>
              evalTokens n (take openIdx tokens ++ Itoa (V v) :: drop (S closeIdx) tokens) r'
          | other => other
          end
      | NoGroup =>
          let tokens := trimOuter (length tokens) tokens in
          match findQuestion tokens 0 0 with
          | Some i =>
              match findColon (drop (S i) tokens) (S i) 0 1 with
              | Some j =>
                  match evalTokens n (take i tokens) r with
                  | Some (Ok condVal r') =>
                      if V condVal =? 0
                      then evalTokens n (drop (S j) tokens) r'
                      else evalTokens n (segment tokens (S i) j) r'
                  | other => other
                  end
              | None => Some (Fail ErrUnknownGenerate r)
              end
          | None =>
              let tokens := preProcessTokens tokens (DefaultFaces r) in
              match toRPN tokens with
              | None => Some (Fail ErrUnknownGenerate r)
              | Some rpn =>
                  evalRPN (fun e vt g => Roll n (NewSharing e vt g)) fuel rpn r
              end
          end
      end
  end
with Roll (fuel : nat) (r : RD) {struct fuel} : option RD :=
  match fuel with
  | O => None
  | S n => RollBody (fun e vt g => Roll n (NewSharing e vt g)) (evalTokens n) r
  end.

(** The sequence of the tests: construct, install the stream, evaluate,
    read the result. *)
Definition rollWith (fuel : nat) (expr : string) (vt : option (gmap string Z))
    (now : Z) (g : rng_state) : option RD :=
  Roll fuel (setRng (New expr vt now) g).

End Evaluator.

Arguments Ok {RS A} a r.
Arguments Fail {RS A} e r.

(** A fresh context over a listed stream, with no variable table. *)
Definition listRD (expr : string) (g : list Z) : RD (RS := ListRand) :=
  setRng (RS := ListRand) (New expr None 0) g.

(** ** The percentile operators of [gonedice.go]

    The file [gonedice.go] carries another version of [b] and [p]: one
    draw of [Intn(100) + 1] as base, and extra digits in which a 0 counts
    as 10 when the units digit of the base is 0. *)

(** [for i := 0; i < paramB.V; i++ { rr := r.rng.Intn(10); ... }] of [b] *)
Fixpoint bonusLoop {RS : RandSource} (n : nat) (units minRoll : Z) (g : rng_state)
  : list Z * Z * rng_state :=
  match n with
  | O => ([], minRoll, g)
  | S n' =>
      let '(rr, g1) := Intn 10 g in
      let rr := if (units =? 0) && (rr =? 0) then 10 else rr in
      let minRoll := if rr <? minRoll then rr else minRoll in
      let '(rolls, mn, g2) := bonusLoop n' units minRoll g1 in
      (rr :: rolls, mn, g2)
  end.

(** The same loop of [p], which tracks the maximum. *)
Fixpoint punishLoop {RS : RandSource} (n : nat) (units maxRoll : Z) (g : rng_state)
  : list Z * Z * rng_state :=
  match n with
  | O => ([], maxRoll, g)
  | S n' =>
      let '(rr, g1) := Intn 10 g in
      let rr := if (units =? 0) && (rr =? 0) then 10 else rr in
      let maxRoll := if maxRoll <? rr then rr else maxRoll in
      let '(rolls, mx, g2) := punishLoop n' units maxRoll g1 in
      (rr :: rolls, mx, g2)
  end.

(** [Value{V: out, Meta: rolls, MetaEnable: len(rolls) > 0}] for a slice
    declared by [var rolls []int]: nil when nothing was appended. *)
Definition appendedValue (out : Z) (rolls : list Z) : Value :=
  mkValue out (match rolls with [] => None | _ => Some rolls end) (nonEmpty rolls) 0 false [].

(** [case "b"] of [evalRPN] in [gonedice.go] *)
Definition bonusOpAlt {RS : RandSource} (st : list Value) : M (list Value) :=
  pop2 st (fun leftB paramB st' =>
    if V paramB <? 0 then fail ErrNodeRightValInvalid
    else if 10000 <? V paramB then fail ErrNodeRightValInvalid
    else if 10000 <? V leftB then fail ErrNodeLeftValInvalid
    else fun r =>
      let '(x, g1) := Intn 100 (rng r) in
      let base := GoInt.add x 1 in
      let units := Z.rem base 10 in
      let tens := GoInt.quo base 10 in
      let '(rolls, minRoll, g2) := bonusLoop (Z.to_nat (V paramB)) units 10 g1 in
      let out :=
        if (units =? 0) && (minRoll =? 0) then 100
        else if minRoll <? tens then GoInt.add units (GoInt.mul minRoll 10)
        else base in
      Some (Ok (appendedValue out rolls :: st') (setRng r g2))).

(** [case "p"] of [evalRPN] in [gonedice.go] *)
Definition punishOpAlt {RS : RandSource} (st : list Value) : M (list Value) :=
  pop2 st (fun leftP paramP st' =>
    if V paramP <? 0 then fail ErrNodeRightValInvalid
    else if 10000 <? V paramP then fail ErrNodeRightValInvalid
    else if 10000 <? V leftP then fail ErrNodeLeftValInvalid
    else fun r =>
      let '(x, g1) := Intn 100 (rng r) in
      let baseP := GoInt.add x 1 in
      let unitsP := Z.rem baseP 10 in
      let tensP := GoInt.quo baseP 10 in
      let '(rollsP, maxRoll, g2) := punishLoop (Z.to_nat (V paramP)) unitsP (-1) g1 in
      let outP :=
        if (unitsP =? 0) && (maxRoll =? 0) then 100
        else if tensP <? maxRoll then GoInt.add unitsP (GoInt.mul maxRoll 10)
        else baseP in
      Some (Ok (appendedValue outP rollsP :: st') (setRng r g2))).

(** ** Definitions used to state the properties *)

Definition resultOf {RS : RandSource} (o : option RD) : option Result := res <$> o.

Definition observe {RS : RandSource} (o : option RD) :=
  (fun r => (res r, rng r, temp r, ValueTable r)) <$> o.

(** The operator words, by the constructors they are dispatched to. *)
Definition clampTok (isMax : bool) : string :=
  if isMax then "max"%string else "min"%string.

Definition chainTok2 (k : ChainKind) : string :=
  match k with ChainA => "a" | ChainC => "c" end%string.
Definition chainTok3 (k : ChainKind) : string :=
  match k with ChainA => "a_m" | ChainC => "c_m" end%string.

(** The selection in the words of the specification: sort, then keep or
    drop the first [n]. *)
Definition spec_kept (mode : SelMode) (n : Z) (rolls : list Z) : list Z :=
  match mode with
  | KH => take (Z.to_nat n) (sortDesc rolls)
  | KL => take (Z.to_nat n) (sortAsc rolls)
  | DH => drop (Z.to_nat n) (sortDesc rolls)
  | DL => drop (Z.to_nat n) (sortAsc rolls)
  end.

Definition modeTok (mode : SelMode) : string :=
  match mode with
  | KH => "kh" | KL => "kl" | DH => "dh" | DL => "dl"
  end%string.

(** The first rules of the preprocessor in the words of the
    specification.  Its operators are those of its precedence table; the
    code compares in lower case, which changes nothing on the lower-cased
    input the specification assumes. *)
Definition spec_operators : list string :=
  ["|"; "&"; "<"; ">"; "+"; "-"; "*"; "/"; "^";
   "k"; "q"; "kh"; "kl"; "dh"; "dl"; "min"; "max"; "sp"; "tp"; "lp";
   "d"; "df"; "a"; "c"; "a_m"; "c_m"; "b"; "p"; "f"; "?"; "="]%string.

Definition spec_isOperator (tok : string) : bool :=
  existsb (eqs (ToLower tok)) spec_operators.

(** No left operand: the start of the expression, or the previous token is
    an operator, [(], [?] or [:].  [prev] is the token that precedes the
    current one once the defaults of the earlier tokens are in place. *)
Definition noLeftOperand (prev : option string) : bool :=
  match prev with
  | None => true
  | Some l => spec_isOperator l || eqs l "(" || eqs l "?" || eqs l ":"
  end.

(** No right operand: the end of the expression, or the next token is an
    operator, [)] or [:]. *)
Definition noRightOperand (next : option string) : bool :=
  match next with
  | None => true
  | Some t => spec_isOperator t || eqs t ")" || eqs t ":"
  end.

(** The default left literal: [1] for [d], [b], [p], [a], [c]; [4] for [f]
    and [df]; none for any other token. *)
Definition spec_leftLiteral (low : string) : list string :=
  if existsb (eqs low) ["d"; "b"; "p"; "a"; "c"]%string then ["1"%string]
  else if existsb (eqs low) ["f"; "df"]%string then ["4"%string]
  else [].

(** The default right literal: [1] for [b], [p]; [3] for [f] and [df];
    none for [d], [a], [c] and any other token. *)
Definition spec_rightLiteral (low : string) : list string :=
  if existsb (eqs low) ["b"; "p"]%string then ["1"%string]
  else if existsb (eqs low) ["f"; "df"]%string then ["3"%string]
  else [].

Fixpoint spec_defaults (prev : option string) (toks : list string) : list string :=
  match toks with
  | [] => []
  | tok :: rest =>
      let low := ToLower tok in
      let l := if noLeftOperand prev then spec_leftLiteral low else [] in
      let r := if noRightOperand (head rest) then spec_rightLiteral low else [] in
      l ++ tok :: r ++ spec_defaults (last (tok :: r)) rest
  end.

(** The tokens the lexer can write: strings of ASCII bytes, and string
    and tuple literals.  A literal keeps its opening quote or bracket under
    any case mapping, so that it is no operator whatever its other bytes
    are; on these tokens the tests of the preprocessor see what they see in
    Go. *)
Definition plainToken (t : string) : bool :=
  isASCII t
  || match t with
     | String c _ => eqc c dquote || eqc c "["
     | EmptyString => false
     end.

Definition plainTokens (toks : list string) : Prop :=
  Forall (fun t => plainToken t = true) toks.

(** The operators of the sum invariant. *)
Definition diceOps : list string :=
  ["d"; "f"; "k"; "q"; "kh"; "kl"; "dh"; "dl"; "min"; "max"; "sp"; "tp"; "lp"]%string.

Definition isDiceOp (tok : string) : bool := existsb (eqs tok) diceOps.

(** The operands written in an expression: an integer literal, a tuple
    literal, a string literal. *)
Definition isLiteral (tok : string) : bool :=
  isInt tok || enclosedBy "[" "]" tok || enclosedBy dquote dquote tok.

(** The tokens of an expression built from these operators. *)
Definition isPlain (tok : string) : bool := isLiteral tok || isDiceOp tok.

Abbreviation Plain := (fun t : string => isPlain t = true).
Abbreviation Dice := (fun t : string => isDiceOp t = true).

(** Every integer of a value is an [int]. *)
Definition okValue (v : Value) : Prop :=
  GoInt.inRange (V v) /\ Forall GoInt.inRange (metaList v).

(** The value of a list of integers is the sum of the list. *)
Definition sumOK (v : Value) : Prop :=
  MetaEnable v = true -> MetaStr v = [] -> V v = GoInt.sum (metaList v).

(** The stack after an operator of the invariant: its result is on top. *)
Definition topSum (st : list Value) : Prop :=
  match st with
  | v :: _ => sumOK v
  | [] => False
  end.

Abbreviation PS := (Forall okValue).
Abbreviation PT := (fun st : list Value => Forall okValue st /\ topSum st).
Abbreviation PV := (fun v : Value => okValue v /\ sumOK v).

(** Every integer of a variable table, of a context, is an [int]. *)
Definition vtOK (o : option (gmap string Z)) : Prop :=
  forall vt k v, o = Some vt -> vt !! k = Some v -> GoInt.inRange v.

Definition ctxOK {RS : RandSource} (r : RD) : Prop :=
  vtOK (ValueTable r) /\ (forall k v, temp r !! k = Some v -> GoInt.inRange v).

(** What a computation started in [r] guarantees: [P] of its value, an
    error that is one, a context that is still in range, and the result
    record untouched. *)
Definition post {RS : RandSource} {A : Type} (P : A -> Prop) (r : RD)
    (o : option (Outcome A)) : Prop :=
  match o with
  | Some (Ok a r') => P a /\ ctxOK r' /\ res r' = res r
  | Some (Fail e r') => e <> ErrNone /\ ctxOK r' /\ res r' = res r
  | None => True
  end.

(** What is asked of a nested evaluation. *)
Definition subOK {RS : RandSource} (sub : SubRoll) : Prop :=
  forall e vt g s, sub e vt g = Some s -> vtOK vt ->
    vtOK (ValueTable s)
    /\ (res_Error (res s) = ErrNone -> GoInt.inRange (res_Value (res s))).

(** A nested evaluation that returns whatever another one returns, and
    possibly more. *)
Definition extends {RS : RandSource} (sub sub' : SubRoll) : Prop :=
  forall e vt g x, sub e vt g = Some x -> sub' e vt g = Some x.

(** The sum of a list in [Z], without wrap-around. *)
Definition zsum (l : list Z) : Z := foldr Z.add 0 l.

(** The number of rolls that meet a threshold. *)
Definition hits (threshold : Z) (l : list Z) : Z :=
  Z.of_nat (length (filter (fun x => threshold <= x) l)).

(** The bytes of a string, and the concatenation of a token list. *)
Definition bytes (s : string) : list ascii := list_ascii_of_string s.

Definition concatTokens (toks : list string) : string :=
  foldr String.append EmptyString toks.

(** The tokens that [toRPN] copies to its output at once: integers,
    [$]-words, tuples, words that are no operator, string literals. *)
Definition isOperandTok (tok : string) : bool :=
  isInt tok || HasPrefixDollar tok || startsWith "[" tok
  || (negb (isOperator (ToLower tok)) && startsWithLetter tok)
  || enclosedBy dquote dquote tok.

(** What a token of a postfix program does to the height of the stack: an
    operand adds one value; the operators of three operands take two off,
    all others one. *)
Definition isOperandRPN (tok : string) : bool :=
  isInt tok || enclosedBy "[" "]" tok || enclosedBy dquote dquote tok
  || HasPrefixDollar tok.

Definition stackEffect (tok : string) : Z :=
  if isOperandRPN tok then 1
  else if eqs tok ":" || eqs tok "a_m" || eqs tok "c_m" then -2
  else -1.

(** The bytes of a decimal numeral. *)
Definition numeralByte (c : ascii) : Prop :=
  isDigit c = true \/ c = "-"%char \/ c = "+"%char.

(** * Properties *)

(** ** Go integers *)

Lemma two63 : 2 ^ 63 = 9223372036854775808.
Proof. reflexivity. Qed.

Lemma two64 : 2 ^ 64 = 18446744073709551616.
Proof. reflexivity. Qed.

Ltac goint :=
  unfold GoInt.inRange, GoInt.minInt, GoInt.maxInt, GoInt.wrap in *;
  rewrite ?two63, ?two64 in *.

Lemma wrap_range (z : Z) : GoInt.inRange (GoInt.wrap z).
Proof.
  goint.
  pose proof (Z.mod_pos_bound (z + 9223372036854775808) 18446744073709551616).
  lia.
Qed.

Lemma wrap_id (z : Z) : GoInt.inRange z -> GoInt.wrap z = z.
Proof. goint. intros H. rewrite Z.mod_small; lia. Qed.

Lemma quot_inRange (a b : Z) :
  GoInt.inRange a -> GoInt.inRange b -> b <> 0 ->
  a <> GoInt.minInt \/ b <> -1 ->
  GoInt.inRange (Z.quot a b).
Proof.
  intros Ha Hb Hb0 Hne.
  pose proof (Z.quot_rem' a b) as Hqr.
  pose proof (Z.rem_bound_abs a b Hb0) as Hr.
  pose proof (Z.rem_sign_mul a b Hb0) as Hs.
  goint. nia.
Qed.

Lemma sum_nil : GoInt.sum [] = 0.
Proof. reflexivity. Qed.

Lemma sum_singleton (v : Z) : GoInt.inRange v -> GoInt.sum [v] = v.
Proof. intros H. unfold GoInt.sum, GoInt.add. simpl. now apply wrap_id. Qed.

(** ** Decimal formatting *)

Lemma upper_string_of_uint (d : Decimal.uint) :
  ToUpper (NilEmpty.string_of_uint d) = NilEmpty.string_of_uint d.
Proof.
  unfold ToUpper.
  induction d; simpl; [reflexivity | rewrite IHd; reflexivity ..].
Qed.

Lemma ToUpper_Itoa (z : Z) : ToUpper (Itoa z) = Itoa z.
Proof.
  unfold Itoa, NilZero.string_of_int, NilZero.string_of_uint.
  pose proof upper_string_of_uint as Hu. unfold ToUpper in *.
  destruct (Z.to_int z) as [d|d]; destruct d; try reflexivity;
    simpl; rewrite ?Hu; reflexivity.
Qed.

Lemma tempKey_upper (idx : Z) : tempKey idx true = ("T" +:+ Itoa idx)%string.
Proof.
  unfold tempKey.
  change (ToUpper ("t" +:+ Itoa idx)) with (String "T" (ToUpper (Itoa idx))).
  now rewrite ToUpper_Itoa.
Qed.

(** ** Ternary dispatcher on the expressions of the test suite *)

Section TernaryExamples.

Context {RS : RandSource}.
Variables (now : Z) (g : rng_state) (k : nat).

Lemma ternary_avoids_error :
  resultOf (rollWith (4 + k) "1?1:(1/0)" None now g)
  = Some (mkResult 1 1 1 "1" None ErrNone).
Proof. vm_compute. reflexivity. Qed.

Lemma ternary_true_branch_write :
  exists r', rollWith (6 + k) "(1?($t1=5):($t1=6))+$t1" None now g = Some r'
             /\ res_Error (res r') = ErrNone
             /\ res_Value (res r') = 10
             /\ temp r' !! 1 = Some 5.
Proof. eexists; split; [vm_compute; reflexivity | vm_compute; auto]. Qed.

Lemma ternary_false_branch_write :
  exists r', rollWith (6 + k) "(0?($t1=5):($t1=6))+$t1" None now g = Some r'
             /\ res_Error (res r') = ErrNone
             /\ res_Value (res r') = 12
             /\ temp r' !! 1 = Some 6.
Proof. eexists; split; [vm_compute; reflexivity | vm_compute; auto]. Qed.

(** C1.  The dispatcher does not skip every unselected branch.  A
    parenthesised group inside a branch is folded before the ternary is
    looked at unless its opening parenthesis directly follows [?] or [:]:
    with a true condition, ["1?1:((1/0))"] and ["1?1:2+(1/0)"] both fail
    with the division error of the false branch, and ["1?1:2+($t1=6)"]
    evaluates to 1 but leaves 6 in temp index 1, a write of the false
    branch. *)
Theorem C1_unselected_branch_evaluated :
  resultOf (rollWith (5 + k) "1?1:((1/0))" None now g)
    = Some (mkResult 0 0 0 EmptyString None ErrNodeRightValInvalid)
  /\ resultOf (rollWith (5 + k) "1?1:2+(1/0)" None now g)
    = Some (mkResult 0 0 0 EmptyString None ErrNodeRightValInvalid)
  /\ exists r', rollWith (5 + k) "1?1:2+($t1=6)" None now g = Some r'
                /\ res_Error (res r') = ErrNone
                /\ res_Value (res r') = 1
                /\ temp r' !! 1 = Some 6.
Proof.
  split; [vm_compute; reflexivity|].
  split; [vm_compute; reflexivity|].
  eexists; split; [vm_compute; reflexivity | vm_compute; auto].
Qed.

End TernaryExamples.

(** ** Percentile operators *)

Section Percentile.

Context {RS : RandSource}.

Lemma rollMany_range (n : nat) (sides : Z) (g : rng_state) :
  0 < sides -> Forall (fun x => 0 <= x < sides) (fst (rollMany n sides (fun x => x) g)).
Proof.
  intros Hs. revert g. induction n as [|n IH]; intros g; simpl; [constructor|].
  pose proof (Intn_range sides g Hs) as Hx.
  destruct (Intn sides g) as [x g1]. specialize (IH g1).
  destruct (rollMany n sides _ g1) as [xs g2]. simpl in *. constructor; auto.
Qed.

Lemma minOf_elem (P : Z -> Prop) (rest : list Z) : forall r0,
  P r0 -> Forall P rest -> P (minOf r0 rest).
Proof.
  unfold minOf. induction rest as [|v rest IH]; intros r0 H0 Hr; simpl; [exact H0|].
  inversion Hr; subst. apply IH; [|assumption]. destruct (v <? r0); assumption.
Qed.

Lemma maxOf_elem (P : Z -> Prop) (rest : list Z) : forall r0,
  P r0 -> Forall P rest -> P (maxOf r0 rest).
Proof.
  unfold maxOf. induction rest as [|v rest IH]; intros r0 H0 Hr; simpl; [exact H0|].
  inversion Hr; subst. apply IH; [|assumption]. destruct (r0 <? v); assumption.
Qed.

(** The value of [b] and [p] lies in [[0, 100]]; it is 100 exactly when
    the two digits first rolled are both 0. *)
Lemma percentile_value (k : PercKind) (param : Z) (r : RD) :
  exists v r', percentile k param r = Some (Ok v r')
    /\ 0 <= V v <= 100
    /\ (V v = 100 <->
        fst (Intn 10 (rng r)) = 0 /\ fst (Intn 10 (snd (Intn 10 (rng r)))) = 0).
Proof.
  unfold percentile, bind, rollIntn, rollManyM, ret.
  pose proof (Intn_range 10 (rng r) ltac:(lia)) as Ht.
  destruct (Intn 10 (rng r)) as [tens g1]. cbn [rng setRng fst snd] in *.
  pose proof (Intn_range 10 g1 ltac:(lia)) as Hu.
  destruct (Intn 10 g1) as [units g2]. cbn [rng setRng fst snd] in *.
  pose proof (rollMany_range (Z.to_nat param) 10 g2 ltac:(lia)) as Hr.
  destruct (rollMany _ 10 _ g2) as [rolls g3]. cbn [rng setRng fst snd] in *.
  eexists _, _. split; [reflexivity|]. cbn [V listValue].
  destruct ((tens =? 0) && (units =? 0)) eqn:E.
  - apply andb_true_iff in E. destruct E as [E1 E2].
    apply Z.eqb_eq in E1, E2. split; [lia|]. tauto.
  - set (t' := match rolls with [] => tens | r0 :: rest => _ end).
    assert (Ht' : 0 <= t' < 10).
    { subst t'. destruct rolls as [|r0 rest]; [exact Ht|].
      inversion Hr; subst.
      destruct k; [apply (minOf_elem (fun x => 0 <= x < 10))
                  | apply (maxOf_elem (fun x => 0 <= x < 10))]; assumption. }
    unfold GoInt.add, GoInt.mul.
    rewrite (wrap_id (t' * 10)) by (goint; lia).
    rewrite wrap_id by (goint; lia).
    apply andb_false_iff in E. rewrite !Z.eqb_neq in E.
    split; [lia|]. split; [lia|]. intros [-> ->]. destruct E; congruence.
Qed.

End Percentile.

(** C3.  The value of [b] and [p] can be 0: when the tens digit first
    rolled is not 0, the units digit is 0 and the extra digits are all 0,
    the tens digit is replaced by 0 after the test for the double zero, and
    the result is [0*10+0].  The stream of draws 5, 0, 0, 0, 0 shows it for
    ["1b3"] and ["1p3"]. *)
Theorem C3_percentile_value_zero :
  forall k : nat,
  resultOf (rollWith (RS := ListRand) (2 + k) "1b3" None 0 [5; 0; 0; 0; 0])
    = Some (mkResult 0 0 0 "0 [0,0,0,0,0]"
                     (Some [MInt 0; MInt 0; MInt 0; MInt 0; MInt 0]) ErrNone)
  /\ resultOf (rollWith (RS := ListRand) (2 + k) "1p3" None 0 [5; 0; 0; 0; 0])
    = Some (mkResult 0 0 0 "0 [0,0,0,0,0]"
                     (Some [MInt 0; MInt 0; MInt 0; MInt 0; MInt 0]) ErrNone).
Proof. intros k. split; vm_compute; reflexivity. Qed.

(** ** Assignment to a temp variable *)

Section Assignment.

Context {RS : RandSource}.

Lemma applyOp_assign (sub : SubRoll) (fuel : nat) (st : list Value) :
  applyOp sub fuel "=" st = assignOp st.
Proof. reflexivity. Qed.

Lemma assignTemp_temp (idx v : Z) (r : RD) :
  temp (assignTemp idx v r) !! idx = Some v.
Proof. unfold assignTemp. simpl. apply lookup_insert_eq. Qed.

Lemma assignTemp_table (idx v : Z) (r : RD) :
  exists vt, ValueTable (assignTemp idx v r) = Some vt
             /\ vt !! ("T" +:+ Itoa idx)%string = Some v.
Proof.
  unfold assignTemp, setValueTable. cbn [ValueTable].
  eexists; split; [reflexivity|].
  rewrite <- tempKey_upper. apply lookup_insert_eq.
Qed.

(** C5.  ["$t=7+$t"], evaluated with no variable table or with an empty
    one, yields 14 and leaves 7 in temp index 1 and under ["T1"] in the
    variable table.  In general [=] fails with the invalid-left error when
    its left operand is not a temp reference; otherwise it pushes the plain
    value of its right operand, stores it in the temp store at the index of
    the reference, and stores it in the variable table under
    ["T" ++ Itoa index]. *)
Theorem C5_temp_assignment :
  (forall (vt : option (gmap string Z)) now g k,
      vt = None \/ vt = Some ∅ ->
      exists r' vt', rollWith (3 + k) "$t=7+$t" vt now g = Some r'
                 /\ res_Error (res r') = ErrNone
                 /\ res_Value (res r') = 14
                 /\ temp r' !! 1 = Some 7
                 /\ ValueTable r' = Some vt'
                 /\ vt' !! "T1"%string = Some 7)
  /\ (forall sub fuel left right st r,
        applyOp sub fuel "=" (right :: left :: st) r
        = if IsTemp left
          then Some (Ok (scalar (V right) :: st)
                        (assignTemp (TempIndex left) (V right) r))
          else Some (Fail ErrNodeLeftValInvalid r))
  /\ (forall idx v r,
        temp (assignTemp idx v r) !! idx = Some v
        /\ exists vt, ValueTable (assignTemp idx v r) = Some vt
                      /\ vt !! ("T" +:+ Itoa idx)%string = Some v).
Proof.
  split; [|split].
  - intros vt now g k [-> | ->];
      do 2 eexists; (split; [vm_compute; reflexivity | vm_compute; auto 10]).
  - intros. rewrite applyOp_assign. unfold assignOp, pop2.
    destruct (IsTemp left); reflexivity.
  - intros. split; [apply assignTemp_temp | apply assignTemp_table].
Qed.

End Assignment.

Lemma C5_temp_assignment_witness :
  exists r' vt', rollWith (RS := ListRand) 3 "$t=7+$t" None 0 [] = Some r'
                 /\ res_Error (res r') = ErrNone
                 /\ res_Value (res r') = 14
                 /\ temp r' !! 1 = Some 7
                 /\ ValueTable r' = Some vt'
                 /\ vt' !! "T1"%string = Some 7.
Proof.
  exact (proj1 (C5_temp_assignment (RS := ListRand)) None 0 [] 0%nat
               (or_introl eq_refl)).
Defined.

(** ** Integer division *)

Section Division.

Context {RS : RandSource}.

Lemma applyOp_quo (sub : SubRoll) (fuel : nat) (va vb : Value) (st : list Value) (r : RD) :
  applyOp sub fuel "/" (vb :: va :: st) r
  = if V vb =? 0 then Some (Fail ErrNodeRightValInvalid r)
    else Some (Ok (scalar (GoInt.quo (V va) (V vb)) :: st) r).
Proof.
  change (applyOp sub fuel "/" (vb :: va :: st) r)
    with ((if V vb =? 0 then fail ErrNodeRightValInvalid
           else ret (scalar (GoInt.quo (V va) (V vb)) :: st)) r).
  destruct (V vb =? 0); reflexivity.
Qed.

Lemma quo_truncates (a b : Z) :
  GoInt.inRange a -> GoInt.inRange b -> b <> 0 ->
  a <> GoInt.minInt \/ b <> -1 ->
  GoInt.quo a b = Z.quot a b.
Proof. intros. unfold GoInt.quo. apply wrap_id. now apply quot_inRange. Qed.

Lemma neg_quo (a b : Z) :
  GoInt.inRange a -> GoInt.inRange b -> b <> 0 -> a <> GoInt.minInt ->
  GoInt.quo (GoInt.sub 0 a) b = GoInt.sub 0 (GoInt.quo a b).
Proof.
  intros Ha Hb Hb0 Hmin.
  rewrite (quo_truncates a b) by auto.
  unfold GoInt.quo, GoInt.sub.
  rewrite (wrap_id (0 - a)) by (goint; lia).
  f_equal. rewrite !Z.sub_0_l. now apply Z.quot_opp_l.
Qed.

(** C10 (amended).  [/] fails with the invalid-right error on a zero
    divisor and otherwise pushes [GoInt.quo a b].  For operands in the range
    of [int] with [b <> 0] this is the quotient truncated toward zero
    ([Z.quot]), except for [minInt / -1], which overflows; and
    [(0-a)/b = 0-(a/b)] for every [a] other than [minInt].  ["(0-7)/2"]
    evaluates to -3. *)
Theorem C10_division_truncates (a b : Z) :
  GoInt.inRange a -> GoInt.inRange b -> b <> 0 ->
  (forall sub fuel va vb st r,
      V va = a -> V vb = b ->
      applyOp sub fuel "/" (vb :: va :: st) r
      = Some (Ok (scalar (GoInt.quo a b) :: st) r))
  /\ (a <> GoInt.minInt \/ b <> -1 -> GoInt.quo a b = Z.quot a b)
  /\ (a <> GoInt.minInt ->
      GoInt.quo (GoInt.sub 0 a) b = GoInt.sub 0 (GoInt.quo a b))
  /\ (forall now g k,
        resultOf (rollWith (3 + k) "(0-7)/2" None now g)
        = Some (mkResult (-3) (-3) (-3) "-3" None ErrNone)).
Proof.
  intros Ha Hb Hb0. split; [|split; [|split]].
  - intros sub fuel va vb st r <- <-. rewrite applyOp_quo.
    destruct (V vb =? 0) eqn:E; [lia | reflexivity].
  - intros. now apply quo_truncates.
  - intros. now apply neg_quo.
  - intros. vm_compute. reflexivity.
Qed.

End Division.

Lemma C10_division_truncates_witness :
  GoInt.quo (-7) 2 = Z.quot (-7) 2
  /\ GoInt.quo (GoInt.sub 0 (-7)) 2 = GoInt.sub 0 (GoInt.quo (-7) 2).
Proof.
  assert (Ha : GoInt.inRange (-7)) by (goint; lia).
  assert (Hb : GoInt.inRange 2) by (goint; lia).
  assert (Hb0 : 2 <> 0) by lia.
  destruct (C10_division_truncates (RS := ListRand) (-7) 2 Ha Hb Hb0)
    as (_ & H2 & H3 & _).
  split; [apply H2; left | apply H3]; unfold GoInt.minInt; lia.
Defined.

(** The sign law fails at the most negative [int]: [0-a] wraps to [a]
    itself, so [(0-a)/2] is [-2^62] while [0-(a/2)] is [2^62]. *)
Lemma C10_counterexample :
  let a := "(0-9223372036854775807-1)"%string in
  (res_Value <$> resultOf (rollWith (RS := ListRand) 6 ("(0-" +:+ a +:+ ")/2") None 0 []))
    = Some (-4611686018427387904)
  /\ (res_Value <$> resultOf (rollWith (RS := ListRand) 6 ("0-(" +:+ a +:+ "/2)") None 0 []))
    = Some 4611686018427387904
  /\ GoInt.quo (GoInt.sub 0 GoInt.minInt) 2 <> GoInt.sub 0 (GoInt.quo GoInt.minInt 2).
Proof. split; [|split]; vm_compute; [reflexivity | reflexivity | discriminate]. Qed.

(** ** [min] and [max] *)

Section Clamp.

Context {RS : RandSource}.

Lemma applyOp_clamp (sub : SubRoll) (fuel : nat) (isMax : bool) (st : list Value) :
  applyOp sub fuel (clampTok isMax) st = clampOp isMax st.
Proof. destruct isMax; reflexivity. Qed.

Lemma resolve_plain (sub : SubRoll) (left : Value) (r : RD) :
  MetaEnable left = false \/ Meta left <> None ->
  resolveMetaValues sub left r
  = Some (Ok (Some (if MetaEnable left then metaList left else [V left])) r).
Proof.
  unfold resolveMetaValues, metaList.
  destruct (MetaEnable left); simpl; [|reflexivity].
  destruct (Meta left); [reflexivity|]. intros [H|H]; [discriminate | congruence].
Qed.

(** C9 (amended).  For [n > 0], [min] and [max] always push a value with
    meta enabled whose meta list is the operand list clamped element by
    element.  A bare scalar yields a one-element list; for a scalar or an
    integer-list operand the length of the meta list is the length of the
    resolved operand.  A string-list operand (meta enabled, no integer
    meta) is not resolved: the result is the empty meta list with value 0.
    ["3min5"] evaluates to 5 with meta [[5]]. *)
Theorem C9_clamp_meta (sub : SubRoll) (fuel : nat) (isMax : bool)
    (left param : Value) (st : list Value) (r : RD) :
  0 < V param ->
  (exists v,
      applyOp sub fuel (clampTok isMax) (param :: left :: st) r = Some (Ok (v :: st) r)
      /\ MetaEnable v = true
      /\ Meta v = Some (clampOne isMax (V param) <$> clampOperand left)
      /\ V v = GoInt.sum (metaList v)
      /\ (MetaEnable left = false ->
          Meta v = Some [clampOne isMax (V param) (V left)])
      /\ (MetaEnable left = false \/ Meta left <> None ->
          exists rolls,
            resolveMetaValues sub left r = Some (Ok (Some rolls) r)
            /\ length (metaList v) = length rolls)
      /\ (MetaEnable left = true -> Meta left = None ->
          Meta v = Some [] /\ V v = 0))
  /\ (forall now g k,
        resultOf (rollWith (3 + k) "3min5" None now g)
        = Some (mkResult 5 5 5 "5 [5]" (Some [MInt 5]) ErrNone)).
Proof.
  intros Hn. split.
  - rewrite applyOp_clamp. unfold clampOp, pop2.
    destruct (V param <=? 0) eqn:E; [lia|].
    eexists. split; [reflexivity|]. unfold metaList, listValue. simpl.
    repeat split.
    + intros H. unfold clampOperand. now rewrite H.
    + intros H. rewrite (resolve_plain sub left r H).
      eexists; split; [reflexivity|].
      rewrite length_fmap. unfold clampOperand. reflexivity.
    + unfold clampOperand, metaList. rewrite H, H0. reflexivity.
    + unfold clampOperand, metaList. rewrite H, H0. reflexivity.
  - intros. vm_compute. reflexivity.
Qed.

End Clamp.

Lemma C9_clamp_meta_witness :
  exists v,
    applyOp (RS := ListRand) (fun _ _ _ => None) 0 "min" [scalar 5; scalar 3]
            (listRD "3min5" [])
    = Some (Ok [v] (listRD "3min5" []))
    /\ MetaEnable v = true /\ Meta v = Some [5].
Proof.
  assert (Hn : 0 < V (scalar 5)) by (simpl; lia).
  destruct (C9_clamp_meta (RS := ListRand) (fun _ _ _ => None) 0 false
              (scalar 3) (scalar 5) [] (listRD "3min5" []) Hn)
    as [(v & Hv & Hen & Hmeta & _) _].
  exists v. split; [exact Hv|]. split; [exact Hen|]. exact Hmeta.
Defined.

(** A tuple with a sub-expression element resolves to two values under
    [resolveMetaValues] (so [kh] sees two elements), but [max] pushes an
    empty meta list for it. *)
Lemma C9_counterexample :
  let sub : SubRoll (RS := ListRand) := fun e vt g => Roll 4 (NewSharing e vt g) in
  let r := listRD "[1d1,2]max3" [] in
  let left := tupleValue "[1d1,2]" in
  resolveMetaValues sub left r = Some (Ok (Some [1; 2]) r)
  /\ applyOp sub 4 "max" [scalar 3; left] r = Some (Ok [listValue 0 [] true] r)
  /\ resultOf (rollWith (RS := ListRand) 6 "[1d1,2]max3" None 0 [])
     = Some (mkResult 0 0 0 "0 []" (Some []) ErrNone).
Proof. split; [|split]; vm_compute; reflexivity. Qed.

(** ** Keep and drop *)

#[local] Instance Zge_total : Total Z.ge.
Proof. intros x y. lia. Qed.

Lemma sortDesc_sorted (l : list Z) : Sorted Z.ge (sortDesc l).
Proof. apply (Sorted_merge_sort Z.ge). Qed.

Lemma sortDesc_perm (l : list Z) : sortDesc l ≡ₚ l.
Proof. apply merge_sort_Permutation. Qed.

Lemma sortAsc_sorted (l : list Z) : Sorted Z.le (sortAsc l).
Proof. apply (Sorted_merge_sort Z.le). Qed.

Lemma sortAsc_perm (l : list Z) : sortAsc l ≡ₚ l.
Proof. apply merge_sort_Permutation. Qed.

Lemma sortDesc_length (l : list Z) : length (sortDesc l) = length l.
Proof. apply Permutation_length, sortDesc_perm. Qed.

Lemma sortAsc_length (l : list Z) : length (sortAsc l) = length l.
Proof. apply Permutation_length, sortAsc_perm. Qed.

Lemma selectFromMeta_spec (mode : SelMode) (n : Z) (src : list Z) :
  0 < n ->
  selectFromMeta src n (Some mode)
  = (spec_kept mode n src, GoInt.sum (spec_kept mode n src)).
Proof.
  intros Hn. unfold selectFromMeta, spec_kept.
  destruct src as [|x src'] eqn:Hsrc.
  { change (sortDesc []) with (@nil Z). change (sortAsc []) with (@nil Z).
    destruct mode; rewrite ?take_nil, ?drop_nil; reflexivity. }
  rewrite <- Hsrc. clear Hsrc x src'.
  pose proof (sortDesc_length src) as Hd. pose proof (sortAsc_length src) as Ha.
  destruct mode.
  - destruct (Z.of_nat (length src) <? n) eqn:E; [|reflexivity].
    rewrite Nat2Z.id, !take_ge by lia. reflexivity.
  - destruct (Z.of_nat (length src) <? n) eqn:E; [|reflexivity].
    rewrite Nat2Z.id, !take_ge by lia. reflexivity.
  - destruct (Z.of_nat (length src) <=? n) eqn:E; [|reflexivity].
    rewrite drop_ge by lia. reflexivity.
  - destruct (Z.of_nat (length src) <=? n) eqn:E; [|reflexivity].
    rewrite drop_ge by lia. reflexivity.
Qed.

Section Select.

Context {RS : RandSource}.

Lemma applyOp_select (sub : SubRoll) (fuel : nat) (mode : SelMode) (st : list Value) :
  applyOp sub fuel (modeTok mode) st = selectOp sub (modeTok mode) st.
Proof. destruct mode; reflexivity. Qed.

Lemma modeOf_modeTok (mode : SelMode) : modeOf (modeTok mode) = Some mode.
Proof. destruct mode; reflexivity. Qed.

(** C6.  For [kh], [kl], [dh], [dl] with right operand [n]: [n <= 0] is the
    invalid-right error; an operand that does not resolve, or resolves to
    the empty list, is the invalid-left error; otherwise the operator pushes
    the list kept by "sort, then keep or drop the first [n]" with the sum
    of that list as its value.  The sorts are sorted permutations of the
    operand; keeping more than there is keeps all, dropping at least as
    many as there are leaves nothing.  A bare scalar resolves to the
    one-element list of its value; ["5kh3"] evaluates to 5 with meta
    [[5]]. *)
Theorem C6_keep_drop (sub : SubRoll) (fuel : nat) (mode : SelMode)
    (left param : Value) (st : list Value) (r : RD) :
  let run := applyOp sub fuel (modeTok mode) (param :: left :: st) r in
  (V param <= 0 -> run = Some (Fail ErrNodeRightValInvalid r))
  /\ (0 < V param ->
      forall rolls r',
        resolveMetaValues sub left r = Some (Ok (Some rolls) r') ->
        run = match rolls with
              | [] => Some (Fail ErrNodeLeftValInvalid r')
              | _ =>
                  let kept := spec_kept mode (V param) rolls in
                  Some (Ok (listValue (GoInt.sum kept) kept (nonEmpty kept) :: st) r')
              end)
  /\ (0 < V param ->
      forall r',
        resolveMetaValues sub left r = Some (Ok None r') ->
        run = Some (Fail ErrNodeLeftValInvalid r'))
  /\ (MetaEnable left = false ->
      resolveMetaValues sub left r = Some (Ok (Some [V left]) r))
  /\ (forall l : list Z,
        Sorted Z.ge (sortDesc l) /\ sortDesc l ≡ₚ l
        /\ Sorted Z.le (sortAsc l) /\ sortAsc l ≡ₚ l)
  /\ (forall (l : list Z) (n : Z),
        Z.of_nat (length l) <= n ->
        spec_kept KH n l = sortDesc l /\ spec_kept KL n l = sortAsc l
        /\ spec_kept DH n l = [] /\ spec_kept DL n l = [])
  /\ (forall now g k,
        resultOf (rollWith (3 + k) "5kh3" None now g)
        = Some (mkResult 5 5 5 "5 [5]" (Some [MInt 5]) ErrNone)).
Proof.
  intros run. subst run. rewrite applyOp_select.
  unfold selectOp, pop2, bind. rewrite modeOf_modeTok.
  split; [|split; [|split; [|split; [|split; [|split]]]]].
  - intros Hn. destruct (V param <=? 0) eqn:E; [reflexivity | lia].
  - intros Hn rolls r' Hres. destruct (V param <=? 0) eqn:E; [lia|].
    rewrite Hres. destruct rolls as [|x rolls']; [reflexivity|].
    rewrite selectFromMeta_spec by lia. reflexivity.
  - intros Hn r' Hres. destruct (V param <=? 0) eqn:E; [lia|].
    rewrite Hres. reflexivity.
  - intros H. unfold resolveMetaValues. rewrite H. reflexivity.
  - intros l. auto using sortDesc_sorted, sortDesc_perm, sortAsc_sorted, sortAsc_perm.
  - intros l n Hl. unfold spec_kept.
    pose proof (sortDesc_length l). pose proof (sortAsc_length l).
    rewrite !take_ge, !drop_ge by lia. auto.
  - intros. vm_compute. reflexivity.
Qed.

End Select.

Lemma C6_keep_drop_witness :
  applyOp (RS := ListRand) (fun _ _ _ => None) 0 "kh"
          [scalar 2; listValue 0 [4; 2; 6] true] (listRD "[4,2,6]kh2" [])
  = Some (Ok [listValue 10 [6; 4] true] (listRD "[4,2,6]kh2" []))
  /\ applyOp (RS := ListRand) (fun _ _ _ => None) 0 "dl"
          [scalar 0; scalar 5] (listRD "5dl0" [])
     = Some (Fail ErrNodeRightValInvalid (listRD "5dl0" [])).
Proof.
  split.
  - assert (Hn : 0 < V (scalar 2)) by (simpl; lia).
    destruct (C6_keep_drop (RS := ListRand) (fun _ _ _ => None) 0 KH
                (listValue 0 [4; 2; 6] true) (scalar 2) [] (listRD "[4,2,6]kh2" []))
      as (_ & H & _).
    exact (H Hn [4; 2; 6] (listRD "[4,2,6]kh2" []) eq_refl).
  - assert (Hn : V (scalar 0) <= 0) by (simpl; lia).
    destruct (C6_keep_drop (RS := ListRand) (fun _ _ _ => None) 0 DL
                (scalar 5) (scalar 0) [] (listRD "5dl0" []))
      as (H & _).
    exact (H Hn).
Defined.

(** ** Chain operators *)

Section Chain.

Context {RS : RandSource}.

Lemma roll_plus_one (m : Z) (g : rng_state) :
  0 < m <= 10000 ->
  GoInt.add (fst (Intn m g)) 1 = fst (Intn m g) + 1
  /\ 1 <= fst (Intn m g) + 1 <= m.
Proof.
  intros Hm. pose proof (Intn_range m g ltac:(lia)) as Hr.
  split; [|lia]. unfold GoInt.add. apply wrap_id. goint. lia.
Qed.

Lemma chainRoundA_spec (cur : nat) (m threshold n0 t0 : Z) (g : rng_state) :
  0 <= n0 -> n0 + Z.of_nat cur <= 20000 ->
  let '(rolls, n, _, _) := chainRoundA cur m threshold n0 t0 g in
  length rolls = cur /\ n0 <= n <= n0 + Z.of_nat cur.
Proof.
  revert n0 t0 g. induction cur as [|cur IH]; intros n0 t0 g H0 Hb; simpl.
  - split; [reflexivity | lia].
  - destruct (Intn m g) as [x g1].
    set (rnum := GoInt.add x 1).
    set (n1 := if threshold <=? rnum then GoInt.add n0 1 else n0).
    set (t1 := if threshold <=? rnum then GoInt.add t0 1 else t0).
    assert (Hn1 : n0 <= n1 <= n0 + 1).
    { subst n1. destruct (threshold <=? rnum); [|lia].
      unfold GoInt.add. rewrite wrap_id by (goint; lia). lia. }
    specialize (IH n1 t1 g1 ltac:(lia) ltac:(lia)).
    destruct (chainRoundA cur m threshold n1 t1 g1) as [[[rolls n] t] g2].
    destruct IH as [Hl Hn]. simpl. split; [congruence | lia].
Qed.

Lemma chainRoundC_spec (cur : nat) (m threshold n0 mx0 : Z) (g : rng_state) :
  0 <= n0 -> n0 + Z.of_nat cur <= 20000 ->
  let '(rolls, n, _, _) := chainRoundC cur m threshold n0 mx0 g in
  length rolls = cur /\ n0 <= n <= n0 + Z.of_nat cur.
Proof.
  revert n0 mx0 g. induction cur as [|cur IH]; intros n0 mx0 g H0 Hb; simpl.
  - split; [reflexivity | lia].
  - destruct (Intn m g) as [x g1].
    set (rnum := GoInt.add x 1).
    set (mx1 := if mx0 <? rnum then rnum else mx0).
    set (n1 := if threshold <=? rnum then GoInt.add n0 1 else n0).
    assert (Hn1 : n0 <= n1 <= n0 + 1).
    { subst n1. destruct (threshold <=? rnum); [|lia].
      unfold GoInt.add. rewrite wrap_id by (goint; lia). lia. }
    specialize (IH n1 mx1 g1 ltac:(lia) ltac:(lia)).
    destruct (chainRoundC cur m threshold n1 mx1 g1) as [[[rolls n] t] g2].
    destruct IH as [Hl Hn]. simpl. split; [congruence | lia].
Qed.

(** The loop ends within [10001 - len(meta)] rounds, and a round that
    starts with at most 10000 rolls adds at most 10000. *)
Lemma chainLoop_terminates (k : ChainKind) (fuel : nat) (m threshold next total : Z)
    (meta : list Z) (g : rng_state) :
  next <= 10000 ->
  Z.of_nat (length meta) <= 10000 ->
  10001 - Z.of_nat (length meta) <= Z.of_nat fuel ->
  exists total' meta' g',
    chainLoop k fuel m threshold next total meta g = Some (total', meta', g')
    /\ Z.of_nat (length meta') <= 20000.
Proof.
  revert next total meta g.
  induction fuel as [|fuel IH]; intros next total meta g Hnext Hlen Hfuel; [lia|].
  destruct k; simpl.
  - destruct (0 <? next) eqn:E; [|do 3 eexists; split; [reflexivity | lia]].
    pose proof (chainRoundA_spec (Z.to_nat next) m threshold 0 total g
                  ltac:(lia) ltac:(lia)) as Hr.
    destruct (chainRoundA (Z.to_nat next) m threshold 0 total g)
      as [[[rolls n] t] g'].
    destruct Hr as [Hl Hn].
    assert (Hlen' : Z.of_nat (length (meta ++ rolls))
                    = Z.of_nat (length meta) + next)
      by (rewrite length_app, Hl; lia).
    destruct (10000 <? Z.of_nat (length (meta ++ rolls))) eqn:E2.
    + do 3 eexists; split; [reflexivity | lia].
    + apply (IH n t (meta ++ rolls) g'); lia.
  - destruct (0 <? next) eqn:E; [|do 3 eexists; split; [reflexivity | lia]].
    pose proof (chainRoundC_spec (Z.to_nat next) m threshold 0 0 g
                  ltac:(lia) ltac:(lia)) as Hr.
    destruct (chainRoundC (Z.to_nat next) m threshold 0 0 g)
      as [[[rolls n] mx] g'].
    destruct Hr as [Hl Hn].
    assert (Hlen' : Z.of_nat (length (meta ++ rolls))
                    = Z.of_nat (length meta) + next)
      by (rewrite length_app, Hl; lia).
    destruct (10000 <? Z.of_nat (length (meta ++ rolls))) eqn:E2.
    + do 3 eexists; split; [reflexivity | lia].
    + apply (IH n (GoInt.add total mx) (meta ++ rolls) g'); lia.
Qed.

Lemma chainOp_terminates (k : ChainKind) (fuel : nat) (times threshold m : Z) (r : RD) :
  times <= 10000 -> 10001 <= Z.of_nat fuel ->
  exists v r',
    chainOp fuel k times threshold m r = Some (Ok v r')
    /\ Z.of_nat (length (metaList v)) <= 20000.
Proof.
  intros Ht Hf. unfold chainOp.
  destruct (chainLoop_terminates k fuel m threshold times 0 [] (rng r))
    as (total & meta & g' & -> & Hl); simpl; try lia.
  do 2 eexists; split; [reflexivity | exact Hl].
Qed.

Lemma applyOp_chain2 (sub : SubRoll) (fuel : nat) (k : ChainKind) (st : list Value) :
  applyOp sub fuel (chainTok2 k) st = chain2Op fuel k st.
Proof. destruct k; reflexivity. Qed.

Lemma applyOp_chain3 (sub : SubRoll) (fuel : nat) (k : ChainKind) (st : list Value) :
  applyOp sub fuel (chainTok3 k) st = chain3Op fuel k st.
Proof. destruct k; reflexivity. Qed.

(** C4 (amended).  For in-domain operands each of [a], [c], [a_m], [c_m]
    terminates (10001 rounds of fuel are never used up) and pushes a value
    whose meta list has at most 20000 elements: the cap is tested after a
    whole round, so no round starts once more than 10000 rolls exist, and a
    round adds at most 10000. *)
Theorem C4_chain_terminates (sub : SubRoll) (fuel : nat) (k : ChainKind)
    (leftV rightV facesV : Value) (st : list Value) (r : RD) :
  0 <= V leftV <= 10000 ->
  0 < V rightV <= 10000 ->
  0 < V facesV <= 10000 ->
  10001 <= Z.of_nat fuel ->
  (exists v r',
      applyOp sub fuel (chainTok2 k) (rightV :: leftV :: st) r = Some (Ok (v :: st) r')
      /\ Z.of_nat (length (metaList v)) <= 20000)
  /\ (exists v r',
      applyOp sub fuel (chainTok3 k) (facesV :: rightV :: leftV :: st) r
      = Some (Ok (v :: st) r')
      /\ Z.of_nat (length (metaList v)) <= 20000).
Proof.
  intros Hl Hr Hm Hf. split.
  - rewrite applyOp_chain2. unfold chain2Op, pop2, bind.
    destruct ((V leftV <? 0) || (10000 <? V leftV)) eqn:E1; [lia|].
    destruct ((V rightV <=? 0) || (10000 <? V rightV)) eqn:E2; [lia|].
    destruct (chainOp_terminates k fuel (V leftV) (V rightV) 10 r)
      as (v & r' & -> & Hlen); try lia.
    do 2 eexists; split; [reflexivity | exact Hlen].
  - rewrite applyOp_chain3. unfold chain3Op, pop3, bind.
    destruct ((V leftV <? 0) || (10000 <? V leftV)) eqn:E1; [lia|].
    destruct ((V rightV <=? 0) || (10000 <? V rightV)) eqn:E2; [lia|].
    destruct ((V facesV <=? 0) || (10000 <? V facesV)) eqn:E3; [lia|].
    destruct (chainOp_terminates k fuel (V leftV) (V rightV) (V facesV) r)
      as (v & r' & -> & Hlen); try lia.
    do 2 eexists; split; [reflexivity | exact Hlen].
Qed.

(** With threshold 1 every die meets the threshold. *)
Lemma chainRoundA_all_hit (cur : nat) (m n0 t0 : Z) (g : rng_state) :
  0 < m <= 10000 -> 0 <= n0 -> n0 + Z.of_nat cur <= 20000 ->
  let '(rolls, n, _, _) := chainRoundA cur m 1 n0 t0 g in
  length rolls = cur /\ n = n0 + Z.of_nat cur.
Proof.
  intros Hm. revert n0 t0 g.
  induction cur as [|cur IH]; intros n0 t0 g H0 Hb; simpl.
  - split; [reflexivity | lia].
  - pose proof (roll_plus_one m g Hm) as [Hw Hrange].
    destruct (Intn m g) as [x g1]. simpl in Hw, Hrange. rewrite Hw.
    destruct (1 <=? x + 1) eqn:E; [|lia].
    assert (Hadd : GoInt.add n0 1 = n0 + 1)
      by (unfold GoInt.add; apply wrap_id; goint; lia).
    rewrite Hadd.
    specialize (IH (n0 + 1) (GoInt.add t0 1) g1 ltac:(lia) ltac:(lia)).
    destruct (chainRoundA cur m 1 (n0 + 1) (GoInt.add t0 1) g1) as [[[rolls n] t] g2].
    destruct IH as [Hl Hn]. simpl. split; [congruence | lia].
Qed.

Lemma chainLoopA_S (fuel : nat) (m threshold next total : Z) (meta : list Z)
    (g : rng_state) :
  0 < next ->
  chainLoopA (S fuel) m threshold next total meta g
  = let '(rolls, nx, total', g') := chainRoundA (Z.to_nat next) m threshold 0 total g in
    if 10000 <? Z.of_nat (length (meta ++ rolls))
    then Some (total', meta ++ rolls, g')
    else chainLoopA fuel m threshold nx total' (meta ++ rolls) g'.
Proof. intros H. simpl. destruct (0 <? next) eqn:E; [reflexivity | lia]. Qed.

Lemma chainLoopA_overshoot (m total : Z) (g : rng_state) :
  0 < m <= 10000 ->
  exists total' meta g',
    chainLoopA 2 m 1 10000 total [] g = Some (total', meta, g')
    /\ Z.of_nat (length meta) = 20000.
Proof.
  intros Hm. rewrite chainLoopA_S by lia.
  pose proof (chainRoundA_all_hit (Z.to_nat 10000) m 0 total g Hm
                ltac:(lia) ltac:(lia)) as H1.
  destruct (chainRoundA (Z.to_nat 10000) m 1 0 total g) as [[[rolls1 n1] t1] g1].
  destruct H1 as [Hl1 Hn1]. rewrite app_nil_l.
  destruct (10000 <? Z.of_nat (length rolls1)) eqn:E1; [lia|].
  replace n1 with 10000 by lia. clear Hn1 n1.
  rewrite chainLoopA_S by lia.
  pose proof (chainRoundA_all_hit (Z.to_nat 10000) m 0 t1 g1 Hm
                ltac:(lia) ltac:(lia)) as H2.
  destruct (chainRoundA (Z.to_nat 10000) m 1 0 t1 g1) as [[[rolls2 n2] t2] g2].
  destruct H2 as [Hl2 Hn2].
  assert (Hlen : Z.of_nat (length (rolls1 ++ rolls2)) = 20000)
    by (rewrite length_app; lia).
  destruct (10000 <? Z.of_nat (length (rolls1 ++ rolls2))) eqn:E2; [|lia].
  do 3 eexists; split; [reflexivity | exact Hlen].
Qed.

End Chain.

Lemma C4_chain_terminates_witness :
  exists v r',
    applyOp (RS := ListRand) (fun _ _ _ => None) (Z.to_nat 10001) "a"
            [scalar 5; scalar 3] (listRD "3a5" [1; 7; 8; 9; 2; 3; 4])
    = Some (Ok [v] r')
    /\ Z.of_nat (length (metaList v)) <= 20000.
Proof.
  assert (H1 : 0 <= V (scalar 3) <= 10000) by (simpl; lia).
  assert (H2 : 0 < V (scalar 5) <= 10000) by (simpl; lia).
  assert (H3 : 0 < V (scalar 10) <= 10000) by (simpl; lia).
  assert (H4 : 10001 <= Z.of_nat (Z.to_nat 10001)) by lia.
  exact (proj1 (C4_chain_terminates (RS := ListRand) (fun _ _ _ => None)
                  (Z.to_nat 10001) ChainA (scalar 3) (scalar 5) (scalar 10) []
                  (listRD "3a5" [1; 7; 8; 9; 2; 3; 4]) H1 H2 H3 H4)).
Defined.

(** ["10000a1"]: all 10000 dice of the first round meet the threshold, the
    cap is not yet exceeded, and a second round of 10000 is rolled. *)
Lemma C4_counterexample :
  exists v r',
    applyOp (RS := ListRand) (fun _ _ _ => None) 2 "a"
            [scalar 1; scalar 10000] (listRD "10000a1" [])
    = Some (Ok [v] r')
    /\ Z.of_nat (length (metaList v)) = 20000.
Proof.
  change (applyOp (RS := ListRand) (fun _ _ _ => None) 2 "a"
            [scalar 1; scalar 10000] (listRD "10000a1" []))
    with (bind (chainOp (RS := ListRand) 2 ChainA 10000 1 10)
               (fun v => ret [v]) (listRD "10000a1" [])).
  unfold bind, chainOp, chainLoop.
  destruct (chainLoopA_overshoot (RS := ListRand) 10 0 (rng (listRD "10000a1" [])))
    as (total & meta & g' & -> & Hlen); [lia|].
  do 2 eexists; split; [reflexivity | exact Hlen].
Qed.

(** ** Token preprocessor *)

Lemma last_app_cons {A} (l1 l2 : list A) (x : A) :
  last (l1 ++ x :: l2) = last (x :: l2).
Proof.
  induction l1 as [|y l1 IH]; [reflexivity|].
  simpl. destruct (l1 ++ x :: l2) eqn:E; [destruct l1; discriminate | exact IH].
Qed.

(** The lexer writes plain tokens only. *)
Lemma tokenByte_ascii (c : ascii) :
  isDigit c || isLetter c || isPunct c || eqc c "$" = true -> isASCIIByte c = true.
Proof.
  destruct c as [[] [] [] [] [] [] [] []]; vm_compute; congruence.
Qed.

Lemma spanBytes_ascii (p : ascii -> bool) :
  (forall c, p c = true -> isASCIIByte c = true) ->
  forall s a b, spanBytes p s = (a, b) -> isASCII a = true.
Proof.
  intros Hp. induction s as [|c s IH]; intros a b H; simpl in H.
  - now injection H as <- <-.
  - destruct (p c) eqn:E.
    + destruct (spanBytes p s) as [a' b'] eqn:Es. injection H as <- <-.
      simpl. rewrite (Hp c E). exact (IH a' b' eq_refl).
    + now injection H as <- <-.
Qed.

Lemma scanTuple_bracket (s tup rest : string) :
  scanTuple false 0 (String "[" s) = Some (tup, rest) ->
  exists body, tup = String "[" body.
Proof.
  cbn [scanTuple]. change (eqc "[" "[") with true. cbn iota.
  destruct (scanTuple false (0 + 1) s) as [[body r]|]; [|discriminate].
  intros H. injection H as <- <-. now exists body.
Qed.

Lemma tokenizeLoop_plain (fuel : nat) : forall s toks,
  tokenizeLoop fuel s = Some toks -> plainTokens toks.
Proof.
  induction fuel as [|fuel IH]; intros s toks H.
  - destruct s; [|discriminate]. injection H as <-. constructor.
  - destruct s as [|c s']; [injection H as <-; constructor|].
    cbn [tokenizeLoop] in H.
    assert (Hcons : forall tok rest,
              plainToken tok = true ->
              consTok tok (tokenizeLoop fuel rest) = Some toks -> plainTokens toks).
    { intros tok rest Hp Hc. unfold consTok in Hc.
      destruct (tokenizeLoop fuel rest) as [ts|] eqn:E; [|discriminate].
      injection Hc as <-. constructor; [exact Hp | exact (IH rest ts E)]. }
    assert (Hword : forall (p : ascii -> bool) w rest,
              (forall b, p b = true -> isASCIIByte b = true) ->
              isASCIIByte c = true -> spanBytes p s' = (w, rest) ->
              plainToken (String c w) = true).
    { intros p w rest Hp Hc Es. unfold plainToken. cbn [isASCII]. rewrite Hc.
      now rewrite (spanBytes_ascii p Hp s' w rest Es). }
    destruct (isBlank c); [exact (IH s' toks H)|].
    destruct (eqc c dquote) eqn:Eq.
    { destruct (scanString s') as [[body rest]|]; [|discriminate].
      apply (Hcons (String dquote (body +:+ String dquote EmptyString)) rest); [|exact H].
      unfold plainToken. change (eqc dquote dquote) with true.
      now rewrite orb_true_r. }
    destruct (isDigit c) eqn:Ed.
    { destruct (spanBytes isDigit s') as [ds rest] eqn:Es.
      apply (Hcons (String c ds) rest); [|exact H].
      apply (Hword isDigit ds rest); [| |exact Es].
      - intros b Hb. apply tokenByte_ascii. now rewrite Hb.
      - apply tokenByte_ascii. now rewrite Ed. }
    destruct (eqc c "[") eqn:Eb.
    { apply Ascii.eqb_eq in Eb. subst c.
      destruct (scanTuple false 0 (String "[" s')) as [[tup rest]|] eqn:Es; [|discriminate].
      destruct (scanTuple_bracket _ _ _ Es) as [body ->].
      apply (Hcons (String "[" body) rest); [|exact H].
      unfold plainToken. change (eqc "[" "[") with true.
      now rewrite !orb_true_r. }
    destruct (isPunct c) eqn:Ep.
    { apply (Hcons (String c EmptyString) s'); [|exact H].
      unfold plainToken. cbn [isASCII].
      rewrite (tokenByte_ascii c) by (rewrite Ep; now rewrite !orb_true_r).
      reflexivity. }
    destruct (eqc c "$") eqn:E4.
    { destruct (spanBytes _ s') as [w rest] eqn:Es.
      apply (Hcons (String c w) rest); [|exact H].
      apply (Hword (fun b => isLetter b || isDigit b) w rest); [| |exact Es].
      - intros b Hb. apply tokenByte_ascii.
        apply orb_true_iff in Hb as [Hb | Hb]; rewrite Hb; now rewrite ?orb_true_r.
      - apply tokenByte_ascii. rewrite E4. now rewrite !orb_true_r. }
    destruct (isLetter c) eqn:El; [|discriminate].
    destruct (spanBytes _ s') as [w rest] eqn:Es.
    apply (Hcons (String c w) rest); [|exact H].
    apply (Hword isLetter w rest); [| |exact Es].
    + intros b Hb. apply tokenByte_ascii. rewrite Hb. now rewrite !orb_true_r.
    + apply tokenByte_ascii. rewrite El. now rewrite !orb_true_r.
Qed.

Lemma tokenize_plain (s : string) (toks : list string) :
  tokenize s = Some toks -> plainTokens toks.
Proof. unfold tokenize. apply tokenizeLoop_plain. Qed.

Ltac eqs_table t :=
  repeat match goal with
  | |- context [eqs t ?s] =>
      let E := fresh "E" in
      destruct (eqs t s) eqn:E;
      [apply String.eqb_eq in E; subst t; reflexivity | clear E]
  end.

(** The operators of the code are those of the precedence table of the
    specification. *)
Lemma isOperator_spec (t : string) : isOperator t = existsb (eqs t) spec_operators.
Proof.
  unfold isOperator, prec, spec_operators. cbn [existsb].
  destruct (String.eqb_spec t t) as [_|N]; [|now contradiction N].
  generalize t. clear t. intros t. eqs_table t. reflexivity.
Qed.

Lemma needLeft_spec (out : list string) : needLeft out = noLeftOperand (last out).
Proof.
  unfold needLeft, noLeftOperand, spec_isOperator.
  destruct (last out) as [l|]; [|reflexivity]. now rewrite isOperator_spec.
Qed.

Lemma needRight_spec (rest : list string) : needRight rest = noRightOperand (head rest).
Proof.
  unfold needRight, noRightOperand, spec_isOperator.
  destruct rest as [|next rest']; [reflexivity|]. simpl. now rewrite isOperator_spec.
Qed.

Lemma leftDefault_spec (low : string) : leftDefault low = spec_leftLiteral low.
Proof.
  unfold leftDefault, spec_leftLiteral. cbn [existsb].
  generalize low. clear low. intros low. eqs_table low. reflexivity.
Qed.

Lemma rightDefault_spec (low : string) : rightDefault low = spec_rightLiteral low.
Proof.
  unfold rightDefault, spec_rightLiteral. cbn [existsb].
  generalize low. clear low. intros low. eqs_table low. reflexivity.
Qed.

Lemma notDiceWord_spec (low : string) :
  isDiceWord low = false -> spec_leftLiteral low = [] /\ spec_rightLiteral low = [].
Proof.
  unfold isDiceWord, spec_leftLiteral, spec_rightLiteral. cbn [existsb].
  generalize low. clear low. intros low.
  repeat match goal with
  | |- context [eqs low ?s] =>
      let E := fresh "E" in
      destruct (eqs low s) eqn:E;
      [apply String.eqb_eq in E; subst low; intros H; discriminate H | clear E]
  end.
  intros _. split; reflexivity.
Qed.

Lemma insertDefaults_spec (toks out : list string) :
  insertDefaults out toks = out ++ spec_defaults (last out) toks.
Proof.
  revert out. induction toks as [|tok rest IH]; intros out; simpl.
  - now rewrite app_nil_r.
  - rewrite needLeft_spec, needRight_spec, leftDefault_spec, rightDefault_spec.
    change (match rest with [] => None | x :: _ => Some x end) with (head rest).
    destruct (isDiceWord (ToLower tok)) eqn:Ed.
    + rewrite IH.
      set (l := if noLeftOperand (last out) then spec_leftLiteral (ToLower tok) else []).
      set (r := if noRightOperand (head rest) then spec_rightLiteral (ToLower tok) else []).
      assert (E : (if noRightOperand (head rest)
                   then ((if noLeftOperand (last out)
                          then out ++ spec_leftLiteral (ToLower tok) else out) ++ [tok])
                        ++ spec_rightLiteral (ToLower tok)
                   else (if noLeftOperand (last out)
                         then out ++ spec_leftLiteral (ToLower tok) else out) ++ [tok])
                  = out ++ l ++ tok :: r).
      { subst l r. destruct (noRightOperand (head rest)), (noLeftOperand (last out));
          rewrite <- ?app_assoc, ?app_nil_r; simpl; reflexivity. }
      rewrite E. rewrite <- !app_assoc. simpl.
      replace (last (out ++ l ++ tok :: r)) with (last (tok :: r))
        by (rewrite app_assoc; symmetry; apply last_app_cons).
      reflexivity.
    + destruct (notDiceWord_spec _ Ed) as [-> ->].
      rewrite IH, <- app_assoc.
      destruct (noLeftOperand (last out)), (noRightOperand (head rest));
        simpl; rewrite last_app_cons; reflexivity.
Qed.

(** The first emitted token is never a [d]: the [j == 0] branches of the
    last phase are not taken. *)
Lemma spec_defaults_head (toks : list string) :
  match spec_defaults None toks with
  | t :: _ => eqs (ToLower t) "d" = false
  | [] => True
  end.
Proof.
  destruct toks as [|tok rest]; simpl; [exact I|].
  unfold spec_leftLiteral. cbn [existsb].
  destruct (eqs (ToLower tok) "d") eqn:E; [reflexivity|].
  cbn [orb].
  destruct (eqs (ToLower tok) "b" || (eqs (ToLower tok) "p"
            || (eqs (ToLower tok) "a" || (eqs (ToLower tok) "c" || false))));
    [reflexivity|].
  destruct (eqs (ToLower tok) "f" || (eqs (ToLower tok) "df" || false));
    [reflexivity|]. simpl. exact E.
Qed.

Lemma rewriteChainM_head (out : list string) :
  head (rewriteChainM out) = head out.
Proof.
  destruct out as [|x0 [|x1 [|x2 [|x3 [|x4 rest]]]]]; try reflexivity.
  simpl. destruct (_ && _); reflexivity.
Qed.

Lemma defaultFaces_first (D : Z) (res : list string) :
  match res with
  | t :: _ => eqs (ToLower t) "d" = false
  | [] => True
  end ->
  defaultFaces true D res = defaultFaces false D res.
Proof. destruct res as [|t rest]; simpl; [reflexivity|]. intros ->. reflexivity. Qed.

Lemma preProcessTokens_spec (toks : list string) (D : Z) :
  preProcessTokens toks D
  = defaultFaces false D (rewriteChainM (spec_defaults None toks)).
Proof.
  unfold preProcessTokens. rewrite insertDefaults_spec. simpl.
  apply defaultFaces_first.
  pose proof (rewriteChainM_head (spec_defaults None toks)) as Hh.
  pose proof (spec_defaults_head toks) as Hs.
  destruct (rewriteChainM (spec_defaults None toks)) as [|t l];
    destruct (spec_defaults None toks) as [|t' l']; simpl in *; try exact I;
    try discriminate.
  now inversion Hh; subst.
Qed.

Section Preprocessor.

Context {RS : RandSource}.

Lemma getFromMetaTuple_ints (sub : SubRoll) (l acc : list Z) (fl fu : bool) (r : RD) :
  getFromMetaTuple sub (MInt <$> l) fl fu acc r = Some (acc ++ l, r).
Proof.
  revert acc. induction l as [|x l IH]; intros acc; simpl.
  - now rewrite app_nil_r.
  - rewrite IH, <- app_assoc. reflexivity.
Qed.

Lemma evalTokens_d (n : nat) (toks : list string) (r : RD) :
  DefaultFaces r = 100 ->
  toks = ["d"%string] \/ toks = ["d"%string; "%"%string]
  \/ toks = ["1"%string; "d"%string; "100"%string] ->
  evalTokens (S n) toks r
  = let '(xs, g') := rollMany 1 100 (fun x => GoInt.add x 1) (rng r) in
    Some (Ok (listValue (GoInt.sum xs) xs true) (setRng r g')).
Proof.
  intros HD Ht.
  assert (E : evalRPN (fun e vt g => Roll n (NewSharing e vt g)) (S n)
                ["1"%string; "100"%string; "d"%string] r
              = let '(xs, g') := rollMany 1 100 (fun x => GoInt.add x 1) (rng r) in
                Some (Ok (listValue (GoInt.sum xs) xs true) (setRng r g'))).
  { unfold evalRPN, evalRPNLoop, bind.
    change (step _ (S n) "1" [] r) with (Some (Ok [scalar 1] r)). cbv beta iota.
    change (step _ (S n) "100" [scalar 1] r) with (Some (Ok [scalar 100; scalar 1] r)).
    cbv beta iota.
    change (step _ (S n) "d" [scalar 100; scalar 1] r)
      with (bind (rollManyM 1 100 (fun x => GoInt.add x 1))
                 (fun rolls => ret [listValue (GoInt.sum rolls) rolls true]) r).
    unfold bind, rollManyM, ret.
    change (Z.to_nat 1) with 1%nat.
    destruct (rollMany 1 100 _ (rng r)) as [xs g']. reflexivity. }
  rewrite <- E. clear E. revert Ht.
  intros [-> | [-> | ->]].
  all: change (evalTokens (S n) ?t r)
         with (match toRPN (preProcessTokens t (DefaultFaces r)) with
               | None => Some (Fail ErrUnknownGenerate r)
               | Some rpn =>
                   evalRPN (fun e vt g => Roll n (NewSharing e vt g)) (S n) rpn r
               end).
  all: rewrite HD.
  all: reflexivity.
Qed.

Lemma RollBody_d (sub : SubRoll) (n : nat) (r : RD) (toks : list string) :
  DefaultFaces r = 100 ->
  tokenize (replaceVars r (origin r)) = Some toks ->
  toks = ["d"%string] \/ toks = ["d"%string; "%"%string]
  \/ toks = ["1"%string; "d"%string; "100"%string] ->
  RollBody sub (evalTokens (S n)) r
  = let '(xs, g') := rollMany 1 100 (fun x => GoInt.add x 1) (rng r) in
    let val := listValue (GoInt.sum xs) xs true in
    let r1 := setRng r g' in
    let r2 := setRes r1 (mkResult (V val) (V val) (V val)
                           (buildDetail
                              (setRes r1 (mkResult (V val) (V val) (V val)
                                            (res_Detail (res r1)) (res_MetaTuple (res r1))
                                            (res_Error (res r1)))) val)
                           (res_MetaTuple (res r1)) (res_Error (res r1))) in
    Some (setError (setMetaTuple r2 (Some (MInt <$> xs))) ErrNone).
Proof.
  intros HD Htok Ht. unfold RollBody. rewrite Htok.
  rewrite (evalTokens_d n toks r HD Ht).
  destruct (rollMany 1 100 _ (rng r)) as [xs g']. cbv zeta.
  cbn [MetaEnable MetaStr listValue metaList Meta default].
  rewrite getFromMetaTuple_ints. cbn [app].
  rewrite length_fmap, Nat.eqb_refl. reflexivity.
Qed.

Lemma roll_d_default (fuel : nat) (vt : option (gmap string Z)) (now : Z) (g : rng_state) :
  observe (rollWith fuel "d" vt now g) = observe (rollWith fuel "1d100" vt now g)
  /\ observe (rollWith fuel "d%" vt now g) = observe (rollWith fuel "1d100" vt now g).
Proof.
  destruct fuel as [|[|n]]; [split; reflexivity | |].
  - destruct vt; split; reflexivity.
  - unfold rollWith.
    change (Roll (S (S n)) ?r)
      with (RollBody (fun e vt g => Roll (S n) (NewSharing e vt g)) (evalTokens (S n)) r).
    assert (H1 : forall e toks,
               tokenize (replaceVars (setRng (New e vt now) g)
                           (origin (setRng (New e vt now) g))) = Some toks ->
               toks = ["d"%string] \/ toks = ["d"%string; "%"%string]
               \/ toks = ["1"%string; "d"%string; "100"%string] ->
               observe (RollBody (fun e vt g => Roll (S n) (NewSharing e vt g))
                          (evalTokens (S n)) (setRng (New e vt now) g))
               = observe (RollBody (fun e vt g => Roll (S n) (NewSharing e vt g))
                            (evalTokens (S n)) (setRng (New "1d100" vt now) g))).
    { intros e toks Htok Ht.
      rewrite (RollBody_d _ n (setRng (New e vt now) g) toks eq_refl Htok Ht).
      rewrite (RollBody_d _ n (setRng (New "1d100" vt now) g)
                 ["1"%string; "d"%string; "100"%string] eq_refl).
      - cbn [rng setRng New].
        destruct (rollMany 1 100 _ g) as [xs g']. reflexivity.
      - destruct vt; reflexivity.
      - auto. }
    split.
    + apply (H1 "d"%string ["d"%string]); [destruct vt; reflexivity | auto].
    + apply (H1 "d%"%string ["d"%string; "%"%string]); [destruct vt; reflexivity | auto].
Qed.

(** With fuel for one level of evaluation, ["d"] returns a result: no
    error, one die of the default 100 faces. *)
Lemma roll_d_returns (k : nat) (vt : option (gmap string Z)) (now : Z) (g : rng_state) :
  exists r', rollWith (2 + k) "d" vt now g = Some r'
             /\ res_Error (res r') = ErrNone
             /\ res_Value (res r') = fst (Intn 100 g) + 1
             /\ 1 <= res_Value (res r') <= 100
             /\ rng r' = snd (Intn 100 g).
Proof.
  unfold rollWith.
  change (Roll (2 + k) ?r)
    with (RollBody (fun e vt g => Roll (S k) (NewSharing e vt g)) (evalTokens (S k)) r).
  rewrite (RollBody_d _ k (setRng (New "d" vt now) g) ["d"%string] eq_refl);
    [|destruct vt; reflexivity | auto].
  cbn [rng setRng New rollMany].
  pose proof (Intn_range 100 g ltac:(lia)) as Hx.
  destruct (Intn 100 g) as [x g1]. cbn [fst snd] in *.
  assert (Hs : GoInt.sum [GoInt.add x 1] = x + 1).
  { unfold GoInt.add. rewrite (wrap_id (x + 1)) by (goint; lia).
    apply sum_singleton. goint. lia. }
  eexists. split; [reflexivity|].
  cbn [res setError setMetaTuple setRes setRng res_Error res_Value V listValue rng].
  rewrite Hs. split; [reflexivity|]. split; [reflexivity|]. split; [lia | reflexivity].
Qed.

(** C7.  Phase 1 of the preprocessor is the rule of the specification
    applied token by token ([spec_defaults], which is written from the
    specification and uses none of the code's tests): a token has no left
    operand at the start and after an operator, [(], [?] or [:], and no
    right operand at the end and before an operator, [)] or [:]; a [d],
    [b], [p], [a] or [c] with no left operand gets ["1"] and an [f] or [df]
    gets ["4"]; a [b] or [p] with no right operand gets ["1"] and an [f] or
    [df] gets ["3"]; no other token gets anything.  The last phase never
    has to supply a left operand; it rewrites [d %] to [d 100], gives a [d]
    with no right operand the default face count, which [New] sets to 100,
    and changes nothing else.  Hence ["d"] and ["d%"] evaluate as ["1d100"]
    does, on every stream: to one die of 100 faces.  The rules are stated
    for the token sequences the lexer can write ([plainTokens]: tokens of
    ASCII bytes, and string and tuple literals of any bytes). *)
Theorem C7_preprocessor_defaults :
  (forall s toks, tokenize s = Some toks -> plainTokens toks)
  /\ (forall toks, plainTokens toks -> insertDefaults [] toks = spec_defaults None toks)
  /\ ((forall t, isOperator t = existsb (eqs t) spec_operators)
      /\ (forall out, plainTokens out -> needLeft out = noLeftOperand (last out))
      /\ (forall rest, plainTokens rest -> needRight rest = noRightOperand (head rest))
      /\ (forall low, leftDefault low = spec_leftLiteral low)
      /\ (forall low, rightDefault low = spec_rightLiteral low))
  /\ (leftDefault "d" = ["1"%string] /\ leftDefault "b" = ["1"%string]
      /\ leftDefault "p" = ["1"%string] /\ leftDefault "a" = ["1"%string]
      /\ leftDefault "c" = ["1"%string] /\ leftDefault "f" = ["4"%string]
      /\ leftDefault "df" = ["4"%string])
  /\ (rightDefault "b" = ["1"%string] /\ rightDefault "p" = ["1"%string]
      /\ rightDefault "f" = ["3"%string] /\ rightDefault "df" = ["3"%string]
      /\ rightDefault "d" = [] /\ rightDefault "a" = [] /\ rightDefault "c" = [])
  /\ (forall D,
        preProcessTokens ["b"%string] D = ["1"%string; "b"%string; "1"%string]
        /\ preProcessTokens ["p"%string] D = ["1"%string; "p"%string; "1"%string]
        /\ preProcessTokens ["f"%string] D = ["4"%string; "f"%string; "3"%string]
        /\ preProcessTokens ["df"%string] D = ["4"%string; "df"%string; "3"%string]
        /\ preProcessTokens ["a"%string; "5"%string] D
           = ["1"%string; "a"%string; "5"%string]
        /\ preProcessTokens ["c"%string; "5"%string] D
           = ["1"%string; "c"%string; "5"%string]
        /\ preProcessTokens ["2"%string; "b"%string] D
           = ["2"%string; "b"%string; "1"%string]
        /\ preProcessTokens ["2"%string; "b"%string; "3"%string] D
           = ["2"%string; "b"%string; "3"%string]
        /\ preProcessTokens ["2"%string; "p"%string; "+"%string; "f"%string] D
           = ["2"%string; "p"%string; "1"%string; "+"%string; "4"%string; "f"%string;
              "3"%string]
        /\ preProcessTokens ["("%string; "b"%string; ")"%string; "*"%string; "2"%string] D
           = ["("%string; "1"%string; "b"%string; "1"%string; ")"%string; "*"%string;
              "2"%string]
        /\ preProcessTokens ["1"%string; "?"%string; "f"%string; ":"%string; "p"%string;
                             "2"%string] D
           = ["1"%string; "?"%string; "4"%string; "f"%string; "3"%string; ":"%string;
              "1"%string; "p"%string; "2"%string])
  /\ (forall toks D,
        plainTokens toks ->
        preProcessTokens toks D
        = defaultFaces false D (rewriteChainM (spec_defaults None toks)))
  /\ (forall D t rest,
        eqs (ToLower t) "d" = true ->
        defaultFaces false D (t :: "%"%string :: rest)
        = "d"%string :: "100"%string :: defaultFaces false D rest)
  /\ (forall D t rest,
        eqs (ToLower t) "d" = true -> noRightOperand (head rest) = true ->
        defaultFaces false D (t :: rest)
        = "d"%string :: Itoa D :: defaultFaces false D rest)
  /\ (forall D t rest,
        plainTokens (t :: rest) ->
        eqs (ToLower t) "d" = false
        \/ (noRightOperand (head rest) = false /\ head rest <> Some "%"%string) ->
        defaultFaces false D (t :: rest) = t :: defaultFaces false D rest)
  /\ (forall D,
        preProcessTokens ["d"%string] D = ["1"%string; "d"%string; Itoa D]
        /\ preProcessTokens ["d"%string; "%"%string] D
           = ["1"%string; "d"%string; "100"%string]
        /\ preProcessTokens ["1"%string; "d"%string; "100"%string] D
           = ["1"%string; "d"%string; "100"%string])
  /\ (forall expr vt now, DefaultFaces (New expr vt now) = 100)
  /\ (forall fuel vt now g,
        observe (rollWith fuel "d" vt now g) = observe (rollWith fuel "1d100" vt now g)
        /\ observe (rollWith fuel "d%" vt now g)
           = observe (rollWith fuel "1d100" vt now g))
  /\ (forall k vt now g,
        exists r', rollWith (2 + k) "d" vt now g = Some r'
                   /\ res_Error (res r') = ErrNone
                   /\ res_Value (res r') = fst (Intn 100 g) + 1).
Proof.
  split; [|split; [|split; [|split; [|split; [|split; [|split; [|split; [|split; [|split; [|split; [|split; [|split]]]]]]]]]]]].
  - exact tokenize_plain.
  - intros toks _. now rewrite insertDefaults_spec.
  - split; [exact isOperator_spec|]. split; [intros out _; apply needLeft_spec|].
    split; [intros rest _; apply needRight_spec|]. split; [exact leftDefault_spec|].
    exact rightDefault_spec.
  - repeat split.
  - repeat split.
  - intros D. repeat split.
  - intros toks D _. apply preProcessTokens_spec.
  - intros D t rest Ht. simpl. rewrite Ht. reflexivity.
  - intros D t rest Ht Hr. rewrite <- needRight_spec in Hr. simpl. rewrite Ht.
    destruct rest as [|next rest']; [reflexivity|].
    simpl in Hr. destruct (eqs next "%") eqn:E.
    + apply String.eqb_eq in E. subst next. discriminate.
    + rewrite Hr. reflexivity.
  - intros D t rest _ [Ht | [Hr Hp]]; simpl.
    + rewrite Ht. reflexivity.
    + rewrite <- needRight_spec in Hr.
      destruct (eqs (ToLower t) "d"); [|reflexivity].
      destruct rest as [|next rest']; [discriminate Hr|].
      simpl in Hr. destruct (eqs next "%") eqn:E.
      * apply String.eqb_eq in E. subst next. now contradiction Hp.
      * rewrite Hr. reflexivity.
  - intros D. repeat split.
  - reflexivity.
  - apply roll_d_default.
  - intros k vt now g.
    destruct (roll_d_returns k vt now g) as (r' & H1 & H2 & H3 & _).
    exists r'. auto.
Qed.

End Preprocessor.

Lemma C7_preprocessor_defaults_witness :
  defaultFaces false 100 ["2"%string; "D"%string; "%"%string; "+"%string; "d"%string]
  = ["2"%string; "d"%string; "100"%string; "+"%string; "d"%string; "100"%string]
  /\ insertDefaults [] ["("%string; "B"%string; ")"%string; "+"%string; "f"%string]
     = ["("%string; "1"%string; "B"%string; "1"%string; ")"%string; "+"%string;
        "4"%string; "f"%string; "3"%string]
  /\ defaultFaces false 6 ["2"%string; "d"%string; "8"%string; "+"%string; "d"%string]
     = ["2"%string; "d"%string; "8"%string; "+"%string; "d"%string; "6"%string].
Proof.
  destruct (C7_preprocessor_defaults (RS := ListRand))
    as (_ & Hins & _ & _ & _ & _ & _ & Hpct & Hdef & Hkeep & _).
  assert (Hplain : forall toks, forallb plainToken toks = true -> plainTokens toks).
  { intros toks H. apply List.Forall_forall. intros t Ht.
    exact (proj1 (forallb_forall plainToken toks) H t Ht). }
  split; [|split].
  - change (defaultFaces false 100
              ["2"%string; "D"%string; "%"%string; "+"%string; "d"%string])
      with ("2"%string :: defaultFaces false 100
                            ["D"%string; "%"%string; "+"%string; "d"%string]).
    rewrite (Hpct 100 "D"%string ["+"%string; "d"%string] eq_refl).
    change (defaultFaces false 100 ["+"%string; "d"%string])
      with ("+"%string :: defaultFaces false 100 ["d"%string]).
    rewrite (Hdef 100 "d"%string [] eq_refl eq_refl).
    reflexivity.
  - rewrite (Hins ["("%string; "B"%string; ")"%string; "+"%string; "f"%string]
               (Hplain ["("%string; "B"%string; ")"%string; "+"%string; "f"%string]
                       eq_refl)).
    reflexivity.
  - rewrite (Hkeep 6 "2"%string ["d"%string; "8"%string; "+"%string; "d"%string]
               (Hplain ["2"%string; "d"%string; "8"%string; "+"%string; "d"%string]
                       eq_refl)
               (or_introl eq_refl)).
    assert (R : noRightOperand (head ["8"%string; "+"%string; "d"%string]) = false
                /\ head ["8"%string; "+"%string; "d"%string] <> Some "%"%string)
      by (split; [reflexivity | discriminate]).
    rewrite (Hkeep 6 "d"%string ["8"%string; "+"%string; "d"%string]
               (Hplain ["d"%string; "8"%string; "+"%string; "d"%string] eq_refl)
               (or_intror R)).
    rewrite (Hkeep 6 "8"%string ["+"%string; "d"%string]
               (Hplain ["8"%string; "+"%string; "d"%string] eq_refl)
               (or_introl eq_refl)).
    rewrite (Hkeep 6 "+"%string ["d"%string]
               (Hplain ["+"%string; "d"%string] eq_refl) (or_introl eq_refl)).
    rewrite (Hdef 6 "d"%string [] eq_refl eq_refl).
    reflexivity.
Defined.

(** ** Fuel *)

(** The scans of the lexer consume their input. *)
Lemma spanBytes_rest (p : ascii -> bool) (s a b : string) :
  spanBytes p s = (a, b) -> (String.length b <= String.length s)%nat.
Proof.
  revert a b; induction s as [|c s IH]; intros a b H; simpl in H.
  - injection H as <- <-. simpl. lia.
  - destruct (p c).
    + destruct (spanBytes p s) as [a' b'] eqn:E. injection H as <- <-.
      specialize (IH _ _ eq_refl). simpl. lia.
    + injection H as <- <-. lia.
Qed.

Lemma scanString_rest (s body rest : string) :
  scanString s = Some (body, rest) -> (String.length rest < String.length s)%nat.
Proof.
  remember (String.length s) as k eqn:Hk. revert s Hk body rest.
  induction k as [k IH'] using lt_wf_ind. intros s -> body rest H.
  assert (IH : forall y, (String.length y < String.length s)%nat ->
    forall body rest, scanString y = Some (body, rest) ->
    (String.length rest < String.length y)%nat)
    by (intros y Hy; exact (IH' _ Hy y eq_refl)).
  clear IH'. destruct s as [|c s']; [discriminate|]. simpl in H.
  destruct (eqc c bslash).
  - destruct s' as [|c2 s'']; [discriminate|].
    destruct (scanString s'') as [[b r]|] eqn:E; [|discriminate].
    injection H as <- <-. apply IH in E; simpl in *; lia.
  - destruct (eqc c dquote).
    + injection H as <- <-. simpl. lia.
    + destruct (scanString s') as [[b r]|] eqn:E; [|discriminate].
      injection H as <- <-. apply IH in E; simpl in *; lia.
Qed.

Lemma scanTuple_rest (s : string) : forall inStr depth tup rest,
  scanTuple inStr depth s = Some (tup, rest) ->
  (String.length rest < String.length s)%nat.
Proof.
  remember (String.length s) as k eqn:Hk. revert s Hk.
  induction k as [k IH'] using lt_wf_ind. intros s ->.
  assert (IH : forall y, (String.length y < String.length s)%nat ->
    forall inStr depth tup rest, scanTuple inStr depth y = Some (tup, rest) ->
    (String.length rest < String.length y)%nat)
    by (intros y Hy; exact (IH' _ Hy y eq_refl)).
  clear IH'.
  assert (K : forall s', (String.length s' < String.length s)%nat ->
     forall c i d tup rest,
     match scanTuple i d s' with
     | Some (body, rest) => Some (String c body, rest)
     | None => None
     end = Some (tup, rest) -> (String.length rest < String.length s)%nat).
  { intros s' Hl c i d tup rest H.
    destruct (scanTuple i d s') as [[b r]|] eqn:E; [|discriminate].
    injection H as <- <-. apply IH in E; [lia|exact Hl]. }
  intros inStr depth tup rest H. destruct s as [|c s']; [discriminate|].
  simpl in H.
  destruct inStr.
  - destruct (eqc c bslash).
    + destruct s' as [|c2 s'']; [discriminate|].
      destruct (scanTuple true depth s'') as [[b r]|] eqn:E; [|discriminate].
      injection H as <- <-. apply IH in E; simpl in *; lia.
    + destruct (eqc c dquote); eapply K in H; simpl; auto.
  - destruct (eqc c "[").
    { eapply K in H; simpl; auto. }
    destruct (eqc c "]").
    { destruct (depth - 1 =? 0).
      - injection H as <- <-. simpl; lia.
      - eapply K in H; simpl; auto. }
    destruct (eqc c dquote); eapply K in H; simpl; auto.
Qed.

(** The result of the lexer's loop does not depend on the fuel, once
    there is one unit of it for every byte. *)
Lemma tokenizeLoop_fuel (n : nat) : forall m s,
  (String.length s <= n)%nat -> (String.length s <= m)%nat ->
  tokenizeLoop n s = tokenizeLoop m s.
Proof.
  induction n as [|n IH]; intros m s Hn Hm.
  - destruct s; [destruct m; reflexivity | simpl in Hn; lia].
  - destruct s as [|c s']; [destruct m; reflexivity|].
    destruct m as [|m]; [simpl in Hm; lia|]. simpl in Hn, Hm.
    cbn [tokenizeLoop].
    destruct (isBlank c); [apply IH; lia|].
    destruct (eqc c dquote).
    { destruct (scanString s') as [[b r]|] eqn:E; [|reflexivity].
      apply scanString_rest in E. f_equal. apply IH; lia. }
    destruct (isDigit c).
    { destruct (spanBytes isDigit s') as [a b] eqn:E.
      apply spanBytes_rest in E. f_equal. apply IH; lia. }
    destruct (eqc c "[").
    { destruct (scanTuple false 0 (String c s')) as [[b r]|] eqn:E; [|reflexivity].
      apply scanTuple_rest in E. simpl in E. f_equal. apply IH; lia. }
    destruct (isPunct c); [f_equal; apply IH; lia|].
    destruct (eqc c "$").
    { destruct (spanBytes _ s') as [a b] eqn:E.
      apply spanBytes_rest in E. f_equal. apply IH; lia. }
    destruct (isLetter c); [|reflexivity].
    destruct (spanBytes _ s') as [a b] eqn:E.
    apply spanBytes_rest in E. f_equal. apply IH; lia.
Qed.

Lemma tokenizeLoop_enough (n : nat) (s : string) :
  (String.length (TrimSpace s) <= n)%nat ->
  tokenizeLoop n (TrimSpace s) = tokenize s.
Proof. intros H. unfold tokenize. apply tokenizeLoop_fuel; [exact H | lia]. Qed.

Lemma replaceVarsLoop_fuel (vt : gmap string Z) (n : nat) : forall m s,
  (String.length s <= n)%nat -> (String.length s <= m)%nat ->
  replaceVarsLoop n vt s = replaceVarsLoop m vt s.
Proof.
  induction n as [|n IH]; intros m s Hn Hm.
  - destruct s; [destruct m; reflexivity | simpl in Hn; lia].
  - destruct s as [|c s']; [destruct m; reflexivity|].
    destruct m as [|m]; [simpl in Hm; lia|]. simpl in Hn, Hm.
    cbn [replaceVarsLoop].
    destruct (eqc c "{"); [|f_equal; apply IH; lia].
    destruct (spanBytes notCloseBrace s') as [run rest] eqn:E.
    apply spanBytes_rest in E.
    destruct run; [f_equal; apply IH; lia|].
    destruct rest as [|c' rest']; [f_equal; apply IH; lia|].
    simpl in E. f_equal. apply IH; lia.
Qed.

(** The evaluator: more fuel never changes a result. *)

Section Fuel.

Context {RS : RandSource}.

Lemma chainLoopA_mono (fuel : nat) : forall fuel' m th nc tot meta g x,
  (fuel <= fuel')%nat ->
  chainLoopA fuel m th nc tot meta g = Some x ->
  chainLoopA fuel' m th nc tot meta g = Some x.
Proof.
  induction fuel as [|fuel IH]; intros fuel' m th nc tot meta g x Hle H.
  - destruct fuel'; simpl in *; destruct (0 <? nc); congruence.
  - destruct fuel' as [|fuel']; [lia|]. simpl in *.
    destruct (0 <? nc); [|exact H].
    destruct (chainRoundA _ _ _ _ _ _) as [[[rolls next] total'] g'].
    destruct (10000 <? _); [exact H|]. apply IH; [lia | exact H].
Qed.

Lemma chainLoopC_mono (fuel : nat) : forall fuel' m th nc tot meta g x,
  (fuel <= fuel')%nat ->
  chainLoopC fuel m th nc tot meta g = Some x ->
  chainLoopC fuel' m th nc tot meta g = Some x.
Proof.
  induction fuel as [|fuel IH]; intros fuel' m th nc tot meta g x Hle H.
  - destruct fuel'; simpl in *; destruct (0 <? nc); congruence.
  - destruct fuel' as [|fuel']; [lia|]. simpl in *.
    destruct (0 <? nc); [|exact H].
    destruct (chainRoundC _ _ _ _ _ _) as [[[rolls next] maxv] g'].
    destruct (10000 <? _); [exact H|]. apply IH; [lia | exact H].
Qed.

Lemma chainOp_mono (fuel fuel' : nat) k times th m r x :
  (fuel <= fuel')%nat ->
  chainOp fuel k times th m r = Some x -> chainOp fuel' k times th m r = Some x.
Proof.
  intros Hle. unfold chainOp.
  destruct (chainLoop k fuel m th times 0 [] (rng r)) as [y|] eqn:E; [|discriminate].
  assert (E' : chainLoop k fuel' m th times 0 [] (rng r) = Some y).
  { destruct k; simpl in *;
      [eapply chainLoopA_mono | eapply chainLoopC_mono]; eauto. }
  rewrite E'. auto.
Qed.

Lemma bind_mono {A B} (m m' : M A) (k k' : A -> M B) r x :
  (forall y, m r = Some y -> m' r = Some y) ->
  (forall a r1 y, k a r1 = Some y -> k' a r1 = Some y) ->
  bind m k r = Some x -> bind m' k' r = Some x.
Proof.
  intros Hm Hk. unfold bind.
  destruct (m r) as [[a r1|e r1]|] eqn:E; [| |discriminate];
    rewrite (Hm _ eq_refl); auto.
Qed.

Variables sub sub' : SubRoll.
Hypothesis Hsub : extends sub sub'.

Lemma getFromMetaTuple_mono data : forall fl fu acc r x,
  getFromMetaTuple sub data fl fu acc r = Some x ->
  getFromMetaTuple sub' data fl fu acc r = Some x.
Proof.
  induction data as [|[v|v] data IH]; intros fl fu acc r x H; simpl in *.
  - exact H.
  - now apply IH.
  - destruct (sub v (ValueTable r) (rng r)) as [s|] eqn:E; [|discriminate].
    rewrite (Hsub _ _ _ _ E).
    destruct (isNoError _); [now apply IH | exact H].
Qed.

Lemma resolveMetaValues_mono v r x :
  resolveMetaValues sub v r = Some x -> resolveMetaValues sub' v r = Some x.
Proof.
  unfold resolveMetaValues.
  destruct (negb _); [auto|]. destruct (Meta v); [auto|].
  destruct (MetaStr v) as [|s l]; [auto|].
  destruct (getFromMetaTuple sub _ _ _ _ _) as [[l0 r']|] eqn:E; [|discriminate].
  rewrite (getFromMetaTuple_mono _ _ _ _ _ _ E). auto.
Qed.

Lemma keepOp_mono mode st r x :
  keepOp sub mode st r = Some x -> keepOp sub' mode st r = Some x.
Proof.
  unfold keepOp, pop2. destruct st as [|b [|a st']]; auto.
  destruct (V b <=? 0); [auto|].
  apply bind_mono; [apply resolveMetaValues_mono | auto].
Qed.

Lemma selectOp_mono tok st r x :
  selectOp sub tok st r = Some x -> selectOp sub' tok st r = Some x.
Proof.
  unfold selectOp, pop2. destruct st as [|b [|a st']]; auto.
  destruct (V b <=? 0); [auto|].
  apply bind_mono; [apply resolveMetaValues_mono | auto].
Qed.

Lemma lpOp_mono st r x :
  lpOp sub st r = Some x -> lpOp sub' st r = Some x.
Proof.
  unfold lpOp, pop2. destruct st as [|b [|a st']]; auto.
  destruct (V b <=? 0); [auto|]. destruct (MetaStr a); [|auto].
  apply bind_mono; [apply resolveMetaValues_mono | auto].
Qed.

Lemma chain2Op_mono fuel fuel' k st r x :
  (fuel <= fuel')%nat ->
  chain2Op fuel k st r = Some x -> chain2Op fuel' k st r = Some x.
Proof.
  intros Hle. unfold chain2Op, pop2. destruct st as [|b [|a st']]; auto.
  destruct (_ || _); [auto|]. destruct (_ || _); [auto|].
  apply bind_mono; [intros y; now apply chainOp_mono | auto].
Qed.

Lemma chain3Op_mono fuel fuel' k st r x :
  (fuel <= fuel')%nat ->
  chain3Op fuel k st r = Some x -> chain3Op fuel' k st r = Some x.
Proof.
  intros Hle. unfold chain3Op, pop3. destruct st as [|c [|b [|a st']]]; auto.
  destruct (_ || _); [auto|]. destruct (_ || _); [auto|].
  destruct (_ || _); [auto|].
  apply bind_mono; [intros y; now apply chainOp_mono | auto].
Qed.

Lemma applyOp_mono fuel fuel' tok st r x :
  (fuel <= fuel')%nat ->
  applyOp sub fuel tok st r = Some x -> applyOp sub' fuel' tok st r = Some x.
Proof.
  intros Hle. unfold applyOp.
  repeat (match goal with
          | |- (if ?b then _ else _) r = _ -> _ =>
              destruct b;
              [solve [ auto | apply keepOp_mono | apply selectOp_mono
                     | apply lpOp_mono | now apply chain2Op_mono
                     | now apply chain3Op_mono ] |]
          end).
  auto.
Qed.

Lemma step_mono fuel fuel' tok st r x :
  (fuel <= fuel')%nat ->
  step sub fuel tok st r = Some x -> step sub' fuel' tok st r = Some x.
Proof.
  intros Hle. unfold step. destruct (Atoi tok); [auto|].
  destruct (enclosedBy "[" "]" tok); [auto|].
  destruct (enclosedBy dquote dquote tok); [auto|].
  destruct (HasPrefixDollar tok); [auto|]. now apply applyOp_mono.
Qed.

Lemma evalRPNLoop_mono fuel fuel' rpn : forall st r x,
  (fuel <= fuel')%nat ->
  evalRPNLoop sub fuel rpn st r = Some x ->
  evalRPNLoop sub' fuel' rpn st r = Some x.
Proof.
  induction rpn as [|tok rest IH]; intros st r x Hle; simpl.
  - auto.
  - apply bind_mono; [intros y; now apply step_mono|].
    intros a r1 y. now apply IH.
Qed.

Lemma RollBody_mono (ev ev' : list string -> M Value) r x :
  (forall tokens r y, ev tokens r = Some y -> ev' tokens r = Some y) ->
  RollBody sub ev r = Some x -> RollBody sub' ev' r = Some x.
Proof.
  intros Hev. unfold RollBody.
  destruct (tokenize _) as [tokens|]; [|auto].
  destruct (ev tokens r) as [[val r'|e r']|] eqn:E; [| |discriminate];
    rewrite (Hev _ _ _ E); [|auto].
  destruct (MetaEnable val); [|auto].
  destruct (MetaStr val); [|auto].
  destruct (getFromMetaTuple sub _ _ _ _ _) as [[l0 r0]|] eqn:G; [|discriminate].
  rewrite (getFromMetaTuple_mono _ _ _ _ _ _ G). auto.
Qed.

End Fuel.

Section FuelRoll.

Context {RS : RandSource}.

Lemma evalTokens_step_mono (n m : nat) :
  (n <= m)%nat ->
  (forall tokens r x, evalTokens n tokens r = Some x -> evalTokens m tokens r = Some x) ->
  (forall r x, Roll n r = Some x -> Roll m r = Some x) ->
  forall tokens r x,
    evalTokens (S n) tokens r = Some x -> evalTokens (S m) tokens r = Some x.
Proof.
  intros Hle Hev Hroll tokens r x.
  cbn [evalTokens].
  destruct (findGroup tokens) as [| |oi ci].
  - destruct (findQuestion _ 0 0) as [i|].
    + destruct (findColon _ _ 0 1) as [j|]; [|auto].
      destruct (evalTokens n (take i _) r) as [[v r'|e r']|] eqn:E; [| |discriminate];
        rewrite (Hev _ _ _ E); [|auto].
      destruct (V v =? 0); apply Hev.
    + destruct (toRPN _) as [rpn|]; [|auto].
      apply evalRPNLoop_mono; [|lia].
      intros e vt g y. apply Hroll.
  - auto.
  - destruct (evalTokens n (segment _ _ _) r) as [[v r'|e r']|] eqn:E; [| |discriminate];
      rewrite (Hev _ _ _ E); [|auto].
    apply Hev.
Qed.

Lemma eval_fuel_mono (n : nat) : forall m, (n <= m)%nat ->
  (forall tokens r x, evalTokens n tokens r = Some x -> evalTokens m tokens r = Some x)
  /\ (forall r x, Roll n r = Some x -> Roll m r = Some x).
Proof.
  induction n as [|n IH]; intros m Hle.
  - split; intros; discriminate.
  - destruct m as [|m]; [lia|].
    destruct (IH m ltac:(lia)) as [Hev Hroll]. split.
    + apply evalTokens_step_mono; [lia | exact Hev | exact Hroll].
    + intros r x. cbn [Roll]. apply RollBody_mono; [|exact Hev].
      intros e vt g y. apply Hroll.
Qed.

(** More fuel never changes a result. *)
Lemma Roll_fuel_mono (n m : nat) (r x : RD) :
  (n <= m)%nat -> Roll n r = Some x -> Roll m r = Some x.
Proof. intros Hle. apply (eval_fuel_mono n m Hle). Qed.

Lemma Roll_fuel_agree (n m : nat) (r x y : RD) :
  Roll n r = Some x -> Roll m r = Some y -> x = y.
Proof.
  intros Hn Hm.
  apply (Roll_fuel_mono n (Nat.max n m)) in Hn; [|lia].
  apply (Roll_fuel_mono m (Nat.max n m)) in Hm; [|lia].
  congruence.
Qed.

End FuelRoll.

(** ** Determinism *)

Lemma string_leb_trans (s1 s2 s3 : string) :
  String.leb s1 s2 = true -> String.leb s2 s3 = true -> String.leb s1 s3 = true.
Proof.
  unfold String.leb. revert s2 s3.
  induction s1 as [|c1 s1 IH]; intros [|c2 s2] [|c3 s3]; simpl; try (intros; congruence).
  unfold Ascii.compare.
  destruct (N.compare_spec (N_of_ascii c1) (N_of_ascii c2)) as [E12|E12|E12];
  destruct (N.compare_spec (N_of_ascii c2) (N_of_ascii c3)) as [E23|E23|E23];
  destruct (N.compare_spec (N_of_ascii c1) (N_of_ascii c3)) as [E13|E13|E13];
  try (intros; congruence); try lia.
  apply IH.
Qed.

#[local] Instance string_le_trans : Transitive (fun a b : string => Is_true (String.leb a b)).
Proof. intros a b c Hab Hbc. apply Is_true_true in Hab, Hbc. apply Is_true_true. eapply string_leb_trans; eauto. Qed.
#[local] Instance string_le_antisym : AntiSymm (=) (fun a b : string => Is_true (String.leb a b)).
Proof. intros a b Hab Hba. apply Is_true_true in Hab, Hba. now apply String.leb_antisym. Qed.
#[local] Instance string_le_total : Total (fun a b : string => Is_true (String.leb a b)).
Proof. intros a b. destruct (String.leb_total a b) as [H|H]; [left|right]; now apply Is_true_true. Qed.

Lemma sortStrings_perm (l1 l2 : list string) : l1 ≡ₚ l2 -> sortStrings l1 = sortStrings l2.
Proof.
  intros H. unfold sortStrings.
  apply (Sorted_unique (fun a b : string => Is_true (String.leb a b))).
  - apply Sorted_merge_sort; apply _.
  - apply Sorted_merge_sort; apply _.
  - rewrite !merge_sort_Permutation. exact H.
Qed.

Lemma sortAsc_permutation (l1 l2 : list Z) : l1 ≡ₚ l2 -> sortAsc l1 = sortAsc l2.
Proof.
  intros H. unfold sortAsc.
  apply (Sorted_unique Z.le).
  - apply Sorted_merge_sort; apply _.
  - apply Sorted_merge_sort; apply _.
  - rewrite !merge_sort_Permutation. exact H.
Qed.

Lemma rangeCopy_union (visit : list (string * Z)) (dst : gmap string Z) :
  NoDup visit.*1 -> rangeCopy visit dst = list_to_map visit ∪ dst.
Proof.
  unfold rangeCopy. revert dst.
  induction visit as [|[k v] visit IH]; intros dst Hnd; simpl.
  - now rewrite (left_id_L ∅ (∪)).
  - inversion Hnd as [|? ? Hk Hnd']; subst.
    rewrite IH by exact Hnd'.
    rewrite <- insert_union_l. rewrite insert_union_r; [reflexivity|].
    now apply not_elem_of_list_to_map_1.
Qed.

Lemma rangeCopy_any_order (src dst : gmap string Z) (visit : list (string * Z)) :
  visit ≡ₚ map_to_list src -> rangeCopy visit dst = copyInto src dst.
Proof.
  intros Hp. unfold copyInto.
  pose proof (NoDup_fst_map_to_list src) as Hnd.
  assert (Hnd' : NoDup visit.*1) by (now rewrite Hp).
  rewrite !rangeCopy_union by assumption.
  f_equal. apply list_to_map_proper; assumption.
Qed.

(** C8.  A result is a function of the expression, the variable table and
    the random stream.  Two contexts built by [New] for the same expression
    and table at different times, and given the same stream, evaluate to
    the same context, hence to the same [Result], whatever the fuel that
    let each evaluation finish.  The two places where the
    source ranges over a map do not depend on the order in which the map is
    visited: copying a table entry by entry gives the same table for every
    order, and the keys printed in [Detail] are sorted first. *)
Theorem C8_deterministic :
  (forall (RS : RandSource) fuel expr vt now1 now2 (g : rng_state),
      rollWith fuel expr vt now1 g = rollWith fuel expr vt now2 g
      /\ resultOf (rollWith fuel expr vt now1 g)
         = resultOf (rollWith fuel expr vt now2 g))
  /\ (forall (RS : RandSource) fuel1 fuel2 expr vt now1 now2 (g : rng_state) x y,
        rollWith fuel1 expr vt now1 g = Some x ->
        rollWith fuel2 expr vt now2 g = Some y ->
        x = y /\ res x = res y)
  /\ (forall (src dst : gmap string Z) visit,
        visit ≡ₚ map_to_list src -> rangeCopy visit dst = copyInto src dst)
  /\ (forall (t : gmap Z Z) visit,
        visit ≡ₚ map_to_list t -> sortAsc visit.*1 = sortAsc (map_to_list t).*1)
  /\ (forall (vt : gmap string Z) visit,
        visit ≡ₚ map_to_list vt ->
        sortStrings visit.*1 = sortStrings (map_to_list vt).*1).
Proof.
  split; [|split; [|split; [|split]]].
  - intros. split; reflexivity.
  - intros RS fuel1 fuel2 expr vt now1 now2 g x y Hx Hy.
    assert (x = y) as -> by (eapply Roll_fuel_agree; eassumption).
    split; reflexivity.
  - intros. now apply rangeCopy_any_order.
  - intros t visit H. apply sortAsc_permutation. now rewrite H.
  - intros vt visit H. apply sortStrings_perm. now rewrite H.
Qed.

Lemma C8_deterministic_witness :
  rangeCopy [("B"%string, 2); ("A"%string, 1)] ∅
  = copyInto (<["A"%string := 1]> (<["B"%string := 2]> ∅)) ∅.
Proof.
  apply (proj1 (proj2 (proj2 C8_deterministic))).
  vm_compute. apply perm_swap.
Defined.

(** ** Values stay in the range of [int] *)

Lemma Atoi_inRange (s : string) (v : Z) : Atoi s = Some v -> GoInt.inRange v.
Proof.
  assert (Hs : forall (neg : bool) (ds : string),
             match ds with
             | EmptyString => None
             | _ =>
                 match atoiDigits ds 0 with
                 | Some n =>
                     let v := if neg then - n else n in
                     if (GoInt.minInt <=? v) && (v <=? GoInt.maxInt) then Some v else None
                 | None => None
                 end
             end = Some v -> GoInt.inRange v).
  { intros neg ds H. destruct ds; [discriminate|].
    destruct (atoiDigits _ 0) as [n|]; [|discriminate]. simpl in H.
    destruct (_ && _) eqn:E; [|discriminate]. injection H as <-.
    unfold GoInt.inRange. lia. }
  unfold Atoi. destruct s as [|c s']; [discriminate|].
  destruct (eqc c "-"); [apply (Hs true s')|].
  destruct (eqc c "+"); [apply (Hs false s') | apply (Hs false (String c s'))].
Qed.

Lemma sum_inRange (l : list Z) : GoInt.inRange (GoInt.sum l).
Proof.
  unfold GoInt.sum.
  assert (H : forall a, GoInt.inRange a -> GoInt.inRange (fold_left GoInt.add l a)).
  { induction l as [|x l IH]; intros a Ha; simpl; [exact Ha|].
    apply IH. apply wrap_range. }
  apply H. goint. lia.
Qed.

Lemma zero_inRange : GoInt.inRange 0.
Proof. goint. lia. Qed.

Lemma boolInt_inRange (b : bool) : GoInt.inRange (boolInt b).
Proof. destruct b; goint; simpl; lia. Qed.

(** An integer is an [int] when its bits from 63 on are all equal. *)
Lemma inRange_shiftr (a : Z) :
  GoInt.inRange a <-> Z.shiftr a 63 = 0 \/ Z.shiftr a 63 = -1.
Proof.
  rewrite Z.shiftr_div_pow2 by lia. goint.
  pose proof (Z.div_mod a 9223372036854775808 ltac:(lia)) as Hd.
  pose proof (Z.mod_pos_bound a 9223372036854775808 ltac:(lia)) as Hm.
  lia.
Qed.

Lemma land_inRange (a b : Z) :
  GoInt.inRange a -> GoInt.inRange b -> GoInt.inRange (Z.land a b).
Proof.
  rewrite !inRange_shiftr, Z.shiftr_land.
  intros [-> | ->] [-> | ->]; simpl; auto.
Qed.

Lemma lor_inRange (a b : Z) :
  GoInt.inRange a -> GoInt.inRange b -> GoInt.inRange (Z.lor a b).
Proof.
  rewrite !inRange_shiftr, Z.shiftr_lor.
  intros [-> | ->] [-> | ->]; simpl; auto.
Qed.

Lemma pow_inRange (a b : Z) : GoInt.inRange (GoInt.pow a b).
Proof.
  unfold GoInt.pow. destruct b as [|p|p]; simpl; try (goint; lia).
  rewrite Pos2Nat.inj_iter.
  destruct (Pos.to_nat p) as [|n]; simpl; [goint; lia | apply wrap_range].
Qed.

Lemma ok_scalar (v : Z) : GoInt.inRange v -> okValue (scalar v).
Proof. intros H. split; [exact H | constructor]. Qed.

Lemma ok_listValue (v : Z) (l : list Z) (en : bool) :
  GoInt.inRange v -> Forall GoInt.inRange l -> okValue (listValue v l en).
Proof. intros H Hl. split; assumption. Qed.

Lemma ok_strValue (l : list string) : okValue (strValue l).
Proof. split; [apply zero_inRange | constructor]. Qed.

Lemma ok_tupleValue (tok : string) : okValue (tupleValue tok).
Proof.
  unfold tupleValue.
  set (elems := splitTuple _ _ _ _ _).
  set (ne := filter _ elems).
  assert (Hints : Forall GoInt.inRange (omap Atoi ne)).
  { apply Forall_forall. intros x Hx. apply list_elem_of_omap in Hx.
    destruct Hx as (s & _ & Hs). eapply Atoi_inRange; eauto. }
  destruct (filter _ ne) as [|s0 strs]; [|destruct (omap Atoi ne)].
  - apply ok_listValue; [apply zero_inRange | exact Hints].
  - apply ok_strValue.
  - apply ok_strValue.
Qed.

Lemma sum_listValue (l : list Z) (en : bool) : sumOK (listValue (GoInt.sum l) l en).
Proof. intros _ _. reflexivity. Qed.

Lemma sum_single (v : Z) : GoInt.inRange v -> sumOK (listValue v [v] true).
Proof. intros H _ _. symmetry. now apply sum_singleton. Qed.

Lemma selectFromMeta_ok (src : list Z) (n : Z) (mode : option SelMode) :
  Forall GoInt.inRange src ->
  Forall GoInt.inRange (fst (selectFromMeta src n mode))
  /\ snd (selectFromMeta src n mode) = GoInt.sum (fst (selectFromMeta src n mode)).
Proof.
  intros H. unfold selectFromMeta.
  destruct src as [|x src'] eqn:Hsrc; [simpl; auto|]. rewrite <- Hsrc in *.
  clear Hsrc x src'.
  assert (Hd : Forall GoInt.inRange (sortDesc src))
    by (unfold sortDesc; now rewrite merge_sort_Permutation).
  assert (Ha : Forall GoInt.inRange (sortAsc src))
    by (unfold sortAsc; now rewrite merge_sort_Permutation).
  destruct mode as [[| | |]|]; simpl; auto using Forall_take;
    destruct (_ <=? n); simpl; auto using Forall_drop.
Qed.

Lemma repeatList_Forall (P : Z -> Prop) (n : nat) (l : list Z) :
  Forall P l -> Forall P (repeatList n l).
Proof.
  intros H. induction n as [|n IH]; simpl; [constructor|].
  apply Forall_app; auto.
Qed.

Lemma vtOK_insert (o : option (gmap string Z)) (k : string) (v : Z) :
  vtOK o -> GoInt.inRange v -> vtOK (Some (<[k := v]> (default ∅ o))).
Proof.
  intros Ho Hv vt k' v' [= <-] Hl.
  destruct (decide (k = k')) as [->|Hne].
  - rewrite lookup_insert_eq in Hl. now injection Hl as <-.
  - rewrite lookup_insert_ne in Hl by exact Hne.
    destruct o as [m|]; simpl in Hl; [eapply Ho; eauto | now rewrite lookup_empty in Hl].
Qed.

Lemma vtOK_rangeCopy (visit : list (string * Z)) (dst : gmap string Z) :
  Forall (fun kv => GoInt.inRange kv.2) visit -> vtOK (Some dst) ->
  vtOK (Some (rangeCopy visit dst)).
Proof.
  unfold rangeCopy. revert dst.
  induction visit as [|[k v] visit IH]; intros dst Hv Hd; simpl; [exact Hd|].
  apply Forall_cons in Hv as [Hkv Hv]. apply IH; [exact Hv|].
  apply (vtOK_insert (Some dst)); assumption.
Qed.

Lemma vtOK_copyInto (src : gmap string Z) (o : option (gmap string Z)) :
  vtOK (Some src) -> vtOK o -> vtOK (Some (copyInto src (default ∅ o))).
Proof.
  intros Hs Ho. unfold copyInto. apply vtOK_rangeCopy.
  - apply Forall_forall. intros [k v] Hin. simpl.
    apply elem_of_map_to_list in Hin. eapply Hs; eauto.
  - destruct o as [m|]; simpl; [exact Ho|].
    intros vt k v [= <-] Hl. now rewrite lookup_empty in Hl.
Qed.

Section Ranges.

Context {RS : RandSource}.

Lemma rollMany_Forall (P : Z -> Prop) (n : nat) (sides : Z) (f : Z -> Z) (g : rng_state) :
  (forall x, P (f x)) -> Forall P (fst (rollMany n sides f g)).
Proof.
  intros Hf. revert g. induction n as [|n IH]; intros g; simpl; [constructor|].
  destruct (Intn sides g) as [x g1]. specialize (IH g1).
  destruct (rollMany n sides f g1) as [xs g2]. simpl in *. constructor; auto.
Qed.

(** *** Rules for [post] *)

Lemma post_ret {A} (P : A -> Prop) (r : RD) (a : A) :
  P a -> ctxOK r -> post P r (ret a r).
Proof. intros. simpl. auto. Qed.

Lemma post_fail {A} (P : A -> Prop) (r : RD) (e : ErrorType) :
  e <> ErrNone -> ctxOK r -> post P r (fail e r).
Proof. intros. simpl. auto. Qed.

Lemma post_bind {A B} (P : A -> Prop) (Q : B -> Prop) (m : M A) (k : A -> M B) (r : RD) :
  post P r (m r) ->
  (forall a r1, P a -> ctxOK r1 -> res r1 = res r -> post Q r1 (k a r1)) ->
  post Q r (bind m k r).
Proof.
  intros Hm Hk. unfold bind.
  destruct (m r) as [[a r1|e r1]|]; simpl in *; [|exact Hm|exact I].
  destruct Hm as (Ha & Hc & Hr). specialize (Hk a r1 Ha Hc Hr).
  destruct (k a r1) as [[b r2|e r2]|]; simpl in *; [| |exact I];
    destruct Hk as (? & ? & ?); (split; [assumption|]; split; [assumption | congruence]).
Qed.

Lemma post_weaken {A} (P Q : A -> Prop) (r : RD) (o : option (Outcome A)) :
  (forall a, P a -> Q a) -> post P r o -> post Q r o.
Proof.
  intros H. destruct o as [[a r1|e r1]|]; simpl; [|auto|auto].
  intros (? & ? & ?); auto.
Qed.

Lemma ctxOK_setRng (r : RD) (g : rng_state) : ctxOK r -> ctxOK (setRng r g).
Proof. auto. Qed.

Lemma post_rollManyM (n sides : Z) (f : Z -> Z) (r : RD) :
  (forall x, GoInt.inRange (f x)) -> ctxOK r ->
  post (Forall GoInt.inRange) r (rollManyM n sides f r).
Proof.
  intros Hf Hc. unfold rollManyM.
  pose proof (rollMany_Forall GoInt.inRange (Z.to_nat n) sides f (rng r) Hf) as H.
  destruct (rollMany _ _ _ _) as [xs g]. simpl in *. auto.
Qed.

End Ranges.

Section RangesSub.

Context {RS : RandSource}.
Variable sub : SubRoll.
Hypothesis Hsub : subOK sub.

Lemma getFromMetaTuple_ok (data : list MetaElem) (fu : bool) :
  forall acc r l r',
  Forall GoInt.inRange acc ->
  Forall (fun el => match el with MInt v => GoInt.inRange v | MStr _ => True end) data ->
  ctxOK r ->
  getFromMetaTuple sub data false fu acc r = Some (l, r') ->
  Forall GoInt.inRange l /\ ctxOK r' /\ res r' = res r.
Proof.
  induction data as [|[v|v] data IH]; intros acc r l r' Hacc Hd Hc; simpl.
  - intros [= <- <-]. auto.
  - apply Forall_cons in Hd as [Hv Hd]. apply IH; auto.
    apply Forall_app; split; [assumption | now constructor].
  - apply Forall_cons in Hd as [_ Hd].
    destruct (sub v (ValueTable r) (rng r)) as [s|] eqn:E; [|discriminate].
    destruct Hc as [Hvt Htemp].
    destruct (Hsub _ _ _ _ E Hvt) as [Hsvt Hsval].
    set (r1 := setRng r (rng s)).
    set (r2 := if fu then match ValueTable r with
                          | Some _ => setValueTable r1 (ValueTable s)
                          | None => r1
                          end
               else r1).
    assert (H2 : ctxOK r2 /\ res r2 = res r).
    { subst r2 r1. destruct fu; [destruct (ValueTable r) eqn:Evt|];
        (split; [split; simpl; try assumption; rewrite ?Evt; try assumption
                | reflexivity]). }
    destruct H2 as [Hc2 Hres2].
    destruct (isNoError (res_Error (res s))) eqn:Eerr.
    + set (r3 := if fu then match ValueTable s with
                            | Some svt =>
                                setValueTable r2 (Some (copyInto svt (default ∅ (ValueTable r2))))
                            | None => r2
                            end
                 else r2).
      assert (H3 : ctxOK r3 /\ res r3 = res r).
      { subst r3. destruct fu; [destruct (ValueTable s) as [svt|] eqn:Es|];
          try (split; assumption).
        split; [|exact Hres2]. destruct Hc2 as [Hvt2 Htemp2].
        split; simpl; [|exact Htemp2]. now apply vtOK_copyInto. }
      destruct H3 as [Hc3 Hres3]. intros Hrec.
      apply IH in Hrec; auto.
      * destruct Hrec as (? & ? & ?). split; [assumption|]. split; [assumption|congruence].
      * apply Forall_app; split; [assumption|]. constructor; [|constructor].
        apply Hsval. destruct (res_Error (res s)); [reflexivity | discriminate ..].
    + intros [= <- <-]. auto.
Qed.

Lemma resolve_ok (v : Value) (r : RD) :
  okValue v -> ctxOK r ->
  post (fun o => match o with Some l => Forall GoInt.inRange l | None => True end)
       r (resolveMetaValues sub v r).
Proof.
  intros [HV HM] Hc. unfold resolveMetaValues, metaList in *.
  destruct (negb _);
    [simpl; split; [now constructor | split; [exact Hc | reflexivity]]|].
  destruct (Meta v) as [l|];
    [simpl in *; split; [exact HM | split; [exact Hc | reflexivity]]|].
  destruct (MetaStr v) as [|s0 strs] eqn:Es;
    [simpl; split; [exact I | split; [exact Hc | reflexivity]]|].
  destruct (getFromMetaTuple _ _ _ _ _ _) as [[l r']|] eqn:E; [|exact I].
  apply getFromMetaTuple_ok in E; auto.
  - destruct E as (Hl & Hc' & Hres).
    destruct (_ =? _)%nat; simpl; auto.
  - apply Forall_fmap, Forall_forall. intros; exact I.
Qed.

Ltac op2 Hst :=
  unfold pop2;
  match goal with
  | st : list Value |- _ =>
      destruct st as [|b [|a st0]];
      [apply post_fail; [discriminate | assumption] ..|]
  end;
  let Hb := fresh "Hb" in let Ha := fresh "Ha" in let H0 := fresh "Hst0" in
  apply Forall_cons in Hst as [Hb Hst];
  apply Forall_cons in Hst as [Ha H0].

Ltac op3 Hst :=
  unfold pop3;
  match goal with
  | st : list Value |- _ =>
      destruct st as [|c [|b [|a st0]]];
      [apply post_fail; [discriminate | assumption] ..|]
  end;
  let Hc := fresh "Hc" in
  let Hb := fresh "Hb" in let Ha := fresh "Ha" in let H0 := fresh "Hst0" in
  apply Forall_cons in Hst as [Hc Hst];
  apply Forall_cons in Hst as [Hb Hst];
  apply Forall_cons in Hst as [Ha H0].

Ltac failing := apply post_fail; [discriminate | assumption].

Lemma scalarOf_inRange (v : Value) : okValue v -> GoInt.inRange (scalarOf v).
Proof.
  intros [HV HM]. unfold scalarOf. destruct (MetaEnable v); [|exact HV].
  destruct (last (metaList v)) as [x|] eqn:E; [|exact HV].
  apply last_Some in E as [l' E]. rewrite E in HM.
  apply Forall_app in HM as [_ HM]. now inversion HM.
Qed.

Lemma diceOp_ok (st : list Value) (r : RD) :
  PS st -> ctxOK r -> post PT r (diceOp st r).
Proof.
  intros Hst Hc. unfold diceOp. op2 Hst.
  destruct (_ || _); [failing|]. destruct (_ || _); [failing|].
  eapply post_bind;
    [apply post_rollManyM; [intros; apply wrap_range | assumption]|].
  intros rolls r1 Hrolls Hc1 _. apply post_ret; [|assumption].
  split; [|apply sum_listValue].
  constructor; [|assumption]. apply ok_listValue; [apply sum_inRange | assumption].
Qed.

Lemma fudgeOp_ok (st : list Value) (r : RD) :
  PS st -> ctxOK r -> post PT r (fudgeOp st r).
Proof.
  intros Hst Hc. unfold fudgeOp. op2 Hst.
  destruct (_ || _); [failing|]. destruct (_ || _); [failing|].
  eapply post_bind;
    [apply post_rollManyM; [intros; apply wrap_range | assumption]|].
  intros rolls r1 Hrolls Hc1 _. apply post_ret; [|assumption].
  split; [|apply sum_listValue].
  constructor; [|assumption]. apply ok_listValue; [apply sum_inRange | assumption].
Qed.

Lemma keepOp_ok (mode : SelMode) (st : list Value) (r : RD) :
  PS st -> ctxOK r -> post PT r (keepOp sub mode st r).
Proof.
  intros Hst Hc. unfold keepOp. op2 Hst.
  destruct (_ <=? 0); [failing|].
  eapply post_bind; [apply resolve_ok; assumption|].
  intros [rolls|] r1 Ho Hc1 _; [|failing].
  destruct (selectFromMeta_ok rolls (V b) (Some mode) Ho) as [Hsel Hsum].
  destruct (selectFromMeta rolls (V b) (Some mode)) as [sel s]. simpl in *. subst s.
  apply post_ret; [|assumption]. split; [|apply sum_listValue].
  constructor; [|assumption]. apply ok_listValue; [apply sum_inRange | assumption].
Qed.

Lemma selectOp_ok (tok : string) (st : list Value) (r : RD) :
  PS st -> ctxOK r -> post PT r (selectOp sub tok st r).
Proof.
  intros Hst Hc. unfold selectOp. op2 Hst.
  destruct (_ <=? 0); [failing|].
  eapply post_bind; [apply resolve_ok; assumption|].
  intros [rolls|] r1 Ho Hc1 _; [|failing].
  destruct rolls as [|x rolls'] eqn:Hrolls; [failing|]. rewrite <- Hrolls in *.
  destruct (selectFromMeta_ok rolls (V b) (modeOf tok) Ho) as [Hsel Hsum].
  destruct (selectFromMeta rolls (V b) (modeOf tok)) as [sel s]. simpl in *. subst s.
  apply post_ret; [|assumption]. split; [|apply sum_listValue].
  constructor; [|assumption]. apply ok_listValue; [apply sum_inRange | assumption].
Qed.

Lemma clampOperand_ok (v : Value) : okValue v -> Forall GoInt.inRange (clampOperand v).
Proof.
  intros [HV HM]. unfold clampOperand.
  destruct (MetaEnable v); [exact HM | now constructor].
Qed.

Lemma clampOp_ok (isMax : bool) (st : list Value) (r : RD) :
  PS st -> ctxOK r -> post PT r (clampOp isMax st r).
Proof.
  intros Hst Hc. unfold clampOp. op2 Hst.
  destruct (_ <=? 0); [failing|].
  apply post_ret; [|assumption]. split; [|apply sum_listValue].
  constructor; [|assumption]. apply ok_listValue; [apply sum_inRange|].
  apply Forall_fmap.
  eapply Forall_impl; [apply clampOperand_ok; exact Ha|]. intros x Hx. simpl.
  destruct Hb as [HVb _].
  unfold clampOne. destruct isMax; destruct (_ <? _); assumption.
Qed.

Lemma spOp_ok (st : list Value) (r : RD) :
  PS st -> ctxOK r -> post PT r (spOp st r).
Proof.
  intros Hst Hc. unfold spOp. op2 Hst.
  destruct Ha as [HVa HMa].
  destruct (negb (MetaEnable a)).
  - destruct (_ || _); [|failing].
    apply post_ret; [|assumption]. split; [|now apply sum_single].
    constructor; [|assumption]. apply ok_listValue; [assumption | now constructor].
  - destruct (_ =? 0); [failing|]. destruct (_ || _); [failing|].
    destruct (metaList a !! _) as [v|] eqn:E; [|failing].
    assert (Hv : GoInt.inRange v) by (eapply Forall_lookup_1; eauto).
    apply post_ret; [|assumption]. split; [|now apply sum_single].
    constructor; [|assumption]. apply ok_listValue; [assumption | now constructor].
Qed.

Lemma tpOp_ok (st : list Value) (r : RD) :
  PS st -> ctxOK r -> post PT r (tpOp st r).
Proof.
  intros Hst Hc. unfold tpOp. op2 Hst.
  destruct Ha as [HVa HMa].
  destruct (negb (MetaEnable a)).
  - destruct (_ || _); [|failing].
    apply post_ret; [|assumption]. split; [|intros [=]].
    constructor; [|assumption]. apply ok_listValue; [apply zero_inRange | constructor].
  - destruct (_ =? 0); [failing|]. destruct (_ || _); [failing|].
    apply post_ret; [|assumption]. split; [|apply sum_listValue].
    constructor; [|assumption]. apply ok_listValue; [apply sum_inRange|].
    apply Forall_app; split; [now apply Forall_take | now apply Forall_drop].
Qed.

Lemma lpOp_ok (st : list Value) (r : RD) :
  PS st -> ctxOK r -> post PT r (lpOp sub st r).
Proof.
  intros Hst Hc. unfold lpOp. op2 Hst.
  destruct (V b <=? 0) eqn:Eb; [failing|]. apply Z.leb_gt in Eb.
  destruct (MetaStr a) as [|s0 strs] eqn:Es.
  - eapply post_bind; [apply resolve_ok; assumption|].
    intros [rolls|] r1 Ho Hc1 _; [|failing].
    apply post_ret; [|assumption]. split; [|apply sum_listValue].
    constructor; [|assumption]. apply ok_listValue; [apply sum_inRange|].
    now apply repeatList_Forall.
  - apply post_ret; [|assumption]. split.
    + constructor; [apply ok_strValue | assumption].
    + intros _ Hs. exfalso. simpl in Hs.
      destruct (Z.to_nat (V b)) as [|n] eqn:En; [lia|].
      simpl in Hs. destruct (expandOnce strs _) as [out idx'].
      discriminate.
Qed.

Lemma chainRoundA_range (cur : nat) : forall m th nc tot g,
  GoInt.inRange nc -> GoInt.inRange tot ->
  let '(rolls, n, t, _) := chainRoundA cur m th nc tot g in
  Forall GoInt.inRange rolls /\ GoInt.inRange n /\ GoInt.inRange t.
Proof.
  induction cur as [|cur IH]; intros m th nc tot g Hn Ht; simpl; [auto|].
  destruct (Intn m g) as [x g1].
  set (nc' := if th <=? GoInt.add x 1 then GoInt.add nc 1 else nc).
  set (tot' := if th <=? GoInt.add x 1 then GoInt.add tot 1 else tot).
  assert (Hn' : GoInt.inRange nc')
    by (subst nc'; destruct (_ <=? _); [apply wrap_range | assumption]).
  assert (Ht' : GoInt.inRange tot')
    by (subst tot'; destruct (_ <=? _); [apply wrap_range | assumption]).
  specialize (IH m th nc' tot' g1 Hn' Ht').
  destruct (chainRoundA cur m th nc' tot' g1) as [[[rolls n] t] g2].
  destruct IH as (? & ? & ?). split; [|auto]. constructor; [apply wrap_range | assumption].
Qed.

Lemma chainRoundC_range (cur : nat) : forall m th nc mx g,
  GoInt.inRange nc -> GoInt.inRange mx ->
  let '(rolls, n, t, _) := chainRoundC cur m th nc mx g in
  Forall GoInt.inRange rolls /\ GoInt.inRange n /\ GoInt.inRange t.
Proof.
  induction cur as [|cur IH]; intros m th nc mx g Hn Ht; simpl; [auto|].
  destruct (Intn m g) as [x g1].
  set (mx' := if mx <? GoInt.add x 1 then GoInt.add x 1 else mx).
  set (nc' := if th <=? GoInt.add x 1 then GoInt.add nc 1 else nc).
  assert (Hn' : GoInt.inRange nc')
    by (subst nc'; destruct (_ <=? _); [apply wrap_range | assumption]).
  assert (Ht' : GoInt.inRange mx')
    by (subst mx'; destruct (_ <? _); [apply wrap_range | assumption]).
  specialize (IH m th nc' mx' g1 Hn' Ht').
  destruct (chainRoundC cur m th nc' mx' g1) as [[[rolls n] t] g2].
  destruct IH as (? & ? & ?). split; [|auto]. constructor; [apply wrap_range | assumption].
Qed.

Lemma chainLoopA_range (fuel : nat) : forall m th nc tot meta g t me g',
  GoInt.inRange tot -> Forall GoInt.inRange meta ->
  chainLoopA fuel m th nc tot meta g = Some (t, me, g') ->
  GoInt.inRange t /\ Forall GoInt.inRange me.
Proof.
  induction fuel as [|fuel IH]; intros m th nc tot meta g t me g' Ht Hm; simpl;
    (destruct (0 <? nc); [|intros [= <- <- <-]; auto]); [discriminate|].
  pose proof (chainRoundA_range (Z.to_nat nc) m th 0 tot g zero_inRange Ht) as Hr.
  destruct (chainRoundA _ _ _ _ _ _) as [[[rolls next] total'] g1].
  destruct Hr as (Hrolls & _ & Htot').
  assert (Hm' : Forall GoInt.inRange (meta ++ rolls)) by (apply Forall_app; auto).
  destruct (10000 <? _); [intros [= <- <- <-]; auto|].
  now apply IH.
Qed.

Lemma chainLoopC_range (fuel : nat) : forall m th nc tot meta g t me g',
  GoInt.inRange tot -> Forall GoInt.inRange meta ->
  chainLoopC fuel m th nc tot meta g = Some (t, me, g') ->
  GoInt.inRange t /\ Forall GoInt.inRange me.
Proof.
  induction fuel as [|fuel IH]; intros m th nc tot meta g t me g' Ht Hm; simpl;
    (destruct (0 <? nc); [|intros [= <- <- <-]; auto]); [discriminate|].
  pose proof (chainRoundC_range (Z.to_nat nc) m th 0 0 g zero_inRange zero_inRange) as Hr.
  destruct (chainRoundC _ _ _ _ _ _) as [[[rolls next] maxv] g1].
  destruct Hr as (Hrolls & _ & Hmax).
  assert (Hm' : Forall GoInt.inRange (meta ++ rolls)) by (apply Forall_app; auto).
  destruct (10000 <? _); [intros [= <- <- <-]; split; [apply wrap_range | auto]|].
  apply IH; [apply wrap_range | assumption].
Qed.

Lemma chainOp_ok (fuel : nat) (k : ChainKind) (times th m : Z) (r : RD) :
  ctxOK r -> post okValue r (chainOp fuel k times th m r).
Proof.
  intros Hc. unfold chainOp.
  destruct (chainLoop k fuel m th times 0 [] (rng r)) as [[[t me] g']|] eqn:E;
    [|exact I].
  assert (H : GoInt.inRange t /\ Forall GoInt.inRange me).
  { destruct k; simpl in E;
      [eapply chainLoopA_range | eapply chainLoopC_range]; eauto using zero_inRange. }
  destruct H as [Ht Hme]. simpl. split; [now apply ok_listValue|]. auto.
Qed.

Lemma chain2Op_ok (fuel : nat) (k : ChainKind) (st : list Value) (r : RD) :
  PS st -> ctxOK r -> post PS r (chain2Op fuel k st r).
Proof.
  intros Hst Hc. unfold chain2Op. op2 Hst.
  destruct (_ || _); [failing|]. destruct (_ || _); [failing|].
  eapply post_bind; [apply chainOp_ok; assumption|].
  intros v r1 Hv Hc1 _. apply post_ret; [|assumption]. now constructor.
Qed.

Lemma chain3Op_ok (fuel : nat) (k : ChainKind) (st : list Value) (r : RD) :
  PS st -> ctxOK r -> post PS r (chain3Op fuel k st r).
Proof.
  intros Hst Hc. unfold chain3Op. op3 Hst.
  destruct (_ || _); [failing|]. destruct (_ || _); [failing|].
  destruct (_ || _); [failing|].
  eapply post_bind; [apply chainOp_ok; assumption|].
  intros v r1 Hv Hc1 _. apply post_ret; [|assumption]. now constructor.
Qed.

Lemma digit_inRange (x : Z) : 0 <= x < 10 -> GoInt.inRange x.
Proof. goint. lia. Qed.

Lemma percentile_ok (k : PercKind) (param : Z) (r : RD) :
  ctxOK r -> post okValue r (percentile k param r).
Proof.
  intros Hc. unfold percentile, bind, rollIntn, rollManyM, ret.
  pose proof (Intn_range 10 (rng r) ltac:(lia)) as Ht.
  destruct (Intn 10 (rng r)) as [tens g1]. cbn [rng setRng fst snd] in *.
  pose proof (Intn_range 10 g1 ltac:(lia)) as Hu.
  destruct (Intn 10 g1) as [units g2]. cbn [rng setRng fst snd] in *.
  pose proof (rollMany_range (Z.to_nat param) 10 g2 ltac:(lia)) as Hr.
  destruct (rollMany _ 10 _ g2) as [rolls g3]. cbn [rng setRng fst snd] in *.
  apply (Forall_impl _ GoInt.inRange) in Hr; [|intros x; apply digit_inRange].
  apply digit_inRange in Ht, Hu.
  simpl. split; [|auto].
  set (t' := if (tens =? 0) && (units =? 0) then tens else _).
  assert (Ht' : GoInt.inRange t').
  { subst t'. destruct (_ && _); [exact Ht|].
    destruct rolls as [|r0 rest]; [exact Ht|]. inversion Hr; subst.
    destruct k; [apply minOf_elem | apply maxOf_elem]; assumption. }
  apply ok_listValue.
  - destruct (_ && _); [goint; lia | apply wrap_range].
  - constructor; [assumption|]. constructor; assumption.
Qed.

Lemma percOp_ok (k : PercKind) (st : list Value) (r : RD) :
  PS st -> ctxOK r -> post PS r (percOp k st r).
Proof.
  intros Hst Hc. unfold percOp. op2 Hst.
  destruct (_ <? 0); [failing|]. destruct (_ <? _); [failing|].
  destruct (_ <? _); [failing|].
  eapply post_bind; [apply percentile_ok; assumption|].
  intros v r1 Hv Hc1 _. apply post_ret; [|assumption]. now constructor.
Qed.

Lemma ctxOK_assignTemp (idx v : Z) (r : RD) :
  GoInt.inRange v -> ctxOK r -> ctxOK (assignTemp idx v r).
Proof.
  intros Hv [Hvt Htemp]. unfold assignTemp. split; simpl.
  - now apply vtOK_insert.
  - intros k x Hl. destruct (decide (idx = k)) as [->|Hne].
    + rewrite lookup_insert_eq in Hl. now injection Hl as <-.
    + rewrite lookup_insert_ne in Hl by exact Hne. eauto.
Qed.

Lemma assignOp_ok (st : list Value) (r : RD) :
  PS st -> ctxOK r -> post PS r (assignOp st r).
Proof.
  intros Hst Hc. unfold assignOp. op2 Hst.
  destruct (negb _); [failing|]. simpl.
  destruct Hb as [HVb _].
  split; [constructor; [now apply ok_scalar | assumption]|].
  split; [now apply ctxOK_assignTemp | reflexivity].
Qed.

Lemma arith_ok (f : Z -> Z -> Z) (st : list Value) (r : RD) :
  (forall x y, GoInt.inRange x -> GoInt.inRange y -> GoInt.inRange (f x y)) ->
  PS st -> ctxOK r -> post PS r (arith st f r).
Proof.
  intros Hf Hst Hc. unfold arith. op2 Hst.
  apply post_ret; [|assumption].
  constructor; [|assumption]. apply ok_scalar. apply Hf; [apply Ha | apply Hb].
Qed.

Lemma readTemp_inRange (idx : Z) (r : RD) : ctxOK r -> GoInt.inRange (readTemp idx r).
Proof.
  intros [Hvt Htemp]. unfold readTemp.
  destruct (temp r !! idx) as [vv|] eqn:E; [eauto|].
  destruct (ValueTable r) as [vt|] eqn:Evt; [|apply zero_inRange].
  destruct (vt !! tempKey idx true) as [vv|] eqn:E1; [eapply Hvt; eauto|].
  destruct (vt !! tempKey idx false) as [vv|] eqn:E2; [eapply Hvt; eauto|].
  apply zero_inRange.
Qed.

(** Every operator keeps the stack and the context in range. *)
Lemma applyOp_ok (fuel : nat) (tok : string) (st : list Value) (r : RD) :
  PS st -> ctxOK r -> post PS r (applyOp sub fuel tok st r).
Proof.
  intros Hst Hc. unfold applyOp.
  assert (W : forall o, post PT r o -> post PS r o)
    by (intros o; apply post_weaken; tauto).
  repeat (match goal with
          | |- post _ r ((if ?b then _ else _) r) =>
              destruct b;
              [first
                 [ apply arith_ok; [intros; first [apply wrap_range
                                                  | apply boolInt_inRange
                                                  | now apply land_inRange
                                                  | now apply lor_inRange] | assumption ..]
                 | apply W; first [ now apply diceOp_ok | now apply fudgeOp_ok
                                  | now apply keepOp_ok | now apply selectOp_ok
                                  | now apply clampOp_ok | now apply spOp_ok
                                  | now apply tpOp_ok | now apply lpOp_ok ]
                 | now apply chain2Op_ok | now apply chain3Op_ok
                 | now apply percOp_ok | now apply assignOp_ok
                 | idtac ] |]
          end).
  - op3 Hst. apply post_ret; [|assumption].
    constructor; [|assumption]. destruct (_ =? 0); assumption.
  - op2 Hst. destruct (_ =? 0); [failing|].
    apply post_ret; [|assumption]. constructor; [|assumption].
    apply ok_scalar, wrap_range.
  - op2 Hst. destruct (_ && _); [failing|]. destruct (_ <? 0); [failing|].
    apply post_ret; [|assumption]. constructor; [|assumption].
    apply ok_scalar, pow_inRange.
  - failing.
Qed.

Lemma step_ok (fuel : nat) (tok : string) (st : list Value) (r : RD) :
  PS st -> ctxOK r -> post PS r (step sub fuel tok st r).
Proof.
  intros Hst Hc. unfold step.
  destruct (Atoi tok) as [v|] eqn:E.
  { apply post_ret; [|assumption]. constructor; [|assumption].
    apply ok_scalar. eapply Atoi_inRange; eauto. }
  destruct (enclosedBy "[" "]" tok).
  { apply post_ret; [|assumption]. constructor; [apply ok_tupleValue | assumption]. }
  destruct (enclosedBy dquote dquote tok).
  { apply post_ret; [|assumption]. constructor; [apply ok_strValue | assumption]. }
  destruct (HasPrefixDollar tok); [|now apply applyOp_ok].
  simpl. split; [|auto]. constructor; [|assumption].
  split; [now apply readTemp_inRange | constructor].
Qed.

Lemma evalRPNLoop_ok (fuel : nat) (rpn : list string) : forall st r,
  PS st -> ctxOK r -> post okValue r (evalRPNLoop sub fuel rpn st r).
Proof.
  induction rpn as [|tok rest IH]; intros st r Hst Hc; simpl.
  - destruct st as [|v [|? ?]]; [failing | | failing].
    apply post_ret; [now inversion Hst | assumption].
  - eapply post_bind; [now apply step_ok|].
    intros st1 r1 Hst1 Hc1 _. now apply IH.
Qed.

End RangesSub.

Section RangesRoll.

Context {RS : RandSource}.

Lemma post_res {A} (P : A -> Prop) (r r1 : RD) (o : option (Outcome A)) :
  res r1 = res r -> post P r1 o -> post P r o.
Proof.
  intros Hr. destruct o as [[a r2|e r2]|]; simpl; [| |auto];
    intros (? & ? & ?); (split; [assumption|]; split; [assumption | congruence]).
Qed.

Lemma ctxOK_NewSharing (e : string) (vt : option (gmap string Z)) (g : rng_state) :
  vtOK vt -> ctxOK (NewSharing e vt g).
Proof.
  intros H. split; [exact H|]. intros k v Hl. simpl in Hl.
  now rewrite lookup_empty in Hl.
Qed.

Lemma RollBody_ok (sub : SubRoll) (ev : list string -> M Value) (r r' : RD) :
  (forall tokens r, ctxOK r -> post okValue r (ev tokens r)) ->
  ctxOK r -> RollBody sub ev r = Some r' ->
  ctxOK r' /\ (res_Error (res r') = ErrNone -> GoInt.inRange (res_Value (res r'))).
Proof.
  intros Hev Hc. unfold RollBody.
  destruct (tokenize _) as [tokens|];
    [|intros [= <-]; split; [exact Hc | discriminate]].
  specialize (Hev tokens r Hc).
  destruct (ev tokens r) as [[val r1|e r1]|]; [| |discriminate].
  - destruct Hev as ([HV HM] & Hc1 & _). cbv zeta.
    destruct (MetaEnable val).
    + destruct (MetaStr val).
      * rewrite getFromMetaTuple_ints. simpl.
        rewrite length_fmap, Nat.eqb_refl. intros [= <-]. split; [exact Hc1|].
        intros _. exact HV.
      * intros [= <-]. split; [exact Hc1|]. intros _. exact HV.
    + intros [= <-]. split; [exact Hc1|]. intros _. exact HV.
  - destruct Hev as (He & Hc1 & _). intros [= <-]. split; [exact Hc1|].
    simpl. intros ->. contradiction.
Qed.

Lemma eval_ok (n : nat) :
  (forall tokens r, ctxOK r -> post okValue r (evalTokens n tokens r))
  /\ subOK (fun e vt g => Roll n (NewSharing e vt g)).
Proof.
  induction n as [|n [IHev IHroll]].
  - split; [intros; exact I | intros e vt g s H; discriminate].
  - split.
    + intros tokens r Hc. cbn [evalTokens].
      destruct (findGroup tokens) as [| |oi ci].
      * destruct (findQuestion _ 0 0) as [i|].
        -- destruct (findColon _ _ 0 1) as [j|];
             [|apply post_fail; [discriminate | assumption]].
           pose proof (IHev (take i (trimOuter (length tokens) tokens)) r Hc) as H1.
           destruct (evalTokens n (take i _) r) as [[a r1|e r1]|];
             [|exact H1|exact I].
           destruct H1 as (_ & Hc1 & Hr1). eapply post_res; [exact Hr1|].
           destruct (V a =? 0); now apply IHev.
        -- destruct (toRPN _) as [rpn|];
             [|apply post_fail; [discriminate | assumption]].
           apply evalRPNLoop_ok; [exact IHroll | constructor | assumption].
      * apply post_fail; [discriminate | assumption].
      * pose proof (IHev (segment tokens (S oi) ci) r Hc) as H1.
        destruct (evalTokens n (segment _ _ _) r) as [[a r1|e r1]|];
          [|exact H1|exact I].
        destruct H1 as (_ & Hc1 & Hr1). eapply post_res; [exact Hr1|].
        now apply IHev.
    + intros e vt g s H Hvt. cbn [Roll] in H.
      destruct (RollBody_ok _ _ _ _ IHev (ctxOK_NewSharing e vt g Hvt) H) as [Hc Hv].
      split; [apply Hc | exact Hv].
Qed.

(** Whatever the expression, a table of [int]s stays one, and the value
    of a result without error is an [int]. *)
Lemma Roll_inRange (fuel : nat) (expr : string) (vt : option (gmap string Z))
    (now : Z) (g : rng_state) (r' : RD) :
  vtOK vt ->
  rollWith fuel expr vt now g = Some r' ->
  vtOK (ValueTable r')
  /\ (res_Error (res r') = ErrNone -> GoInt.inRange (res_Value (res r'))).
Proof.
  intros Hvt H. destruct fuel as [|n]; [discriminate|].
  unfold rollWith in H. cbn [Roll] in H.
  assert (Hc : ctxOK (setRng (New expr vt now) g))
    by (split; [exact Hvt | intros k v Hl; simpl in Hl; now rewrite lookup_empty in Hl]).
  destruct (RollBody_ok _ _ _ _ (proj1 (eval_ok n)) Hc H) as [Hc' Hv].
  split; [apply Hc' | exact Hv].
Qed.

End RangesRoll.

(** ** The sum invariant *)

Lemma isDiceOp_In (tok : string) : isDiceOp tok = true -> In tok diceOps.
Proof.
  unfold isDiceOp. intros H. apply existsb_exists in H as (x & Hin & Hx).
  apply String.eqb_eq in Hx. now subst.
Qed.




Section SumInvariant.

Context {RS : RandSource}.
Variable sub : SubRoll.
Hypothesis Hsub : subOK sub.





End SumInvariant.

(** *** Plain tokens through the preprocessor and the converter *)

Lemma plain_neq (s tok : string) :
  isPlain s = false -> isPlain tok = true -> eqs tok s = false.
Proof.
  intros Hs Ht. destruct (eqs tok s) eqn:E; [|reflexivity].
  apply String.eqb_eq in E. congruence.
Qed.

Lemma digit_not_upper (c : ascii) : isDigit c = true -> isUpperAZ c = false.
Proof.
  unfold isDigit, isUpperAZ, byte_in. intros H.
  apply andb_prop in H as [H1 H2]. apply N.leb_le in H1, H2.
  destruct (N.leb_spec 65 (N_of_ascii c)); [|reflexivity].
  destruct (N.leb_spec (N_of_ascii c) 90); simpl; lia.
Qed.

Lemma atoiDigits_lower (s : string) (n v : Z) :
  atoiDigits s n = Some v -> ToLower s = s.
Proof.
  unfold ToLower. revert n. induction s as [|c s IH]; intros n; simpl; [reflexivity|].
  destruct (isDigit c) eqn:E; [|discriminate]. intros H.
  unfold lowerByte. rewrite (digit_not_upper c E). f_equal. eapply IH; eauto.
Qed.

Lemma Atoi_lower (s : string) (v : Z) : Atoi s = Some v -> ToLower s = s.
Proof.
  assert (Hs : forall (neg : bool) (ds : string),
             match ds with
             | EmptyString => None
             | _ =>
                 match atoiDigits ds 0 with
                 | Some n =>
                     let v := if neg then - n else n in
                     if (GoInt.minInt <=? v) && (v <=? GoInt.maxInt) then Some v else None
                 | None => None
                 end
             end = Some v -> ToLower ds = ds).
  { intros neg ds H. destruct ds; [discriminate|].
    destruct (atoiDigits _ 0) as [n|] eqn:E; [|discriminate].
    eapply atoiDigits_lower; eauto. }
  unfold Atoi. destruct s as [|c s']; [discriminate|].
  destruct (eqc c "-") eqn:E1.
  { apply Ascii.eqb_eq in E1. subst c. intros H. apply (Hs true s') in H.
    unfold ToLower in *. simpl. now rewrite H. }
  destruct (eqc c "+") eqn:E2.
  { apply Ascii.eqb_eq in E2. subst c. intros H. apply (Hs false s') in H.
    unfold ToLower in *. simpl. now rewrite H. }
  apply (Hs false (String c s')).
Qed.












Lemma popOps_dice (op : string) (stack out : list string) :
  Exists Dice stack \/ Exists Dice out ->
  Exists Dice (fst (popOps op stack out)) \/ Exists Dice (snd (popOps op stack out)).
Proof.
  revert out. induction stack as [|top stack IH]; intros out H; simpl; [exact H|].
  destruct (_ && _); [|simpl; exact H].
  apply IH. destruct H as [H | H].
  - apply Exists_cons in H as [H | H]; [right | now left].
    apply Exists_app. right. now constructor.
  - right. apply Exists_app. now left.
Qed.




Lemma toRPNLoop_diceOp (tok : string) (rest out stack : list string) :
  isDiceOp tok = true ->
  toRPNLoop (tok :: rest) out stack
  = toRPNLoop rest (snd (popOps tok stack out)) (tok :: fst (popOps tok stack out)).
Proof.
  intros Hd. apply isDiceOp_In in Hd. simpl in Hd.
  repeat (destruct Hd as [<- | Hd];
          [simpl; destruct (popOps _ stack out); reflexivity|]).
  contradiction.
Qed.



(** No parenthesis and no ternary marker: the dispatcher goes straight to
    the postfix evaluator. *)
Lemma findGroupFrom_plain (tokens todo : list string) (i : nat) :
  Forall Plain todo -> findGroupFrom tokens i todo = NoGroup.
Proof.
  revert i. induction todo as [|t todo IH]; intros i H; simpl; [reflexivity|].
  apply Forall_cons in H as [Ht Htodo].
  rewrite (plain_neq ")" t eq_refl Ht). now apply IH.
Qed.

Lemma trimOuter_plain (n : nat) (tokens : list string) :
  Forall Plain tokens -> trimOuter n tokens = tokens.
Proof.
  intros H. destruct n as [|n]; [reflexivity|].
  destruct tokens as [|t0 [|t1 rest]]; try reflexivity.
  apply Forall_cons in H as [H0 _]. simpl.
  now rewrite (plain_neq "(" t0 eq_refl H0).
Qed.

Lemma findQuestion_plain (tokens : list string) (i : nat) (depth : Z) :
  Forall Plain tokens -> findQuestion tokens i depth = None.
Proof.
  revert i. induction tokens as [|t rest IH]; intros i H; simpl; [reflexivity|].
  apply Forall_cons in H as [Ht Hrest].
  rewrite (plain_neq "(" t eq_refl Ht), (plain_neq ")" t eq_refl Ht),
    (plain_neq "?" t eq_refl Ht). simpl. now apply IH.
Qed.


Section SumTheorem.

Context {RS : RandSource}.

Lemma evalTokens_plain_unfold (n : nat) (tokens : list string) (r : RD) :
  Forall Plain tokens ->
  evalTokens (S n) tokens r
  = match toRPN (preProcessTokens tokens (DefaultFaces r)) with
    | None => Some (Fail ErrUnknownGenerate r)
    | Some rpn => evalRPN (fun e vt g => Roll n (NewSharing e vt g)) (S n) rpn r
    end.
Proof.
  intros H. cbn [evalTokens].
  unfold findGroup. rewrite findGroupFrom_plain by assumption. cbv zeta.
  rewrite trimOuter_plain by assumption.
  rewrite findQuestion_plain by assumption. reflexivity.
Qed.



End SumTheorem.


(** A tuple literal on its own is outside the invariant: no operator has
    computed its value, which is 0 whatever the list. *)
Lemma bare_tuple_value :
  resultOf (rollWith (RS := ListRand) 3 "[1,2,3]" None 0 [])
  = Some (mkResult 0 0 0 "0 [1,2,3]" (Some [MInt 1; MInt 2; MInt 3]) ErrNone).
Proof. vm_compute. reflexivity. Qed.

(** * Further properties of the evaluator *)

(** ** Lexer *)

Lemma append_cons (c : ascii) (a b : string) :
  String c a +:+ b = String c (a +:+ b).
Proof. reflexivity. Qed.

Lemma bytes_app (a b : string) : bytes (a +:+ b) = bytes a ++ bytes b.
Proof. unfold bytes. induction a as [|c a IH]; simpl; [reflexivity | now rewrite IH]. Qed.

Lemma bytes_inj (a b : string) : bytes a = bytes b -> a = b.
Proof.
  unfold bytes. intros H.
  rewrite <- (string_of_list_ascii_of_string a), <- (string_of_list_ascii_of_string b).
  now rewrite H.
Qed.

Lemma bytes_revBytes (s acc : string) : bytes (revBytes s acc) = rev (bytes s) ++ bytes acc.
Proof.
  revert acc. induction s as [|c s IH]; intros acc; simpl; [reflexivity|].
  rewrite IH. unfold bytes. simpl. now rewrite <- app_assoc.
Qed.

Lemma revBytes_involutive (s : string) : revBytes (revBytes s EmptyString) EmptyString = s.
Proof.
  apply bytes_inj. rewrite !bytes_revBytes. unfold bytes at 2 4. simpl.
  now rewrite !app_nil_r, rev_involutive.
Qed.

Lemma revBytes_app (a b : string) :
  revBytes (a +:+ b) EmptyString = revBytes b EmptyString +:+ revBytes a EmptyString.
Proof.
  apply bytes_inj. rewrite bytes_app, !bytes_revBytes, bytes_app.
  change (bytes EmptyString) with (@nil ascii). rewrite !app_nil_r. apply rev_app_distr.
Qed.

Lemma append_nil_r_bytes (w : string) : w +:+ EmptyString = w.
Proof. apply bytes_inj. rewrite bytes_app. apply app_nil_r. Qed.

Lemma append_assoc (x y z : string) : (x +:+ y) +:+ z = x +:+ (y +:+ z).
Proof. apply bytes_inj. rewrite !bytes_app. now rewrite app_assoc. Qed.

Section TrimRunes.
Variables (p1 : ascii -> bool) (p2 : ascii -> ascii -> bool)
          (p3 : ascii -> ascii -> ascii -> bool).

(** What is left is an end of the string. *)
Lemma trimRunes_suffix (n : nat) : forall s,
  (String.length s <= n)%nat -> exists x, s = x +:+ trimRunes p1 p2 p3 s.
Proof.
  induction n as [|n IH]; intros s Hn.
  - destruct s; [now exists EmptyString | simpl in Hn; lia].
  - destruct s as [|c1 s1]; [now exists EmptyString|]. simpl in Hn.
    cbn [trimRunes]. destruct (p1 c1).
    { destruct (IH s1 ltac:(lia)) as [x Hx]. exists (String c1 x).
      rewrite append_cons. now f_equal. }
    destruct s1 as [|c2 s2]; [now exists EmptyString|]. simpl in Hn.
    destruct (p2 c1 c2).
    { destruct (IH s2 ltac:(lia)) as [x Hx]. exists (String c1 (String c2 x)).
      rewrite !append_cons. now do 2 f_equal. }
    destruct s2 as [|c3 s3]; [now exists EmptyString|]. simpl in Hn.
    destruct (p3 c1 c2 c3); [|now exists EmptyString].
    destruct (IH s3 ltac:(lia)) as [x Hx]. exists (String c1 (String c2 (String c3 x))).
    rewrite !append_cons. now do 3 f_equal.
Qed.

Lemma trimRunes_Forall (P : ascii -> Prop) (s : string) :
  Forall P (bytes s) -> Forall P (bytes (trimRunes p1 p2 p3 s)).
Proof.
  intros H. destruct (trimRunes_suffix (String.length s) s ltac:(lia)) as [x Hx].
  rewrite Hx, bytes_app in H. now apply Forall_app in H as [_ H].
Qed.

(** A byte that is no rune of the set and takes part in none stops the
    scan, wherever it stands. *)
Variable c : ascii.
Hypothesis Hc1 : p1 c = false.
Hypothesis Hc2 : forall a, p2 c a = false /\ p2 a c = false.
Hypothesis Hc3 : forall a b, p3 c a b = false /\ p3 a c b = false /\ p3 a b c = false.

Lemma trimRunes_head (s : string) :
  trimRunes p1 p2 p3 (String c s) = String c s.
Proof.
  cbn [trimRunes]. rewrite Hc1. destruct s as [|c2 s2]; [reflexivity|].
  rewrite (proj1 (Hc2 c2)). destruct s2 as [|c3 s3]; [reflexivity|].
  now rewrite (proj1 (Hc3 c2 c3)).
Qed.

Lemma trimRunes_stop (post : string) (n : nat) : forall pre,
  (String.length pre <= n)%nat ->
  exists x pre', pre = x +:+ pre'
    /\ trimRunes p1 p2 p3 (pre +:+ String c post) = pre' +:+ String c post.
Proof.
  induction n as [|n IH]; intros pre Hn.
  - destruct pre; [|simpl in Hn; lia]. exists EmptyString, EmptyString.
    split; [reflexivity | apply trimRunes_head].
  - assert (Hkeep : forall s, s = pre +:+ String c post ->
              exists x pre', pre = x +:+ pre' /\ s = pre' +:+ String c post)
      by (intros s ->; exists EmptyString, pre; split; reflexivity).
    destruct pre as [|c1 [|c2 [|c3 s3]]].
    + exists EmptyString, EmptyString. split; [reflexivity | apply trimRunes_head].
    + change (String c1 EmptyString +:+ String c post) with (String c1 (String c post)).
      cbn [trimRunes]. destruct (p1 c1).
      { exists (String c1 EmptyString), EmptyString.
        split; [reflexivity | apply trimRunes_head]. }
      rewrite (proj2 (Hc2 c1)). destruct post as [|c4 s4]; [now apply Hkeep|].
      destruct (Hc3 c1 c4) as (_ & H & _). rewrite H. now apply Hkeep.
    + change (String c1 (String c2 EmptyString) +:+ String c post)
        with (String c1 (String c2 (String c post))).
      cbn [trimRunes]. destruct (p1 c1).
      { destruct (IH (String c2 EmptyString) ltac:(simpl in *; lia))
          as (x & pre' & Hx & Ht).
        exists (String c1 x), pre'. split; [rewrite append_cons; now f_equal | exact Ht]. }
      destruct (p2 c1 c2).
      { exists (String c1 (String c2 EmptyString)), EmptyString.
        split; [reflexivity | apply trimRunes_head]. }
      destruct (Hc3 c1 c2) as (_ & _ & H). rewrite H. now apply Hkeep.
    + change (String c1 (String c2 (String c3 s3)) +:+ String c post)
        with (String c1 (String c2 (String c3 (s3 +:+ String c post)))).
      simpl in Hn. cbn [trimRunes]. destruct (p1 c1).
      { destruct (IH (String c2 (String c3 s3)) ltac:(simpl; lia))
          as (x & pre' & Hx & Ht).
        exists (String c1 x), pre'. split; [rewrite append_cons; now f_equal | exact Ht]. }
      destruct (p2 c1 c2).
      { destruct (IH (String c3 s3) ltac:(simpl; lia)) as (x & pre' & Hx & Ht).
        exists (String c1 (String c2 x)), pre'.
        split; [rewrite !append_cons; now do 2 f_equal | exact Ht]. }
      destruct (p3 c1 c2 c3); [|now apply Hkeep].
      destruct (IH s3 ltac:(lia)) as (x & pre' & Hx & Ht).
      exists (String c1 (String c2 (String c3 x))), pre'.
      split; [rewrite !append_cons; now do 3 f_equal | exact Ht].
Qed.
End TrimRunes.

Lemma TrimSpace_Forall (P : ascii -> Prop) (s : string) :
  Forall P (bytes s) -> Forall P (bytes (TrimSpace s)).
Proof.
  intros H. unfold TrimSpace, trimRightSpace, trimLeftSpace.
  rewrite bytes_revBytes. change (bytes EmptyString) with (@nil ascii).
  rewrite app_nil_r. apply Forall_rev, trimRunes_Forall.
  rewrite bytes_revBytes. change (bytes EmptyString) with (@nil ascii).
  rewrite app_nil_r. now apply Forall_rev, trimRunes_Forall.
Qed.

Lemma byteIs_ascii (c : ascii) (n : N) :
  isASCIIByte c = true -> (128 <= n)%N -> byteIs n c = false.
Proof.
  unfold isASCIIByte, byteIs. intros H Hn. apply N.ltb_lt in H. apply N.eqb_neq. lia.
Qed.

Lemma ascii_in_no_space_rune (c : ascii) :
  isASCIIByte c = true ->
  (forall a, isSpace2 c a = false /\ isSpace2 a c = false)
  /\ (forall a b, isSpace3 c a b = false /\ isSpace3 a c b = false
                  /\ isSpace3 a b c = false).
Proof.
  intros H.
  assert (B : forall n, (128 <= n)%N -> byteIs n c = false)
    by (intros n; now apply byteIs_ascii).
  assert (R : byte_in 128 138 c = false).
  { unfold byte_in, isASCIIByte in *. apply N.ltb_lt in H.
    apply andb_false_iff. left. apply N.leb_gt. lia. }
  split.
  - intros a. unfold isSpace2.
    rewrite (B 194%N), (B 133%N), (B 160%N) by lia.
    split; [reflexivity | now rewrite andb_false_r].
  - intros a b. unfold isSpace3.
    rewrite (B 225%N), (B 226%N), (B 227%N), (B 154%N), (B 128%N), (B 129%N),
      (B 168%N), (B 169%N), (B 175%N), (B 159%N), R by lia.
    repeat split; cbn [andb orb]; rewrite ?andb_false_r; reflexivity.
Qed.

(** White space is trimmed around a byte of ASCII that is none: the byte
    stays, with an end of what precedes it and a beginning of what
    follows. *)
Lemma TrimSpace_stop (pre post : string) (c : ascii) :
  isSpaceByte c = false -> isASCIIByte c = true ->
  exists x pre' post' y,
    pre = x +:+ pre' /\ post = post' +:+ y
    /\ TrimSpace (pre +:+ String c post) = pre' +:+ String c post'.
Proof.
  intros Hs Ha. destruct (ascii_in_no_space_rune c Ha) as [H2 H3].
  unfold TrimSpace, trimLeftSpace, trimRightSpace.
  destruct (trimRunes_stop isSpaceByte isSpace2 isSpace3 c Hs H2 H3 post
              (String.length pre) pre ltac:(lia)) as (x & pre' & Hx & ->).
  rewrite revBytes_app.
  change (revBytes (String c post) EmptyString) with (revBytes post (String c EmptyString)).
  assert (E : revBytes post (String c EmptyString)
              = revBytes post EmptyString +:+ String c EmptyString).
  { apply bytes_inj. rewrite bytes_app, !bytes_revBytes.
    change (bytes EmptyString) with (@nil ascii). now rewrite app_nil_r. }
  rewrite E, append_assoc.
  change (String c EmptyString +:+ revBytes pre' EmptyString)
    with (String c (revBytes pre' EmptyString)).
  destruct (trimRunes_stop isSpaceByte (fun c1 c2 => isSpace2 c2 c1)
              (fun c1 c2 c3 => isSpace3 c3 c2 c1) c Hs
              (fun a => conj (proj2 (H2 a)) (proj1 (H2 a)))
              (fun a b => conj (proj2 (proj2 (H3 b a)))
                               (conj (proj1 (proj2 (H3 b a))) (proj1 (H3 b a))))
              (revBytes pre' EmptyString)
              (String.length (revBytes post EmptyString)) (revBytes post EmptyString)
              ltac:(lia)) as (y & rpost' & Hy & ->).
  exists x, pre', (revBytes rpost' EmptyString), (revBytes y EmptyString).
  split; [exact Hx|]. split.
  - rewrite <- revBytes_app, <- Hy. symmetry. apply revBytes_involutive.
  - rewrite revBytes_app.
    change (revBytes (String c (revBytes pre' EmptyString)) EmptyString)
      with (revBytes (revBytes pre' EmptyString) (String c EmptyString)).
    apply bytes_inj. rewrite !bytes_app, !bytes_revBytes.
    change (bytes EmptyString) with (@nil ascii). rewrite !app_nil_r, rev_involutive.
    change (bytes (String c (revBytes rpost' EmptyString)))
      with (c :: bytes (revBytes rpost' EmptyString)).
    rewrite bytes_revBytes. change (bytes EmptyString) with (@nil ascii).
    rewrite app_nil_r, <- app_assoc. reflexivity.
Qed.

(** A string of ASCII bytes that are no white space is trimmed to itself. *)
Lemma TrimSpace_plain (s : string) :
  Forall (fun c => isSpaceByte c = false /\ isASCIIByte c = true) (bytes s) ->
  TrimSpace s = s.
Proof.
  intros H. unfold TrimSpace, trimLeftSpace, trimRightSpace.
  assert (L : trimRunes isSpaceByte isSpace2 isSpace3 s = s).
  { destruct s as [|c s']; [reflexivity|].
    unfold bytes in H. simpl in H. inversion H as [|? ? [Hs Ha] _]; subst.
    destruct (ascii_in_no_space_rune c Ha) as [H2 H3].
    now apply trimRunes_head. }
  rewrite L.
  assert (Hr : Forall (fun c => isSpaceByte c = false /\ isASCIIByte c = true)
                 (bytes (revBytes s EmptyString))).
  { rewrite bytes_revBytes. change (bytes EmptyString) with (@nil ascii).
    rewrite app_nil_r. now apply Forall_rev. }
  destruct (revBytes s EmptyString) as [|c r] eqn:E.
  - rewrite <- (revBytes_involutive s), E. reflexivity.
  - unfold bytes in Hr. simpl in Hr. inversion Hr as [|? ? [Hs Ha] _]; subst.
    destruct (ascii_in_no_space_rune c Ha) as [H2 H3].
    rewrite trimRunes_head; auto.
    + rewrite <- E. apply revBytes_involutive.
    + intros a. split; [apply H2 | apply H2].
    + intros a b. destruct (H3 b a) as (A & B & C). repeat split; assumption.
Qed.

Lemma spanBytes_app (p : ascii -> bool) (s a b : string) :
  spanBytes p s = (a, b) -> s = a +:+ b.
Proof.
  revert a b. induction s as [|c s IH]; intros a b H; simpl in H.
  - now injection H as <- <-.
  - destruct (p c).
    + destruct (spanBytes p s) as [a' b']. injection H as <- <-.
      rewrite append_cons. f_equal. now apply IH.
    + now injection H as <- <-.
Qed.

Lemma spanBytes_stop (p : ascii -> bool) (pre post : string) (c : ascii) :
  p c = false ->
  spanBytes p (pre +:+ String c post)
  = (fst (spanBytes p pre), snd (spanBytes p pre) +:+ String c post).
Proof.
  intros Hc. induction pre as [|b pre IH]; simpl; [now rewrite Hc|].
  destruct (p b); [|reflexivity]. rewrite IH.
  destruct (spanBytes p pre) as [x y]. reflexivity.
Qed.

Lemma spanBytes_Forall (P : ascii -> Prop) (p : ascii -> bool) (s : string) :
  Forall P (bytes s) -> Forall P (bytes (snd (spanBytes p s))).
Proof.
  induction s as [|c s IH]; simpl; [auto|]. intros H.
  destruct (p c); [|exact H].
  unfold bytes in H. simpl in H. inversion H; subst.
  destruct (spanBytes p s) as [x y]. simpl in *. now apply IH.
Qed.

Lemma scanString_app (s body rest : string) :
  Forall (fun c => c <> bslash) (bytes s) ->
  scanString s = Some (body, rest) -> s = body +:+ String dquote rest.
Proof.
  revert body rest. induction s as [|c s IH]; intros body rest Hn H; [discriminate|].
  unfold bytes in Hn. simpl in Hn. inversion Hn as [|? ? Hc Hs]; subst.
  simpl in H. destruct (eqc c bslash) eqn:E;
    [apply Ascii.eqb_eq in E; contradiction|].
  destruct (eqc c dquote) eqn:E2.
  - apply Ascii.eqb_eq in E2. subst. now injection H as <- <-.
  - destruct (scanString s) as [[b r]|] eqn:Es; [|discriminate].
    injection H as <- <-. rewrite append_cons. f_equal. now apply IH.
Qed.

Lemma scanTuple_app (s : string) : forall inStr depth tup rest,
  scanTuple inStr depth s = Some (tup, rest) -> s = tup +:+ rest /\ tup <> EmptyString.
Proof.
  remember (String.length s) as k eqn:Hk. revert s Hk.
  induction k as [k IH'] using lt_wf_ind. intros s ->.
  assert (IH : forall y, (String.length y < String.length s)%nat ->
    forall inStr depth tup rest, scanTuple inStr depth y = Some (tup, rest) ->
    y = tup +:+ rest /\ tup <> EmptyString)
    by (intros y Hy; exact (IH' _ Hy y eq_refl)).
  clear IH'.
  assert (K : forall s', (String.length s' < String.length s)%nat ->
     forall c i d tup rest,
     match scanTuple i d s' with
     | Some (body, rest) => Some (String c body, rest)
     | None => None
     end = Some (tup, rest) -> String c s' = tup +:+ rest /\ tup <> EmptyString).
  { intros s' Hl c i d tup rest H.
    destruct (scanTuple i d s') as [[b r]|] eqn:E; [|discriminate].
    injection H as <- <-. apply IH in E; [|exact Hl]. destruct E as [-> _].
    split; [reflexivity | discriminate]. }
  intros inStr depth tup rest H. destruct s as [|c s']; [discriminate|].
  simpl in H.
  destruct inStr.
  - destruct (eqc c bslash).
    + destruct s' as [|c2 s'']; [discriminate|].
      destruct (scanTuple true depth s'') as [[b r]|] eqn:E; [|discriminate].
      injection H as <- <-. apply IH in E; [|simpl; lia]. destruct E as [-> _].
      split; [reflexivity | discriminate].
    + destruct (eqc c dquote); eapply K in H; simpl; auto.
  - destruct (eqc c "[").
    { eapply K in H; simpl; auto. }
    destruct (eqc c "]").
    { destruct (depth - 1 =? 0).
      - injection H as <- <-. split; [reflexivity | discriminate].
      - eapply K in H; simpl; auto. }
    destruct (eqc c dquote); eapply K in H; simpl; auto.
Qed.

Lemma isBlank_space (c : ascii) : isBlank c = true -> isSpaceByte c = true.
Proof.
  unfold isBlank. intros H.
  apply orb_true_iff in H as [H | H]; [apply orb_true_iff in H as [H | H]|];
    apply Ascii.eqb_eq in H; subst; reflexivity.
Qed.

Lemma tokenizeLoop_round_trip (fuel : nat) : forall s toks,
  tokenizeLoop fuel s = Some toks ->
  Forall (fun t => t <> EmptyString) toks
  /\ (Forall (fun c => isBlank c = false /\ c <> bslash) (bytes s) ->
      concatTokens toks = s).
Proof.
  induction fuel as [|fuel IH]; intros s toks H.
  - destruct s; [|discriminate]. injection H as <-. split; [constructor | reflexivity].
  - destruct s as [|c s']; [injection H as <-; split; [constructor | reflexivity]|].
    cbn [tokenizeLoop] in H.
    assert (Hcons : forall tok rest,
              tok <> EmptyString -> String c s' = tok +:+ rest ->
              consTok tok (tokenizeLoop fuel rest) = Some toks ->
              Forall (fun t => t <> EmptyString) toks
              /\ (Forall (fun c => isBlank c = false /\ c <> bslash) (bytes (String c s')) ->
                  concatTokens toks = String c s')).
    { intros tok rest Hne Es Hc. unfold consTok in Hc.
      destruct (tokenizeLoop fuel rest) as [ts|] eqn:E; [|discriminate].
      injection Hc as <-. destruct (IH rest ts E) as [Hn Hcat].
      split; [now constructor|]. intros Hall. rewrite Es in Hall |- *.
      rewrite bytes_app in Hall. apply Forall_app in Hall as [_ Hrest].
      change (concatTokens (tok :: ts)) with (tok +:+ concatTokens ts).
      f_equal. now apply Hcat. }
    destruct (isBlank c) eqn:Eb.
    { destruct (IH s' toks H) as [Hn _]. split; [exact Hn|]. intros Hall.
      unfold bytes in Hall. simpl in Hall. inversion Hall as [|? ? [Hc _] _]; subst.
      congruence. }
    destruct (eqc c dquote) eqn:Eq.
    { apply Ascii.eqb_eq in Eq. subst c.
      destruct (scanString s') as [[body rest]|] eqn:Es; [|discriminate].
      unfold consTok in H. destruct (tokenizeLoop fuel rest) as [ts|] eqn:E; [|discriminate].
      injection H as <-. destruct (IH rest ts E) as [Hn Hcat].
      split; [constructor; [discriminate | exact Hn]|]. intros Hall.
      unfold bytes in Hall. simpl in Hall. inversion Hall as [|? ? _ Hs']; subst.
      assert (Hnb : Forall (fun c => c <> bslash) (bytes s'))
        by (eapply Forall_impl; [exact Hs'|]; intros x [_ Hx]; exact Hx).
      pose proof (scanString_app s' body rest Hnb Es) as ->.
      fold (bytes (body +:+ String dquote rest)) in Hs'.
      rewrite bytes_app in Hs'. apply Forall_app in Hs' as [_ Hr].
      unfold bytes in Hr. simpl in Hr. inversion Hr; subst.
      change (concatTokens (String dquote (body +:+ String dquote EmptyString) :: ts))
        with (String dquote (body +:+ String dquote EmptyString) +:+ concatTokens ts).
      rewrite append_cons. f_equal.
      assert (A : forall x y z : string, (x +:+ y) +:+ z = x +:+ (y +:+ z)).
      { intros x y z. apply bytes_inj. rewrite !bytes_app. now rewrite app_assoc. }
      rewrite A. f_equal. rewrite append_cons. f_equal. now apply Hcat. }
    destruct (isDigit c).
    { destruct (spanBytes isDigit s') as [ds rest] eqn:Es.
      apply (Hcons (String c ds) rest); [discriminate | | exact H].
      rewrite append_cons. f_equal. now apply (spanBytes_app isDigit). }
    destruct (eqc c "[").
    { destruct (scanTuple false 0 (String c s')) as [[tup rest]|] eqn:Es; [|discriminate].
      destruct (scanTuple_app _ _ _ _ _ Es) as [E Hne].
      apply (Hcons tup rest); [exact Hne | exact E | exact H]. }
    destruct (isPunct c).
    { apply (Hcons (String c EmptyString) s'); [discriminate | reflexivity | exact H]. }
    destruct (eqc c "$").
    { destruct (spanBytes _ s') as [w rest] eqn:Es.
      apply (Hcons (String c w) rest); [discriminate | | exact H].
      rewrite append_cons. f_equal. now apply (spanBytes_app _ _ _ _ Es). }
    destruct (isLetter c); [|discriminate].
    destruct (spanBytes _ s') as [w rest] eqn:Es.
    apply (Hcons (String c w) rest); [discriminate | | exact H].
    rewrite append_cons. f_equal. now apply (spanBytes_app _ _ _ _ Es).
Qed.

(** X1.  The lexer loses nothing.  No token is empty; and when the input,
    once its leading and trailing white space is trimmed, has no blank
    (space, tab, newline) and no backslash, the tokens put end to end are
    the trimmed input, byte for byte. *)
Theorem tokenize_round_trip (s : string) (toks : list string) :
  tokenize s = Some toks ->
  Forall (fun t => t <> EmptyString) toks
  /\ (Forall (fun c => isBlank c = false /\ c <> bslash) (bytes (TrimSpace s)) ->
      concatTokens toks = TrimSpace s).
Proof.
  unfold tokenize. intros H. exact (tokenizeLoop_round_trip _ _ _ H).
Qed.

Lemma tokenize_round_trip_witness :
  concatTokens ["2"; "d"; "6"; "+"; "[1,2]"; "kh"; "1"]%string = "2d6+[1,2]kh1"%string.
Proof.
  apply (tokenize_round_trip
           (String (ascii_of_nat 11)
              ("2d6+[1,2]kh1" +:+ String (ascii_of_nat 194) (String (ascii_of_nat 160) " ")))
           ["2"; "d"; "6"; "+"; "[1,2]"; "kh"; "1"]%string eq_refl).
  repeat constructor; discriminate.
Defined.

Lemma scanString_none (n : nat) : forall s,
  (String.length s <= n)%nat ->
  Forall (fun b => b <> dquote) (bytes s) -> scanString s = None.
Proof.
  induction n as [|n IH]; intros s Hl Hn.
  - destruct s; [reflexivity | simpl in Hl; lia].
  - destruct s as [|c s']; [reflexivity|].
    unfold bytes in Hn. simpl in Hn. inversion Hn as [|? ? Hc Hs]; subst.
    simpl in Hl. simpl.
    destruct (eqc c bslash).
    + destruct s' as [|c2 s'']; [reflexivity|].
      simpl in Hs. inversion Hs; subst. simpl in Hl.
      rewrite IH; [reflexivity | lia | assumption].
    + destruct (eqc c dquote) eqn:E; [apply Ascii.eqb_eq in E; contradiction|].
      rewrite IH; [reflexivity | lia | assumption].
Qed.

Lemma scanTuple_none (n : nat) : forall s inStr depth,
  (String.length s <= n)%nat ->
  Forall (fun b => b <> "]"%char) (bytes s) -> scanTuple inStr depth s = None.
Proof.
  induction n as [|n IH]; intros s inStr depth Hl Hn.
  - destruct s; [reflexivity | simpl in Hl; lia].
  - destruct s as [|c s']; [reflexivity|].
    unfold bytes in Hn. simpl in Hn. inversion Hn as [|? ? Hc Hs]; subst.
    simpl in Hl. simpl.
    assert (R : forall i d, scanTuple i d s' = None)
      by (intros; apply IH; [lia | assumption]).
    destruct inStr.
    + destruct (eqc c bslash).
      * destruct s' as [|c2 s'']; [reflexivity|].
        simpl in Hs. inversion Hs; subst. simpl in Hl.
        rewrite IH; [reflexivity | lia | assumption].
      * destruct (eqc c dquote); now rewrite R.
    + destruct (eqc c "[")%char; [now rewrite R|].
      destruct (eqc c "]")%char eqn:E; [apply Ascii.eqb_eq in E; contradiction|].
      destruct (eqc c dquote); now rewrite R.
Qed.

Section LexStop.
Variables (c : ascii) (post : string).
Hypothesis Hsp : isSpaceByte c = false.
Hypothesis Hdg : isDigit c = false.
Hypothesis Hlt : isLetter c = false.
Hypothesis Hbase : forall fuel, tokenizeLoop fuel (String c post) = None.

Lemma tokenizeLoop_stop (fuel : nat) : forall pre,
  Forall (fun b => b <> dquote /\ b <> "["%char) (bytes pre) ->
  tokenizeLoop fuel (pre +:+ String c post) = None.
Proof.
  induction fuel as [|fuel IH]; intros pre Hpre.
  - destruct pre; reflexivity.
  - destruct pre as [|b pre1]; [apply Hbase|].
    unfold bytes in Hpre. simpl in Hpre. inversion Hpre as [|? ? [Hq Hb] Hp1]; subst.
    fold (bytes pre1) in Hp1.
    rewrite append_cons. cbn [tokenizeLoop].
    assert (Hspan : forall p tok, p c = false ->
              (let '(w, rest) := spanBytes p (pre1 +:+ String c post) in
               consTok (tok w) (tokenizeLoop fuel rest)) = None).
    { intros p tok Hpc. rewrite (spanBytes_stop p pre1 post c Hpc).
      rewrite IH; [reflexivity|]. now apply spanBytes_Forall. }
    destruct (isBlank b); [now apply IH|].
    destruct (eqc b dquote) eqn:E1; [apply Ascii.eqb_eq in E1; contradiction|].
    destruct (isDigit b); [exact (Hspan isDigit (String b) Hdg)|].
    destruct (eqc b "[")%char eqn:E2; [apply Ascii.eqb_eq in E2; contradiction|].
    destruct (isPunct b); [now rewrite IH|].
    destruct (eqc b "$")%char.
    { apply (Hspan _ (String b)). now rewrite Hlt, Hdg. }
    destruct (isLetter b); [|reflexivity].
    exact (Hspan isLetter (String b) Hlt).
Qed.
End LexStop.

(** X2.  The three lex errors.  Before any string literal or tuple has been
    opened, the lexer rejects the whole input at the first ASCII byte that
    starts no token, at a quote that is never closed, and at a bracket
    that is never closed. *)
Theorem tokenize_rejects (pre post : string) (c : ascii) :
  Forall (fun b => b <> dquote /\ b <> "["%char) (bytes pre) ->
  (isASCIIByte c = true /\ isSpaceByte c = false /\ isDigit c = false
     /\ isLetter c = false /\ isPunct c = false
     /\ c <> "$"%char /\ c <> dquote /\ c <> "["%char)
  \/ (c = dquote /\ Forall (fun b => b <> dquote) (bytes post))
  \/ (c = "["%char /\ Forall (fun b => b <> "]"%char) (bytes post)) ->
  tokenize (pre +:+ String c post) = None.
Proof.
  intros Hpre Hc. unfold tokenize.
  assert (Hc4 : isASCIIByte c = true /\ isSpaceByte c = false /\ isDigit c = false
                /\ isLetter c = false).
  { destruct Hc as [(? & ? & ? & ? & _) | [[-> _] | [-> _]]]; auto. }
  destruct Hc4 as (Ha & Hsp & Hdg & Hlt).
  destruct (TrimSpace_stop pre post c Hsp Ha) as (x & pre' & post' & y & Ex & Ey & ->).
  assert (Hpre' : Forall (fun b => b <> dquote /\ b <> "["%char) (bytes pre')).
  { rewrite Ex, bytes_app in Hpre. now apply Forall_app in Hpre as [_ H]. }
  assert (Hpost : forall P, Forall P (bytes post) -> Forall P (bytes post')).
  { intros P H. rewrite Ey, bytes_app in H. now apply Forall_app in H as [H _]. }
  apply tokenizeLoop_stop; auto.
  intros [|fuel]; [reflexivity|]. cbn [tokenizeLoop].
  destruct Hc as [(_ & _ & _ & _ & Hpu & Hd & Hq & Hb) | [[-> Hq] | [-> Hb]]].
  - assert (Hbl : isBlank c = false).
    { destruct (isBlank c) eqn:E; [|reflexivity]. apply isBlank_space in E. congruence. }
    rewrite Hbl, Hdg, Hlt, Hpu.
    destruct (eqc c dquote) eqn:E1; [apply Ascii.eqb_eq in E1; contradiction|].
    destruct (eqc c "[")%char eqn:E2; [apply Ascii.eqb_eq in E2; contradiction|].
    destruct (eqc c "$")%char eqn:E3; [apply Ascii.eqb_eq in E3; contradiction|].
    reflexivity.
  - change (isBlank dquote) with false. change (eqc dquote dquote) with true.
    cbv iota.
    rewrite (scanString_none (String.length post')); [reflexivity | lia | now apply Hpost].
  - change (isBlank "[") with false. change (eqc "[" dquote) with false.
    change (isDigit "[") with false. change (eqc "[" "[") with true. cbv iota.
    rewrite (scanTuple_none (S (String.length post'))); [reflexivity | simpl; lia |].
    unfold bytes. simpl. constructor; [discriminate|]. now apply Hpost.
Qed.

Lemma tokenize_rejects_witness :
  tokenize "2d6 # 1"%string = None
  /\ tokenize (String "1" (String "+" (String dquote "abc"))) = None
  /\ tokenize "1+[2,[3"%string = None.
Proof.
  split; [|split].
  - apply (tokenize_rejects "2d6 " " 1" "#").
    + repeat constructor; discriminate.
    + left. repeat split; try reflexivity; discriminate.
  - apply (tokenize_rejects "1+" "abc" dquote).
    + repeat constructor; discriminate.
    + right; left. split; [reflexivity|]. repeat constructor; discriminate.
  - apply (tokenize_rejects "1+" "2,[3" "[").
    + repeat constructor; discriminate.
    + right; right. split; [reflexivity|]. repeat constructor; discriminate.
Defined.

(** ** Postfix converter *)

Ltac eqs_cases x :=
  repeat match goal with
  | |- context [eqs x ?s] =>
      let E := fresh "E" in
      destruct (eqs x s) eqn:E;
      [apply String.eqb_eq in E; subst x; try reflexivity; try discriminate | clear E]
  end.

Lemma operator_not_operand (x : string) :
  isOperator x = true -> isOperandTok x = false.
Proof.
  unfold isOperator, prec. eqs_cases x. discriminate.
Qed.


Lemma toRPNLoop_operand (tok : string) (rest out stack : list string) :
  isOperandTok tok = true ->
  toRPNLoop (tok :: rest) out stack = toRPNLoop rest (out ++ [tok]) stack.
Proof.
  unfold isOperandTok. intros H. cbn [toRPNLoop].
  destruct (isInt tok); [reflexivity|].
  destruct (HasPrefixDollar tok); [reflexivity|].
  destruct (startsWith "[" tok); [reflexivity|].
  destruct (negb (isOperator (ToLower tok)) && startsWithLetter tok); [reflexivity|].
  destruct (enclosedBy dquote dquote tok); [reflexivity | discriminate].
Qed.

Lemma toRPNLoop_other (tok : string) (rest out stack : list string) :
  isOperandTok tok = false ->
  toRPNLoop (tok :: rest) out stack =
    if isOperator (ToLower tok) then
      let op := ToLower tok in
      let op := if eqs op "df" then "f"%string else op in
      let '(stack', out') := popOps op stack out in
      toRPNLoop rest out' (op :: stack')
    else if eqs tok "?" then toRPNLoop rest out ("?"%string :: stack)
    else if eqs tok ":" then
      match popToQuestion stack out with
      | Some (stack', out') => toRPNLoop rest out' stack'
      | None => None
      end
    else if eqs tok "(" then toRPNLoop rest out (tok :: stack)
    else if eqs tok ")" then
      match popToParen stack out with
      | Some (stack', out') => toRPNLoop rest out' stack'
      | None => None
      end
    else None.
Proof.
  unfold isOperandTok. intros H. cbn [toRPNLoop].
  destruct (isInt tok); [discriminate|].
  destruct (HasPrefixDollar tok); [discriminate|].
  destruct (startsWith "[" tok); [discriminate|].
  destruct (negb (isOperator (ToLower tok)) && startsWithLetter tok); [discriminate|].
  destruct (enclosedBy dquote dquote tok); [discriminate | reflexivity].
Qed.

Lemma pushed_operator (tok : string) :
  isOperator (ToLower tok) = true ->
  isOperator (if eqs (ToLower tok) "df" then "f"%string else ToLower tok) = true.
Proof. intros H. destruct (eqs (ToLower tok) "df"); [reflexivity | exact H]. Qed.

Lemma popOps_stack (op : string) (stack : list string) : forall out stack' out',
  popOps op stack out = (stack', out') ->
  exists moved, stack = moved ++ stack' /\ out' = out ++ moved
                /\ Forall (fun t => isOperator t = true) moved.
Proof.
  induction stack as [|top stack IH]; intros out stack' out' H; simpl in H.
  - injection H as <- <-. exists []; rewrite ?app_nil_r; repeat split; auto.
  - destruct (isOperator top) eqn:Eo; simpl in H.
    + destruct ((isLeftAssoc op && (precOf op <=? precOf top))
                || (negb (isLeftAssoc op) && (precOf op <? precOf top))).
      * apply IH in H as (moved & -> & -> & Hm). exists (top :: moved).
        rewrite <- app_assoc. repeat split; auto.
      * injection H as <- <-. exists []; rewrite ?app_nil_r; repeat split; auto.
    + injection H as <- <-. exists []; rewrite ?app_nil_r; repeat split; auto.
Qed.

Lemma popToQuestion_stack (stack : list string) : forall out stack' out',
  popToQuestion stack out = Some (stack', out') ->
  exists moved rest, stack = moved ++ "?"%string :: rest
                     /\ stack' = ":"%string :: rest /\ out' = out ++ moved.
Proof.
  induction stack as [|top stack IH]; intros out stack' out' H; simpl in H; [discriminate|].
  destruct (eqs top "?") eqn:E.
  - apply String.eqb_eq in E. subst. injection H as <- <-.
    exists [], stack; rewrite ?app_nil_r; repeat split; auto.
  - apply IH in H as (moved & rest & -> & -> & ->). exists (top :: moved), rest.
    now rewrite <- app_assoc.
Qed.

Lemma popToParen_stack (stack : list string) : forall out stack' out',
  popToParen stack out = Some (stack', out') ->
  exists moved, stack = moved ++ "("%string :: stack' /\ out' = out ++ moved.
Proof.
  induction stack as [|top stack IH]; intros out stack' out' H; simpl in H; [discriminate|].
  destruct (eqs top "(") eqn:E.
  - apply String.eqb_eq in E. subst. injection H as <- <-.
    exists []; rewrite ?app_nil_r; repeat split; auto.
  - apply IH in H as (moved & -> & ->). exists (top :: moved).
    now rewrite <- app_assoc.
Qed.

Lemma flushOps_stack (stack : list string) : forall out res,
  flushOps stack out = Some res ->
  res = out ++ stack /\ ~ In "("%string stack /\ ~ In ")"%string stack.
Proof.
  induction stack as [|top stack IH]; intros out res H; simpl in H.
  - injection H as <-. rewrite app_nil_r. repeat split; intros [].
  - destruct (eqs top "(") eqn:E1; [discriminate|].
    destruct (eqs top ")") eqn:E2; [discriminate|]. simpl in H.
    apply IH in H as (-> & H1 & H2). rewrite <- app_assoc.
    apply String.eqb_neq in E1, E2.
    repeat split; intros [|]; auto.
Qed.
Lemma filter_none (l : list string) :
  Forall (fun t => isOperandTok t = false) l -> List.filter isOperandTok l = [].
Proof.
  induction 1 as [|x l Hx _ IH]; simpl; [reflexivity|]. now rewrite Hx.
Qed.

Lemma toRPNLoop_operands (tokens : list string) : forall out stack res,
  Forall (fun t => isOperandTok t = false) stack ->
  toRPNLoop tokens out stack = Some res ->
  List.filter isOperandTok res
  = List.filter isOperandTok out ++ List.filter isOperandTok tokens.
Proof.
  induction tokens as [|tok rest IH]; intros out stack res Hst H.
  - simpl in H. apply flushOps_stack in H as (-> & _).
    rewrite List.filter_app, (filter_none stack Hst). reflexivity.
  - destruct (isOperandTok tok) eqn:Et.
    + rewrite (toRPNLoop_operand _ _ _ _ Et) in H. apply IH in H; [|exact Hst].
      rewrite H, List.filter_app. simpl. rewrite Et, <- app_assoc. reflexivity.
    + rewrite (toRPNLoop_other _ _ _ _ Et) in H. simpl. rewrite Et.
      destruct (isOperator (ToLower tok)) eqn:Eo.
      { cbv zeta in H.
        destruct (popOps _ stack out) as [stack' out'] eqn:Ep.
        apply popOps_stack in Ep as (moved & -> & -> & Hm).
        apply Forall_app in Hst as [Hmv Hst'].
        apply IH in H.
        - rewrite H, List.filter_app, (filter_none moved Hmv), app_nil_r. reflexivity.
        - constructor; [|exact Hst'].
          apply operator_not_operand, pushed_operator, Eo. }
      destruct (eqs tok "?").
      { apply IH in H; [exact H|]. constructor; [reflexivity | exact Hst]. }
      destruct (eqs tok ":").
      { destruct (popToQuestion stack out) as [[stack' out']|] eqn:Ep; [|discriminate].
        apply popToQuestion_stack in Ep as (moved & rest' & -> & -> & ->).
        apply Forall_app in Hst as [Hmv Hst']. inversion Hst'; subst.
        apply IH in H.
        - rewrite H, List.filter_app, (filter_none moved Hmv), app_nil_r. reflexivity.
        - constructor; [reflexivity | assumption]. }
      destruct (eqs tok "(").
      { apply IH in H; [exact H|]. constructor; [exact Et | exact Hst]. }
      destruct (eqs tok ")"); [|discriminate].
      destruct (popToParen stack out) as [[stack' out']|] eqn:Ep; [|discriminate].
      apply popToParen_stack in Ep as (moved & -> & ->).
      apply Forall_app in Hst as [Hmv Hst']. inversion Hst'; subst.
      apply IH in H; [|assumption].
      rewrite H, List.filter_app, (filter_none moved Hmv), app_nil_r. reflexivity.
Qed.

(** X3.  The postfix converter never reorders, drops or invents an operand:
    the operands of its output are those of its input, in the same
    order. *)
Theorem toRPN_keeps_operands (tokens rpn : list string) :
  toRPN tokens = Some rpn ->
  List.filter isOperandTok rpn = List.filter isOperandTok tokens.
Proof.
  unfold toRPN. intros H.
  apply toRPNLoop_operands in H; [exact H | constructor].
Qed.

Lemma toRPN_keeps_operands_witness :
  List.filter isOperandTok
    ["1"; "x"; "3"; "*"; "+"; "4"; "6"; "d"; "$t1"; "kh"; "-"]%string
  = List.filter isOperandTok
      ["1"; "+"; "x"; "*"; "3"; "-"; "4"; "D"; "6"; "kh"; "$t1"]%string.
Proof.
  exact (toRPN_keeps_operands
           ["1"; "+"; "x"; "*"; "3"; "-"; "4"; "D"; "6"; "kh"; "$t1"]%string
           ["1"; "x"; "3"; "*"; "+"; "4"; "6"; "d"; "$t1"; "kh"; "-"]%string eq_refl).
Defined.













(** ** Variable substitution *)

Lemma length_append (a b : string) :
  String.length (a +:+ b) = (String.length a + String.length b)%nat.
Proof. induction a as [|c a IH]; [reflexivity|]. rewrite append_cons. simpl. now rewrite IH. Qed.

Lemma spanBytes_length (p : ascii -> bool) (s a b : string) :
  spanBytes p s = (a, b) -> (String.length b <= String.length s)%nat.
Proof.
  intros H. apply spanBytes_app in H. subst. rewrite length_append. lia.
Qed.

Lemma spanBytes_all (p : ascii -> bool) (a post : string) (c : ascii) :
  Forall (fun b => p b = true) (bytes a) -> p c = false ->
  spanBytes p (a +:+ String c post) = (a, String c post).
Proof.
  intros Ha Hc. induction a as [|b a IH].
  - simpl. now rewrite Hc.
  - unfold bytes in Ha. simpl in Ha. inversion Ha as [|? ? Hb Ha']; subst.
    rewrite append_cons. simpl. rewrite Hb, IH; auto.
Qed.

Lemma replaceVarsLoop_plain (vt : gmap string Z) (pre : string) : forall rest f,
  Forall (fun b => b <> "{"%char) (bytes pre) ->
  (String.length (pre +:+ rest) <= f)%nat ->
  replaceVarsLoop f vt (pre +:+ rest)
  = pre +:+ replaceVarsLoop (f - String.length pre) vt rest.
Proof.
  induction pre as [|c pre IH]; intros rest f Hpre Hf.
  - simpl. now rewrite Nat.sub_0_r.
  - unfold bytes in Hpre. simpl in Hpre. inversion Hpre as [|? ? Hc Hp]; subst.
    rewrite append_cons in Hf |- *. simpl in Hf.
    destruct f as [|f]; [lia|]. cbn [replaceVarsLoop].
    destruct (eqc c "{") eqn:E; [apply Ascii.eqb_eq in E; contradiction|].
    rewrite IH by (auto; lia). reflexivity.
Qed.

Lemma upperByte_idem (c : ascii) : upperByte (upperByte c) = upperByte c.
Proof. destruct c as [[] [] [] [] [] [] [] []]; reflexivity. Qed.

Lemma ToUpper_idem (s : string) : ToUpper (ToUpper s) = ToUpper s.
Proof.
  unfold ToUpper. induction s as [|c s IH]; simpl; [reflexivity|].
  now rewrite upperByte_idem, IH.
Qed.

Section Substitution.
Context {RS : RandSource}.

(** X5.  Substitution, one reference at a time.  Text without an opening
    brace is left as it is; the first [{name}], for a name of ASCII
    bytes, is replaced by the decimal value of the entry whose key is the
    name in upper case, with all leading and trailing braces removed, and
    is left as it is when the table has no such entry; the text after it
    is substituted likewise. *)
Theorem replaceVars_first_reference (r : RD) (vt : gmap string Z)
    (pre name post : string) :
  ValueTable r = Some vt ->
  Forall (fun b => b <> "{"%char) (bytes pre) ->
  replaceVars r pre = pre
  /\ (name <> EmptyString -> Forall (fun b => b <> "}"%char) (bytes name) ->
      Forall (fun b => isASCIIByte b = true) (bytes name) ->
      replaceVars r (pre +:+ String "{" (name +:+ String "}" post))
      = pre +:+ match vt !! ToUpper (TrimBraces (String "{" (name +:+ "}"))) with
                | Some v => Itoa v
                | None => String "{" (name +:+ "}")
                end +:+ replaceVars r post).
Proof.
  intros Hvt Hpre. unfold replaceVars. rewrite Hvt. split.
  - pose proof (replaceVarsLoop_plain vt pre EmptyString (String.length pre) Hpre) as H.
    assert (E : pre +:+ EmptyString = pre)
      by (apply bytes_inj; rewrite bytes_app; apply app_nil_r).
    rewrite E in H. rewrite H by lia.
    destruct (String.length pre - String.length pre)%nat; exact E.
  - intros Hne Hname _.
    rewrite replaceVarsLoop_plain by (auto; lia).
    f_equal. rewrite length_append. simpl String.length.
    replace (String.length pre + S (String.length (name +:+ String "}" post))
             - String.length pre)%nat
      with (S (String.length (name +:+ String "}" post))) by lia.
    cbn [replaceVarsLoop]. change (eqc "{" "{") with true. cbv iota.
    rewrite (spanBytes_all notCloseBrace name post "}").
    + destruct name as [|n0 name']; [contradiction|].
      f_equal.
      apply replaceVarsLoop_fuel; rewrite ?length_append; simpl; lia.
    + eapply Forall_impl; [exact Hname|]. intros b Hb. unfold notCloseBrace.
      destruct (eqc b "}") eqn:E; [apply Ascii.eqb_eq in E; contradiction | reflexivity].
    + reflexivity.
Qed.

(** X6.  A table entry whose key is not in upper case is never used: adding,
    changing or removing it changes no substitution. *)
Theorem replaceVars_ignores_lowercase_keys (r : RD) (vt : gmap string Z)
    (k : string) (v : Z) (s : string) :
  ToUpper k <> k ->
  replaceVars (setValueTable r (Some (<[k := v]> vt))) s
  = replaceVars (setValueTable r (Some vt)) s.
Proof.
  intros Hk. unfold replaceVars. simpl.
  generalize (String.length s) as f. intros f. revert s.
  induction f as [|f IH]; intros s; [now destruct s|].
  destruct s as [|c s']; [reflexivity|]. cbn [replaceVarsLoop].
  rewrite IH. destruct (eqc c "{"); [|reflexivity].
  destruct (spanBytes notCloseBrace s') as [run rest].
  destruct run as [|r0 run]; [reflexivity|].
  destruct rest as [|q rest']; [reflexivity|].
  rewrite IH. rewrite lookup_insert_ne; [reflexivity|].
  intros E. apply Hk. rewrite E. apply ToUpper_idem.
Qed.
End Substitution.

Lemma replaceVars_first_reference_witness :
  replaceVars (setValueTable (listRD EmptyString []) (Some {[ "STR"%string := 7 ]})) "1d"%string
  = "1d"%string
  /\ replaceVars (setValueTable (listRD EmptyString []) (Some {[ "STR"%string := 7 ]}))
       "1d{str}+{dex}"%string
     = ("1d" +:+ "7" +:+
        replaceVars (setValueTable (listRD EmptyString []) (Some {[ "STR"%string := 7 ]}))
          "+{dex}")%string.
Proof.
  pose proof (replaceVars_first_reference (RS := ListRand)
                (setValueTable (listRD EmptyString []) (Some {[ "STR"%string := 7 ]}))
                {[ "STR"%string := 7 ]} "1d" "str" "+{dex}" eq_refl) as H.
  destruct H as [H1 H2]; [repeat constructor; discriminate|].
  split; [exact H1|].
  apply H2; [discriminate | repeat constructor; discriminate | repeat constructor].
Defined.

Lemma replaceVars_ignores_lowercase_keys_witness :
  replaceVars (setValueTable (listRD EmptyString []) (Some (<[ "str"%string := 7 ]> ∅)))
    "1d{str}"%string
  = replaceVars (setValueTable (listRD EmptyString []) (Some ∅)) "1d{str}"%string.
Proof.
  apply (replaceVars_ignores_lowercase_keys (RS := ListRand)). discriminate.
Defined.

(** ** Decimal round trip *)

Lemma atoiDigits_uint (d : Decimal.uint) : forall a : N,
  atoiDigits (NilEmpty.string_of_uint d) (Z.of_N a)
  = Some (Z.of_N match a with
                 | N0 => Pos.of_uint d
                 | Npos p => Npos (Pos.of_uint_acc d p)
                 end).
Proof.
  induction d as [|d IH|d IH|d IH|d IH|d IH|d IH|d IH|d IH|d IH|d IH]; intros a;
    [destruct a; reflexivity | ..];
    cbn [NilEmpty.string_of_uint atoiDigits];
    match goal with
    | |- context [isDigit ?c] => change (isDigit c) with true; cbv iota
    end;
    match goal with
    | |- context [digitVal ?c] =>
        let v := eval vm_compute in (digitVal c) in change (digitVal c) with v
    end;
    destruct a as [|p];
    first [ (change (Z.of_N 0 * 10 + 0) with (Z.of_N 0); rewrite IH; reflexivity)
          | (match goal with
             | |- atoiDigits _ (Z.of_N 0 * 10 + ?k) = _ =>
                 change (Z.of_N 0 * 10 + k) with (Z.of_N (Npos (Z.to_pos k)));
                 rewrite IH; reflexivity
             end)
          | (match goal with
             | |- atoiDigits _ (Z.of_N (Npos p) * 10 + ?k) = _ =>
                 replace (Z.of_N (Npos p) * 10 + k)
                   with (Z.of_N (Npos (Pos.of_uint_acc
                                         (Decimal.Nil) (Z.to_pos (Z.pos p * 10 + k)))))
                   by (simpl; lia);
                 rewrite IH; simpl; do 3 f_equal; lia
             end) ].
Qed.

Lemma string_of_uint_digits (d : Decimal.uint) :
  d <> Decimal.Nil ->
  exists c s, NilEmpty.string_of_uint d = String c s /\ isDigit c = true.
Proof.
  destruct d; [congruence | ..]; intros _; simpl; do 2 eexists; split; reflexivity.
Qed.

Lemma to_uint_nonnil (p : positive) : Pos.to_uint p <> Decimal.Nil.
Proof.
  intros H. pose proof (DecimalPos.Unsigned.of_to p) as E. rewrite H in E. discriminate.
Qed.

Lemma digit_not_sign (c : ascii) :
  isDigit c = true -> eqc c "-" = false /\ eqc c "+" = false.
Proof.
  intros H. split; (destruct (eqc c _) eqn:E; [|reflexivity]);
    apply Ascii.eqb_eq in E; subst c; discriminate.
Qed.

Lemma Atoi_digits (c : ascii) (s : string) :
  isDigit c = true ->
  Atoi (String c s)
  = match atoiDigits (String c s) 0 with
    | Some n => if (GoInt.minInt <=? n) && (n <=? GoInt.maxInt) then Some n else None
    | None => None
    end.
Proof.
  intros Hc. unfold Atoi. destruct (digit_not_sign c Hc) as [-> ->]. reflexivity.
Qed.

Lemma Atoi_minus (c : ascii) (s : string) :
  Atoi (String "-" (String c s))
  = match atoiDigits (String c s) 0 with
    | Some n => if (GoInt.minInt <=? - n) && (- n <=? GoInt.maxInt) then Some (- n) else None
    | None => None
    end.
Proof. reflexivity. Qed.

(** [strconv.Atoi(strconv.Itoa(z)) == z] for every [int]. *)
Lemma Atoi_Itoa (z : Z) : GoInt.inRange z -> Atoi (Itoa z) = Some z.
Proof.
  intros Hz. unfold Itoa. destruct z as [|p|p]; [reflexivity | |];
    cbn [Z.to_int NilZero.string_of_int]; unfold NilZero.string_of_uint;
    pose proof (to_uint_nonnil p) as Hn;
    destruct (string_of_uint_digits _ Hn) as (c & s & E & Hc);
    pose proof (atoiDigits_uint (Pos.to_uint p) 0) as Ha;
    rewrite DecimalPos.Unsigned.of_to in Ha;
    assert (Es : match Pos.to_uint p with
                 | Decimal.Nil => "0"%string
                 | _ => NilEmpty.string_of_uint (Pos.to_uint p)
                 end = String c s)
      by (destruct (Pos.to_uint p); [congruence | assumption ..]);
    rewrite Es; rewrite E in Ha; change (Z.of_N 0) with 0 in Ha.
  - rewrite (Atoi_digits c s Hc), Ha.
    destruct (_ && _) eqn:Er; [reflexivity|].
    unfold GoInt.inRange in Hz. simpl in Er. lia.
  - rewrite Atoi_minus, Ha.
    destruct (_ && _) eqn:Er; [reflexivity|].
    unfold GoInt.inRange in Hz. simpl in Er. lia.
Qed.

(** ** Wrap-around arithmetic *)

Lemma wrap_congr (x : Z) : exists k, GoInt.wrap x = x + k * 2 ^ 64.
Proof.
  unfold GoInt.wrap. exists (- ((x + 2 ^ 63) / 2 ^ 64)).
  pose proof (Z.div_mod (x + 2 ^ 63) (2 ^ 64) ltac:(lia)). lia.
Qed.

Lemma wrap_shift (x k : Z) : GoInt.wrap (x + k * 2 ^ 64) = GoInt.wrap x.
Proof.
  unfold GoInt.wrap. replace (x + k * 2 ^ 64 + 2 ^ 63) with (x + 2 ^ 63 + k * 2 ^ 64) by lia.
  now rewrite Z.mod_add by lia.
Qed.

Lemma wrap_add_l (x y : Z) : GoInt.wrap (GoInt.wrap x + y) = GoInt.wrap (x + y).
Proof.
  destruct (wrap_congr x) as [k ->].
  replace (x + k * 2 ^ 64 + y) with (x + y + k * 2 ^ 64) by lia. apply wrap_shift.
Qed.

Lemma wrap_mul_l (x y : Z) : GoInt.wrap (GoInt.wrap x * y) = GoInt.wrap (x * y).
Proof.
  destruct (wrap_congr x) as [k ->].
  replace ((x + k * 2 ^ 64) * y) with (x * y + (k * y) * 2 ^ 64) by lia. apply wrap_shift.
Qed.


Lemma sum_wrap (l : list Z) : GoInt.sum l = GoInt.wrap (zsum l).
Proof.
  unfold GoInt.sum.
  assert (H : forall a, fold_left GoInt.add l (GoInt.wrap a) = GoInt.wrap (a + zsum l)).
  { induction l as [|x l IH]; intros a; simpl; [f_equal; lia|].
    unfold GoInt.add at 2. rewrite wrap_add_l, IH. f_equal. lia. }
  change 0 with (GoInt.wrap 0) at 1. apply H.
Qed.

Lemma zsum_bounds (lo hi : Z) (l : list Z) :
  Forall (fun x => lo <= x <= hi) l ->
  Z.of_nat (length l) * lo <= zsum l <= Z.of_nat (length l) * hi.
Proof.
  induction 1 as [|x l Hx _ IH]; simpl; [lia|]. unfold zsum in *. simpl. lia.
Qed.

Lemma zsum_app (l1 l2 : list Z) : zsum (l1 ++ l2) = zsum l1 + zsum l2.
Proof. unfold zsum. induction l1 as [|x l1 IH]; simpl; lia. Qed.

Lemma pow_wrap (a : Z) (n : nat) :
  Nat.iter n (fun res => GoInt.mul res a) 1 = GoInt.wrap (a ^ Z.of_nat n).
Proof.
  induction n as [|n IH].
  - simpl. symmetry. apply wrap_id. goint. lia.
  - rewrite Nat2Z.inj_succ, Z.pow_succ_r by lia. simpl. rewrite IH.
    unfold GoInt.mul. rewrite wrap_mul_l. f_equal. lia.
Qed.

Section Arithmetic.

Context {RS : RandSource}.

(** X7.  The loop of [^] computes the power of the integers, wrapped once:
    [res *= a], [b] times, is [a ^ b] modulo [2 ^ 64].  An exponent below
    zero is the invalid-right error and [0 ^ 0] the invalid-left error;
    nothing else fails. *)
Theorem pow_is_wrapped_power (sub : SubRoll) (fuel : nat) (a b : Value)
    (st : list Value) (r : RD) :
  applyOp sub fuel "^" (b :: a :: st) r
  = if (V a =? 0) && (V b =? 0) then Some (Fail ErrNodeLeftValInvalid r)
    else if V b <? 0 then Some (Fail ErrNodeRightValInvalid r)
    else Some (Ok (scalar (GoInt.wrap (V a ^ V b)) :: st) r).
Proof.
  change (applyOp sub fuel "^" (b :: a :: st) r)
    with ((if (V a =? 0) && (V b =? 0) then fail ErrNodeLeftValInvalid
           else if V b <? 0 then fail ErrNodeRightValInvalid
           else ret (scalar (GoInt.pow (V a) (V b)) :: st)) r).
  destruct (_ && _); [reflexivity|].
  destruct (V b <? 0) eqn:E; [reflexivity|]. apply Z.ltb_ge in E.
  unfold ret. do 4 f_equal. unfold GoInt.pow.
  destruct (V b) as [|p|p] eqn:Eb; [reflexivity| |lia].
  unfold Z.iter. rewrite Pos2Nat.inj_iter.
  etransitivity; [apply (pow_wrap (V a) (Pos.to_nat p))|]. now rewrite positive_nat_Z.
Qed.

End Arithmetic.

(** ** Dice *)

Ltac blia :=
  repeat match goal with
         | H : (_ || _) = true |- _ => apply orb_true_iff in H as [H | H]
         | H : (_ || _) = false |- _ => apply orb_false_iff in H as [? ?]
         | H : (_ && _) = true |- _ => apply andb_true_iff in H as [? ?]
         | H : (_ && _) = false |- _ => apply andb_false_iff in H as [H | H]
         | H : (_ <=? _) = true |- _ => apply Z.leb_le in H
         | H : (_ <=? _) = false |- _ => apply Z.leb_gt in H
         | H : (_ <? _) = true |- _ => apply Z.ltb_lt in H
         | H : (_ <? _) = false |- _ => apply Z.ltb_ge in H
         | H : (_ =? _) = true |- _ => apply Z.eqb_eq in H
         | H : (_ =? _) = false |- _ => apply Z.eqb_neq in H
         end;
  lia.

Section Dice.

Context {RS : RandSource}.

Lemma rollMany_spec (P : Z -> Prop) (n : nat) (sides : Z) (f : Z -> Z) (g : rng_state) :
  0 < sides -> (forall x, 0 <= x < sides -> P (f x)) ->
  length (fst (rollMany n sides f g)) = n /\ Forall P (fst (rollMany n sides f g)).
Proof.
  intros Hs Hf. revert g. induction n as [|n IH]; intros g; simpl; [auto|].
  pose proof (Intn_range sides g Hs) as Hx.
  destruct (Intn sides g) as [x g1]. specialize (IH g1).
  destruct (rollMany n sides f g1) as [xs g2]. simpl in *.
  destruct IH as [IH1 IH2]. split; [now f_equal | constructor; auto].
Qed.

Lemma sum_small (lo hi : Z) (l : list Z) :
  Forall (fun x => lo <= x <= hi) l ->
  - 10000 <= lo -> hi <= 10000 -> Z.of_nat (length l) <= 10000 ->
  GoInt.sum l = zsum l.
Proof.
  intros Hl Hlo Hhi Hn. rewrite sum_wrap. apply wrap_id.
  pose proof (zsum_bounds lo hi l Hl). goint. nia.
Qed.

(** X8.  [NdM]: with [0 < N <= 10000] and [0 < M <= 10000] the operator rolls
    exactly [N] dice, each between 1 and [M]; the value is their sum, so it
    lies between [N] and [N * M].  A count out of range is the invalid-left
    error, and it is reported before a face count out of range, which is the
    invalid-right error; neither draws from the stream. *)
Theorem dice_roll_bounds (sub : SubRoll) (fuel : nat) (timesV sidesV : Value)
    (st : list Value) (r : RD) :
  let times := scalarOf timesV in
  let sides := scalarOf sidesV in
  let run := applyOp sub fuel "d" (sidesV :: timesV :: st) r in
  (0 < times <= 10000 -> 0 < sides <= 10000 ->
   exists rolls g',
     run = Some (Ok (listValue (zsum rolls) rolls true :: st) (setRng r g'))
     /\ Z.of_nat (length rolls) = times
     /\ Forall (fun x => 1 <= x <= sides) rolls
     /\ times <= zsum rolls <= times * sides)
  /\ (~ 0 < times <= 10000 -> run = Some (Fail ErrNodeLeftValInvalid r))
  /\ (0 < times <= 10000 -> ~ 0 < sides <= 10000 ->
      run = Some (Fail ErrNodeRightValInvalid r)).
Proof.
  intros times sides run. subst run.
  change (applyOp sub fuel "d" (sidesV :: timesV :: st) r)
    with ((if (times <=? 0) || (10000 <? times) then fail ErrNodeLeftValInvalid
           else if (sides <=? 0) || (10000 <? sides) then fail ErrNodeRightValInvalid
           else bind (rollManyM times sides (fun x => GoInt.add x 1))
                     (fun rolls => ret (listValue (GoInt.sum rolls) rolls true :: st))) r).
  split; [|split].
  - intros Ht Hs.
    destruct ((times <=? 0) || (10000 <? times)) eqn:E1; [blia|].
    destruct ((sides <=? 0) || (10000 <? sides)) eqn:E2; [blia|].
    unfold bind, rollManyM, ret.
    destruct (rollMany_spec (fun x => 1 <= x <= sides) (Z.to_nat times) sides
                (fun x => GoInt.add x 1) (rng r) ltac:(lia)) as [Hlen Hall].
    { intros x Hx. unfold GoInt.add. rewrite wrap_id by (goint; lia). lia. }
    destruct (rollMany _ _ _ _) as [rolls g']. simpl in Hlen, Hall.
    exists rolls, g'.
    assert (Hsum : GoInt.sum rolls = zsum rolls).
    { apply (sum_small 1 sides); [assumption | lia | lia | lia]. }
    rewrite Hsum. split; [reflexivity|]. split; [lia|]. split; [assumption|].
    pose proof (zsum_bounds 1 sides rolls Hall). nia.
  - intros Ht. destruct ((times <=? 0) || (10000 <? times)) eqn:E1; [reflexivity | blia].
  - intros Ht Hs. destruct ((times <=? 0) || (10000 <? times)) eqn:E1; [blia|].
    destruct ((sides <=? 0) || (10000 <? sides)) eqn:E2; [reflexivity | blia].
Qed.

(** X9.  [NfM]: the right operand is only checked ([1 < M <= 10000], else the
    invalid-right error, reported first); with [0 < N <= 10000] the operator
    rolls exactly [N] dice, each -1, 0 or 1, and the value is their sum, so
    it lies between [-N] and [N]. *)
Theorem fudge_roll_bounds (sub : SubRoll) (fuel : nat) (leftF rightF : Value)
    (st : list Value) (r : RD) :
  let run := applyOp sub fuel "f" (rightF :: leftF :: st) r in
  (1 < V rightF <= 10000 -> 0 < V leftF <= 10000 ->
   exists rolls g',
     run = Some (Ok (listValue (zsum rolls) rolls true :: st) (setRng r g'))
     /\ Z.of_nat (length rolls) = V leftF
     /\ Forall (fun x => -1 <= x <= 1) rolls
     /\ - V leftF <= zsum rolls <= V leftF)
  /\ (~ 1 < V rightF <= 10000 -> run = Some (Fail ErrNodeRightValInvalid r))
  /\ (1 < V rightF <= 10000 -> ~ 0 < V leftF <= 10000 ->
      run = Some (Fail ErrNodeLeftValInvalid r)).
Proof.
  intros run. subst run.
  change (applyOp sub fuel "f" (rightF :: leftF :: st) r)
    with ((if (V rightF <=? 1) || (10000 <? V rightF) then fail ErrNodeRightValInvalid
           else if (V leftF <=? 0) || (10000 <? V leftF) then fail ErrNodeLeftValInvalid
           else bind (rollManyM (V leftF) 3 (fun x => GoInt.sub x 1))
                     (fun rolls => ret (listValue (GoInt.sum rolls) rolls true :: st))) r).
  split; [|split].
  - intros Hr Hl.
    destruct ((V rightF <=? 1) || (10000 <? V rightF)) eqn:E1; [blia|].
    destruct ((V leftF <=? 0) || (10000 <? V leftF)) eqn:E2; [blia|].
    unfold bind, rollManyM, ret.
    destruct (rollMany_spec (fun x => -1 <= x <= 1) (Z.to_nat (V leftF)) 3
                (fun x => GoInt.sub x 1) (rng r) ltac:(lia)) as [Hlen Hall].
    { intros x Hx. unfold GoInt.sub. rewrite wrap_id by (goint; lia). lia. }
    destruct (rollMany _ _ _ _) as [rolls g']. simpl in Hlen, Hall.
    exists rolls, g'.
    assert (Hsum : GoInt.sum rolls = zsum rolls).
    { apply (sum_small (-1) 1); [assumption | lia | lia | lia]. }
    rewrite Hsum. split; [reflexivity|]. split; [lia|]. split; [assumption|].
    pose proof (zsum_bounds (-1) 1 rolls Hall). nia.
  - intros Hr. destruct ((V rightF <=? 1) || (10000 <? V rightF)) eqn:E1; [reflexivity | blia].
  - intros Hr Hl. destruct ((V rightF <=? 1) || (10000 <? V rightF)) eqn:E1; [blia|].
    destruct ((V leftF <=? 0) || (10000 <? V leftF)) eqn:E2; [reflexivity | blia].
Qed.

End Dice.

Lemma dice_roll_bounds_witness :
  exists rolls g',
    applyOp (RS := ListRand) (fun _ _ _ => None) 0 "d" [scalar 6; scalar 2]
            (listRD "2d6" [4; 9])
    = Some (Ok [listValue (zsum rolls) rolls true] (setRng (listRD "2d6" [4; 9]) g'))
    /\ Z.of_nat (length rolls) = 2.
Proof.
  destruct (proj1 (dice_roll_bounds (RS := ListRand) (fun _ _ _ => None) 0
                     (scalar 2) (scalar 6) [] (listRD "2d6" [4; 9])))
    as (rolls & g' & H1 & H2 & _);
    [cbv [scalarOf scalar MetaEnable V]; lia | cbv [scalarOf scalar MetaEnable V]; lia |].
  exists rolls, g'. split; [exact H1 | exact H2].
Defined.

Lemma fudge_roll_bounds_witness :
  exists rolls g',
    applyOp (RS := ListRand) (fun _ _ _ => None) 0 "f" [scalar 3; scalar 4]
            (listRD "4f3" [0; 1; 2; 5])
    = Some (Ok [listValue (zsum rolls) rolls true] (setRng (listRD "4f3" [0; 1; 2; 5]) g'))
    /\ - 4 <= zsum rolls <= 4.
Proof.
  destruct (proj1 (fudge_roll_bounds (RS := ListRand) (fun _ _ _ => None) 0
                     (scalar 4) (scalar 3) [] (listRD "4f3" [0; 1; 2; 5])))
    as (rolls & g' & H1 & _ & _ & H4); [simpl; lia | simpl; lia |].
  exists rolls, g'. split; [exact H1 | exact H4].
Defined.

(** ** The result record *)

Lemma JoinWith_head (sep x : string) (l : list string) :
  exists tail, JoinWith sep (x :: l) = x +:+ tail.
Proof.
  destruct l as [|y l].
  - exists EmptyString. simpl. apply bytes_inj. rewrite bytes_app. symmetry. apply app_nil_r.
  - eexists. reflexivity.
Qed.

Section Outcome.
Context {RS : RandSource}.

Lemma buildDetail_head (r : RD) (val : Value) :
  exists tail, buildDetail r val = Itoa (V val) +:+ tail.
Proof. unfold buildDetail. cbv zeta. rewrite <- app_comm_cons. apply JoinWith_head. Qed.

(** X10.  What [Roll] leaves in the result record.  On success the error is
    empty, [Min] and [Max] are both the value, the value is an [int] and
    the detail text begins with the value in decimal.  On failure only
    the error field is written: value, bounds, detail and meta tuple are
    those the record had before the call. *)
Theorem Roll_outcome (fuel : nat) (r r' : RD) :
  ctxOK r ->
  Roll fuel r = Some r' ->
  (res_Error (res r') = ErrNone
   /\ res_Min (res r') = res_Value (res r')
   /\ res_Max (res r') = res_Value (res r')
   /\ GoInt.inRange (res_Value (res r'))
   /\ exists tail, res_Detail (res r') = Itoa (res_Value (res r')) +:+ tail)
  \/ (res_Error (res r') <> ErrNone
      /\ res r' = mkResult (res_Value (res r)) (res_Min (res r)) (res_Max (res r))
                           (res_Detail (res r)) (res_MetaTuple (res r))
                           (res_Error (res r'))).
Proof.
  intros Hc H. destruct fuel as [|n]; [discriminate|].
  cbn [Roll] in H. unfold RollBody in H.
  destruct (tokenize _) as [tokens|].
  2:{ injection H as <-. right. split; [discriminate | reflexivity]. }
  pose proof (proj1 (eval_ok n) tokens r Hc) as Hev.
  destruct (evalTokens n tokens r) as [[val r1|e r1]|]; [| |discriminate].
  - left. destruct Hev as ([HV _] & _ & _). cbv zeta in H.
    destruct (MetaEnable val).
    + destruct (MetaStr val).
      * rewrite getFromMetaTuple_ints in H. simpl in H.
        rewrite length_fmap, Nat.eqb_refl in H. injection H as <-.
        cbn [res setError setRes setMetaTuple res_Error res_Min res_Max res_Value res_Detail].
        repeat split; auto using buildDetail_head; apply HV.
      * injection H as <-.
        cbn [res setError setRes setMetaTuple res_Error res_Min res_Max res_Value res_Detail].
        repeat split; auto using buildDetail_head; apply HV.
    + injection H as <-.
      cbn [res setError setRes setMetaTuple res_Error res_Min res_Max res_Value res_Detail].
      repeat split; auto using buildDetail_head; apply HV.
  - right. destruct Hev as (He & _ & Hres). injection H as <-.
    cbn [res setError setRes res_Error]. rewrite Hres. split; [exact He | reflexivity].
Qed.
End Outcome.

Lemma Roll_outcome_witness :
  exists r', Roll (RS := ListRand) 4 (listRD "2d6+1" [3; 4]) = Some r'
    /\ ((res_Error (res r') = ErrNone
         /\ res_Min (res r') = res_Value (res r')
         /\ res_Max (res r') = res_Value (res r')
         /\ GoInt.inRange (res_Value (res r'))
         /\ exists tail, res_Detail (res r') = Itoa (res_Value (res r')) +:+ tail)
        \/ (res_Error (res r') <> ErrNone
            /\ res r' = mkResult 0 0 0 EmptyString None (res_Error (res r')))).
Proof.
  eexists. split; [vm_compute; reflexivity|].
  apply (Roll_outcome (RS := ListRand) 4 (listRD "2d6+1" [3; 4])).
  - split; [intros vt k v [=] | intros k v Hl; simpl in Hl; now rewrite lookup_empty in Hl].
  - vm_compute. reflexivity.
Defined.

(** ** Parenthesised groups and the ternary *)

Lemma findGroupFrom_skip (tokens a : list string) : forall b i,
  Forall (fun t => t <> ")"%string) a ->
  findGroupFrom tokens i (a ++ b) = findGroupFrom tokens (i + length a) b.
Proof.
  induction a as [|t a IH]; intros b i Ha; simpl.
  - now rewrite Nat.add_0_r.
  - inversion Ha as [|? ? Ht Ha']; subst.
    destruct (eqs t ")") eqn:E; [apply String.eqb_eq in E; contradiction|].
    rewrite IH by assumption. f_equal. lia.
Qed.

Lemma matchOpen_skip (inner : list string) : forall rest k d,
  Forall (fun t => t <> "("%string /\ t <> ")"%string) inner -> d <> 0 ->
  matchOpen (inner ++ rest) k d = matchOpen rest (k - length inner) d.
Proof.
  induction inner as [|t inner IH]; intros rest k d Hin Hd; simpl.
  - now rewrite Nat.sub_0_r.
  - inversion Hin as [|? ? [H1 H2] Hin']; subst.
    destruct (eqs t ")") eqn:E1; [apply String.eqb_eq in E1; contradiction|].
    destruct (eqs t "(") eqn:E2; [apply String.eqb_eq in E2; contradiction|].
    destruct (d =? 0) eqn:E; [lia|].
    rewrite IH by assumption. f_equal. lia.
Qed.

Lemma findGroup_first (pre inner post : list string) :
  Forall (fun t => t <> ")"%string) pre ->
  isTernaryMark (last pre) = false ->
  Forall (fun t => t <> "("%string /\ t <> ")"%string) inner ->
  findGroup (pre ++ "("%string :: inner ++ ")"%string :: post)
  = Group (length pre) (length pre + 1 + length inner).
Proof.
  intros Hpre Hlast Hin. unfold findGroup.
  set (tokens := pre ++ "("%string :: inner ++ ")"%string :: post).
  assert (E : tokens = (pre ++ "("%string :: inner) ++ ")"%string :: post)
    by (subst tokens; now rewrite <- app_assoc).
  rewrite E at 2.
  rewrite findGroupFrom_skip.
  2:{ apply Forall_app. split; [exact Hpre|]. constructor; [discriminate|].
      eapply Forall_impl; [exact Hin|]. now intros t [_ H]. }
  rewrite length_app. simpl length. simpl findGroupFrom.
  change (eqs ")" ")") with true. cbv iota.
  replace (length pre + S (length inner))%nat
    with (length pre + 1 + length inner)%nat by lia.
  assert (Et : take (S (length pre + 1 + length inner)) tokens
               = pre ++ "("%string :: inner ++ [")"%string]).
  { subst tokens.
    replace (pre ++ "("%string :: inner ++ ")"%string :: post)
      with ((pre ++ "("%string :: inner ++ [")"%string]) ++ post)
      by (rewrite <- !app_assoc; simpl; now rewrite <- app_assoc).
    apply take_app_length'. rewrite length_app. simpl. rewrite length_app. simpl. lia. }
  rewrite Et.
  replace (rev (pre ++ "("%string :: inner ++ [")"%string]))
    with (")"%string :: rev inner ++ "("%string :: rev pre).
  2:{ rewrite rev_app_distr. simpl. rewrite rev_app_distr. simpl.
      now rewrite <- app_assoc. }
  cbn [matchOpen]. change (eqs ")" ")") with true. change (eqs ")" "(") with false.
  cbv iota. change (0 + 1 =? 0) with false. cbv iota.
  rewrite matchOpen_skip.
  2:{ apply Forall_rev. exact Hin. }
  2:{ lia. }
  rewrite length_rev. cbn [matchOpen].
  change (eqs "(" ")") with false. change (eqs "(" "(") with true. cbv iota.
  change (0 + 1 - 1 =? 0) with true. cbv iota.
  replace (pred (length pre + 1 + length inner) - length inner)%nat with (length pre) by lia.
  destruct (decide (pre = [])) as [->|Hne]; [reflexivity|].
  replace (tokens !! pred (length pre)) with (last pre).
  2:{ subst tokens. rewrite last_lookup. symmetry. apply lookup_app_l.
      destruct pre; [contradiction | simpl; lia]. }
  rewrite Hlast, andb_false_r. reflexivity.
Qed.

Section Groups.
Context {RS : RandSource}.

Lemma step_Itoa (sub : SubRoll) (fuel : nat) (z : Z) (st : list Value) (r : RD) :
  GoInt.inRange z ->
  step sub fuel (Itoa z) st r = Some (Ok (scalar z :: st) r).
Proof. intros Hz. unfold step. now rewrite (Atoi_Itoa z Hz). Qed.

Lemma evalTokens_group (n : nat) (pre inner post : list string) (r : RD) :
  Forall (fun t => t <> ")"%string) pre ->
  isTernaryMark (last pre) = false ->
  Forall (fun t => t <> "("%string /\ t <> ")"%string) inner ->
  evalTokens (S n) (pre ++ "("%string :: inner ++ ")"%string :: post) r
  = match evalTokens n inner r with
    | Some (Ok v r') => evalTokens n (pre ++ Itoa (V v) :: post) r'
    | other => other
    end.
Proof.
  intros Hpre Hlast Hin. cbn [evalTokens].
  rewrite (findGroup_first pre inner post Hpre Hlast Hin).
  set (tokens := pre ++ "("%string :: inner ++ ")"%string :: post).
  assert (E1 : segment tokens (S (length pre)) (length pre + 1 + length inner) = inner).
  { unfold segment. subst tokens.
    replace (pre ++ "("%string :: inner ++ ")"%string :: post)
      with ((pre ++ ["("%string]) ++ inner ++ ")"%string :: post)
      by (now rewrite <- app_assoc).
    rewrite drop_app_length' by (rewrite length_app; simpl; lia).
    apply take_app_length'. lia. }
  assert (E2 : take (length pre) tokens = pre)
    by (subst tokens; now apply take_app_length').
  assert (E3 : drop (S (length pre + 1 + length inner)) tokens = post).
  { subst tokens.
    replace (pre ++ "("%string :: inner ++ ")"%string :: post)
      with ((pre ++ "("%string :: inner ++ [")"%string]) ++ post)
      by (rewrite <- !app_assoc; simpl; now rewrite <- app_assoc).
    apply drop_app_length'. rewrite length_app. simpl. rewrite length_app. simpl. lia. }
  rewrite E1, E2, E3. reflexivity.
Qed.

Lemma evalTokens_literal (n : nat) (x : string) (r : RD) (z : Z) :
  Atoi x = Some z ->
  evalTokens (S n) [x] r = Some (Ok (scalar z) r).
Proof.
  intros Hx.
  assert (Hi : isInt x = true) by (unfold isInt; now rewrite Hx).
  assert (Hl : ToLower x = x) by exact (Atoi_lower x z Hx).
  assert (N : forall y, isInt y = false -> eqs x y = false).
  { intros y Hy. destruct (eqs x y) eqn:E; [|reflexivity].
    apply String.eqb_eq in E. subst. congruence. }
  cbn [evalTokens]. unfold findGroup. cbn [findGroupFrom].
  rewrite (N ")"%string eq_refl).
  cbn [length trimOuter findQuestion].
  rewrite (N "("%string eq_refl), (N ")"%string eq_refl), (N "?"%string eq_refl).
  cbn [andb]. cbv iota.
  assert (Ep : preProcessTokens [x] (DefaultFaces r) = [x]).
  { unfold preProcessTokens. cbn [insertDefaults]. rewrite Hl.
    assert (Hd : isDiceWord x = false).
    { unfold isDiceWord.
      rewrite (N "d"%string eq_refl), (N "b"%string eq_refl), (N "p"%string eq_refl),
        (N "f"%string eq_refl), (N "df"%string eq_refl), (N "a"%string eq_refl),
        (N "c"%string eq_refl). reflexivity. }
    rewrite Hd. cbn [app rewriteChainM defaultFaces]. rewrite Hl.
    now rewrite (N "d"%string eq_refl). }
  rewrite Ep. unfold toRPN. cbn [toRPNLoop]. rewrite Hi. cbn [app flushOps].
  unfold evalRPN. cbn [evalRPNLoop]. unfold bind, step. rewrite Hx. reflexivity.
Qed.

(** X11.  Parenthesised groups are evaluated first, innermost and leftmost
    first, and are then replaced in the token slice by one token: the
    decimal text of the value.  An error inside the group is the error of
    the whole; the context the group leaves behind is the one the rest is
    evaluated in.  (A group directly after [?] or [:] is not folded.) *)
Theorem group_is_folded (n : nat) (pre inner post : list string) (r : RD) :
  Forall (fun t => t <> ")"%string) pre ->
  isTernaryMark (last pre) = false ->
  Forall (fun t => t <> "("%string /\ t <> ")"%string) inner ->
  evalTokens (S n) (pre ++ "("%string :: inner ++ ")"%string :: post) r
  = match evalTokens n inner r with
    | Some (Ok v r') => evalTokens n (pre ++ Itoa (V v) :: post) r'
    | Some (Fail e r') => Some (Fail e r')
    | None => None
    end.
Proof.
  intros Hpre Hlast Hin. rewrite (evalTokens_group n pre inner post r Hpre Hlast Hin).
  destruct (evalTokens n inner r) as [[v r'|e r']|]; reflexivity.
Qed.

(** X12.  Parentheses keep the value and drop everything else: an expression
    in parentheses evaluates to the scalar of its value, with no meta
    list and no temp reference, in the context the expression leaves. *)
Theorem parenthesised_value (n : nat) (inner : list string) (r r' : RD) (v : Value) :
  ctxOK r ->
  Forall (fun t => t <> "("%string /\ t <> ")"%string) inner ->
  evalTokens n inner r = Some (Ok v r') ->
  evalTokens (S n) ("("%string :: inner ++ [")"%string]) r = Some (Ok (scalar (V v)) r').
Proof.
  intros Hc Hin Hev.
  pose proof (proj1 (eval_ok n) inner r Hc) as Hp. rewrite Hev in Hp.
  destruct Hp as ([HV _] & _ & _).
  change ("("%string :: inner ++ [")"%string])
    with ([] ++ "("%string :: inner ++ ")"%string :: []).
  rewrite (evalTokens_group n [] inner [] r); [|constructor | reflexivity | exact Hin].
  rewrite Hev. cbn [app]. destruct n as [|m]; [discriminate|].
  apply evalTokens_literal. now apply Atoi_Itoa.
Qed.
End Groups.

Lemma group_is_folded_witness :
  evalTokens (RS := ListRand) 4 ["2"; "*"; "("; "1"; "-"; "4"; ")"; "+"; "1"]%string
    (listRD EmptyString [])
  = Some (Ok (scalar (-5)) (listRD EmptyString [])).
Proof.
  etransitivity.
  - apply (group_is_folded (RS := ListRand) 3 ["2"; "*"]%string ["1"; "-"; "4"]%string
             ["+"; "1"]%string (listRD EmptyString []));
      [repeat constructor; discriminate | reflexivity | repeat constructor; discriminate].
  - vm_compute. reflexivity.
Defined.

Lemma parenthesised_value_witness :
  evalTokens (RS := ListRand) 3 ["("; "2"; "d"; "6"; ")"]%string (listRD EmptyString [3; 4])
  = Some (Ok (scalar 9) (setRng (listRD EmptyString [3; 4]) [])).
Proof.
  apply (parenthesised_value (RS := ListRand) 2 ["2"; "d"; "6"]%string
           (listRD EmptyString [3; 4]) (setRng (listRD EmptyString [3; 4]) [])
           (listValue 9 [4; 5] true)).
  - split; [intros vt k v [=] | intros k v Hl; simpl in Hl; now rewrite lookup_empty in Hl].
  - repeat constructor; discriminate.
  - vm_compute. reflexivity.
Defined.

Lemma findQuestion_first (c rest : list string) : forall i,
  Forall (fun t => t <> "("%string /\ t <> ")"%string /\ t <> "?"%string) c ->
  findQuestion (c ++ "?"%string :: rest) i 0 = Some (i + length c)%nat.
Proof.
  induction c as [|t c IH]; intros i Hc; simpl.
  - f_equal. lia.
  - inversion Hc as [|? ? (H1 & H2 & H3) Hc']; subst.
    destruct (eqs t "(") eqn:E1; [apply String.eqb_eq in E1; contradiction|].
    destruct (eqs t ")") eqn:E2; [apply String.eqb_eq in E2; contradiction|].
    destruct (eqs t "?") eqn:E3; [apply String.eqb_eq in E3; contradiction|].
    simpl. rewrite IH by assumption. f_equal. lia.
Qed.

Lemma findColon_first (x rest : list string) : forall j,
  Forall (fun t => t <> "("%string /\ t <> ")"%string /\ t <> "?"%string /\ t <> ":"%string) x ->
  findColon (x ++ ":"%string :: rest) j 0 1 = Some (j + length x)%nat.
Proof.
  induction x as [|t x IH]; intros j Hx; simpl.
  - f_equal. lia.
  - inversion Hx as [|? ? (H1 & H2 & H3 & H4) Hx']; subst.
    destruct (eqs t "(") eqn:E1; [apply String.eqb_eq in E1; contradiction|].
    destruct (eqs t ")") eqn:E2; [apply String.eqb_eq in E2; contradiction|].
    destruct (eqs t "?") eqn:E3; [apply String.eqb_eq in E3; contradiction|].
    destruct (eqs t ":") eqn:E4; [apply String.eqb_eq in E4; contradiction|].
    simpl. rewrite IH by assumption. f_equal. lia.
Qed.

Lemma trimOuter_id (n : nat) (tokens : list string) :
  head tokens <> Some "("%string -> trimOuter n tokens = tokens.
Proof.
  intros H. destruct n as [|n]; [reflexivity|]. simpl.
  destruct tokens as [|t0 [|t1 tl]]; try reflexivity.
  destruct (eqs t0 "(") eqn:E; [|reflexivity].
  apply String.eqb_eq in E. subst. now contradiction H.
Qed.

Section Ternary.
Context {RS : RandSource}.

(** X13.  The ternary without parentheses.  The condition is evaluated first;
    then exactly one branch is, in the context the condition leaves: the
    branch after the colon when the condition is 0, the branch before it
    otherwise.  The other branch is not evaluated: it draws no dice,
    writes no temp and raises no error. *)
Theorem ternary_evaluates_one_branch (n : nat) (c x y : list string) (r : RD) :
  Forall (fun t => t <> "("%string /\ t <> ")"%string /\ t <> "?"%string) c ->
  Forall (fun t => t <> "("%string /\ t <> ")"%string /\ t <> "?"%string
                   /\ t <> ":"%string) x ->
  Forall (fun t => t <> ")"%string) y ->
  evalTokens (S n) (c ++ "?"%string :: x ++ ":"%string :: y) r
  = match evalTokens n c r with
    | Some (Ok condVal r') =>
        if V condVal =? 0 then evalTokens n y r' else evalTokens n x r'
    | Some (Fail e r') => Some (Fail e r')
    | None => None
    end.
Proof.
  intros Hc Hx Hy. cbn [evalTokens].
  set (tokens := c ++ "?"%string :: x ++ ":"%string :: y).
  assert (Hg : findGroup tokens = NoGroup).
  { unfold findGroup. rewrite <- (app_nil_r tokens) at 2.
    rewrite findGroupFrom_skip; [reflexivity|].
    subst tokens. apply Forall_app. split.
    - eapply Forall_impl; [exact Hc|]. now intros t (_ & H & _).
    - constructor; [discriminate|]. apply Forall_app. split.
      + eapply Forall_impl; [exact Hx|]. now intros t (_ & H & _).
      + constructor; [discriminate | exact Hy]. }
  rewrite Hg.
  assert (Ht : trimOuter (length tokens) tokens = tokens).
  { apply trimOuter_id. subst tokens. destruct c as [|t c']; [discriminate|].
    inversion Hc as [|? ? (H1 & _) _]; subst. simpl. congruence. }
  rewrite Ht.
  assert (Hq : findQuestion tokens 0 0 = Some (length c))
    by (subst tokens; now rewrite findQuestion_first).
  rewrite Hq.
  assert (Hd : drop (S (length c)) tokens = x ++ ":"%string :: y).
  { subst tokens.
    replace (c ++ "?"%string :: x ++ ":"%string :: y)
      with ((c ++ ["?"%string]) ++ x ++ ":"%string :: y) by (now rewrite <- app_assoc).
    apply drop_app_length'. rewrite length_app. simpl. lia. }
  rewrite Hd, (findColon_first x y (S (length c)) Hx).
  assert (E1 : take (length c) tokens = c) by (subst tokens; now apply take_app_length').
  assert (E2 : drop (S (S (length c) + length x)) tokens = y).
  { subst tokens.
    replace (c ++ "?"%string :: x ++ ":"%string :: y)
      with ((c ++ "?"%string :: x ++ [":"%string]) ++ y)
      by (rewrite <- !app_assoc; simpl; now rewrite <- app_assoc).
    apply drop_app_length'. rewrite length_app. simpl. rewrite length_app. simpl. lia. }
  assert (E3 : segment tokens (S (length c)) (S (length c) + length x) = x).
  { unfold segment. rewrite Hd. apply take_app_length'. lia. }
  rewrite E1, E2, E3.
  destruct (evalTokens n c r) as [[v r'|e r']|]; reflexivity.
Qed.
End Ternary.

Lemma ternary_evaluates_one_branch_witness :
  evalTokens (RS := ListRand) 3 ["0"; "?"; "1"; "/"; "0"; ":"; "2"; "d"; "6"]%string
    (listRD EmptyString [3; 4])
  = Some (Ok (listValue 9 [4; 5] true) (setRng (listRD EmptyString [3; 4]) [])).
Proof.
  etransitivity.
  - apply (ternary_evaluates_one_branch (RS := ListRand) 2 ["0"]%string
             ["1"; "/"; "0"]%string ["2"; "d"; "6"]%string (listRD EmptyString [3; 4]));
      repeat constructor; discriminate.
  - vm_compute. reflexivity.
Defined.

(** ** Meta tuples and the stack *)

Section Resolver.
Context {RS : RandSource}.

Lemma getFromMetaTuple_shape (sub : SubRoll) (fl fu : bool) (data : list MetaElem) :
  forall acc r l r',
  getFromMetaTuple sub data fl fu acc r = Some (l, r') ->
  l = [] \/ exists tail, l = acc ++ tail /\ length tail = length data
                         /\ forall i v, data !! i = Some (MInt v) -> tail !! i = Some v.
Proof.
  induction data as [|el data IH]; intros acc r l r' H; simpl in H.
  - injection H as <- <-. right. exists []. rewrite app_nil_r.
    repeat split. intros i v Hl. now rewrite lookup_nil in Hl.
  - assert (K : forall x r0, getFromMetaTuple sub data fl fu (acc ++ [x]) r0 = Some (l, r') ->
                (forall i v, (el :: data) !! i = Some (MInt v) -> i = O -> v = x) ->
                l = [] \/ exists tail, l = acc ++ tail /\ length tail = length (el :: data)
                  /\ forall i v, (el :: data) !! i = Some (MInt v) -> tail !! i = Some v).
    { intros x r0 H0 Hx. apply IH in H0 as [->|(tail & -> & Hlen & Hint)]; [now left|].
      right. exists (x :: tail). rewrite <- app_assoc. split; [reflexivity|].
      split; [simpl; now f_equal|].
      intros [|i] v Hl.
      - simpl. f_equal. symmetry. now apply (Hx O v Hl).
      - simpl in Hl |- *. now apply Hint. }
    destruct el as [z|s].
    + apply (K z r H). intros i v Hl ->. simpl in Hl. congruence.
    + destruct (sub s (ValueTable r) (rng r)) as [sr|]; [|discriminate].
      cbv zeta in H.
      destruct (isNoError (res_Error (res sr))).
      * eapply K; [exact H|]. intros i v Hl ->. discriminate Hl.
      * injection H as <- <-. now left.
Qed.

(** X14.  Resolving a meta tuple is all or nothing: the result is either
    empty, or it has one integer for every element of the tuple, the
    integer elements unchanged and in place. *)
Theorem getFromMetaTuple_all_or_nothing (sub : SubRoll) (fl fu : bool)
    (data : list MetaElem) (r r' : RD) (l : list Z) :
  getFromMetaTuple sub data fl fu [] r = Some (l, r') ->
  l = [] \/ (length l = length data
             /\ forall i v, data !! i = Some (MInt v) -> l !! i = Some v).
Proof.
  intros H. apply getFromMetaTuple_shape in H as [->|(tail & -> & Hlen & Hint)];
    [now left | right; auto].
Qed.
End Resolver.

Lemma getFromMetaTuple_all_or_nothing_witness :
  [5; 2; 7] = [] \/ (length [5; 2; 7] = length [MInt 5; MStr "1+1"; MInt 7]
                     /\ forall i v, [MInt 5; MStr "1+1"; MInt 7] !! i = Some (MInt v) ->
                                    [5; 2; 7] !! i = Some v).
Proof.
  apply (getFromMetaTuple_all_or_nothing (RS := ListRand)
           (fun e vt g => Roll 3 (NewSharing e vt g)) false true
           [MInt 5; MStr "1+1"; MInt 7] (listRD EmptyString [])
           (setValueTable (listRD EmptyString []) None)).
  vm_compute. reflexivity.
Defined.

Section Stack.
Context {RS : RandSource}.

Lemma bind_ok_inv {A B} (m : M A) (k : A -> M B) (r r' : RD) (y : B) :
  bind m k r = Some (Ok y r') ->
  exists x r1, m r = Some (Ok x r1) /\ k x r1 = Some (Ok y r').
Proof.
  unfold bind. destruct (m r) as [[x r1|e r1]|]; [|discriminate|discriminate].
  intros H. now exists x, r1.
Qed.

Ltac pops2 H st :=
  let b := fresh "b" in let a := fresh "a" in let st' := fresh "st'" in
  destruct st as [|b [|a st']]; [discriminate H | discriminate H |]; cbn [pop2] in H.

Ltac pops3 H st :=
  let c := fresh "c" in let b := fresh "b" in let a := fresh "a" in
  let st' := fresh "st'" in
  destruct st as [|c [|b [|a st']]];
    [discriminate H | discriminate H | discriminate H |]; cbn [pop3] in H.

Ltac crunch H :=
  repeat first
    [ discriminate H
    | match type of H with
      | ret _ _ = Some (Ok _ _) => injection H as <- _; simpl; lia
      | Some (Ok _ _) = Some (Ok _ _) => injection H as <- _; simpl; lia
      | bind _ _ _ = Some (Ok _ _) =>
          let x := fresh "x" in let r1 := fresh "r1" in let E := fresh "E" in
          apply bind_ok_inv in H as (x & r1 & E & H)
      | context [if ?c then _ else _] => destruct c
      | context [match ?x with Some _ => _ | None => _ end] => destruct x
      | context [match ?x with [] => _ | _ :: _ => _ end] => destruct x
      | context [let '(_, _) := ?p in _] => destruct p
      end ].

Section Operators.
Variables (sub : SubRoll) (fuel : nat) (st st' : list Value) (r r' : RD).

Lemma ternaryOp_effect :
  pop3 st (fun a b c st' => ret ((if V a =? 0 then c else b) :: st')) r
  = Some (Ok st' r') -> (length st = S (S (length st')) /\ 0 < length st')%nat.
Proof. intros H. pops3 H st. injection H as <- _. simpl. lia. Qed.

Lemma arith_effect (f : Z -> Z -> Z) :
  arith st f r = Some (Ok st' r') -> (length st = S (length st') /\ 0 < length st')%nat.
Proof. unfold arith. intros H. pops2 H st. crunch H. Qed.

Lemma divOp_effect :
  pop2 st (fun a b st' =>
    if V b =? 0 then fail ErrNodeRightValInvalid
    else ret (scalar (GoInt.quo (V a) (V b)) :: st')) r = Some (Ok st' r') ->
  (length st = S (length st') /\ 0 < length st')%nat.
Proof. intros H. pops2 H st. crunch H. Qed.

Lemma powOp_effect :
  pop2 st (fun a b st' =>
    if (V a =? 0) && (V b =? 0) then fail ErrNodeLeftValInvalid
    else if V b <? 0 then fail ErrNodeRightValInvalid
    else ret (scalar (GoInt.pow (V a) (V b)) :: st')) r = Some (Ok st' r') ->
  (length st = S (length st') /\ 0 < length st')%nat.
Proof. intros H. pops2 H st. crunch H. Qed.

Lemma diceOp_effect : diceOp st r = Some (Ok st' r') -> (length st = S (length st') /\ 0 < length st')%nat.
Proof. unfold diceOp. intros H. pops2 H st. crunch H. Qed.

Lemma fudgeOp_effect : fudgeOp st r = Some (Ok st' r') -> (length st = S (length st') /\ 0 < length st')%nat.
Proof. unfold fudgeOp. intros H. pops2 H st. crunch H. Qed.

Lemma keepOp_effect (mode : SelMode) :
  keepOp sub mode st r = Some (Ok st' r') -> (length st = S (length st') /\ 0 < length st')%nat.
Proof. unfold keepOp. intros H. pops2 H st. crunch H. Qed.

Lemma selectOp_effect (tok : string) :
  selectOp sub tok st r = Some (Ok st' r') -> (length st = S (length st') /\ 0 < length st')%nat.
Proof. unfold selectOp. intros H. pops2 H st. crunch H. Qed.

Lemma clampOp_effect (isMax : bool) :
  clampOp isMax st r = Some (Ok st' r') -> (length st = S (length st') /\ 0 < length st')%nat.
Proof. unfold clampOp. intros H. pops2 H st. crunch H. Qed.

Lemma spOp_effect : spOp st r = Some (Ok st' r') -> (length st = S (length st') /\ 0 < length st')%nat.
Proof. unfold spOp. intros H. pops2 H st. crunch H. Qed.

Lemma tpOp_effect : tpOp st r = Some (Ok st' r') -> (length st = S (length st') /\ 0 < length st')%nat.
Proof. unfold tpOp. intros H. pops2 H st. crunch H. Qed.

Lemma lpOp_effect : lpOp sub st r = Some (Ok st' r') -> (length st = S (length st') /\ 0 < length st')%nat.
Proof. unfold lpOp. intros H. pops2 H st. crunch H. Qed.

Lemma chain2Op_effect (k : ChainKind) :
  chain2Op fuel k st r = Some (Ok st' r') -> (length st = S (length st') /\ 0 < length st')%nat.
Proof. unfold chain2Op. intros H. pops2 H st. crunch H. Qed.

Lemma chain3Op_effect (k : ChainKind) :
  chain3Op fuel k st r = Some (Ok st' r') -> (length st = S (S (length st')) /\ 0 < length st')%nat.
Proof. unfold chain3Op. intros H. pops3 H st. crunch H. Qed.

Lemma percOp_effect (k : PercKind) :
  percOp k st r = Some (Ok st' r') -> (length st = S (length st') /\ 0 < length st')%nat.
Proof. unfold percOp. intros H. pops2 H st. crunch H. Qed.

Lemma assignOp_effect : assignOp st r = Some (Ok st' r') -> (length st = S (length st') /\ 0 < length st')%nat.
Proof. unfold assignOp. intros H. pops2 H st. crunch H. Qed.
End Operators.

Ltac closeDelta :=
  match goal with
  | |- _ = _ + ?d /\ _ => let v := eval vm_compute in d in change d with v
  end; lia.

Ltac branch H lem :=
  match type of H with
  | (if eqs ?tok ?s then _ else _) _ = _ =>
      let E := fresh "E" in
      destruct (eqs tok s) eqn:E;
      [ apply lem in H; apply String.eqb_eq in E; subst tok; closeDelta | clear E ]
  end.

Lemma applyOp_effect (sub : SubRoll) (fuel : nat) (tok : string) (st st' : list Value)
    (r r' : RD) :
  applyOp sub fuel tok st r = Some (Ok st' r') ->
  Z.of_nat (length st') = Z.of_nat (length st)
    + (if eqs tok ":" || eqs tok "a_m" || eqs tok "c_m" then -2 else -1)
  /\ 1 <= Z.of_nat (length st').
Proof.
  unfold applyOp. intros H.
  branch H ternaryOp_effect.
  do 3 branch H arith_effect.
  branch H divOp_effect.
  do 4 branch H arith_effect.
  branch H powOp_effect.
  branch H diceOp_effect.
  branch H keepOp_effect.
  branch H chain2Op_effect.
  branch H chain3Op_effect.
  branch H chain2Op_effect.
  branch H chain3Op_effect.
  do 2 branch H percOp_effect.
  branch H assignOp_effect.
  branch H lpOp_effect.
  branch H keepOp_effect.
  destruct (eqs tok "kh" || eqs tok "kl" || eqs tok "dh" || eqs tok "dl") eqn:E.
  { apply selectOp_effect in H.
    repeat (apply orb_true_iff in E as [E|E]);
      apply String.eqb_eq in E; subst tok; closeDelta. }
  clear E.
  do 2 branch H clampOp_effect.
  branch H fudgeOp_effect.
  branch H spOp_effect.
  branch H tpOp_effect.
  discriminate H.
Qed.

Lemma step_effect (sub : SubRoll) (fuel : nat) (tok : string) (st st' : list Value)
    (r r' : RD) :
  step sub fuel tok st r = Some (Ok st' r') ->
  Z.of_nat (length st') = Z.of_nat (length st) + stackEffect tok
  /\ 1 <= Z.of_nat (length st').
Proof.
  unfold step, stackEffect, isOperandRPN, isInt. intros H.
  destruct (Atoi tok); [injection H as <- _; simpl; lia|]. cbn [orb].
  destruct (enclosedBy "[" "]" tok); [injection H as <- _; simpl; lia|].
  destruct (enclosedBy dquote dquote tok); [injection H as <- _; simpl; lia|].
  destruct (HasPrefixDollar tok); [injection H as <- _; simpl; lia|].
  cbn [orb]. now apply applyOp_effect in H.
Qed.

Lemma evalRPNLoop_effect (sub : SubRoll) (fuel : nat) (rpn : list string) :
  forall st r v r',
  evalRPNLoop sub fuel rpn st r = Some (Ok v r') ->
  Z.of_nat (length st) + foldr (fun t acc => stackEffect t + acc) 0 rpn = 1
  /\ forall k, (1 <= k <= length rpn)%nat ->
       1 <= Z.of_nat (length st)
            + foldr (fun t acc => stackEffect t + acc) 0 (take k rpn).
Proof.
  induction rpn as [|tok rest IH]; intros st r v r' H; simpl in H.
  - destruct st as [|v0 [|? ?]]; try discriminate H. simpl. split; [lia|].
    intros k Hk. lia.
  - apply bind_ok_inv in H as (st1 & r1 & E & H).
    apply step_effect in E as [E1 E2]. apply IH in H as [H1 H2].
    split; [simpl; lia|].
    intros k Hk. destruct k as [|k]; [lia|]. simpl in Hk. simpl.
    destruct k as [|k].
    + rewrite take_0. simpl. lia.
    + specialize (H2 (S k) ltac:(lia)). lia.
Qed.

(** X15.  The shape of a postfix program that evaluates.  Every operand adds
    one value to the stack, every operator takes off one more than it puts
    back (two for the operators of three operands), whatever the values
    are; so a program that evaluates has a total effect of exactly one
    value, and no prefix of it leaves the stack empty. *)
Theorem evalRPN_stack_balance (sub : SubRoll) (fuel : nat) (rpn : list string)
    (r r' : RD) (v : Value) :
  evalRPN sub fuel rpn r = Some (Ok v r') ->
  foldr (fun t acc => stackEffect t + acc) 0 rpn = 1
  /\ forall k, (1 <= k <= length rpn)%nat ->
               1 <= foldr (fun t acc => stackEffect t + acc) 0 (take k rpn).
Proof.
  unfold evalRPN. intros H. apply evalRPNLoop_effect in H as [H1 H2].
  simpl in H1, H2. split; [exact H1|].
  intros k Hk. now apply H2.
Qed.
End Stack.

Lemma evalRPN_stack_balance_witness :
  foldr (fun t acc => stackEffect t + acc) 0 ["2"; "6"; "d"; "1"; "kh"; "3"; "+"]%string = 1.
Proof.
  exact (proj1 (evalRPN_stack_balance (RS := ListRand) (fun _ _ _ => None) 1
                  ["2"; "6"; "d"; "1"; "kh"; "3"; "+"]%string (listRD EmptyString [3; 4])
                  (setRng (listRD EmptyString [3; 4]) []) (scalar 8) eq_refl)).
Defined.

(** ** Tuple literals *)

Lemma atoiDigits_bytes (s : string) : forall n v,
  atoiDigits s n = Some v -> Forall (fun c => isDigit c = true) (bytes s).
Proof.
  induction s as [|c s IH]; intros n v H; [constructor|].
  simpl in H. destruct (isDigit c) eqn:E; [|discriminate].
  unfold bytes. simpl. constructor; [exact E | exact (IH _ _ H)].
Qed.



Lemma Atoi_bytes (x : string) (v : Z) :
  Atoi x = Some v -> Forall numeralByte (bytes x).
Proof.
  unfold Atoi. destruct x as [|c s]; [discriminate|].
  assert (K : forall (neg : bool) (ds : string) w,
            match ds with
            | EmptyString => None
            | _ =>
                match atoiDigits ds 0 with
                | Some n =>
                    let v := if neg then - n else n in
                    if (GoInt.minInt <=? v) && (v <=? GoInt.maxInt) then Some v else None
                | None => None
                end
            end = Some w -> Forall numeralByte (bytes ds)).
  { intros neg ds w H. destruct ds as [|d ds']; [discriminate|].
    destruct (atoiDigits (String d ds') 0) as [n|] eqn:E; [|discriminate].
    eapply Forall_impl; [exact (atoiDigits_bytes _ _ _ E)|]. intros b Hb. now left. }
  destruct (eqc c "-") eqn:E1.
  { apply Ascii.eqb_eq in E1. subst. intros H. apply (K true s) in H.
    unfold bytes. simpl. constructor; [right; now left | exact H]. }
  destruct (eqc c "+") eqn:E2.
  { apply Ascii.eqb_eq in E2. subst. intros H. apply (K false s) in H.
    unfold bytes. simpl. constructor; [right; now right | exact H]. }
  intros H. now apply (K false (String c s)) in H.
Qed.

Lemma numeralByte_plain (c : ascii) :
  numeralByte c ->
  eqc c dquote = false /\ eqc c "(" = false /\ eqc c "[" = false /\ eqc c ")" = false
  /\ eqc c "]" = false /\ eqc c "," = false /\ isSpaceByte c = false
  /\ isASCIIByte c = true.
Proof.
  intros [H | [-> | ->]]; [|repeat split; reflexivity ..].
  revert H.
  destruct c as [[] [] [] [] [] [] [] []]; vm_compute; intros H;
    first [discriminate H | repeat split; reflexivity].
Qed.

Lemma splitTuple_numeral (w : string) : forall rest sb elems,
  Forall numeralByte (bytes w) ->
  splitTuple (w +:+ rest) sb 0 false elems
  = splitTuple rest (revBytes w sb) 0 false elems.
Proof.
  induction w as [|c w IH]; intros rest sb elems Hw; [reflexivity|].
  unfold bytes in Hw. simpl in Hw. inversion Hw as [|? ? Hc Hw']; subst.
  destruct (numeralByte_plain c Hc) as (E1 & E2 & E3 & E4 & E5 & E6 & _ & _).
  rewrite append_cons. cbn [splitTuple revBytes].
  rewrite E1, E2, E3, E4, E5, E6. cbn [orb andb]. cbv iota.
  now apply IH.
Qed.

Lemma TrimSpace_numeral (w : string) :
  Forall numeralByte (bytes w) -> TrimSpace w = w.
Proof.
  intros Hw. apply TrimSpace_plain.
  eapply Forall_impl; [exact Hw|]. intros c Hc.
  destruct (numeralByte_plain c Hc) as (_ & _ & _ & _ & _ & _ & Hs & Ha). now split.
Qed.

Lemma revBytes_spec (w acc : string) :
  revBytes (revBytes w acc) EmptyString = revBytes acc EmptyString +:+ w.
Proof.
  apply bytes_inj. rewrite bytes_app, !bytes_revBytes.
  change (bytes EmptyString) with (@nil ascii).
  rewrite !app_nil_r, rev_app_distr, rev_involutive. reflexivity.
Qed.

Lemma splitTuple_join (ws : list string) : forall w elems,
  Forall (fun x => x <> EmptyString /\ Forall numeralByte (bytes x)) (w :: ws) ->
  splitTuple (JoinWith "," (w :: ws)) EmptyString 0 false elems = elems ++ w :: ws.
Proof.
  induction ws as [|w2 ws IH]; intros w elems Hall;
    inversion Hall as [|? ? [Hne Hw] Hws]; subst.
  - cbn [JoinWith].
    rewrite <- (append_nil_r_bytes w) at 1.
    rewrite (splitTuple_numeral w EmptyString EmptyString elems Hw).
    cbn [splitTuple].
    destruct (revBytes w EmptyString) eqn:E.
    + exfalso. apply Hne. rewrite <- (revBytes_involutive w), E. reflexivity.
    + rewrite <- E, revBytes_involutive, (TrimSpace_numeral w Hw). reflexivity.
  - change (JoinWith "," (w :: w2 :: ws))
      with (w +:+ String "," (JoinWith "," (w2 :: ws))).
    rewrite (splitTuple_numeral w _ EmptyString elems Hw).
    cbn [splitTuple]. change (eqc "," dquote) with false. cbv iota.
    change (eqc "," "(" || eqc "," "[") with false. cbv iota.
    change (eqc "," ")" || eqc "," "]") with false. cbv iota.
    change (eqc "," "," && (0 =? 0)) with true. cbv iota.
    rewrite revBytes_involutive, (TrimSpace_numeral w Hw).
    rewrite (IH w2 (elems ++ [w]) Hws), <- app_assoc. reflexivity.
Qed.

Lemma revBytes_snoc (w : string) (c : ascii) :
  revBytes (w +:+ String c EmptyString) EmptyString = String c (revBytes w EmptyString).
Proof. rewrite revBytes_app. reflexivity. Qed.

Lemma stripEnds_bracketed (items : list string) :
  stripEnds (bracketed items) = JoinWith "," items.
Proof.
  unfold bracketed. change ("[" +:+ JoinWith "," items +:+ "]")%string
    with (String "[" (JoinWith "," items +:+ "]")).
  cbn [stripEnds]. rewrite revBytes_snoc. apply revBytes_involutive.
Qed.

Lemma enclosedBy_bracketed (items : list string) :
  enclosedBy "[" "]" (bracketed items) = true.
Proof.
  unfold bracketed. change ("[" +:+ JoinWith "," items +:+ "]")%string
    with (String "[" (JoinWith "," items +:+ "]")).
  assert (L : lastByte (JoinWith "," items +:+ "]") = Some "]"%char)
    by (unfold lastByte; now rewrite revBytes_snoc).
  destruct (JoinWith "," items +:+ "]") as [|c s] eqn:E; [discriminate L|].
  cbn [enclosedBy]. rewrite L. reflexivity.
Qed.

Lemma Itoa_numeral (z : Z) :
  GoInt.inRange z -> Itoa z <> EmptyString /\ Forall numeralByte (bytes (Itoa z)).
Proof.
  intros Hz. pose proof (Atoi_Itoa z Hz) as H. split.
  - intros E. rewrite E in H. discriminate.
  - exact (Atoi_bytes _ _ H).
Qed.

Lemma tupleValue_ints (l : list Z) :
  Forall GoInt.inRange l -> tupleValue (bracketed (Itoa <$> l)) = listValue 0 l true.
Proof.
  intros Hl. unfold tupleValue. rewrite stripEnds_bracketed.
  assert (Es : splitTuple (JoinWith "," (Itoa <$> l)) EmptyString 0 false [] = Itoa <$> l).
  { destruct l as [|x l']; [reflexivity|].
    rewrite fmap_cons. rewrite splitTuple_join; [reflexivity|].
    rewrite <- fmap_cons. apply Forall_fmap.
    eapply Forall_impl; [exact Hl|]. intros z Hz. now apply Itoa_numeral. }
  rewrite Es. cbv zeta.
  assert (Ef : filter (fun el => isEmptyString el = false) (Itoa <$> l) = Itoa <$> l).
  { clear Es. induction Hl as [|x l Hx Hl IH]; [reflexivity|].
    rewrite fmap_cons, filter_cons, IH.
    destruct (decide (isEmptyString (Itoa x) = false)) as [|N]; [reflexivity|].
    exfalso. apply N. destruct (Itoa x) eqn:E; [|reflexivity].
    now destruct (Itoa_numeral x Hx) as [Hne _]. }
  rewrite Ef.
  assert (Eo : omap Atoi (Itoa <$> l) = l).
  { clear Es Ef. induction Hl as [|x l Hx Hl IH]; [reflexivity|].
    rewrite fmap_cons. cbn [omap list_omap]. rewrite (Atoi_Itoa x Hx).
    fold (omap Atoi (Itoa <$> l)). now rewrite IH. }
  assert (En : filter (fun el => Atoi el = None) (Itoa <$> l) = []).
  { clear Es Ef Eo. induction Hl as [|x l Hx Hl IH]; [reflexivity|].
    rewrite fmap_cons, filter_cons, IH.
    destruct (decide (Atoi (Itoa x) = None)) as [E|]; [|reflexivity].
    rewrite (Atoi_Itoa x Hx) in E. discriminate. }
  rewrite Eo, En. reflexivity.
Qed.

Section TupleLiteral.
Context {RS : RandSource}.

(** X16.  The list text of the detail string is a tuple literal for the same
    list: the token [[x1,...,xn]] written with [strconv.Itoa] evaluates to
    the list of the integers [x1], ..., [xn], enabled, with value 0. *)
Theorem tuple_literal_round_trip (sub : SubRoll) (fuel : nat) (l : list Z)
    (st : list Value) (r : RD) :
  Forall GoInt.inRange l ->
  step sub fuel (bracketed (Itoa <$> l)) st r
  = Some (Ok (listValue 0 l true :: st) r).
Proof.
  intros Hl. unfold step.
  assert (Ea : Atoi (bracketed (Itoa <$> l)) = None).
  { unfold bracketed.
    change ("[" +:+ JoinWith "," (Itoa <$> l) +:+ "]")%string
      with (String "[" (JoinWith "," (Itoa <$> l) +:+ "]")).
    reflexivity. }
  rewrite Ea, enclosedBy_bracketed, (tupleValue_ints l Hl). reflexivity.
Qed.
End TupleLiteral.

Lemma tuple_literal_round_trip_witness :
  step (RS := ListRand) (fun _ _ _ => None) 0 "[3,-1,20]" [] (listRD EmptyString [])
  = Some (Ok [listValue 0 [3; -1; 20] true] (listRD EmptyString [])).
Proof.
  apply (tuple_literal_round_trip (RS := ListRand) (fun _ _ _ => None) 0 [3; -1; 20] []
           (listRD EmptyString [])).
  repeat constructor; unfold GoInt.minInt, GoInt.maxInt; lia.
Defined.

(** ** The expression [NdM], end to end *)

Lemma uint_digits (d : Decimal.uint) :
  Forall (fun c => isDigit c = true) (bytes (NilEmpty.string_of_uint d)).
Proof.
  unfold bytes. induction d; simpl; constructor; auto.
Qed.

Lemma Itoa_pos_digits (z : Z) :
  0 < z ->
  exists c w, Itoa z = String c w /\ Forall (fun b => isDigit b = true) (bytes (String c w)).
Proof.
  intros Hz. destruct z as [|p|p]; try lia.
  unfold Itoa. cbn [Z.to_int NilZero.string_of_int]. unfold NilZero.string_of_uint.
  pose proof (to_uint_nonnil p) as Hn.
  destruct (string_of_uint_digits _ Hn) as (c & s & E & Hc).
  pose proof (uint_digits (Pos.to_uint p)) as Hd.
  exists c, s. rewrite <- E. split; [|exact Hd].
  destruct (Pos.to_uint p); [congruence | reflexivity ..].
Qed.

Lemma digit_plain (c : ascii) :
  isDigit c = true ->
  isBlank c = false /\ eqc c dquote = false /\ isLetter c = false
  /\ isSpaceByte c = false /\ c <> "{"%char /\ isASCIIByte c = true.
Proof.
  destruct c as [[] [] [] [] [] [] [] []]; vm_compute; intros H;
    first [discriminate H | repeat split; first [discriminate | reflexivity]].
Qed.

Lemma mapBytes_app (f : ascii -> ascii) (a b : string) :
  mapBytes f (a +:+ b) = mapBytes f a +:+ mapBytes f b.
Proof. induction a as [|c a IH]; [reflexivity|]. rewrite append_cons. simpl. now rewrite IH. Qed.

Lemma spanBytes_whole (p : ascii -> bool) (w : string) :
  Forall (fun b => p b = true) (bytes w) -> spanBytes p w = (w, EmptyString).
Proof.
  induction w as [|c w IH]; intros H; [reflexivity|].
  unfold bytes in H. simpl in H. inversion H as [|? ? Hc Hw]; subst.
  simpl. rewrite Hc, IH by exact Hw. reflexivity.
Qed.

Lemma tokenize_NdM (a b : string) :
  a <> EmptyString -> b <> EmptyString ->
  Forall (fun c => isDigit c = true) (bytes a) ->
  Forall (fun c => isDigit c = true) (bytes b) ->
  tokenize (a +:+ String "d" b) = Some [a; "d"%string; b].
Proof.
  intros Ha Hb Da Db.
  assert (Hs : Forall (fun c => isSpaceByte c = false /\ isASCIIByte c = true)
                 (bytes (a +:+ String "d" b))).
  { rewrite bytes_app. apply Forall_app. split.
    - eapply Forall_impl; [exact Da|]. intros c Hc. now apply digit_plain in Hc.
    - unfold bytes. simpl. constructor; [split; reflexivity|].
      eapply Forall_impl; [exact Db|]. intros c Hc. now apply digit_plain in Hc. }
  unfold tokenize. rewrite (TrimSpace_plain _ Hs), length_append.
  destruct a as [|ca a']; [contradiction|]. destruct b as [|cb b']; [contradiction|].
  unfold bytes in Da, Db. simpl in Da, Db.
  inversion Da as [|? ? Hca Da']; subst. inversion Db as [|? ? Hcb Db']; subst.
  destruct (digit_plain ca Hca) as (B1 & Q1 & _).
  destruct (digit_plain cb Hcb) as (B2 & Q2 & L2 & _).
  rewrite append_cons. simpl String.length. cbn [Nat.add tokenizeLoop].
  rewrite B1, Q1, Hca.
  rewrite (spanBytes_all isDigit a' (String cb b') "d" Da' eq_refl).
  unfold consTok at 1.
  replace (String.length a' + S (S (String.length b')))%nat
    with (S (S (String.length a' + String.length b'))) by lia.
  cbn [tokenizeLoop].
  change (isBlank "d") with false. change (eqc "d" dquote) with false.
  change (isDigit "d") with false. change (eqc "d" "[") with false.
  change (isPunct "d") with false. change (eqc "d" "$") with false.
  change (isLetter "d") with true. cbv iota.
  cbn [spanBytes]. rewrite L2. unfold consTok at 1.
  cbn [tokenizeLoop]. rewrite B2, Q2, Hcb.
  rewrite (spanBytes_whole isDigit b' Db').
  unfold consTok. destruct (String.length a' + String.length b')%nat; reflexivity.
Qed.

Section DiceExpression.
Context {RS : RandSource}.

Lemma int_token_facts (x : string) (v : Z) :
  Atoi x = Some v ->
  ToLower x = x /\ isInt x = true /\ isOperandTok x = true /\ isOperator x = false
  /\ isDiceWord x = false /\ forall y, isInt y = false -> eqs x y = false.
Proof.
  intros Hx.
  assert (Hi : isInt x = true) by (unfold isInt; now rewrite Hx).
  assert (Ho : isOperandTok x = true) by (unfold isOperandTok; now rewrite Hi).
  assert (N : forall y, isInt y = false -> eqs x y = false).
  { intros y Hy. destruct (eqs x y) eqn:E; [|reflexivity].
    apply String.eqb_eq in E. subst. congruence. }
  split; [exact (Atoi_lower x v Hx)|]. split; [exact Hi|]. split; [exact Ho|]. split.
  - destruct (isOperator x) eqn:E; [|reflexivity].
    apply operator_not_operand in E. congruence.
  - split; [|exact N]. unfold isDiceWord.
    rewrite (N "d"%string eq_refl), (N "b"%string eq_refl), (N "p"%string eq_refl),
      (N "f"%string eq_refl), (N "df"%string eq_refl), (N "a"%string eq_refl),
      (N "c"%string eq_refl). reflexivity.
Qed.

Lemma evalTokens_NdM (n : nat) (N M : Z) (r : RD) :
  0 < N <= 10000 -> 0 < M <= 10000 ->
  evalTokens (S n) [Itoa N; "d"%string; Itoa M] r
  = let '(xs, g') := rollMany (Z.to_nat N) M (fun x => GoInt.add x 1) (rng r) in
    Some (Ok (listValue (GoInt.sum xs) xs true) (setRng r g')).
Proof.
  intros HN HM.
  assert (RN : GoInt.inRange N) by (goint; lia).
  assert (RM : GoInt.inRange M) by (goint; lia).
  destruct (int_token_facts _ _ (Atoi_Itoa N RN)) as (LN & IN & ON & PN & WN & EN).
  destruct (int_token_facts _ _ (Atoi_Itoa M RM)) as (LM & IM & OM & PM & WM & EM).
  rewrite evalTokens_plain_unfold.
  2:{ repeat constructor; unfold isPlain, isLiteral; rewrite ?IN, ?IM; reflexivity. }
  assert (Ep : preProcessTokens [Itoa N; "d"%string; Itoa M] (DefaultFaces r)
               = [Itoa N; "d"%string; Itoa M]).
  { unfold preProcessTokens. cbn [insertDefaults].
    repeat (progress (unfold needLeft, needRight;
                      change (isDiceWord "d") with true;
                      rewrite ?LN, ?LM, ?PN, ?PM, ?WN, ?WM,
                        ?(EN "("%string eq_refl), ?(EN "?"%string eq_refl),
                        ?(EN ":"%string eq_refl), ?(EN "d"%string eq_refl),
                        ?(EM ")"%string eq_refl), ?(EM ":"%string eq_refl),
                        ?(EM "%"%string eq_refl), ?(EM "d"%string eq_refl);
                      cbn [orb app last rewriteChainM defaultFaces];
                      change (ToLower "d") with "d"%string;
                      change (eqs "d" "d") with true;
                      change (rightDefault "d") with (@nil string); cbv iota)).
    reflexivity. }
  rewrite Ep.
  assert (Er : toRPN [Itoa N; "d"%string; Itoa M] = Some [Itoa N; Itoa M; "d"%string]).
  { unfold toRPN. rewrite (toRPNLoop_operand _ _ _ _ ON).
    rewrite (toRPNLoop_diceOp "d") by reflexivity. cbn [popOps fst snd].
    rewrite (toRPNLoop_operand _ _ _ _ OM). reflexivity. }
  rewrite Er. unfold evalRPN. cbn [evalRPNLoop]. unfold bind at 1.
  rewrite (step_Itoa _ _ N [] r RN). unfold bind at 1.
  rewrite (step_Itoa _ _ M [scalar N] r RM). unfold bind at 1.
  change (step _ (S n) "d" [scalar M; scalar N] r)
    with ((if (N <=? 0) || (10000 <? N) then fail ErrNodeLeftValInvalid
           else if (M <=? 0) || (10000 <? M) then fail ErrNodeRightValInvalid
           else bind (rollManyM N M (fun x => GoInt.add x 1))
                     (fun rolls => ret [listValue (GoInt.sum rolls) rolls true])) r).
  destruct ((N <=? 0) || (10000 <? N)) eqn:E1; [blia|].
  destruct ((M <=? 0) || (10000 <? M)) eqn:E2; [blia|].
  unfold bind, rollManyM, ret.
  destruct (rollMany (Z.to_nat N) M _ (rng r)) as [xs g']. reflexivity.
Qed.

(** X17.  The expression [NdM] from text to result.  For [0 < N <= 10000] and
    [0 < M <= 10000], with any value table and enough fuel for one level,
    [Roll] on the decimal text of [N], a [d] and the decimal text of [M]
    succeeds: it draws exactly [N] times from [Intn(M)], the meta tuple
    holds the draws plus one in roll order, each between 1 and [M], and
    the value is their sum, between [N] and [N * M]. *)
Theorem roll_dice_expression (fuel : nat) (N M : Z) (vt : option (gmap string Z))
    (now : Z) (g : rng_state) :
  0 < N <= 10000 -> 0 < M <= 10000 ->
  let rolls := fst (rollMany (Z.to_nat N) M (fun x => GoInt.add x 1) g) in
  exists r',
    rollWith (S (S fuel)) (Itoa N +:+ String "d" (Itoa M)) vt now g = Some r'
    /\ res_Error (res r') = ErrNone
    /\ res_Value (res r') = zsum rolls
    /\ res_MetaTuple (res r') = Some (MInt <$> rolls)
    /\ Z.of_nat (length rolls) = N
    /\ Forall (fun x => 1 <= x <= M) rolls
    /\ N <= res_Value (res r') <= N * M
    /\ rng r' = snd (rollMany (Z.to_nat N) M (fun x => GoInt.add x 1) g).
Proof.
  intros HN HM rolls.
  destruct (Itoa_pos_digits N ltac:(lia)) as (cn & wn & EN & DN).
  destruct (Itoa_pos_digits M ltac:(lia)) as (cm & wm & EM & DM).
  assert (RN : GoInt.inRange N) by (goint; lia).
  assert (RM : GoInt.inRange M) by (goint; lia).
  set (s := Itoa N +:+ String "d" (Itoa M)).
  assert (Hlow : ToLower s = s).
  { subst s. unfold ToLower. rewrite mapBytes_app. cbn [mapBytes].
    change (lowerByte "d") with "d"%char.
    fold (ToLower (Itoa N)). fold (ToLower (Itoa M)).
    now rewrite (Atoi_lower _ _ (Atoi_Itoa N RN)), (Atoi_lower _ _ (Atoi_Itoa M RM)). }
  assert (Hbr : Forall (fun b => b <> "{"%char) (bytes s)).
  { subst s. rewrite bytes_app, EN, EM. apply Forall_app. split.
    - eapply Forall_impl; [exact DN|]. intros c Hc. now apply digit_plain in Hc.
    - unfold bytes. cbn [list_ascii_of_string]. constructor; [discriminate|].
      eapply Forall_impl; [exact DM|]. intros c Hc. now apply digit_plain in Hc. }
  assert (Htok : tokenize s = Some [Itoa N; "d"%string; Itoa M]).
  { subst s. apply tokenize_NdM; rewrite ?EN, ?EM; try discriminate; assumption. }
  set (r0 := setRng (New s vt now) g).
  assert (Hrep : replaceVars r0 (origin r0) = s).
  { unfold replaceVars. subst r0. cbn [origin ValueTable New setRng]. rewrite Hlow.
    destruct vt as [t|]; [|reflexivity].
    pose proof (replaceVarsLoop_plain t s EmptyString (String.length s) Hbr) as H.
    rewrite append_nil_r_bytes in H. rewrite H by lia.
    destruct (String.length s - String.length s)%nat; apply append_nil_r_bytes. }
  unfold rollWith. fold r0.
  change (Roll (S (S fuel)) r0)
    with (RollBody (fun e vt g => Roll (S fuel) (NewSharing e vt g))
                   (evalTokens (S fuel)) r0).
  unfold RollBody. rewrite Hrep, Htok, (evalTokens_NdM fuel N M r0 HN HM).
  change (rng r0) with g.
  destruct (rollMany_spec (fun x => 1 <= x <= M) (Z.to_nat N) M
              (fun x => GoInt.add x 1) g ltac:(lia)) as [Hlen Hall].
  { intros x Hx. unfold GoInt.add. rewrite wrap_id by (goint; lia). lia. }
  fold rolls in Hlen, Hall. subst rolls.
  destruct (rollMany (Z.to_nat N) M _ g) as [xs g']. cbn [fst snd] in *.
  cbv zeta. cbn [MetaEnable MetaStr listValue metaList Meta default].
  rewrite getFromMetaTuple_ints. cbn [app].
  rewrite length_fmap, Nat.eqb_refl.
  assert (Hsum : GoInt.sum xs = zsum xs)
    by (apply (sum_small 1 M); [assumption | lia | lia | lia]).
  pose proof (zsum_bounds 1 M xs Hall) as Hb.
  eexists. split; [reflexivity|].
  cbn [res setError setMetaTuple setRes setRng res_Error res_Value res_MetaTuple V
       listValue rng].
  rewrite Hsum. repeat split; try reflexivity; try assumption; try lia; nia.
Qed.
End DiceExpression.

Lemma roll_dice_expression_witness :
  exists r',
    rollWith (RS := ListRand) 2 "2d6" None 0 [3; 4] = Some r'
    /\ res_Error (res r') = ErrNone
    /\ res_Value (res r') = 9
    /\ res_MetaTuple (res r') = Some [MInt 4; MInt 5].
Proof.
  destruct (roll_dice_expression (RS := ListRand) 0 2 6 None 0 [3; 4]
              ltac:(lia) ltac:(lia)) as (r' & H1 & H2 & H3 & H4 & _).
  exists r'. split; [exact H1|]. split; [exact H2|]. split; [exact H3 | exact H4].
Defined.

Lemma Itoa_inj (a b : Z) :
  GoInt.inRange a -> GoInt.inRange b -> Itoa a = Itoa b -> a = b.
Proof.
  intros Ha Hb E. pose proof (Atoi_Itoa a Ha) as H1. rewrite E, (Atoi_Itoa b Hb) in H1.
  congruence.
Qed.

Lemma Itoa_isInt (z : Z) : GoInt.inRange z -> isInt (Itoa z) = true.
Proof. intros H. unfold isInt. now rewrite Atoi_Itoa. Qed.

Section TempStore.

Context {RS : RandSource}.

Lemma tempIndexOf_Itoa (idx : Z) :
  GoInt.inRange idx -> tempIndexOf ("$t" +:+ Itoa idx) = idx.
Proof.
  intros H. pose proof (Atoi_Itoa idx H) as E.
  change ("$t" +:+ Itoa idx)%string with (String "$" (String "t" (Itoa idx))).
  unfold tempIndexOf. destruct (Itoa idx) as [|c s]; [discriminate|]. now rewrite E.
Qed.

Lemma readTemp_assign_same (idx v : Z) (r : RD) :
  readTemp idx (assignTemp idx v r) = v.
Proof. unfold readTemp. now rewrite assignTemp_temp. Qed.

Lemma readTemp_assign_other (i j v : Z) (r : RD) :
  GoInt.inRange i -> GoInt.inRange j -> i <> j ->
  readTemp j (assignTemp i v r) = readTemp j r.
Proof.
  intros Hi Hj Hne. unfold readTemp, assignTemp, setValueTable. cbn [temp ValueTable setTemp].
  rewrite lookup_insert_ne by exact Hne.
  destruct (temp r !! j); [reflexivity|].
  assert (K1 : tempKey i true <> tempKey j true).
  { rewrite !tempKey_upper. intros [= E]. apply Hne. now apply Itoa_inj. }
  assert (K2 : tempKey i true <> tempKey j false).
  { rewrite tempKey_upper. unfold tempKey. discriminate. }
  rewrite !lookup_insert_ne by assumption.
  destruct (ValueTable r) as [vt|]; [reflexivity|]. simpl. now rewrite !lookup_empty.
Qed.

(** X18.  Write, then read.  After [$t<i> = v] the reference [$t<i>] reads [v],
    whatever the table held under [T<i>] or [t<i>] before; a reference to
    another index reads what it read before the write. *)
Theorem temp_read_after_write (sub : SubRoll) (fuel : nat) (i j v : Z)
    (st : list Value) (r : RD) :
  GoInt.inRange i -> GoInt.inRange j ->
  let r' := assignTemp i v r in
  step sub fuel ("$t" +:+ Itoa i) st r'
  = Some (Ok (mkValue v None false i true [] :: st) r')
  /\ (i <> j ->
      step sub fuel ("$t" +:+ Itoa j) st r'
      = Some (Ok (mkValue (readTemp j r) None false j true [] :: st) r')).
Proof.
  intros Hi Hj r'.
  assert (Hstep : forall k, GoInt.inRange k ->
            step sub fuel ("$t" +:+ Itoa k) st r'
            = Some (Ok (mkValue (readTemp k r') None false k true [] :: st) r')).
  { intros k Hk. pose proof (tempIndexOf_Itoa k Hk) as E.
    change ("$t" +:+ Itoa k)%string with (String "$" (String "t" (Itoa k))) in *.
    unfold step.
    change (Atoi (String "$" (String "t" (Itoa k)))) with (@None Z). cbv iota.
    change (enclosedBy "[" "]" (String "$" (String "t" (Itoa k)))) with false.
    change (enclosedBy dquote dquote (String "$" (String "t" (Itoa k)))) with false.
    cbv iota. change (HasPrefixDollar (String "$" (String "t" (Itoa k)))) with true.
    cbv iota beta zeta. now rewrite E. }
  split.
  - rewrite (Hstep i Hi). subst r'. now rewrite readTemp_assign_same.
  - intros Hne. rewrite (Hstep j Hj). subst r'.
    now rewrite (readTemp_assign_other i j v r Hi Hj Hne).
Qed.

End TempStore.

Lemma temp_read_after_write_witness :
  step (RS := ListRand) (fun _ _ _ => None) 0 "$t2" [] (assignTemp 2 7 (listRD "x" []))
  = Some (Ok [mkValue 7 None false 2 true []] (assignTemp 2 7 (listRD "x" []))).
Proof.
  assert (H2 : GoInt.inRange 2) by (unfold GoInt.inRange, GoInt.minInt, GoInt.maxInt; lia).
  exact (proj1 (temp_read_after_write (RS := ListRand) (fun _ _ _ => None) 0 2 2 7 []
                  (listRD "x" []) H2 H2)).
Defined.

(** ** Selection by rank and by position *)

Lemma sorted_take_drop (R : Z -> Z -> Prop) `{!Transitive R} (l : list Z) (n : nat) :
  Sorted R l -> forall x y, x ∈ take n l -> y ∈ drop n l -> R x y.
Proof.
  intros Hs x y Hx Hy. apply Sorted_StronglySorted in Hs; [|assumption].
  rewrite <- (take_drop n l) in Hs.
  eapply StronglySorted_app_1_elem_of; eauto.
Qed.

#[local] Instance Zge_trans : Transitive Z.ge.
Proof. intros x y z. lia. Qed.

(** X19.  Keeping and dropping split the operand.  For [n > 0] the lists kept by
    [kh] and by [dh] together are the operand, up to order, and nothing
    [kh] keeps is below anything [dh] keeps; likewise [kl] and [dl], with
    nothing [kl] keeps above anything [dl] keeps.  The second component is
    always the sum of the first. *)
Theorem keep_drop_partition (l : list Z) (n : Z) :
  0 < n ->
  let sel mode := fst (selectFromMeta l n (Some mode)) in
  sel KH ++ sel DH ≡ₚ l
  /\ sel KL ++ sel DL ≡ₚ l
  /\ (forall x y, x ∈ sel KH -> y ∈ sel DH -> y <= x)
  /\ (forall x y, x ∈ sel KL -> y ∈ sel DL -> x <= y)
  /\ (forall mode, snd (selectFromMeta l n (Some mode)) = GoInt.sum (sel mode))
  /\ Z.of_nat (length (sel KH)) = Z.min n (Z.of_nat (length l))
  /\ Z.of_nat (length (sel DH)) = Z.max 0 (Z.of_nat (length l) - n).
Proof.
  intros Hn sel. subst sel. cbv beta.
  rewrite !selectFromMeta_spec by exact Hn. cbn [fst snd spec_kept].
  rewrite !take_drop.
  split; [apply sortDesc_perm|]. split; [apply sortAsc_perm|].
  split; [|split; [|split; [|split]]].
  - intros x y Hx Hy.
    pose proof (sorted_take_drop Z.ge (sortDesc l) (Z.to_nat n) (sortDesc_sorted l) x y Hx Hy).
    lia.
  - intros x y Hx Hy.
    exact (sorted_take_drop Z.le (sortAsc l) (Z.to_nat n) (sortAsc_sorted l) x y Hx Hy).
  - intros mode. now rewrite selectFromMeta_spec by exact Hn.
  - rewrite length_take, sortDesc_length. lia.
  - rewrite length_drop, sortDesc_length. lia.
Qed.

Lemma keep_drop_partition_witness :
  fst (selectFromMeta [3; 6; 4; 1] 3 (Some KH)) ++ fst (selectFromMeta [3; 6; 4; 1] 3 (Some DH))
  ≡ₚ [3; 6; 4; 1].
Proof.
  exact (proj1 (keep_drop_partition [3; 6; 4; 1] 3 ltac:(lia))).
Defined.

Section Positions.

Context {RS : RandSource}.

Lemma applyOp_sp (sub : SubRoll) (fuel : nat) (st : list Value) :
  applyOp sub fuel "sp" st = spOp st.
Proof. reflexivity. Qed.

Lemma applyOp_tp (sub : SubRoll) (fuel : nat) (st : list Value) :
  applyOp sub fuel "tp" st = tpOp st.
Proof. reflexivity. Qed.

(** X20.  [sp] and [tp] on a list.  An index counts from 1 at the front and from
    -1 at the back.  When it addresses an element, [sp] yields that element
    alone and [tp] yields the list without it, in its order, so that the two
    results together are the operand; an index of 0 or outside the list is
    the invalid-right error for both. *)
Theorem position_split (sub : SubRoll) (fuel : nat) (left param : Value)
    (st : list Value) (r : RD) :
  MetaEnable left = true ->
  GoInt.inRange (V param) ->
  Z.of_nat (length (metaList left)) <= GoInt.maxInt ->
  let l := metaList left in
  let idx := V param in
  let pos := if 0 <? idx then idx - 1 else Z.of_nat (length l) + idx in
  (idx <> 0 -> 0 <= pos < Z.of_nat (length l) ->
   exists x,
     l !! Z.to_nat pos = Some x
     /\ applyOp sub fuel "sp" (param :: left :: st) r
        = Some (Ok (listValue x [x] true :: st) r)
     /\ applyOp sub fuel "tp" (param :: left :: st) r
        = Some (Ok (listValue (GoInt.sum (delete (Z.to_nat pos) l))
                              (delete (Z.to_nat pos) l)
                              (nonEmpty (delete (Z.to_nat pos) l)) :: st) r)
     /\ l ≡ₚ x :: delete (Z.to_nat pos) l)
  /\ (idx = 0 \/ ~ 0 <= pos < Z.of_nat (length l) ->
      applyOp sub fuel "sp" (param :: left :: st) r = Some (Fail ErrNodeRightValInvalid r)
      /\ applyOp sub fuel "tp" (param :: left :: st) r
         = Some (Fail ErrNodeRightValInvalid r)).
Proof.
  intros Hen Hidx Hlen l idx pos.
  rewrite applyOp_sp, applyOp_tp. unfold spOp, tpOp, pop2. rewrite Hen. cbn [negb].
  fold l. fold idx.
  assert (Hpos : positionOf idx (Z.of_nat (length l)) = pos).
  { unfold positionOf. subst pos l idx.
    unfold GoInt.inRange, GoInt.maxInt, GoInt.minInt in *.
    destruct (0 <? V param) eqn:E.
    - apply Z.ltb_lt in E. unfold GoInt.sub. apply wrap_id. goint. lia.
    - apply Z.ltb_ge in E. unfold GoInt.add. apply wrap_id. goint. lia. }
  rewrite Hpos. split.
  - intros Hne Hin.
    destruct (idx =? 0) eqn:E0; [blia|].
    destruct ((pos <? 0) || (Z.of_nat (length l) <=? pos)) eqn:E1; [blia|].
    destruct (l !! Z.to_nat pos) as [x|] eqn:Ex.
    + exists x. split; [reflexivity|]. split; [reflexivity|].
      split; [now rewrite delete_take_drop | now apply delete_Permutation].
    + apply lookup_ge_None in Ex. lia.
  - intros Hbad.
    destruct (idx =? 0) eqn:E0; [split; reflexivity|].
    destruct ((pos <? 0) || (Z.of_nat (length l) <=? pos)) eqn:E1; [split; reflexivity|].
    exfalso. destruct Hbad as [Hbad | Hbad]; blia.
Qed.

End Positions.

Lemma position_split_witness :
  exists x,
    [4; 2; 6] !! Z.to_nat 2 = Some x
    /\ applyOp (RS := ListRand) (fun _ _ _ => None) 0 "sp"
         [scalar (-1); listValue 0 [4; 2; 6] true] (listRD "x" [])
       = Some (Ok [listValue x [x] true] (listRD "x" [])).
Proof.
  destruct (proj1 (position_split (RS := ListRand) (fun _ _ _ => None) 0
                     (listValue 0 [4; 2; 6] true) (scalar (-1)) [] (listRD "x" [])
                     eq_refl
                     ltac:(unfold GoInt.inRange, GoInt.minInt, GoInt.maxInt; simpl; lia)
                     ltac:(unfold GoInt.maxInt; simpl; lia)))
    as (x & H1 & H2 & _); [simpl; lia | simpl; lia |].
  exists x. split; [exact H1 | exact H2].
Defined.

(** ** Repetition *)




Lemma expandOnce_spec (ts : list string) : forall idx,
  0 <= idx -> idx + Z.of_nat (length ts) <= GoInt.maxInt ->
  expandOnce ts idx
  = (imap (fun i t => ReplaceAllI t (Itoa (idx + Z.of_nat i))) ts,
     idx + Z.of_nat (length ts)).
Proof.
  induction ts as [|t ts IH]; intros idx H0 Hb; simpl.
  - f_equal. lia.
  - assert (Ha : GoInt.add idx 1 = idx + 1).
    { unfold GoInt.add. apply wrap_id. unfold GoInt.maxInt in Hb. goint.
      simpl length in Hb. lia. }
    rewrite Ha, IH by (simpl length in Hb; lia).
    rewrite Z.add_0_r. f_equal; [|simpl length; lia]. f_equal.
    apply imap_ext. intros i x _. simpl. do 2 f_equal. lia.
Qed.

Lemma expandTemplates_spec (n : nat) (ts : list string) : forall idx,
  0 <= idx -> idx + Z.of_nat (n * length ts) <= GoInt.maxInt ->
  length (expandTemplates n ts idx) = (n * length ts)%nat
  /\ forall q i t, (q < n)%nat -> ts !! i = Some t ->
       expandTemplates n ts idx !! (q * length ts + i)%nat
       = Some (ReplaceAllI t (Itoa (idx + Z.of_nat (q * length ts + i)))).
Proof.
  induction n as [|n IH]; intros idx H0 Hb; simpl.
  - split; [reflexivity | intros; lia].
  - rewrite expandOnce_spec by lia.
    destruct (IH (idx + Z.of_nat (length ts)) ltac:(lia) ltac:(lia)) as [IHl IHk].
    split; [rewrite length_app, length_imap, IHl; lia|].
    intros q i t Hq Hi. pose proof (lookup_lt_Some _ _ _ Hi) as Hlt.
    destruct q as [|q].
    + simpl. rewrite lookup_app_l by (rewrite length_imap; lia).
      rewrite list_lookup_imap, Hi. reflexivity.
    + rewrite lookup_app_r by (rewrite length_imap; lia).
      rewrite length_imap.
      replace (S q * length ts + i - length ts)%nat with (q * length ts + i)%nat by lia.
      rewrite (IHk q i t ltac:(lia) Hi). do 3 f_equal. lia.
Qed.

Section Repeat.

Context {RS : RandSource}.

Lemma applyOp_lp (sub : SubRoll) (fuel : nat) (st : list Value) :
  applyOp sub fuel "lp" st = lpOp sub st.
Proof. reflexivity. Qed.


(** X23.  [lp] on templates.  For [n > 0] and an operand with [k > 0] string
    elements the result is a string list of [n * k] elements, the templates
    in order, [n] times over; the string at position [j] (from 0) is its
    template with every ["{i}"] replaced by the decimal [j + 1].  The
    operand is not resolved and the context is left as it is. *)
Theorem repeat_templates (sub : SubRoll) (fuel : nat) (left param : Value)
    (st : list Value) (r : RD) :
  0 < V param ->
  MetaStr left <> [] ->
  V param * Z.of_nat (length (MetaStr left)) < GoInt.maxInt ->
  exists outs,
    applyOp sub fuel "lp" (param :: left :: st) r = Some (Ok (strValue outs :: st) r)
    /\ Z.of_nat (length outs) = V param * Z.of_nat (length (MetaStr left))
    /\ forall q i t,
         Z.of_nat q < V param -> MetaStr left !! i = Some t ->
         outs !! (q * length (MetaStr left) + i)%nat
         = Some (ReplaceAllI t (Itoa (Z.of_nat (q * length (MetaStr left) + i) + 1))).
Proof.
  intros Hn Hs Hb. rewrite applyOp_lp. unfold lpOp, pop2.
  destruct (V param <=? 0) eqn:E; [blia|].
  destruct (MetaStr left) as [|t0 ts] eqn:Et; [congruence|]. rewrite <- Et in *.
  assert (H1 : 0 <= 1) by lia.
  assert (H2 : 1 + Z.of_nat (Z.to_nat (V param) * length (MetaStr left)) <= GoInt.maxInt)
    by (rewrite Nat2Z.inj_mul, Z2Nat.id by lia; lia).
  destruct (expandTemplates_spec (Z.to_nat (V param)) (MetaStr left) 1 H1 H2) as [Hl Hk].
  exists (expandTemplates (Z.to_nat (V param)) (MetaStr left) 1).
  split; [reflexivity|]. split; [rewrite Hl, Nat2Z.inj_mul, Z2Nat.id by lia; lia|].
  intros q i t Hq Hi. rewrite (Hk q i t ltac:(lia) Hi).
  now rewrite Z.add_comm.
Qed.

Lemma applyOp_k (sub : SubRoll) (fuel : nat) (st : list Value) :
  applyOp sub fuel "k" st = keepOp sub KH st /\ applyOp sub fuel "q" st = keepOp sub KL st
  /\ applyOp sub fuel "kh" st = selectOp sub "kh" st
  /\ applyOp sub fuel "kl" st = selectOp sub "kl" st.
Proof. repeat split. Qed.

(** X24.  [k] is [kh] and [q] is [kl], but for one case: when the operand
    resolves to the empty list, [k] and [q] yield the empty list with value
    0 where [kh] and [kl] report the invalid-left error. *)
Theorem keep_short_forms (sub : SubRoll) (fuel : nat) (left param : Value)
    (st : list Value) (r : RD) :
  let run tok := applyOp sub fuel tok (param :: left :: st) r in
  ((forall r', resolveMetaValues sub left r <> Some (Ok (Some []) r')) \/ V param <= 0 ->
   run "k"%string = run "kh"%string /\ run "q"%string = run "kl"%string)
  /\ (forall r', resolveMetaValues sub left r = Some (Ok (Some []) r') -> 0 < V param ->
      run "k"%string = Some (Ok (listValue 0 [] false :: st) r')
      /\ run "q"%string = Some (Ok (listValue 0 [] false :: st) r')
      /\ run "kh"%string = Some (Fail ErrNodeLeftValInvalid r')
      /\ run "kl"%string = Some (Fail ErrNodeLeftValInvalid r')).
Proof.
  intros run. subst run. cbv beta.
  destruct (applyOp_k sub fuel (param :: left :: st)) as (-> & -> & -> & ->).
  unfold keepOp, selectOp, pop2, bind.
  change (modeOf "kh") with (Some KH). change (modeOf "kl") with (Some KL).
  split.
  - intros H. destruct (V param <=? 0) eqn:E; [split; reflexivity|].
    destruct H as [H | H]; [|blia].
    destruct (resolveMetaValues sub left r) as [[[rolls|] r1|e r1]|];
      try (split; reflexivity).
    destruct rolls as [|x rolls]; [exfalso; exact (H r1 eq_refl)|].
    split; reflexivity.
  - intros r' Hres Hn.
    destruct (V param <=? 0) eqn:E; [blia|]. rewrite Hres. repeat split.
Qed.

End Repeat.

Lemma repeat_templates_witness :
  exists outs,
    applyOp (RS := ListRand) (fun _ _ _ => None) 0 "lp"
            [scalar 2; strValue ["a{i}"; "b"]%string] (listRD "x" [])
    = Some (Ok [strValue outs] (listRD "x" []))
    /\ Z.of_nat (length outs) = 4.
Proof.
  destruct (repeat_templates (RS := ListRand) (fun _ _ _ => None) 0
              (strValue ["a{i}"; "b"]%string) (scalar 2) [] (listRD "x" []))
    as (outs & H1 & H2 & _);
    [simpl; lia | discriminate | unfold GoInt.maxInt; simpl; lia |].
  exists outs. split; [exact H1 | exact H2].
Defined.


Lemma keep_short_forms_witness :
  applyOp (RS := ListRand) (fun _ _ _ => None) 0 "k"
          [scalar 1; listValue 0 [] true] (listRD "x" [])
  = Some (Ok [listValue 0 [] false] (listRD "x" []))
  /\ applyOp (RS := ListRand) (fun _ _ _ => None) 0 "kh"
          [scalar 1; listValue 0 [] true] (listRD "x" [])
     = Some (Fail ErrNodeLeftValInvalid (listRD "x" [])).
Proof.
  destruct (proj2 (keep_short_forms (RS := ListRand) (fun _ _ _ => None) 0
                     (listValue 0 [] true) (scalar 1) [] (listRD "x" []))
              (listRD "x" []) eq_refl ltac:(simpl; lia))
    as (H1 & _ & H3 & _).
  split; [exact H1 | exact H3].
Defined.

(** ** Chains *)


Lemma hits_app (th : Z) (l1 l2 : list Z) : hits th (l1 ++ l2) = hits th l1 + hits th l2.
Proof. unfold hits. rewrite filter_app, length_app. lia. Qed.

Lemma hits_bounds (th : Z) (l : list Z) : 0 <= hits th l <= Z.of_nat (length l).
Proof. unfold hits. pose proof (length_filter (fun x => th <= x) l). lia. Qed.

Lemma hits_none (th : Z) (l : list Z) : Forall (fun x => x < th) l -> hits th l = 0.
Proof.
  unfold hits. induction 1 as [|x l Hx _ IH]; [reflexivity|].
  rewrite filter_cons. destruct (decide (th <= x)); [lia | exact IH].
Qed.

Section Chains.

Context {RS : RandSource}.

Lemma chainRoundA_count (cur : nat) (m th : Z) : forall nc tot g,
  0 < m <= 10000 -> 0 <= nc <= 20000 -> 0 <= tot <= 20000 -> Z.of_nat cur <= 10000 ->
  let '(rolls, n, t, _) := chainRoundA cur m th nc tot g in
  length rolls = cur /\ Forall (fun x => 1 <= x <= m) rolls
  /\ n = nc + hits th rolls /\ t = tot + hits th rolls.
Proof.
  intros nc tot g Hm. revert nc tot g.
  assert (K : forall cur nc tot g,
    0 <= nc -> 0 <= tot -> nc + Z.of_nat cur <= 40000 -> tot + Z.of_nat cur <= 40000 ->
    let '(rolls, n, t, _) := chainRoundA cur m th nc tot g in
    length rolls = cur /\ Forall (fun x => 1 <= x <= m) rolls
    /\ n = nc + hits th rolls /\ t = tot + hits th rolls).
  { clear cur. induction cur as [|cur IH]; intros nc tot g Hn Ht Hbn Hbt; simpl.
    - unfold hits. simpl. repeat split; [constructor | lia | lia].
    - pose proof (roll_plus_one m g Hm) as [Hw Hr].
      destruct (Intn m g) as [x g1]. simpl in Hw, Hr. rewrite Hw.
      set (nc' := if th <=? x + 1 then GoInt.add nc 1 else nc).
      set (tot' := if th <=? x + 1 then GoInt.add tot 1 else tot).
      assert (Hh : hits th [x + 1] = if th <=? x + 1 then 1 else 0).
      { unfold hits. rewrite filter_cons, filter_nil.
        destruct (Z.leb_spec th (x + 1)) as [H|H];
          destruct (decide (th <= x + 1)); try lia; reflexivity. }
      assert (Hnc : nc' = nc + hits th [x + 1]).
      { subst nc'. rewrite Hh. destruct (th <=? x + 1); [|lia].
        unfold GoInt.add. apply wrap_id. goint. lia. }
      assert (Htot : tot' = tot + hits th [x + 1]).
      { subst tot'. rewrite Hh. destruct (th <=? x + 1); [|lia].
        unfold GoInt.add. apply wrap_id. goint. lia. }
      pose proof (hits_bounds th [x + 1]) as Hb1. simpl length in Hb1.
      specialize (IH nc' tot' g1 ltac:(lia) ltac:(lia) ltac:(lia) ltac:(lia)).
      destruct (chainRoundA cur m th nc' tot' g1) as [[[rolls n] t] g2].
      destruct IH as (Hl & Hall & Hn' & Ht').
      change (x + 1 :: rolls) with ([x + 1] ++ rolls). rewrite hits_app.
      split; [simpl; now f_equal|]. split; [constructor; [lia | assumption]|].
      split; lia. }
  intros nc tot g Hn Ht Hc. apply K; lia.
Qed.

Lemma chainLoopA_count (fuel : nat) (m th : Z) : forall next total meta g total' meta' g',
  0 < m <= 10000 -> next <= 10000 -> Z.of_nat (length meta) <= 10000 ->
  total = hits th meta -> Forall (fun x => 1 <= x <= m) meta ->
  chainLoopA fuel m th next total meta g = Some (total', meta', g') ->
  total' = hits th meta' /\ Forall (fun x => 1 <= x <= m) meta'
  /\ (next <= 0 -> meta' = meta)
  /\ (0 < next -> m < th -> meta' = meta ++ take (Z.to_nat next) (drop (length meta) meta')
                            /\ Z.of_nat (length meta') = Z.of_nat (length meta) + next).
Proof.
  induction fuel as [|fuel IH]; intros next total meta g total' meta' g' Hm Hn Hl Ht Hall;
    simpl; (destruct (0 <? next) eqn:E;
            [|intros [= <- <- <-]; split; [assumption|]; split; [assumption|];
              split; [reflexivity | blia]]); [discriminate|].
  pose proof (hits_bounds th meta) as Hb.
  pose proof (chainRoundA_count (Z.to_nat next) m th 0 total g Hm ltac:(lia) ltac:(lia)
                ltac:(blia)) as Hr.
  destruct (chainRoundA _ _ _ _ _ _) as [[[rolls nx] t] g1].
  destruct Hr as (Hlen & Hrolls & Hnx & Htot).
  assert (Hall' : Forall (fun x => 1 <= x <= m) (meta ++ rolls)) by (apply Forall_app; auto).
  assert (Ht' : t = hits th (meta ++ rolls)) by (rewrite hits_app; lia).
  pose proof (hits_bounds th rolls) as Hbr.
  assert (Hnone : m < th -> hits th rolls = 0).
  { intros Hth. apply hits_none.
    eapply Forall_impl; [exact Hrolls|]. intros x Hx. simpl in Hx. lia. }
  destruct (10000 <? Z.of_nat (length (meta ++ rolls))) eqn:E2.
  - intros [= <- <- <-]. split; [assumption|]. split; [assumption|].
    split; [blia|]. intros _ _.
    rewrite drop_app_length, take_ge by lia.
    split; [reflexivity | rewrite length_app; blia].
  - intros Hrec. apply Z.ltb_ge in E2.
    apply IH in Hrec; [| assumption | rewrite length_app in E2; lia | assumption
                       | assumption | assumption].
    destruct Hrec as (H1 & H2 & H3 & H4). split; [assumption|]. split; [assumption|].
    split; [blia|]. intros _ Hth.
    specialize (Hnone Hth). rewrite H3 by lia.
    rewrite drop_app_length, take_ge by lia.
    split; [reflexivity | rewrite length_app; blia].
Qed.

(** X25.  [a] and [a_m] count successes.  For in-domain operands the value is
    the number of rolls in the meta list that are at least the threshold,
    and every roll lies between 1 and the face count (10 for [a]).  With 0
    dice nothing is rolled; with a threshold above the face count exactly
    the first round is rolled and the value is 0. *)
Theorem additive_chain_counts (sub : SubRoll) (fuel : nat)
    (leftV rightV facesV : Value) (st : list Value) (r : RD) :
  0 <= V leftV <= 10000 ->
  0 < V rightV <= 10000 ->
  0 < V facesV <= 10000 ->
  10001 <= Z.of_nat fuel ->
  let good (m : Z) (run : option (Outcome (list Value))) :=
    exists meta g',
      run = Some (Ok (listValue (hits (V rightV) meta) meta
                                (0 <? Z.of_nat (length meta)) :: st) (setRng r g'))
      /\ Forall (fun x => 1 <= x <= m) meta
      /\ (V leftV = 0 -> meta = [])
      /\ (m < V rightV -> Z.of_nat (length meta) = V leftV /\ hits (V rightV) meta = 0) in
  good 10 (applyOp sub fuel "a" (rightV :: leftV :: st) r)
  /\ good (V facesV) (applyOp sub fuel "a_m" (facesV :: rightV :: leftV :: st) r).
Proof.
  intros Hl Hr Hf Hfuel good.
  assert (K : forall m, 0 < m <= 10000 ->
            good m (bind (chainOp fuel ChainA (V leftV) (V rightV) m)
                         (fun v => ret (v :: st)) r)).
  { intros m Hm. subst good. cbv beta. unfold bind, chainOp, chainLoop, ret.
    destruct (chainLoop_terminates ChainA fuel m (V rightV) (V leftV) 0 [] (rng r))
      as (total & meta & g' & E & _); [lia | simpl; lia | simpl; lia |].
    simpl in E. rewrite E.
    destruct (chainLoopA_count fuel m (V rightV) (V leftV) 0 [] (rng r) total meta g'
                Hm ltac:(lia) ltac:(simpl; lia) eq_refl (Forall_nil_2 _) E)
      as (Ht & Hall & H0 & Hone).
    exists meta, g'. subst total. split; [reflexivity|]. split; [assumption|].
    split; [intros Hz; apply H0; lia|].
    intros Hth. destruct (Z.eq_dec (V leftV) 0) as [Hz|Hnz].
    - rewrite H0 by lia. rewrite Hz. split; reflexivity.
    - destruct (Hone ltac:(lia) Hth) as [Hm1 Hm2]. simpl in Hm2. split; [lia|].
      apply hits_none.
      eapply Forall_impl; [exact Hall|]. intros x Hx. simpl in Hx. lia. }
  split.
  - change (applyOp sub fuel "a" (rightV :: leftV :: st) r)
      with ((if (V leftV <? 0) || (10000 <? V leftV) then fail ErrNodeLeftValInvalid
             else if (V rightV <=? 0) || (10000 <? V rightV) then fail ErrNodeRightValInvalid
             else bind (chainOp fuel ChainA (V leftV) (V rightV) 10)
                       (fun v => ret (v :: st))) r).
    destruct ((V leftV <? 0) || (10000 <? V leftV)) eqn:E1; [blia|].
    destruct ((V rightV <=? 0) || (10000 <? V rightV)) eqn:E2; [blia|].
    apply K. lia.
  - change (applyOp sub fuel "a_m" (facesV :: rightV :: leftV :: st) r)
      with ((if (V leftV <? 0) || (10000 <? V leftV) then fail ErrNodeLeftValInvalid
             else if (V rightV <=? 0) || (10000 <? V rightV) then fail ErrNodeRightValInvalid
             else if (V facesV <=? 0) || (10000 <? V facesV) then fail ErrNodeRightValInvalid
             else bind (chainOp fuel ChainA (V leftV) (V rightV) (V facesV))
                       (fun v => ret (v :: st))) r).
    destruct ((V leftV <? 0) || (10000 <? V leftV)) eqn:E1; [blia|].
    destruct ((V rightV <=? 0) || (10000 <? V rightV)) eqn:E2; [blia|].
    destruct ((V facesV <=? 0) || (10000 <? V facesV)) eqn:E3; [blia|].
    apply K. lia.
Qed.

End Chains.

Lemma additive_chain_counts_witness :
  exists meta g',
    applyOp (RS := ListRand) (fun _ _ _ => None) (Z.to_nat 10001) "a"
            [scalar 8; scalar 2] (listRD "2a8" [7; 3; 1])
    = Some (Ok [listValue (hits 8 meta) meta (0 <? Z.of_nat (length meta))]
               (setRng (listRD "2a8" [7; 3; 1]) g'))
    /\ Forall (fun x => 1 <= x <= 10) meta.
Proof.
  destruct (proj1 (additive_chain_counts (RS := ListRand) (fun _ _ _ => None)
                     (Z.to_nat 10001) (scalar 2) (scalar 8) (scalar 10) []
                     (listRD "2a8" [7; 3; 1])
                     ltac:(simpl; lia) ltac:(simpl; lia) ltac:(simpl; lia) ltac:(lia)))
    as (meta & g' & H1 & H2 & _).
  exists meta, g'. split; [exact H1 | exact H2].
Defined.

Lemma zsum_elem (l : list Z) (x : Z) :
  Forall (fun y => 0 <= y) l -> x ∈ l -> x <= zsum l.
Proof.
  induction 1 as [|y l Hy Hl IH]; intros Hin; [now apply elem_of_nil in Hin|].
  assert (0 <= zsum l).
  { clear IH Hin. induction Hl as [|z l Hz _ IH]; simpl; [lia|]. unfold zsum in *. simpl. lia. }
  apply elem_of_cons in Hin as [->|Hin]; unfold zsum in *; simpl; [lia|].
  specialize (IH Hin). lia.
Qed.

Section ChainsC.

Context {RS : RandSource}.

Lemma chainRoundC_bounds (m th : Z) (cur : nat) : forall nc mx g,
  0 < m <= 10000 -> 0 <= nc -> nc + Z.of_nat cur <= 40000 -> 0 <= mx <= m ->
  let '(rolls, n, mx', _) := chainRoundC cur m th nc mx g in
  length rolls = cur /\ Forall (fun x => 1 <= x <= m) rolls
  /\ 0 <= n - nc <= Z.of_nat cur
  /\ mx <= mx' <= m /\ Forall (fun x => x <= mx') rolls
  /\ (mx' = mx \/ mx' ∈ rolls).
Proof.
  induction cur as [|cur IH]; intros nc mx g Hm Hn Hb Hmx; simpl.
  - repeat split; try lia; try (now constructor); now left.
  - pose proof (roll_plus_one m g Hm) as [Hw Hr].
    destruct (Intn m g) as [x g1]. simpl in Hw, Hr. rewrite Hw.
    set (mx1 := if mx <? x + 1 then x + 1 else mx).
    set (nc1 := if th <=? x + 1 then GoInt.add nc 1 else nc).
    assert (Hnc : 0 <= nc1 - nc <= 1).
    { subst nc1. destruct (th <=? x + 1); [|lia].
      unfold GoInt.add. rewrite wrap_id by (goint; lia). lia. }
    assert (Hmx1 : mx <= mx1 <= m /\ x + 1 <= mx1 /\ (mx1 = mx \/ mx1 = x + 1)).
    { subst mx1. destruct (Z.ltb_spec mx (x + 1)); lia. }
    specialize (IH nc1 mx1 g1 Hm ltac:(lia) ltac:(lia) ltac:(lia)).
    destruct (chainRoundC cur m th nc1 mx1 g1) as [[[rolls n] mx'] g2].
    destruct IH as (Hl & Hall & Hn' & Hmx' & Hle & Hor).
    split; [simpl; now f_equal|]. split; [constructor; [lia | assumption]|].
    split; [lia|]. split; [lia|]. split; [constructor; [lia | assumption]|].
    destruct Hor as [->|Hin].
    + destruct Hmx1 as (_ & _ & [->| ->]); [now left | right; apply elem_of_cons; now left].
    + right. apply elem_of_cons. now right.
Qed.

Lemma chainLoopC_bounds (fuel : nat) (m th : Z) : forall next total meta g total' meta' g',
  0 < m <= 10000 -> next <= 10000 -> Z.of_nat (length meta) <= 10000 ->
  0 <= total <= zsum meta -> Forall (fun x => 1 <= x <= m) meta ->
  Forall (fun x => x <= total) meta ->
  chainLoopC fuel m th next total meta g = Some (total', meta', g') ->
  total <= total' <= zsum meta' /\ Forall (fun x => 1 <= x <= m) meta'
  /\ Forall (fun x => x <= total') meta'
  /\ (next <= 0 -> meta' = meta /\ total' = total)
  /\ (0 < next -> total + 1 <= total').
Proof.
  induction fuel as [|fuel IH]; intros next total meta g total' meta' g' Hm Hn Hl Ht Hall Hle;
    simpl; (destruct (0 <? next) eqn:E;
            [|intros [= <- <- <-]; split; [lia|]; split; [assumption|];
              split; [assumption|]; split; [auto | blia]]); [discriminate|].
  assert (Hz : 0 < next) by blia.
  pose proof (chainRoundC_bounds m th (Z.to_nat next) 0 0 g Hm ltac:(lia) ltac:(lia)
                ltac:(lia)) as Hr.
  destruct (chainRoundC _ _ _ _ _ _) as [[[rolls nx] mx] g1].
  destruct Hr as (Hlen & Hrolls & Hnx & Hmx & Hrle & Hor).
  assert (Hne : rolls <> []) by (intros ->; simpl in Hlen; lia).
  assert (Hin : mx ∈ rolls).
  { destruct Hor as [->|Hin]; [|exact Hin].
    destruct rolls as [|x0 rolls']; [contradiction|].
    inversion Hrolls as [|? ? Hx0 _]; subst. inversion Hrle; subst. lia. }
  assert (Hmx1 : 1 <= mx).
  { rewrite Forall_forall in Hrolls. specialize (Hrolls mx Hin). simpl in Hrolls. lia. }
  assert (Hsum : mx <= zsum rolls).
  { apply zsum_elem; [|exact Hin]. eapply Forall_impl; [exact Hrolls|].
    intros y Hy. simpl in Hy. lia. }
  pose proof (zsum_bounds 1 m meta Hall) as Hzb.
  assert (Hadd : GoInt.add total mx = total + mx).
  { unfold GoInt.add. apply wrap_id. goint. nia. }
  rewrite Hadd.
  assert (Hall' : Forall (fun x => 1 <= x <= m) (meta ++ rolls)) by (apply Forall_app; auto).
  assert (Hle' : Forall (fun x => x <= total + mx) (meta ++ rolls)).
  { apply Forall_app. split.
    - eapply Forall_impl; [exact Hle|]. intros y Hy. simpl in Hy. lia.
    - eapply Forall_impl; [exact Hrle|]. intros y Hy. simpl in Hy. lia. }
  assert (Ht' : 0 <= total + mx <= zsum (meta ++ rolls)) by (rewrite zsum_app; lia).
  destruct (10000 <? Z.of_nat (length (meta ++ rolls))) eqn:E2.
  - intros [= <- <- <-]. split; [lia|]. split; [assumption|]. split; [assumption|].
    split; lia.
  - intros Hrec. apply Z.ltb_ge in E2.
    apply IH in Hrec; [| assumption | lia | assumption | assumption | assumption | assumption].
    destruct Hrec as (H1 & H2 & H3 & _ & _).
    split; [lia|]. split; [assumption|]. split; [assumption|]. split; lia.
Qed.

(** X26.  [c] and [c_m] add up the best roll of every round.  For in-domain
    operands every roll lies between 1 and the face count (10 for [c]), no
    roll exceeds the value, and the value does not exceed the sum of the
    rolls.  With 0 dice nothing is rolled and the value is 0; otherwise the
    value is at least 1. *)
Theorem compressive_chain_bounds (sub : SubRoll) (fuel : nat)
    (leftV rightV facesV : Value) (st : list Value) (r : RD) :
  0 <= V leftV <= 10000 ->
  0 < V rightV <= 10000 ->
  0 < V facesV <= 10000 ->
  10001 <= Z.of_nat fuel ->
  let good (m : Z) (run : option (Outcome (list Value))) :=
    exists total meta g',
      run = Some (Ok (listValue total meta (0 <? Z.of_nat (length meta)) :: st)
                     (setRng r g'))
      /\ Forall (fun x => 1 <= x <= m) meta
      /\ Forall (fun x => x <= total) meta
      /\ total <= zsum meta
      /\ (V leftV = 0 -> meta = [] /\ total = 0)
      /\ (0 < V leftV -> 1 <= total) in
  good 10 (applyOp sub fuel "c" (rightV :: leftV :: st) r)
  /\ good (V facesV) (applyOp sub fuel "c_m" (facesV :: rightV :: leftV :: st) r).
Proof.
  intros Hl Hr Hf Hfuel good.
  assert (K : forall m, 0 < m <= 10000 ->
            good m (bind (chainOp fuel ChainC (V leftV) (V rightV) m)
                         (fun v => ret (v :: st)) r)).
  { intros m Hm. subst good. cbv beta. unfold bind, chainOp, chainLoop, ret.
    destruct (chainLoop_terminates ChainC fuel m (V rightV) (V leftV) 0 [] (rng r))
      as (total & meta & g' & E & _); [lia | simpl; lia | simpl; lia |].
    simpl in E. rewrite E.
    destruct (chainLoopC_bounds fuel m (V rightV) (V leftV) 0 [] (rng r) total meta g'
                Hm ltac:(lia) ltac:(simpl; lia) ltac:(unfold zsum; simpl; lia)
                (Forall_nil_2 _) (Forall_nil_2 _) E)
      as (Ht & Hall & Hle & H0 & H1).
    exists total, meta, g'. split; [reflexivity|]. split; [assumption|].
    split; [assumption|]. split; [lia|]. split.
    - intros Hz. apply H0. lia.
    - intros Hp. specialize (H1 Hp). lia. }
  split.
  - change (applyOp sub fuel "c" (rightV :: leftV :: st) r)
      with ((if (V leftV <? 0) || (10000 <? V leftV) then fail ErrNodeLeftValInvalid
             else if (V rightV <=? 0) || (10000 <? V rightV) then fail ErrNodeRightValInvalid
             else bind (chainOp fuel ChainC (V leftV) (V rightV) 10)
                       (fun v => ret (v :: st))) r).
    destruct ((V leftV <? 0) || (10000 <? V leftV)) eqn:E1; [blia|].
    destruct ((V rightV <=? 0) || (10000 <? V rightV)) eqn:E2; [blia|].
    apply K. lia.
  - change (applyOp sub fuel "c_m" (facesV :: rightV :: leftV :: st) r)
      with ((if (V leftV <? 0) || (10000 <? V leftV) then fail ErrNodeLeftValInvalid
             else if (V rightV <=? 0) || (10000 <? V rightV) then fail ErrNodeRightValInvalid
             else if (V facesV <=? 0) || (10000 <? V facesV) then fail ErrNodeRightValInvalid
             else bind (chainOp fuel ChainC (V leftV) (V rightV) (V facesV))
                       (fun v => ret (v :: st))) r).
    destruct ((V leftV <? 0) || (10000 <? V leftV)) eqn:E1; [blia|].
    destruct ((V rightV <=? 0) || (10000 <? V rightV)) eqn:E2; [blia|].
    destruct ((V facesV <=? 0) || (10000 <? V facesV)) eqn:E3; [blia|].
    apply K. lia.
Qed.

End ChainsC.

Lemma compressive_chain_bounds_witness :
  exists total meta g',
    applyOp (RS := ListRand) (fun _ _ _ => None) (Z.to_nat 10001) "c"
            [scalar 8; scalar 2] (listRD "2c8" [7; 3; 1])
    = Some (Ok [listValue total meta (0 <? Z.of_nat (length meta))]
               (setRng (listRD "2c8" [7; 3; 1]) g'))
    /\ Forall (fun x => x <= total) meta /\ total <= zsum meta.
Proof.
  destruct (proj1 (compressive_chain_bounds (RS := ListRand) (fun _ _ _ => None)
                     (Z.to_nat 10001) (scalar 2) (scalar 8) (scalar 10) []
                     (listRD "2c8" [7; 3; 1])
                     ltac:(simpl; lia) ltac:(simpl; lia) ltac:(simpl; lia) ltac:(lia)))
    as (total & meta & g' & H1 & _ & H2 & H3 & _).
  exists total, meta, g'. split; [exact H1 | split; [exact H2 | exact H3]].
Defined.

(** ** Percentile operators *)

Lemma minOf_spec (rest : list Z) : forall r0,
  minOf r0 rest ∈ r0 :: rest /\ Forall (fun x => minOf r0 rest <= x) (r0 :: rest).
Proof.
  unfold minOf. induction rest as [|v rest IH]; intros r0; simpl.
  - split; [left | repeat constructor; lia].
  - destruct (IH (if v <? r0 then v else r0)) as [Hin Hall].
    apply Forall_cons in Hall as [H0 Hall]. split.
    + apply elem_of_cons in Hin as [-> | Hin].
      * destruct (v <? r0); [right; left | left].
      * right. now right.
    + destruct (Z.ltb_spec v r0); (constructor; [lia|]; constructor; [lia | assumption]).
Qed.

Lemma maxOf_spec (rest : list Z) : forall r0,
  maxOf r0 rest ∈ r0 :: rest /\ Forall (fun x => x <= maxOf r0 rest) (r0 :: rest).
Proof.
  unfold maxOf. induction rest as [|v rest IH]; intros r0; simpl.
  - split; [left | repeat constructor; lia].
  - destruct (IH (if r0 <? v then v else r0)) as [Hin Hall].
    apply Forall_cons in Hall as [H0 Hall]. split.
    + apply elem_of_cons in Hin as [-> | Hin].
      * destruct (r0 <? v); [right; left | left].
      * right. now right.
    + destruct (Z.ltb_spec r0 v); (constructor; [lia|]; constructor; [lia | assumption]).
Qed.

Section Percentile2.

Context {RS : RandSource}.

(** X27.  [b] and [p].  With [0 <= n <= 10000] extra digits the operator draws a
    tens digit, a units digit and [n] extra digits, all between 0 and 9.
    Two zeros first give 100.  Otherwise the value is ten times the new tens
    digit plus the units digit, the new tens digit being the smallest extra
    digit for [b], the largest for [p], and the first tens digit when there
    is no extra digit: the first tens digit does not take part in the
    minimum or maximum.  So the value lies between 0 and 100, and between 1
    and 100 when [n] is 0. *)
Theorem percentile_digits (sub : SubRoll) (fuel : nat) (k : PercKind)
    (leftB paramB : Value) (st : list Value) (r : RD) :
  0 <= V paramB <= 10000 ->
  V leftB <= 10000 ->
  let tok := match k with Bonus => "b" | Punish => "p" end%string in
  let tens := fst (Intn 10 (rng r)) in
  let units := fst (Intn 10 (snd (Intn 10 (rng r)))) in
  exists out tens' rolls g',
    applyOp sub fuel tok (paramB :: leftB :: st) r
    = Some (Ok (listValue out (tens' :: units :: rolls) true :: st) (setRng r g'))
    /\ Z.of_nat (length rolls) = V paramB
    /\ Forall (fun x => 0 <= x <= 9) (tens :: tens' :: units :: rolls)
    /\ (tens = 0 /\ units = 0 -> out = 100 /\ tens' = 0)
    /\ (~ (tens = 0 /\ units = 0) ->
        out = 10 * tens' + units
        /\ (rolls = [] -> tens' = tens)
        /\ (rolls <> [] ->
            tens' ∈ rolls
            /\ Forall (fun x => match k with Bonus => tens' <= x | Punish => x <= tens' end)
                      rolls))
    /\ 0 <= out <= 100
    /\ (V paramB = 0 -> 1 <= out).
Proof.
  intros Hp Hl tok tens units.
  assert (E : applyOp sub fuel tok (paramB :: leftB :: st) r
              = bind (percentile k (V paramB)) (fun v => ret (v :: st)) r).
  { subst tok. destruct k;
      [change (applyOp sub fuel "b" (paramB :: leftB :: st) r)
         with (percOp Bonus (paramB :: leftB :: st) r)
      |change (applyOp sub fuel "p" (paramB :: leftB :: st) r)
         with (percOp Punish (paramB :: leftB :: st) r)];
      unfold percOp, pop2;
      (destruct (V paramB <? 0) eqn:E1; [blia|]);
      (destruct (10000 <? V paramB) eqn:E2; [blia|]);
      (destruct (10000 <? V leftB) eqn:E3; [blia|]); reflexivity. }
  rewrite E. clear E. subst tens units.
  unfold percentile, bind, rollIntn, rollManyM, ret.
  pose proof (Intn_range 10 (rng r) ltac:(lia)) as Ht.
  destruct (Intn 10 (rng r)) as [tens g1]. cbn [rng setRng fst snd] in *.
  pose proof (Intn_range 10 g1 ltac:(lia)) as Hu.
  destruct (Intn 10 g1) as [units g2]. cbn [rng setRng fst snd] in *.
  destruct (rollMany_spec (fun x => 0 <= x <= 9) (Z.to_nat (V paramB)) 10 (fun x => x) g2
              ltac:(lia)) as [Hlen Hr]; [intros; lia|].
  destruct (rollMany _ 10 _ g2) as [rolls g3]. cbn [rng setRng fst snd] in *.
  set (t' := if (tens =? 0) && (units =? 0) then tens else _).
  set (out := if (tens =? 0) && (units =? 0) then 100 else _).
  exists out, t', rolls, g3. split; [reflexivity|]. split; [lia|].
  assert (Ht' : 0 <= t' <= 9 /\ (tens = 0 /\ units = 0 -> t' = 0)
                /\ (~ (tens = 0 /\ units = 0) ->
                    (rolls = [] -> t' = tens)
                    /\ (rolls <> [] ->
                        t' ∈ rolls
                        /\ Forall (fun x => match k with
                                            | Bonus => t' <= x | Punish => x <= t' end)
                                  rolls))).
  { subst t'. destruct ((tens =? 0) && (units =? 0)) eqn:Ez.
    - split; [lia|]. split; [intros; blia | intros; blia].
    - split.
      + destruct rolls as [|r0 rest]; [lia|].
        destruct k; [apply (minOf_elem (fun x => 0 <= x <= 9))
                    | apply (maxOf_elem (fun x => 0 <= x <= 9))];
          inversion Hr; assumption.
      + split; [intros; blia|]. intros _.
        destruct rolls as [|r0 rest]; [split; [reflexivity | congruence]|].
        split; [discriminate|]. intros _.
        destruct k; [apply minOf_spec | apply maxOf_spec]. }
  destruct Ht' as (Hr' & Hz & Hnz).
  assert (Hout : (tens = 0 /\ units = 0 -> out = 100)
                 /\ (~ (tens = 0 /\ units = 0) -> out = 10 * t' + units)).
  { subst out. destruct ((tens =? 0) && (units =? 0)) eqn:Ez.
    - split; [reflexivity | intros; blia].
    - split; [intros; blia|]. intros _.
      unfold GoInt.add, GoInt.mul. rewrite (wrap_id (t' * 10)) by (goint; lia).
      rewrite wrap_id by (goint; lia). lia. }
  destruct Hout as [Ho1 Ho2].
  split; [repeat (constructor; [lia|]); assumption|].
  split; [intros H; split; [now apply Ho1 | now apply Hz]|].
  split; [intros H; split; [now apply Ho2 | now apply Hnz]|].
  destruct (decide (tens = 0 /\ units = 0)) as [B|B].
  - rewrite (Ho1 B). split; [lia | intros; lia].
  - rewrite (Ho2 B). split; [lia|]. intros Hp0.
    assert (Hnil : rolls = []) by (destruct rolls; [reflexivity | simpl in Hlen; lia]).
    destruct (Hnz B) as [Hn1 _]. rewrite (Hn1 Hnil). lia.
Qed.

Lemma bonusLoop_spec (n : nat) (units : Z) : forall mn g,
  0 <= units <= 9 -> (units = 0 -> 1 <= mn) -> 0 <= mn <= 10 ->
  let '(rolls, mn', _) := bonusLoop n units mn g in
  length rolls = n /\ 0 <= mn' <= 10 /\ (units = 0 -> 1 <= mn').
Proof.
  induction n as [|n IH]; intros mn g Hu H1 Hm; simpl; [auto|].
  pose proof (Intn_range 10 g ltac:(lia)) as Hx.
  destruct (Intn 10 g) as [x g1]. simpl in Hx.
  set (rr := if (units =? 0) && (x =? 0) then 10 else x).
  assert (Hrr : 0 <= rr <= 10 /\ (units = 0 -> 1 <= rr)).
  { subst rr. destruct ((units =? 0) && (x =? 0)) eqn:E; [lia|].
    split; [lia|]. intros. blia. }
  set (mn1 := if rr <? mn then rr else mn).
  assert (Hmn1 : 0 <= mn1 <= 10 /\ (units = 0 -> 1 <= mn1)).
  { subst mn1. destruct (rr <? mn); [exact Hrr | auto]. }
  specialize (IH mn1 g1 Hu (proj2 Hmn1) (proj1 Hmn1)).
  destruct (bonusLoop n units mn1 g1) as [[rolls mn'] g2].
  destruct IH as (Hl & Hb & Hz). split; [simpl; now f_equal | auto].
Qed.

Lemma punishLoop_spec (n : nat) (units : Z) : forall mx g,
  0 <= units <= 9 -> (units = 0 -> mx <> 0) -> -1 <= mx <= 10 ->
  (units <> 0 -> mx <= 9) ->
  let '(rolls, mx', _) := punishLoop n units mx g in
  length rolls = n /\ -1 <= mx' <= 10 /\ (units = 0 -> mx' <> 0)
  /\ (units <> 0 -> mx' <= 9).
Proof.
  induction n as [|n IH]; intros mx g Hu H1 Hm H9; simpl; [auto|].
  pose proof (Intn_range 10 g ltac:(lia)) as Hx.
  destruct (Intn 10 g) as [x g1]. simpl in Hx.
  set (rr := if (units =? 0) && (x =? 0) then 10 else x).
  assert (Hrr : 0 <= rr <= 10 /\ (units = 0 -> 1 <= rr) /\ (units <> 0 -> rr <= 9)).
  { subst rr. destruct ((units =? 0) && (x =? 0)) eqn:E.
    - split; [lia|]. split; [lia|]. intros. blia.
    - split; [lia|]. split; [|lia]. intros. blia. }
  set (mx1 := if mx <? rr then rr else mx).
  assert (Hmx1 : -1 <= mx1 <= 10 /\ (units = 0 -> mx1 <> 0) /\ (units <> 0 -> mx1 <= 9)).
  { subst mx1. destruct (Z.ltb_spec mx rr).
    - split; [lia|]. split; [intros U; specialize (proj1 (proj2 Hrr) U); lia|].
      apply Hrr.
    - auto. }
  destruct Hmx1 as (A & B & C).
  specialize (IH mx1 g1 Hu B A C).
  destruct (punishLoop n units mx1 g1) as [[rolls mx'] g2].
  destruct IH as (Hl & Hb & Hz & H9'). split; [simpl; now f_equal | auto].
Qed.

(** X28.  The [b] and [p] of [gonedice.go].  For [0 <= n <= 10000] both succeed
    with a value between 1 and 100 and [n] extra digits in the meta list:
    the base is at least 1, and an extra 0 counts as 10 when the units digit
    is 0, so the tens digit is never replaced by 0 then. *)
Theorem alt_percentile_range (leftB paramB : Value) (st : list Value) (r : RD) :
  0 <= V paramB <= 10000 ->
  V leftB <= 10000 ->
  (exists out rolls g',
      bonusOpAlt (paramB :: leftB :: st) r
      = Some (Ok (appendedValue out rolls :: st) (setRng r g'))
      /\ 1 <= out <= 100 /\ Z.of_nat (length rolls) = V paramB)
  /\ (exists out rolls g',
      punishOpAlt (paramB :: leftB :: st) r
      = Some (Ok (appendedValue out rolls :: st) (setRng r g'))
      /\ 1 <= out <= 100 /\ Z.of_nat (length rolls) = V paramB).
Proof.
  intros Hp Hl. split.
  - unfold bonusOpAlt, pop2.
    destruct (V paramB <? 0) eqn:E1; [blia|].
    destruct (10000 <? V paramB) eqn:E2; [blia|].
    destruct (10000 <? V leftB) eqn:E3; [blia|].
    pose proof (Intn_range 100 (rng r) ltac:(lia)) as Hx.
    destruct (Intn 100 (rng r)) as [x g1]. simpl in Hx.
    assert (Hb : GoInt.add x 1 = x + 1) by (unfold GoInt.add; apply wrap_id; goint; lia).
    rewrite Hb.
    assert (Hq : GoInt.quo (x + 1) 10 = Z.quot (x + 1) 10).
    { unfold GoInt.quo. apply wrap_id.
      pose proof (Z.quot_pos (x + 1) 10 ltac:(lia) ltac:(lia)).
      pose proof (Z.quot_le_upper_bound (x + 1) 10 100 ltac:(lia) ltac:(lia)).
      goint. lia. }
    rewrite Hq.
    pose proof (Z.quot_rem' (x + 1) 10) as Hqr.
    pose proof (Z.rem_bound_pos (x + 1) 10 ltac:(lia) ltac:(lia)) as Hrem.
    set (units := Z.rem (x + 1) 10) in *. set (tens := Z.quot (x + 1) 10) in *.
    pose proof (bonusLoop_spec (Z.to_nat (V paramB)) units 10 g1 ltac:(lia) ltac:(lia)
                  ltac:(lia)) as Hloop.
    destruct (bonusLoop _ units 10 g1) as [[rolls mn] g2].
    destruct Hloop as (Hlen & Hmn & Hz).
    do 3 eexists. split; [reflexivity|]. split; [|lia].
    destruct ((units =? 0) && (mn =? 0)) eqn:Ez; [lia|].
    destruct (mn <? tens) eqn:Et; [|lia]. apply Z.ltb_lt in Et.
    unfold GoInt.add, GoInt.mul. rewrite (wrap_id (mn * 10)) by (goint; lia).
    rewrite wrap_id by (goint; lia).
    destruct (Z.eq_dec units 0) as [U|U]; [specialize (Hz U); lia | lia].
  - unfold punishOpAlt, pop2.
    destruct (V paramB <? 0) eqn:E1; [blia|].
    destruct (10000 <? V paramB) eqn:E2; [blia|].
    destruct (10000 <? V leftB) eqn:E3; [blia|].
    pose proof (Intn_range 100 (rng r) ltac:(lia)) as Hx.
    destruct (Intn 100 (rng r)) as [x g1]. simpl in Hx.
    assert (Hb : GoInt.add x 1 = x + 1) by (unfold GoInt.add; apply wrap_id; goint; lia).
    rewrite Hb.
    assert (Hq : GoInt.quo (x + 1) 10 = Z.quot (x + 1) 10).
    { unfold GoInt.quo. apply wrap_id.
      pose proof (Z.quot_pos (x + 1) 10 ltac:(lia) ltac:(lia)).
      pose proof (Z.quot_le_upper_bound (x + 1) 10 100 ltac:(lia) ltac:(lia)).
      goint. lia. }
    rewrite Hq.
    pose proof (Z.quot_rem' (x + 1) 10) as Hqr.
    pose proof (Z.rem_bound_pos (x + 1) 10 ltac:(lia) ltac:(lia)) as Hrem.
    set (units := Z.rem (x + 1) 10) in *. set (tens := Z.quot (x + 1) 10) in *.
    pose proof (punishLoop_spec (Z.to_nat (V paramB)) units (-1) g1 ltac:(lia) ltac:(lia)
                  ltac:(lia) ltac:(lia)) as Hloop.
    destruct (punishLoop _ units (-1) g1) as [[rolls mx] g2].
    destruct Hloop as (Hlen & Hmx & Hz & H9).
    do 3 eexists. split; [reflexivity|]. split; [|lia].
    destruct ((units =? 0) && (mx =? 0)) eqn:Ez; [lia|].
    destruct (tens <? mx) eqn:Et; [|lia]. apply Z.ltb_lt in Et.
    assert (0 <= tens) by (subst tens; apply Z.quot_pos; lia).
    unfold GoInt.add, GoInt.mul. rewrite (wrap_id (mx * 10)) by (goint; lia).
    rewrite wrap_id by (goint; lia).
    destruct (Z.eq_dec units 0) as [U|U]; [lia | specialize (H9 U); lia].
Qed.

End Percentile2.

Lemma percentile_digits_witness :
  exists out tens' rolls g',
    applyOp (RS := ListRand) (fun _ _ _ => None) 0 "b" [scalar 3; scalar 1]
            (listRD "1b3" [5; 0; 0; 0; 0])
    = Some (Ok [listValue out (tens' :: 0 :: rolls) true]
               (setRng (listRD "1b3" [5; 0; 0; 0; 0]) g'))
    /\ 0 <= out <= 100.
Proof.
  destruct (percentile_digits (RS := ListRand) (fun _ _ _ => None) 0 Bonus
              (scalar 1) (scalar 3) [] (listRD "1b3" [5; 0; 0; 0; 0])
              ltac:(simpl; lia) ltac:(simpl; lia))
    as (out & t' & rolls & g' & H1 & _ & _ & _ & _ & H6 & _).
  exists out, t', rolls, g'. split; [exact H1 | exact H6].
Defined.

Lemma alt_percentile_range_witness :
  exists out rolls g',
    bonusOpAlt (RS := ListRand) [scalar 3; scalar 1] (listRD "1b3" [49; 0; 0; 0])
    = Some (Ok [appendedValue out rolls] (setRng (listRD "1b3" [49; 0; 0; 0]) g'))
    /\ 1 <= out <= 100.
Proof.
  destruct (proj1 (alt_percentile_range (RS := ListRand)
                     (scalar 1) (scalar 3) [] (listRD "1b3" [49; 0; 0; 0])
                     ltac:(simpl; lia) ltac:(simpl; lia)))
    as (out & rolls & g' & H1 & H2 & _).
  exists out, rolls, g'. split; [exact H1 | exact H2].
Defined.
